(** * too-many-cells-interactive: the tree transformation engine

    A shallow embedding of the tree builder ([prepareData.ts]), the pruning
    functions ([util.ts]) and the feature annotators ([usePrunedTree.ts]),
    together with the d3-hierarchy operations they are written with
    ([stratify], [sort], [sum], [copy], [eachBefore], [eachAfter], [find],
    [descendants]).

    Conventions.
    - A JavaScript number that holds a count is a [Z]; one that holds a
      measurement (a distance, a feature value, a threshold, an average) is a
      [Q].  NaN and the infinities are not represented.
    - A JavaScript object used as a dictionary is a [gmap string _], which
      holds its own properties; the enumeration order of its keys is not
      represented.  The label map and the label counts of [getData] and the
      dictionaries of [merge] are plain objects that the code builds and
      reads under computed keys: there a read that finds no own property goes
      on to [Object.prototype] ([JS.get]), the counts are added as doubles
      ([JS.plus]), and a count that the code turns into a string is kept as
      one ([JS.entry]).
    - [undefined] and [null] are [None]. *)

From Stdlib Require Import ZArith QArith List Permutation Sorted Lia.
From Stdlib Require Import Strings.String Strings.Ascii.
From Stdlib Require Structures.OrderedTypeEx.
From stdpp Require Import base option gmap strings list fin_maps sorting.

Local Open Scope nat_scope.

(** ** JavaScript primitives *)

Module JS.

(** [Array.prototype.sort(comparefn)] as V8 runs it.  V8 decides every step
    on the test [comparefn(a, b) < 0] alone: each element in turn is placed in
    the sorted prefix, after every element it is not smaller than.  Both
    comparators of this repository answer [1] for a tie and never [0]; for
    such a comparator ECMAScript leaves the order of tied elements to the
    engine.  [array_sort] is therefore one engine's sort; what holds of
    every engine is stated over any sort that meets [sorts] below, and the
    tree builder and the search box take the sort as a parameter. *)
Fixpoint sort_insert {A} (comparefn : A -> A -> Z) (pivot : A) (sorted : list A)
  : list A :=
  match sorted with
  | [] => [pivot]
  | y :: rest =>
      if (comparefn pivot y <? 0)%Z then pivot :: y :: rest
      else y :: sort_insert comparefn pivot rest
  end.

Definition array_sort {A} (comparefn : A -> A -> Z) (a : list A) : list A :=
  fold_left (fun sorted pivot => sort_insert comparefn pivot sorted) a [].

(** [x < y] on measurements, and the truthiness of a number. *)
Definition Qltb (x y : Q) : bool := negb (Qle_bool y x).
Definition truthy (x : Q) : bool := negb (Qeq_bool x 0).

(** Counts are integers held in doubles: a sum is rounded to 53 significant
    bits, to the nearest double and, half way between two, to the even
    one. *)
Definition round53 (z : Z) : Z :=
  if (Z.abs z <=? 2 ^ 53)%Z then z
  else
    let e := (Z.log2 (Z.abs z) - 52)%Z in
    let q := (Z.abs z / 2 ^ e)%Z in
    let r := (Z.abs z mod 2 ^ e)%Z in
    let half := (2 ^ (e - 1))%Z in
    let q' := if (half <? r)%Z || ((r =? half)%Z && Z.odd q)
              then (q + 1)%Z else q in
    (Z.sgn z * (q' * 2 ^ e))%Z.

(** What a dictionary of counts holds under a key: a number, or a string
    that the code has made with [+].  A string is kept as the pieces that
    were joined: text as it stands, and numbers, whose digits are meant. *)
Inductive piece :=
  | Chars (s : string)
  | Digits (n : Z).

Inductive entry :=
  | Num (n : Z)
  | Text (ps : list piece).

Definition pieces (e : entry) : list piece :=
  match e with
  | Num n => [Digits n]
  | Text ps => ps
  end.

(** [a + b]: the sum of two numbers; with a string on either side, the two
    texts joined. *)
Definition plus (a b : entry) : entry :=
  match a, b with
  | Num x, Num y => Num (round53 (x + y))
  | _, _ => Text (pieces a ++ pieces b)
  end.

(** The empty string, the one string that is falsy; the digits of a number
    are never empty. *)
Definition empty_text (ps : list piece) : bool :=
  forallb (fun p => match p with Chars EmptyString => true | _ => false end)
    ps.

(** A read [obj[k]] of a plain object ([{}], or an object literal with a
    spread): the object's own property, or else the member of
    [Object.prototype] under that name, or else [undefined].  Of
    [Object.prototype] the reads below need, for a name [k], the string that
    the member under [k] turns into where a string is wanted (ToString):
    [proto k], [None] when there is no such member.  The members are
    functions and objects, all truthy. *)
Inductive found (V : Type) : Type :=
  | Own (v : V)
  | Inherited (text : string)
  | Absent.
Arguments Own {V} _.
Arguments Inherited {V} _.
Arguments Absent {V}.

Definition get {V} (proto : string -> option string) (obj : gmap string V)
    (k : string) : found V :=
  match obj !! k with
  | Some v => Own v
  | None =>
      match proto k with
      | Some text => Inherited text
      | None => Absent
      end
  end.

(** [Object.prototype] in V8: the accessor [__proto__], which answers
    [Object.prototype] itself, and eleven functions. *)
Definition native (name : string) : string :=
  "function " ++ name ++ "() { [native code] }".

Definition v8_prototype (k : string) : option string :=
  if bool_decide (k = "__proto__") then Some "[object Object]"
  else if bool_decide (k = "constructor") then Some (native "Object")
  else if bool_decide
            (k ∈ ["__defineGetter__"; "__defineSetter__"; "hasOwnProperty";
                  "__lookupGetter__"; "__lookupSetter__"; "isPrototypeOf";
                  "propertyIsEnumerable"; "toString"; "valueOf";
                  "toLocaleString"])
       then Some (native k)
       else None.

(** [s.split(sep)] for a one-character separator. *)
Fixpoint split (sep : ascii) (s : string) : list string :=
  match s with
  | EmptyString => [EmptyString]
  | String c s' =>
      if Ascii.eqb c sep then EmptyString :: split sep s'
      else match split sep s' with
           | [] => [String c EmptyString]
           | w :: ws => String c w :: ws
           end
  end.

End JS.

(** ** The data model ([types.ts], as the code uses it) *)

(** A cell: [_barcode.unCell] and [_barcode._featureCounts]. *)
Record Cell := mkCell {
  unCell : string;
  _featureCounts : gmap string Q
}.

(** One entry of a node's [featureCount] dictionary. *)
Record FeatureEntry := mkEntry {
  scaleKey : string;
  quantity : Q
}.

(** [TMCFlatNode], with the fields [getData] adds to make it a [TMCNode]. *)
Record TMCNode := mkTMC {
  id : string;
  parentId : option string;
  items : option (list Cell);
  distance : option Q;
  significance : option Q;
  labelCount : gmap string JS.entry;
  nodeId : option nat
}.

(** ** Hierarchy nodes as values

    The tree builder and the annotators touch, at each node they visit, only
    that node: its [value], the order of its own [children], the fields of its
    own payload.  They are modelled on rose trees.  [children] is never an
    empty array in d3: a leaf has [children === undefined], here [[]]. *)

#[local] Unset Elimination Schemes.
Inductive tree (D : Type) : Type :=
  T { data : D; value : option Z; depth : nat; children : list (tree D) }.
#[local] Set Elimination Schemes.
Arguments T {D} _ _ _ _.
Arguments data {D} _.
Arguments value {D} _.
Arguments depth {D} _.
Arguments children {D} _.

Section tree_induction.
Context {D : Type} (P : tree D -> Prop).
Hypothesis step : forall d v k ch, Forall P ch -> P (T d v k ch).

Fixpoint tree_ind' (t : tree D) : P t :=
  match t with
  | T d v k ch =>
      step d v k ch
        ((fix go (l : list (tree D)) : Forall P l :=
            match l with
            | [] => @List.Forall_nil _ P
            | c :: l' => @List.Forall_cons _ P c l' (tree_ind' c) (go l')
            end) ch)
  end.
End tree_induction.

(** Every node of a tree, the node itself first ([descendants] as a set). *)
Fixpoint nodes {D} (t : tree D) : list (tree D) :=
  t :: flat_map nodes (children t).

(** The leaves below (or at) a node. *)
Fixpoint leaves {D} (t : tree D) : list (tree D) :=
  match children t with
  | [] => [t]
  | ch => flat_map leaves ch
  end.

Definition size {D} (t : tree D) : nat := length (nodes t).

Definition sumZ (l : list Z) : Z := fold_right Z.add 0%Z l.

(** Outcome of a call that can throw. [OutOfFuel] is the model's own: a
    recursion bound was too small. *)
Inductive result (E A : Type) : Type :=
  | Ok (a : A)
  | Throw (e : E)
  | OutOfFuel.
Arguments Ok {E A} _.
Arguments Throw {E A} _.
Arguments OutOfFuel {E A}.

(** ** The tree builder ([prepareData.ts]) *)

Module Builder.

(** *** d3 [stratify] *)

Inductive StratifyError :=
  | NoRoot
  | MultipleRoots
  | Missing (parent : string)
  | Ambiguous (parent : string)
  | Cycle.

(** [(nodeId = accessor(d)) != null && (nodeId += "")]: an identifier counts
    when it is neither null nor the empty string. *)
Definition key_of (s : option string) : option string :=
  match s with
  | Some EmptyString => None
  | other => other
  end.

(** The positions of the nodes registered under a key in [nodeByKey]. *)
Definition holders (all : list TMCNode) (k : string) : list nat :=
  (List.filter (fun p => bool_decide (key_of (Some (id p.2)) = Some k))
     (imap pair all)).*1.

(** The second loop of [stratify]: every node is hung under its parent, or
    becomes the root; the first failure met in list order is thrown. *)
Fixpoint link (all : list TMCNode) (rest : list (nat * TMCNode))
  (root : option nat) : StratifyError + option nat :=
  match rest with
  | [] => inr root
  | (i, d) :: rest' =>
      match key_of (parentId d) with
      | Some p =>
          match holders all p with
          | [] => inl (Missing p)
          | [_] => link all rest' root
          | _ => inl (Ambiguous p)
          end
      | None =>
          match root with
          | Some _ => inl MultipleRoots
          | None => link all rest' (Some i)
          end
      end
  end.

(** [parent.children]: the nodes hung under position [i], in list order. *)
Definition children_idx (all : list TMCNode) (i : nat) : list nat :=
  (List.filter (fun p => match key_of (parentId p.2) with
                         | Some k => bool_decide (holders all k = [i])
                         | None => false
                         end) (imap pair all)).*1.

(** The tree hanging from position [i]; [depth] as the first [eachBefore]
    of [stratify] assigns it. *)
Fixpoint build (all : list TMCNode) (fuel : nat) (dep : nat) (i : nat)
  : option (tree TMCNode) :=
  match fuel with
  | 0 => None
  | S fuel' =>
      d ← all !! i;
      ch ← mapM (build all fuel' (S dep)) (children_idx all i);
      Some (T d None dep ch)
  end.

Definition stratify (all : list TMCNode)
  : result StratifyError (tree TMCNode) :=
  match link all (imap pair all) None with
  | inl e => Throw e
  | inr None => Throw NoRoot
  | inr (Some r) =>
      match build all (S (length all)) 0 r with
      | None => OutOfFuel
      | Some t =>
          (* [--n] at every node reached; [if (n > 0) throw "cycle"] *)
          if size t <? length all then Throw Cycle else Ok t
      end
  end.

(** *** d3 [node.sort] and [node.sum] *)

(** [eachBefore(node => node.children && node.children.sort(compare))]:
    the children are compared as they are when their parent is visited,
    before their own subtrees are sorted.  Each child is paired with its
    sorted subtree and the pairs are sorted on the child as it was
    ([node_sort_unfold] gives the direct reading).  [sort] is the engine's
    [Array.prototype.sort]. *)
Fixpoint node_sort_with {D}
    (sort : forall A, (A -> A -> Z) -> list A -> list A)
    (compare : tree D -> tree D -> Z) (t : tree D) : tree D :=
  match t with
  | T d v k ch =>
      T d v k
        (map snd
           (sort _ (fun a b => compare a.1 b.1)
              (map (fun c => (c, node_sort_with sort compare c)) ch)))
  end.

(** With the sort of V8. *)
Definition node_sort {D} (compare : tree D -> tree D -> Z) (t : tree D)
  : tree D :=
  node_sort_with (@JS.array_sort) compare t.

(** [eachAfter]: [node.value = (+value(node.data) || 0) + sum of the
    children's value]. *)
Definition valueZ {D} (t : tree D) : Z := default 0%Z (value t).

Fixpoint node_sum {D} (f : D -> Z) (t : tree D) : tree D :=
  match t with
  | T d v k ch =>
      let ch' := map (node_sum f) ch in
      T d (Some (f d + sumZ (map valueZ ch'))%Z) k ch'
  end.

(** *** [buildTree] *)

(** [d.items ? d.items.length : 0] *)
Definition itemCount (d : TMCNode) : Z :=
  match items d with
  | Some its => Z.of_nat (length its)
  | None => 0
  end.

(** The comparator handed to [sort]: it looks at the two nodes' own items. *)
Definition compareItems (a b : tree TMCNode) : Z :=
  let aval := itemCount (data a) in
  let bval := itemCount (data b) in
  if (aval >? bval)%Z then (-1)%Z else 1%Z.

Definition buildTree_with
    (sort : forall A, (A -> A -> Z) -> list A -> list A)
    (node : list TMCNode) : result StratifyError (tree TMCNode) :=
  match stratify node with
  | Ok t => Ok (node_sum itemCount (node_sort_with sort compareItems t))
  | Throw e => Throw e
  | OutOfFuel => OutOfFuel
  end.

(** With the sort of V8. *)
Definition buildTree (node : list TMCNode)
  : result StratifyError (tree TMCNode) :=
  buildTree_with (@JS.array_sort) node.

(** *** [merge] ([util.ts]) and the label pass of [getData] *)

Definition keys {V} (obj : gmap string V) : list string :=
  (map_to_list obj).*1.

(** [obj[k] || 0] on a dictionary of counts: an own number, or an own
    string unless it is empty, as it stands; an inherited member, which the
    [+] that follows turns into its text; 0 for what is missing. *)
Definition or0 (proto : string -> option string) (obj : gmap string JS.entry)
    (k : string) : JS.entry :=
  match JS.get proto obj k with
  | JS.Own (JS.Num n) => JS.Num n
  | JS.Own (JS.Text ps) => if JS.empty_text ps then JS.Num 0 else JS.Text ps
  | JS.Inherited text => JS.Text [JS.Chars text]
  | JS.Absent => JS.Num 0
  end.

Definition merge (proto : string -> option string)
    (obj1 obj2 : gmap string JS.entry) : gmap string JS.entry :=
  fold_left
    (fun acc k => <[k := JS.plus (or0 proto obj1 k) (or0 proto obj2 k)]> acc)
    (remove_dups (keys obj1 ++ keys obj2)) ∅.

(** The label file: the first line is dropped, every other line is split
    on its commas and its first field mapped to its second.  An assignment
    [labelMap[k] = v] under the name of the accessor [__proto__] goes to its
    setter, which ignores a string and [undefined]; under any other name it
    makes an own property. *)
Definition newline : ascii := Ascii.ascii_of_nat 10.
Definition comma : ascii := Ascii.ascii_of_nat 44.

Definition parseLabels (proto : string -> option string) (labels : string)
  : gmap string (option string) :=
  fold_left
    (fun labelMap l =>
       match JS.split comma l with
       | k :: fields =>
           if bool_decide (k = "__proto__") && bool_decide (is_Some (proto k))
           then labelMap
           else <[k := head fields]> labelMap
       | [] => labelMap
       end)
    (tail (JS.split newline labels)) ∅.

(** The property key [[labelMap[curr._barcode.unCell]]]: the label; the
    key ["undefined"] when the read yields [undefined]; the text of the
    member when the read finds a member of [Object.prototype]. *)
Definition labelKey (proto : string -> option string)
    (labelMap : gmap string (option string)) (c : Cell) : string :=
  match JS.get proto labelMap (unCell c) with
  | JS.Own (Some v) => v
  | JS.Own None => "undefined"
  | JS.Inherited text => text
  | JS.Absent => "undefined"
  end.

Definition countLabels (proto : string -> option string)
    (labelMap : gmap string (option string)) (its : list Cell)
  : gmap string JS.entry :=
  fold_left
    (fun acc curr =>
       <[labelKey proto labelMap curr :=
           JS.plus (or0 proto acc (labelKey proto labelMap curr)) (JS.Num 1)]>
         acc)
    its ∅.

Definition set_labelCount (d : TMCNode) (lc : gmap string JS.entry)
  : TMCNode :=
  mkTMC (id d) (parentId d) (items d) (distance d) (significance d) lc
    (nodeId d).

Definition set_nodeId (d : TMCNode) (i : nat) : TMCNode :=
  mkTMC (id d) (parentId d) (items d) (distance d) (significance d)
    (labelCount d) (Some i).

(** The [eachAfter] of [getData].  A node without items and without
    children makes [n.children!.reduce] a TypeError: [None]. *)
Fixpoint labelPass (proto : string -> option string)
  (labelMap : gmap string (option string))
  (t : tree TMCNode) : option (tree TMCNode) :=
  match t with
  | T d v k ch =>
      ch' ← mapM (labelPass proto labelMap) ch;
      lc ← match items d with
           | Some its => Some (countLabels proto labelMap its)
           | None =>
               match ch' with
               | [] => None
               | _ => Some (fold_left
                              (fun acc cur =>
                                 merge proto acc (labelCount (data cur)))
                              ch' ∅)
               end
           end;
      Some (T (set_labelCount d lc) v k ch')
  end.

(** The [eachBefore((n, i) => n.data.nodeId = i)] of [getData]. *)
Fixpoint numberPass (t : tree TMCNode) (i : nat) : tree TMCNode * nat :=
  match t with
  | T d v k ch =>
      let '(ch', j) :=
        (fix go (l : list (tree TMCNode)) (i : nat) :=
           match l with
           | [] => ([], i)
           | c :: l' =>
               let '(c', i1) := numberPass c i in
               let '(l'', i2) := go l' i1 in
               (c' :: l'', i2)
           end) ch (S i) in
      (T (set_nodeId d i) v k ch', j)
  end.

Inductive GetDataError :=
  | Malformed (e : StratifyError)
  | TypeError.

(** [getData], from the fetched label text and the flattened node list;
    [proto] is the engine's [Object.prototype]. *)
Definition getData (proto : string -> option string) (labels : string)
    (flat : list TMCNode) : result GetDataError (tree TMCNode) :=
  match buildTree flat with
  | Ok t =>
      match labelPass proto (parseLabels proto labels) t with
      | Some t' => Ok (numberPass t' 0).1
      | None => Throw TypeError
      end
  | Throw e => Throw (Malformed e)
  | OutOfFuel => OutOfFuel
  end.

End Builder.

(** ** Vocabulary of the properties *)

(** Larger keys first. *)
Definition desc {A} (key : A -> Z) (a b : A) : Prop := (key b <= key a)%Z.

(** The elements of one key, in the order they stand in. *)
Definition of_key {A} (key : A -> Z) (k : Z) (l : list A) : list A :=
  List.filter (fun a => (key a =? k)%Z) l.

(** [l'] is [l] rearranged by descending key, elements of equal key in the
    order they had in [l]. *)
Definition stable_desc {A} (key : A -> Z) (l l' : list A) : Prop :=
  Permutation l l' /\
  StronglySorted (desc key) l' /\
  forall k, of_key key k l' = of_key key k l.

(** What is asked of an engine's [sort] for a comparator that tests a key,
    larger keys first, on the elements it is given: the result holds the
    same elements, they stand by descending key (in whatever order the
    engine leaves elements of one key), and the sort treats its elements as
    opaque, so that tagging them changes nothing. *)
Definition sorts (sort : forall A, (A -> A -> Z) -> list A -> list A) : Prop :=
  (forall A (comparefn : A -> A -> Z) l, Permutation l (sort A comparefn l)) /\
  (forall A (comparefn : A -> A -> Z) (key : A -> Z) l,
     (forall a b, a ∈ l -> b ∈ l ->
        (comparefn a b <? 0)%Z = (key b <? key a)%Z) ->
     StronglySorted (desc key) (sort A comparefn l)) /\
  (forall A B (comparefn : A -> A -> Z) (p : A -> B) (h : B -> A) l,
     (forall a, h (p a) = a) ->
     sort B (fun x y => comparefn (h x) (h y)) (map p l)
     = map p (sort A comparefn l)).

(** A child's own item count: the length of its own [items], 0 when it has
    none; and the item count of its whole subtree. *)
Definition ownItems (c : tree TMCNode) : Z :=
  Z.of_nat (length (default [] (items (data c)))).

Definition subtreeItems (c : tree TMCNode) : Z := sumZ (map ownItems (nodes c)).

(** At every node the children stand by descending key. *)
Definition ordered_by {D} (key : tree D -> Z) (t : tree D) : Prop :=
  Forall (fun n => StronglySorted (desc key) (children n)) (nodes t).

(** [sorted_from t0 t]: [t] is [t0] with, at every node, the children
    rearranged by descending own item count, ties in the order of [t0]
    (values are left free: [sum] fills them in afterwards). *)
#[local] Unset Elimination Schemes.
Inductive sorted_from : tree TMCNode -> tree TMCNode -> Prop :=
  | sorted_from_node d v v' k ch ch0 ch' :
      stable_desc ownItems ch ch0 ->
      Forall2 sorted_from ch0 ch' ->
      sorted_from (T d v k ch) (T d v' k ch').
#[local] Set Elimination Schemes.

(** [rearranged_from t0 t]: [t] is [t0] with, at every node, the children
    in another order (values are left free). *)
#[local] Unset Elimination Schemes.
Inductive rearranged_from : tree TMCNode -> tree TMCNode -> Prop :=
  | rearranged_from_node d v v' k ch ch0 ch' :
      Permutation ch ch0 ->
      Forall2 rearranged_from ch0 ch' ->
      rearranged_from (T d v k ch) (T d v' k ch').
#[local] Set Elimination Schemes.

(** The flat list [r -> [x -> [xl (3 items)], y (1 item)]]. *)
Definition flatNode (i : string) (p : option string) (its : option (list Cell))
  : TMCNode :=
  mkTMC i p its None None ∅ None.

Definition cell (b : string) : Cell := mkCell b ∅.

Definition flat_nested : list TMCNode :=
  [ flatNode "r" None None;
    flatNode "x" (Some "r") None;
    flatNode "xl" (Some "x") (Some [cell "1"; cell "2"; cell "3"]);
    flatNode "y" (Some "r") (Some [cell "4"]) ].

(** What [buildTree] makes of the tree [stratify] hands it. *)
Definition built_with (sort : forall A, (A -> A -> Z) -> list A -> list A)
    (t0 : tree TMCNode) : tree TMCNode :=
  Builder.node_sum Builder.itemCount
    (Builder.node_sort_with sort Builder.compareItems t0).

Definition built (t0 : tree TMCNode) : tree TMCNode :=
  Builder.node_sum Builder.itemCount
    (Builder.node_sort Builder.compareItems t0).

(** Relabelling the payloads of a tree. *)
Fixpoint tmap {D E} (g : D -> E) (t : tree D) : tree E :=
  match t with
  | T d v k ch => T (g d) v k (map (tmap g) ch)
  end.

(** The item count of the leaves below a node. *)
Definition leafItemSum (n : tree TMCNode) : Z := sumZ (map ownItems (leaves n)).

(** The data model's invariant: only leaves carry items. *)
Definition internal_without_items (t : tree TMCNode) : Prop :=
  Forall (fun n => children n <> [] -> items (data n) = None) (nodes t).

(** The number a dictionary of counts holds under a key, 0 when it holds
    none; [natural_at] says that what it holds there, if anything, is a
    number and not negative. *)
Definition countAt (m : gmap string JS.entry) (k : string) : Z :=
  match m !! k with
  | Some (JS.Num n) => n
  | _ => 0%Z
  end.

Definition natural_at (m : gmap string JS.entry) (k : string) : Prop :=
  match m !! k with
  | Some (JS.Num n) => (0 <= n)%Z
  | Some (JS.Text _) => False
  | None => True
  end.

(** [m] is the key-wise sum of the dictionaries [ms], a key that one of them
    lacks counting 0 there; this on every key that is not the name of a
    member of [Object.prototype]. *)
Definition keywise_sum_of (proto : string -> option string)
    (m : gmap string JS.entry) (ms : list (gmap string JS.entry)) : Prop :=
  forall k, proto k = None ->
    Forall (fun c => natural_at c k) ms /\
    m !! k = if decide (Exists (fun c => is_Some (c !! k)) ms)
             then Some (JS.Num (sumZ (map (fun c => countAt c k) ms)))
             else None.

(** The key an item is filed under: the label its barcode has in the label
    map; where the map has the barcode without a label, or has not got the
    barcode, the key ["undefined"], unless the barcode it has not got is the
    name of a member of [Object.prototype], whose text is then the key. *)
Definition filedUnder (proto : string -> option string)
    (labelMap : gmap string (option string)) (c : Cell) : string :=
  match labelMap !! unCell c with
  | Some (Some label) => label
  | Some None => "undefined"
  | None => default "undefined" (proto (unCell c))
  end.

(** How many of the cells are filed under the key [L]. *)
Definition tally (proto : string -> option string)
    (labelMap : gmap string (option string)) (L : string)
    (its : list Cell) : nat :=
  length
    (List.filter (fun c => bool_decide (filedUnder proto labelMap c = L)) its).

(** The labels the label map knows. *)
Definition known_label (labelMap : gmap string (option string)) (L : string)
  : Prop :=
  exists b, labelMap !! b = Some (Some L).

(** Dictionaries of numbers, none of them above [2 ^ 51] in magnitude,
    under keys that are not names of members of [Object.prototype]. *)
Definition plain (proto : string -> option string)
    (m : gmap string JS.entry) : Prop :=
  map_Forall
    (fun k e => proto k = None /\
                exists n, e = JS.Num n /\ (Z.abs n <= 2 ^ 51)%Z) m.

(** The label file of the scenario, and a leaf over two of its barcodes. *)
Definition labels_red_blue : string :=
  "id,label" ++ String Builder.newline "1,red"
  ++ String Builder.newline "2,blue".

Definition flat_leaf (barcodes : list string) : list TMCNode :=
  [ flatNode "leaf" None (Some (map cell barcodes)) ].

(** A root that has items of its own, two cells of barcode 2, over a leaf
    with two cells of barcode 1. *)
Definition flat_root_items : list TMCNode :=
  [ flatNode "r" None (Some [cell "2"; cell "2"]);
    flatNode "y" (Some "r") (Some [cell "1"; cell "1"]) ].

(** The children loop of [Builder.numberPass], by name. *)
Fixpoint numberForest (l : list (tree TMCNode)) (i : nat)
  : list (tree TMCNode) * nat :=
  match l with
  | [] => ([], i)
  | c :: l' =>
      let '(c', i1) := Builder.numberPass c i in
      let '(l'', i2) := numberForest l' i1 in
      (c' :: l'', i2)
  end.

(** Forgetting what the label pass, respectively the numbering pass, writes. *)
Definition forget_labelCount (d : TMCNode) : TMCNode := Builder.set_labelCount d ∅.
Definition forget_nodeId (d : TMCNode) : TMCNode :=
  mkTMC (id d) (parentId d) (items d) (distance d) (significance d)
    (labelCount d) None.

(** What the label pass leaves at a node: the tally of its own items if it has
    items, the merged counts of its children otherwise. *)
Definition labelled (proto : string -> option string)
    (labelMap : gmap string (option string)) (n : tree TMCNode) : Prop :=
  match items (data n) with
  | Some its => labelCount (data n) = Builder.countLabels proto labelMap its
  | None =>
      children n <> [] /\
      labelCount (data n)
      = fold_left (Builder.merge proto)
          (map (fun c => labelCount (data c)) (children n)) ∅
  end.

(** ** The category annotator ([usePrunedTree.ts], [updateFeatureCounts]
    with thresholds) *)

Module Annotator.

(** An entry of a node's [featureCount]: [{ scaleKey, quantity }], the
    quantity a count of cells. *)
Record HiLo := mkHiLo {
  scaleKey : string;
  quantity : Z
}.

(** [([k1], [k2]) => (k1 < k2 ? -1 : 1)]; strings compare by their code
    units. *)
Definition compareKeys (e1 e2 : string * Q) : Z :=
  if String.ltb e1.1 e2.1 then (-1)%Z else 1%Z.

(** [v && v >= thresholds[k] ? 'high' : 'low'] *)
Definition level (thresholds : gmap string Q) (k : string) (v : Q) : string :=
  if JS.truthy v
     && match thresholds !! k with
        | Some th => Qle_bool th v
        | None => false
        end
  then "high" else "low".

(** The [reduce] step: [`${acc ? acc + '-' : ''}${level}-${k}`]. *)
Definition appendLevel (thresholds : gmap string Q) (acc : string)
  (e : string * Q) : string :=
  (match acc with EmptyString => "" | _ => acc ++ "-" end)
  ++ level thresholds e.1 e.2 ++ "-" ++ e.1.

(** The key of one cell: its feature counts, those of active features only,
    sorted by feature name, folded into one string. *)
Definition categoryKey (thresholds : gmap string Q)
  (activeFeatures : list string) (c : Cell) : string :=
  fold_left (appendLevel thresholds)
    (JS.array_sort compareKeys
       (List.filter (fun e => bool_decide (e.1 ∈ activeFeatures))
          (map_to_list (_featureCounts c))))
    "".

(** [if (key) hilo[key] = hilo[key] ? {...hilo[key], quantity: quantity + 1}
                                    : {scaleKey: key, quantity: 1}] *)
Definition tallyKey (hilo : gmap string HiLo) (key : string)
  : gmap string HiLo :=
  match key with
  | EmptyString => hilo
  | _ =>
      <[key := match hilo !! key with
               | Some e => mkHiLo (scaleKey e) (quantity e + 1)
               | None => mkHiLo key 1
               end]> hilo
  end.

(** The leaf branch of the callback. *)
Definition leafFeatureCount (thresholds : gmap string Q)
  (activeFeatures : list string) (its : list Cell) : gmap string HiLo :=
  fold_left
    (fun hilo cell => tallyKey hilo (categoryKey thresholds activeFeatures cell))
    its ∅.

(** The entries are objects, and the branch for a node without items stores
    in the parent's dictionary the very entry of the first child that has the
    key ([hilo[featurekey] = count[featurekey]]), then adds to it in place.
    The entries live in a store; a [featureCount] maps keys to addresses. *)
Definition store := list HiLo.

Definition allocEntries (hilo : gmap string HiLo) (st : store)
  : gmap string nat * store :=
  map_fold (fun k e acc => (<[k := length acc.2]> acc.1, acc.2 ++ [e]))
    (∅, st) hilo.

Definition addQuantity (target source : nat) (st : store) : store :=
  match st !! target, st !! source with
  | Some e, Some e' =>
      <[target := mkHiLo (scaleKey e) (quantity e + quantity e')]> st
  | _, _ => st
  end.

(** [for (const featurekey in count) ...], for one child's [count]. *)
Definition absorb (count : gmap string nat) (acc : gmap string nat * store)
  : gmap string nat * store :=
  map_fold
    (fun featurekey r acc =>
       match acc.1 !! featurekey with
       | None => (<[featurekey := r]> acc.1, acc.2)
       | Some r0 => (acc.1, addQuantity r0 r acc.2)
       end)
    acc count.

(** A node after the pass: its payload and its [featureCount]. *)
Record Annotated := mkAnnotated {
  node : TMCNode;
  featureCount : gmap string nat
}.

(** [nodes.eachAfter(n => ...)].  A node without items and without children
    makes [n.children!.map] a TypeError: [None]. *)
Fixpoint updateFeatureCounts (thresholds : gmap string Q)
  (activeFeatures : list string) (n : tree TMCNode) (st : store)
  : option (tree Annotated * store) :=
  match n with
  | T d v k ch =>
      '(ch', st1) ←
        (fix visit (l : list (tree TMCNode)) (st : store) :=
           match l with
           | [] => Some ([], st)
           | c :: l' =>
               '(c', st') ← updateFeatureCounts thresholds activeFeatures c st;
               '(l'', st'') ← visit l' st';
               Some (c' :: l'', st'')
           end) ch st;
      '(hilo, st2) ←
        match items d with
        | Some its =>
            Some (allocEntries (leafFeatureCount thresholds activeFeatures its) st1)
        | None =>
            match ch' with
            | [] => None
            | _ =>
                Some (fold_left
                        (fun acc count => absorb count acc)
                        (map (fun c => featureCount (data c)) ch')
                        (∅, st1))
            end
        end;
      Some (T (mkAnnotated d hilo) v k ch', st2)
  end.

(** The dictionary a node ends with, entries read from the store. *)
Definition readFeatureCount (n : tree Annotated) (st : store)
  : gmap string (option HiLo) :=
  (fun r => st !! r) <$> featureCount (data n).

End Annotator.

(** ** The average annotator ([usePrunedTree.ts], [updateFeatureCounts] for
    the single active feature) *)

Module Averages.

(** A quotient; [None] stands for a result that is no finite number
    (NaN, an infinity). *)
Definition div (x y : option Q) : option Q :=
  match x, y with
  | Some a, Some b => if Qeq_bool b 0 then None else Some (a / b)%Q
  | _, _ => None
  end.

Definition add (x y : option Q) : option Q :=
  match x, y with
  | Some a, Some b => Some (a + b)%Q
  | _, _ => None
  end.

(** A node after the pass: its payload and the one entry
    [{ [feature]: { quantity, scaleKey: feature } }] of its [featureCount]. *)
Record Averaged := mkAveraged {
  node : TMCNode;
  quantity : option Q
}.

(** [curr._barcode._featureCounts[feature] || 0], summed over the items *)
Definition featureTotal (feature : string) (its : list Cell) : Q :=
  fold_left
    (fun acc curr => (acc + default 0%Q (_featureCounts curr !! feature))%Q)
    its 0%Q.

(** [nodes.eachAfter(n => ...)].  For a node without items the callback
    reads [n.children![0]] and [n.children![1]]: with fewer than two children
    that is a TypeError, [None]. *)
Fixpoint updateFeatureCounts (feature : string) (n : tree TMCNode)
  : option (tree Averaged) :=
  match n with
  | T d v k ch =>
      ch' ← mapM (updateFeatureCounts feature) ch;
      q ← match items d with
          | Some its => Some (div (Some (featureTotal feature its)) (inject_Z <$> v))
          | None =>
              match ch' with
              | c0 :: c1 :: _ =>
                  Some (div (add (quantity (data c0)) (quantity (data c1)))
                          (Some (inject_Z (Z.of_nat (size n) - 1))))
              | _ => None
              end
          end;
      Some (T (mkAveraged d q) v k ch')
  end.

End Averages.

(** The category key in the claim's words: over the active feature names in
    lexicographic order, ["high-<name>"] where the cell's value reaches the
    feature's threshold and ["low-<name>"] where it does not, joined by
    ["-"]. *)
Definition lex_sorted (names : list string) : Prop :=
  StronglySorted (fun a b => String.ltb a b = true) names.

Definition spec_level (threshold value : Q) : string :=
  if Qle_bool threshold value then "high" else "low".

Definition spec_categoryKey (thresholds : gmap string Q) (c : Cell)
  (names : list string) : string :=
  String.concat "-"
    (map (fun f =>
            (spec_level (default 0%Q (thresholds !! f))
               (default 0%Q (_featureCounts c !! f)) ++ "-" ++ f)%string)
       names).

(** How many of the cells get the category key [key]. *)
Definition keyCount (thresholds : gmap string Q) (activeFeatures : list string)
  (key : string) (its : list Cell) : nat :=
  length
    (List.filter
       (fun c => bool_decide
                   (Annotator.categoryKey thresholds activeFeatures c = key))
       its).

(** The scenario of the annotator: one feature [F], two cells. *)
Definition cellF (b : string) (v : Q) : Cell := mkCell b {[ "F" := v ]}.
Definition cells_5_1 : list Cell := [cellF "1" 5; cellF "2" 1].
Definition leaf_5_1 : tree TMCNode :=
  T (flatNode "leaf" None (Some cells_5_1)) (Some 2%Z) 0 [].

(** [a] goes before [b] for the comparator: [comparefn(a, b) < 0]. *)
Definition before {A} (comparefn : A -> A -> Z) (a b : A) : Prop :=
  (comparefn a b <? 0)%Z = true.

(** ** Hierarchy nodes as objects

    The pruning functions copy a tree and then assign to fields of the copy's
    nodes, of a node's parent among them, while a traversal is under way; and
    a copy shares the payload objects of its source.  Here the d3 nodes and
    the payloads live in a store. *)

Module Heap.

(** A d3 [Node]: [data] is the address of the payload, [parent] and
    [children] are addresses of nodes.  ([height] is left out: nothing in
    the repository reads it.) *)
Record Node := mkNode {
  data : nat;
  value : option Z;
  depth : nat;
  parent : option nat;
  children : option (list nat)
}.

Record heap := mkHeap {
  nodes : list Node;
  objs : list TMCNode
}.

(** Computations on the store; [None] is a thrown TypeError, or a loop of
    the model out of fuel. *)
Definition M (A : Type) : Type := heap -> option (A * heap).

#[global] Instance M_ret : MRet M := fun A a h => Some (a, h).
#[global] Instance M_bind : MBind M := fun A B f m h =>
  match m h with
  | Some (a, h') => f a h'
  | None => None
  end.

Definition throw {A} : M A := fun _ => None.

Definition getNode (node : nat) : M Node := fun h =>
  n ← nodes h !! node; Some (n, h).

Definition setNode (node : nat) (n : Node) : M unit := fun h =>
  Some (tt, mkHeap (<[node := n]> (nodes h)) (objs h)).

(** [new Node(...)] *)
Definition newNode (n : Node) : M nat := fun h =>
  Some (length (nodes h), mkHeap (nodes h ++ [n]) (objs h)).

(** [node.children = c] and [node.parent = p] *)
Definition setChildren (node : nat) (c : option (list nat)) : M unit :=
  n ← getNode node;
  setNode node (mkNode (data n) (value n) (depth n) (parent n) c).

Definition setParent (node : nat) (p : option nat) : M unit :=
  n ← getNode node;
  setNode node (mkNode (data n) (value n) (depth n) p (children n)).

Definition getData (r : nat) : M TMCNode := fun h =>
  d ← objs h !! r; Some (d, h).

(** [data.parentId = p] *)
Definition setParentId (r : nat) (p : option string) : M unit := fun h =>
  d ← objs h !! r;
  Some (tt, mkHeap (nodes h)
              (<[r := mkTMC (id d) p (items d) (distance d) (significance d)
                        (labelCount d) (nodeId d)]> (objs h))).

(** The number of node objects: every loop below handles each node it
    reaches once, so this many rounds (twice as many for the iterator, which
    also switches levels) are enough on a tree. *)
Definition fuel : M nat := fun h => Some (length (nodes h), h).

(** [node.eachBefore(callback)]: the node on top of the stack is popped and
    handed to the callback, and only then are its children read and pushed,
    the first child on top. *)
Fixpoint eachBefore_loop (callback : nat -> M unit) (rounds : nat)
  (stack : list nat) : M unit :=
  match stack with
  | [] => mret tt
  | node :: rest =>
      match rounds with
      | 0 => throw
      | S rounds' =>
          _ ← callback node;
          n ← getNode node;
          eachBefore_loop callback rounds' (default [] (children n) ++ rest)
      end
  end.

Definition eachBefore (callback : nat -> M unit) (root : nat) : M unit :=
  rounds ← fuel;
  eachBefore_loop callback rounds [root].

(** [node.eachAfter(callback)]: a first loop lists every node, pushing each
    popped node on [next] and its children on the stack, the last child on
    top; a second loop pops [next] and calls back. *)
Fixpoint eachAfter_collect (rounds : nat) (stack next : list nat)
  : M (list nat) :=
  match stack with
  | [] => mret next
  | node :: rest =>
      match rounds with
      | 0 => throw
      | S rounds' =>
          n ← getNode node;
          eachAfter_collect rounds' (rev (default [] (children n)) ++ rest)
            (node :: next)
      end
  end.

Fixpoint forEach (callback : nat -> M unit) (l : list nat) : M unit :=
  match l with
  | [] => mret tt
  | node :: rest => _ ← callback node; forEach callback rest
  end.

Definition eachAfter (callback : nat -> M unit) (root : nat) : M unit :=
  rounds ← fuel;
  next ← eachAfter_collect rounds [root] [];
  forEach callback next.

(** The iterator of a node (breadth first): [current] is walked front to
    back, the children of each node appended to [next]; when [current] is
    used up, [next] takes its place. *)
Fixpoint iterate (rounds : nat) (current next yielded : list nat)
  : M (list nat) :=
  match rounds with
  | 0 => match current, next with
         | [], [] => mret yielded
         | _, _ => throw
         end
  | S rounds' =>
      match current with
      | node :: rest =>
          n ← getNode node;
          iterate rounds' rest (next ++ default [] (children n))
            (yielded ++ [node])
      | [] =>
          match next with
          | [] => mret yielded
          | _ => iterate rounds' next [] yielded
          end
      end
  end.

(** [node.descendants()] is [Array.from(node)]. *)
Definition descendants (root : nat) : M (list nat) :=
  rounds ← fuel;
  iterate (2 * rounds + 1) [root] [] [].

(** [node.find(callback)]: the first node the iterator yields that the
    callback accepts. *)
Fixpoint firstThat (callback : nat -> M bool) (l : list nat)
  : M (option nat) :=
  match l with
  | [] => mret None
  | node :: rest =>
      found ← callback node;
      if found : bool then mret (Some node) else firstThat callback rest
  end.

Definition find (callback : nat -> M bool) (root : nat) : M (option nat) :=
  l ← descendants root;
  firstThat callback l.

(** [node.copy()] is [hierarchy(node).eachBefore(copyData)].  [hierarchy]
    makes a new node for every node of the source, of the source's depth
    below the root and with the new parent; [copyData] then gives the new
    node the source's [value] and the source's payload, the same object.
    Nothing reads a new node in between, so the model writes payload and value
    when it makes the node; the stack pairs each new node with its source. *)
Definition newChild (parentNode : nat) (childDepth : nat) (source : nat)
  : M nat :=
  s ← getNode source;
  newNode (mkNode (data s) (value s) childDepth (Some parentNode) None).

Fixpoint newChildren (parentNode : nat) (childDepth : nat)
  (sources : list nat) : M (list nat) :=
  match sources with
  | [] => mret []
  | source :: rest =>
      child ← newChild parentNode childDepth source;
      others ← newChildren parentNode childDepth rest;
      mret (child :: others)
  end.

Fixpoint hierarchy_loop (rounds : nat) (stack : list (nat * nat)) : M unit :=
  match stack with
  | [] => mret tt
  | (node, source) :: rest =>
      match rounds with
      | 0 => throw
      | S rounds' =>
          s ← getNode source;
          match children s with
          | Some (c :: cs) =>
              n ← getNode node;
              (* [for (i = n - 1; i >= 0; --i)]: the last child is made first *)
              made ← newChildren node (S (depth n)) (rev (c :: cs));
              _ ← setChildren node (Some (rev made));
              hierarchy_loop rounds' (zip (rev made) (c :: cs) ++ rest)
          | _ => hierarchy_loop rounds' rest
          end
      end
  end.

Definition copy (source : nat) : M nat :=
  rounds ← fuel;
  s ← getNode source;
  root ← newNode (mkNode (data s) (value s) 0 None None);
  _ ← hierarchy_loop rounds [(root, source)];
  mret root.

End Heap.

(** ** The pruning functions ([util.ts]) *)

Module Pruner.
Import Heap.

(** [d.value! < minSize]; a comparison with [undefined] is false. *)
Definition valueBelow (v : option Z) (minSize : Q) : bool :=
  match v with
  | Some x => JS.Qltb (inject_Z x) minSize
  | None => false
  end.

(** [if (d.parent) d.parent.children = undefined] *)
Definition dropSiblings (n : Node) : M unit :=
  match parent n with
  | Some p => setChildren p None
  | None => mret tt
  end.

Definition pruneTreeByMinValue (tree : nat) (minSize : Q) : M nat :=
  newTree ← copy tree;
  _ ← eachBefore
        (fun d =>
           n ← getNode d;
           if valueBelow (value n) minSize then dropSiblings n else mret tt)
        newTree;
  mret newTree.

Definition getSizePrunedRemainder (tree : nat) (minSize : Q) : M nat :=
  pruned ← pruneTreeByMinValue tree minSize;
  l ← descendants pruned;
  mret (length l).

(** [d.depth > depth && d.parent] *)
Definition pruneTreeByDepth (tree : nat) (maxDepth : Z) : M nat :=
  newTree ← copy tree;
  _ ← eachAfter
        (fun d =>
           n ← getNode d;
           if (maxDepth <? Z.of_nat (depth n))%Z then dropSiblings n
           else mret tt)
        newTree;
  mret newTree.

(** [!d.data.distance || d.data.distance < distance] *)
Definition distanceBelow (dist : option Q) (minDistance : Q) : bool :=
  match dist with
  | None => true
  | Some x => negb (JS.truthy x) || JS.Qltb x minDistance
  end.

Definition pruneTreeByMinDistance (tree : nat) (minDistance : Q) : M nat :=
  newTree ← copy tree;
  _ ← eachBefore
        (fun d =>
           n ← getNode d;
           o ← getData (data n);
           if distanceBelow (distance o) minDistance
           then setChildren d None else mret tt)
        newTree;
  mret newTree.

Definition pruneTreeByMinDistanceSearch (tree : nat) (minDistance : Q)
  : M nat :=
  newTree ← copy tree;
  _ ← eachAfter
        (fun d =>
           n ← getNode d;
           o ← getData (data n);
           if distanceBelow (distance o) minDistance
           then dropSiblings n else mret tt)
        newTree;
  mret newTree.

(** [tree.find(n => n.data.id === nodeId)!.copy()]: when no node has the id,
    [copy] is called on [undefined], a TypeError. *)
Definition setRootNode (tree : nat) (nodeId : string) : M nat :=
  found ← find
            (fun node =>
               n ← getNode node;
               o ← getData (data n);
               mret (bool_decide (id o = nodeId)))
            tree;
  match found with
  | None => throw
  | Some target =>
      targetNode ← copy target;
      _ ← setParent targetNode None;
      n ← getNode targetNode;
      _ ← setParentId (data n) None;
      mret targetNode
  end.

Definition collapseNode (tree : nat) (nodeId : string) : M nat :=
  newTree ← copy tree;
  _ ← eachAfter
        (fun node =>
           n ← getNode node;
           o ← getData (data n);
           if bool_decide (id o = nodeId) then setChildren node None
           else mret tt)
        newTree;
  mret newTree.

End Pruner.

(** The tree of the scenario as objects: [A -> [B, C]], values 3, 1, 2,
    distances none, 1, 3. *)
Definition payload (i : string) (p : option string) (n : nat)
  (dist : option Q) : TMCNode :=
  mkTMC i p (match n with 0 => None | _ => Some (map cell (replicate n "x")) end)
    dist None ∅ None.

Definition heap_ABC : Heap.heap :=
  Heap.mkHeap
    [ Heap.mkNode 0 (Some 3%Z) 0 None (Some [1; 2]);
      Heap.mkNode 1 (Some 1%Z) 1 (Some 0) None;
      Heap.mkNode 2 (Some 2%Z) 1 (Some 0) None ]
    [ payload "A" None 0 None;
      payload "B" (Some "A") 1 (Some 1%Q);
      payload "C" (Some "A") 2 (Some 3%Q) ].

(** ** Trees held in the store *)

(** A tree whose payloads are pairs: the address of the node object and the
    address of its payload. *)
Definition addr (t : tree (nat * nat)) : nat := (data t).1.

Definition addrs (t : tree (nat * nat)) : list nat := map addr (nodes t).

(** [children] is [undefined] at a leaf, an array elsewhere. *)
Definition childrenField (l : list nat) : option (list nat) :=
  match l with
  | [] => None
  | _ => Some l
  end.

(** The node object that stands for the root of [t] under the parent [p]. *)
Definition nodeOf (p : option nat) (t : tree (nat * nat)) : Heap.Node :=
  Heap.mkNode (data t).2 (value t) (depth t) p
    (childrenField (map addr (children t))).

(** The nodes [ns] hold [t] under the parent [p]: every node of [t] is in
    [ns] at its address, with the fields of [t], its children's addresses and
    its parent's. *)
Fixpoint shaped (ns : list Heap.Node) (p : option nat) (t : tree (nat * nat))
  : Prop :=
  ns !! addr t = Some (nodeOf p t) /\
  (fix all (l : list (tree (nat * nat))) : Prop :=
     match l with
     | [] => True
     | c :: l' => shaped ns (Some (addr t)) c /\ all l'
     end) (children t).

(** The store holds the tree [t] at the node [root]: [t] gives the payload
    address, the value and the depth of every node below [root]; no node
    object occurs twice, and every payload address is in use. *)
Definition represents (h : Heap.heap) (root : nat) (t : tree nat) : Prop :=
  exists (a : tree (nat * nat)) (p : option nat),
    tmap snd a = t /\
    addr a = root /\
    shaped (Heap.nodes h) p a /\
    NoDup (addrs a) /\
    Forall (fun d => is_Some (Heap.objs h !! d)) (map data (nodes t)).

(** [h'] keeps every object of [h] as it is (and may hold more nodes). *)
Definition extends (h h' : Heap.heap) : Prop :=
  (exists more, Heap.nodes h' = Heap.nodes h ++ more) /\
  Heap.objs h' = Heap.objs h.

(** The depths [copy] gives: the root at [k], each child one deeper. *)
Fixpoint rebase {D} (k : nat) (t : tree D) : tree D :=
  match t with
  | T d v _ ch => T d v k (map (rebase (S k)) ch)
  end.

(** A node loses its children when one of them meets [cond]. *)
Fixpoint dropWhereChild {D} (cond : D -> option Z -> nat -> bool) (t : tree D)
  : tree D :=
  match t with
  | T d v k ch =>
      T d v k
        (if existsb (fun c => cond (data c) (value c) (depth c)) ch then []
         else map (dropWhereChild cond) ch)
  end.

(** A node loses its children when it meets [cond] itself. *)
Fixpoint dropWhere {D} (cond : D -> option Z -> nat -> bool) (t : tree D)
  : tree D :=
  match t with
  | T d v k ch =>
      T d v k (if cond d v k then [] else map (dropWhere cond) ch)
  end.

(** [children] set to [undefined]. *)
Definition clear (n : Heap.Node) : Heap.Node :=
  Heap.mkNode (Heap.data n) (Heap.value n) (Heap.depth n) (Heap.parent n) None.

(** The nodes at the addresses [targets] cleared. *)
Definition clearSet (targets : list nat) (ns : list Heap.Node)
  : list Heap.Node :=
  imap (fun j n => if bool_decide (j ∈ targets) then clear n else n) ns.

(** The nodes whose children the [dropSiblings] callback clears when it is
    run on every node of [t]: the parent of each node that meets [cond]. *)
Fixpoint parentTargets (cond : nat -> option Z -> nat -> bool)
  (p : option nat) (t : tree (nat * nat)) : list nat :=
  (if cond (data t).2 (value t) (depth t) then option_list p else [])
  ++ flat_map (parentTargets cond (Some (addr t))) (children t).

(** The nodes a callback that clears the node's own children clears when
    [eachBefore] runs it from the root of [t]: the first node that meets
    [cond] on each path down. *)
Fixpoint ownTargets (cond : nat -> option Z -> nat -> bool)
  (t : tree (nat * nat)) : list nat :=
  if cond (data t).2 (value t) (depth t) then [addr t]
  else flat_map (ownTargets cond) (children t).

(** The subtrees a traversal still has on its stack, each with the parent it
    hangs from. *)
Definition forestAddrs (F : list (option nat * tree (nat * nat))) : list nat :=
  flat_map (fun e => addrs e.2) F.

(** The stack is sound: each subtree is held by the nodes, no node object
    occurs twice on it, and each parent is a node outside of it. *)
Definition pending (ns : list Heap.Node) (objs : list TMCNode)
  (F : list (option nat * tree (nat * nat))) : Prop :=
  Forall (fun e =>
            shaped ns e.1 e.2 /\
            (forall q, e.1 = Some q -> (q ∉ forestAddrs F) /\ is_Some (ns !! q)) /\
            Forall (fun x => is_Some (objs !! (data x).2)) (nodes e.2))
    F /\
  NoDup (forestAddrs F).

(** The nodes of [t] with a child that meets [cond]. *)
Fixpoint hits (cond : nat -> option Z -> nat -> bool) (t : tree (nat * nat))
  : list nat :=
  (if existsb (fun c => cond (data c).2 (value c) (depth c)) (children t)
   then [addr t] else [])
  ++ flat_map (hits cond) (children t).

(** The stack of [hierarchy]: new nodes still without children, each paired
    with the source subtree it is to mirror.  The sources lie below the
    address [bound], the new nodes at or above it. *)
Definition copying (bound : nat) (ns : list Heap.Node)
  (E : list (nat * tree (nat * nat))) : Prop :=
  Forall (fun e =>
            (exists p, shaped ns p e.2) /\
            Forall (fun j => j < bound) (addrs e.2) /\
            bound <= e.1 /\
            exists k q,
              ns !! e.1 = Some (Heap.mkNode (data e.2).2 (value e.2) k q None))
    E /\
  NoDup E.*1.

(** [a] is the finished copy of the source [e.2] at the new node [e.1]:
    same payload addresses and values, the depths counted from the new
    node's, under the new node's parent. *)
Definition copied (ns ns' : list Heap.Node) (e : nat * tree (nat * nat))
  (a : tree (nat * nat)) : Prop :=
  addr a = e.1 /\
  exists n0,
    ns !! e.1 = Some n0 /\
    shaped ns' (Heap.parent n0) a /\
    tmap snd a = rebase (Heap.depth n0) (tmap snd e.2).

(** The node [newChild] makes for the source [c]. *)
Definition childRecord (parentNode childDepth : nat) (c : tree (nat * nat))
  : Heap.Node :=
  Heap.mkNode (data c).2 (value c) childDepth (Some parentNode) None.

(** ** Pruned trees as values *)

(** The payload address of the node object at [i]. *)
Definition payloadOf (h : Heap.heap) (i : nat) : option nat :=
  Heap.data <$> Heap.nodes h !! i.

(** The tests of the two [eachBefore] callbacks, on the fields of a node:
    [d.value < minSize], and [!d.data.distance || d.data.distance < distance]
    read through the payloads [objs]. *)
Definition tooSmall (minSize : Q) : nat -> option Z -> nat -> bool :=
  fun _ v _ => Pruner.valueBelow v minSize.

Definition tooClose (objs : list TMCNode) (minDistance : Q)
  : nat -> option Z -> nat -> bool :=
  fun d _ _ =>
    match objs !! d with
    | Some o => Pruner.distanceBelow (distance o) minDistance
    | None => false
    end.

(** What [pruneTreeByMinValue] and [pruneTreeByMinDistance] return, as trees:
    the copy of the source, cut. *)
Definition prunedByMinValue (minSize : Q) (t : tree nat) : tree nat :=
  dropWhereChild (tooSmall minSize) (rebase 0 t).

Definition prunedByMinDistance (objs : list TMCNode) (minDistance : Q)
  (t : tree nat) : tree nat :=
  dropWhere (tooClose objs minDistance) (rebase 0 t).

(** A distance that is missing, zero, or strictly less than the threshold. *)
Definition low_distance (dist : option Q) (minDistance : Q) : Prop :=
  match dist with
  | None => True
  | Some x => (x == 0 \/ x < minDistance)%Q
  end.

(** The distance of the payload at [d]. *)
Definition distanceAt (objs : list TMCNode) (d : nat) : option Q :=
  o ← objs !! d; distance o.

(** The tree [A -> [B; C]] with the values 3, 1 and 2, its payloads at the
    addresses 0, 1 and 2 of [heap_ABC]. *)
Definition tree_ABC : tree nat :=
  T 0 (Some 3%Z) 0 [T 1 (Some 1%Z) 1 []; T 2 (Some 2%Z) 1 []].

(** The payload addresses of the nodes that [descendants] lists. *)
Definition payloadsBelow (root : nat) : Heap.M (list (option nat)) :=
  fun h =>
    match Heap.descendants root h with
    | Some (l, h') => Some (map (payloadOf h') l, h')
    | None => None
    end.

(** ** Callbacks run after the traversal ([eachAfter]) *)

(** What a callback clears when it is run on the node object [n] at the
    address [i]: the parent's children ([dropSiblings]), or the node's own. *)
Definition parentTarget (cond : nat -> option Z -> nat -> bool)
  (i : nat) (n : Heap.Node) : list nat :=
  if cond (Heap.data n) (Heap.value n) (Heap.depth n)
  then option_list (Heap.parent n) else [].

Definition ownTarget (cond : nat -> option Z -> nat -> bool)
  (i : nat) (n : Heap.Node) : list nat :=
  if cond (Heap.data n) (Heap.value n) (Heap.depth n) then [i] else [].

(** The nodes cleared when the callback has been run on every node of [l]. *)
Definition targetsAt (target : nat -> Heap.Node -> list nat)
  (ns : list Heap.Node) (l : list nat) : list nat :=
  flat_map (fun i => from_option (target i) [] (ns !! i)) l.

(** Every node of [t] that meets [cond]. *)
Fixpoint allTargets (cond : nat -> option Z -> nat -> bool)
  (t : tree (nat * nat)) : list nat :=
  (if cond (data t).2 (value t) (depth t) then [addr t] else [])
  ++ flat_map (allTargets cond) (children t).

(** The tests of the [eachAfter] callbacks: [d.depth > depth], and
    [n.data.id === nodeId] read through the payloads [objs]. *)
Definition depthAbove (maxDepth : Z) : nat -> option Z -> nat -> bool :=
  fun _ _ k => (maxDepth <? Z.of_nat k)%Z.

Definition hasId (objs : list TMCNode) (nodeId : string)
  : nat -> option Z -> nat -> bool :=
  fun d _ _ =>
    match objs !! d with
    | Some o => bool_decide (id o = nodeId)
    | None => false
    end.

(** A tree cut below the nodes that lie [d] levels under its root. *)
Fixpoint truncate {D} (d : nat) (t : tree D) : tree D :=
  match t with
  | T x v k ch =>
      T x v k (match d with
               | 0 => []
               | S d' => map (truncate d') ch
               end)
  end.

(** A deeper example: [A -> [B -> [D]; C]], the values 4, 2, 2 and 2. *)
Definition heap_ABCD : Heap.heap :=
  Heap.mkHeap
    [ Heap.mkNode 0 (Some 4%Z) 0 None (Some [1; 2]);
      Heap.mkNode 1 (Some 2%Z) 1 (Some 0) (Some [3]);
      Heap.mkNode 2 (Some 2%Z) 1 (Some 0) None;
      Heap.mkNode 3 (Some 2%Z) 2 (Some 1) None ]
    [ payload "A" None 0 (Some 5%Q);
      payload "B" (Some "A") 0 (Some 4%Q);
      payload "C" (Some "A") 2 None;
      payload "D" (Some "B") 2 None ].

Definition tree_ABCD : tree nat :=
  T 0 (Some 4%Z) 0
    [T 1 (Some 2%Z) 1 [T 3 (Some 2%Z) 2 []]; T 2 (Some 2%Z) 1 []].

(** ** [levenshtein] ([util.ts]) *)

Module Levenshtein.
Section units.

(** A string is the list of its code units. *)
Context {C : Type} `{EqDecision C}.

(** The matrix is a list of [bn + 1] rows of [an + 1] cells.  [None] is a
    cell that was never written ([undefined]), or the NaN that [Math.min] and
    [+] make of it. *)

(** [matrix[i][j]] *)
Definition get (m : list (list (option nat))) (i j : nat) : option nat :=
  match m !! i with
  | Some row => default None (row !! j)
  | None => None
  end.

(** [matrix[i][j] = v]; the rows are allocated with their full length and
    every index written lies within it. *)
Definition set (m : list (list (option nat))) (i j : nat) (v : option nat)
  : list (list (option nat)) :=
  alter (fun row => <[j := v]> row) i m.

(** [b.charAt(i - 1) === a.charAt(j - 1)] *)
Definition sameUnit (a b : list C) (i j : nat) : bool :=
  bool_decide (b !! (i - 1) = a !! (j - 1)).

(** The body of the inner loop. *)
Definition fillCell (a b : list C) (m : list (list (option nat)))
  (i j : nat) : list (list (option nat)) :=
  set m i j
    (if sameUnit a b i j then get m (i - 1) (j - 1)
     else
       match get m (i - 1) (j - 1), get m i (j - 1), get m (i - 1) j with
       | Some substitution, Some insertion, Some deletion =>
           Some (Nat.min substitution (Nat.min insertion deletion) + 1)
       | _, _, _ => None
       end).

Definition levenshtein (a b : list C) : option nat :=
  let an := length a in
  let bn := length b in
  if an =? 0 then Some bn
  else if bn =? 0 then Some an
  else
    (* [matrix[i] = new Array(an + 1); row[0] = i] for [i = 0 .. bn] *)
    let m0 := map (fun i => Some i :: replicate an None) (seq 0 (bn + 1)) in
    (* [firstRow[j] = j] for [j = 1 .. an] *)
    let m1 := fold_left (fun m j => set m 0 j (Some j)) (seq 1 an) m0 in
    let m2 :=
      fold_left
        (fun m i => fold_left (fun m j => fillCell a b m i j) (seq 1 an) m)
        (seq 1 bn) m1 in
    get m2 bn an.

End units.
End Levenshtein.

(** The edit distance of the first [i] units of [b] and the first [j] units
    of [a], by the recurrence of Wagner and Fischer: equal last units cost
    nothing; otherwise one edit more than the cheapest of a substitution, an
    insertion and a deletion. *)
Fixpoint editDistance {C} `{EqDecision C} (a b : list C) (i j : nat)
  {struct i} : nat :=
  match i with
  | 0 => j
  | S i' =>
      (fix row (j : nat) : nat :=
         match j with
         | 0 => S i'
         | S j' =>
             if bool_decide (b !! i' = a !! j')
             then editDistance a b i' j'
             else S (Nat.min (editDistance a b i' j')
                       (Nat.min (row j') (editDistance a b i' (S j'))))
         end) j
  end.

(** The cells [known] of the matrix hold the edit distances of the
    prefixes. *)
Definition filled {C} `{EqDecision C} (a b : list C)
  (known : nat -> nat -> Prop) (m : list (list (option nat))) : Prop :=
  length m = S (length b) /\
  Forall (fun row => length row = S (length a)) m /\
  forall i j, i <= length b -> j <= length a -> known i j ->
    Levenshtein.get m i j = Some (editDistance a b i j).

(** A node with neither items nor children. *)
Definition bare (n : tree TMCNode) : Prop :=
  items (data n) = None /\ children n = [].

(** ** Distributions and metadata ([usePrunedTree.ts]) *)

Module Metadata.

(** d3 [min] and [max]: [null], [undefined] and NaN entries are passed over,
    [undefined] comes back when nothing is left.  [descendants()] is read as
    [nodes]: the counts, minima and maxima below do not depend on the order
    of the nodes. *)
Definition min {A} (ltb : A -> A -> bool) (values : list (option A))
  : option A :=
  fold_left
    (fun acc value =>
       match value, acc with
       | Some v, Some m => if ltb v m then Some v else acc
       | Some v, None => Some v
       | None, _ => acc
       end)
    values None.

Definition max {A} (ltb : A -> A -> bool) (values : list (option A))
  : option A :=
  fold_left
    (fun acc value =>
       match value, acc with
       | Some v, Some m => if ltb m v then Some v else acc
       | Some v, None => Some v
       | None, _ => acc
       end)
    values None.

(** [range(0, maxSize + 1).reverse().reduce(...)]: for every depth [curr] the
    number of nodes with [d.depth <= curr]. *)
Definition getDepthGroups {D} (tree : tree D) : gmap nat nat :=
  match max Nat.ltb (map (fun n => Some (depth n)) (nodes tree)) with
  | Some maxSize =>
      fold_left
        (fun acc curr =>
           <[curr := length (List.filter (fun d => depth d <=? curr)
                               (nodes tree))]> acc)
        (rev (seq 0 (maxSize + 1))) ∅
  | None => ∅
  end.

(** [tree.children ? min(tree.children.map(d => d.value || 0)) : 0] *)
Definition getMaxCutoffNodeSize {D} (tree : tree D) : option Z :=
  match children tree with
  | [] => Some 0%Z
  | ch => min Z.ltb (map (fun d => Some (Builder.valueZ d)) ch)
  end.

(** [tree.children ? min(tree.children.map(d => d.data.distance || 0)) : 0],
    the payloads read from [objs]. *)
Definition getMaxCutoffDistanceSearch (objs : list TMCNode) (tree : tree nat)
  : option Q :=
  match children tree with
  | [] => Some 0%Q
  | ch =>
      min JS.Qltb
        (map (fun d => Some (default 0%Q (o ← objs !! data d; distance o))) ch)
  end.

(** The record [buildTreeMetadata] returns; [|| 0] turns [undefined] (and 0)
    into 0. *)
Record TreeMetaData := mkTreeMetaData {
  leafCount : nat;
  maxDistance : Q;
  minDistance : Q;
  minValue : Z;
  maxValue : Z;
  nodeCount : nat
}.

Definition buildTreeMetadata (nodes_ : tree TMCNode) : TreeMetaData :=
  mkTreeMetaData
    (length (leaves nodes_))
    (default 0%Q (max JS.Qltb (map (fun n => distance (data n)) (nodes nodes_))))
    (default 0%Q (min JS.Qltb (map (fun n => distance (data n)) (nodes nodes_))))
    (default 0%Z (min Z.ltb (map value (nodes nodes_))))
    (default 0%Z (max Z.ltb (map value (nodes nodes_))))
    (length (nodes nodes_)).

(** [addFeaturesToCells]: for every entry of [featureMaps], in order, every
    cell of every leaf gets [featureMap[barcode] || 0] as its count of the
    feature.  (The cells are objects the copy shares with its source, which
    sees the new counts too; here the annotated tree is returned.) *)
Definition addFeature (feature : string) (featureMap : gmap string Q)
  (c : Cell) : Cell :=
  mkCell (unCell c)
    (<[feature := default 0%Q (featureMap !! unCell c)]> (_featureCounts c)).

Definition setItems (d : TMCNode) (its : option (list Cell)) : TMCNode :=
  mkTMC (id d) (parentId d) its (distance d) (significance d) (labelCount d)
    (nodeId d).

Fixpoint addFeatureToLeaves (feature : string) (featureMap : gmap string Q)
  (t : tree TMCNode) : tree TMCNode :=
  match t with
  | T d v k [] =>
      T (setItems d (map (addFeature feature featureMap) <$> items d)) v k []
  | T d v k ch => T d v k (map (addFeatureToLeaves feature featureMap) ch)
  end.

Definition addFeaturesToCells (tree0 : tree TMCNode)
  (featureMaps : list (string * gmap string Q)) : tree TMCNode :=
  fold_left (fun t e => addFeatureToLeaves e.1 e.2 t) featureMaps tree0.

End Metadata.

(** The cells of the leaves rewritten by [g]. *)
Fixpoint mapLeafCells (g : Cell -> Cell) (t : tree TMCNode) : tree TMCNode :=
  match t with
  | T d v k [] => T (Metadata.setItems d (map g <$> items d)) v k []
  | T d v k ch => T d v k (map (mapLeafCells g) ch)
  end.

(** A cell with, for every feature of [featureMaps], the count the
    feature's map gives its barcode (0 when it gives none), and its own
    counts for every other feature. *)
Definition withFeatures (featureMaps : list (string * gmap string Q))
  (c : Cell) : Cell :=
  mkCell (unCell c)
    (((fun featureMap : gmap string Q => default 0%Q (featureMap !! unCell c))
        <$> (list_to_map featureMaps : gmap string (gmap string Q)))
     ∪ _featureCounts c).

(** ** The feature search box ([FeatureSearch.tsx]) *)

Module FeatureSearch.
Section units.
Context {C : Type} `{EqDecision C}.

(** [String.prototype.toLowerCase], of which nothing is assumed. *)
Context (toLowerCase : list C -> list C).

Record Choice := mkChoice {
  word : list C;
  distance : option nat
}.

(** [a.distance < b.distance ? -1 : 1]; a comparison with [undefined] is
    false. *)
Definition compareDistance (a b : Choice) : Z :=
  match distance a, distance b with
  | Some x, Some y => if x <? y then (-1)%Z else 1%Z
  | _, _ => 1%Z
  end.

(** The choices offered for the text [search]:
    [options.map(o => ({word: o, distance: levenshtein(o.toLowerCase(),
    search.toLowerCase())})).sort(...).map(d => d.word)]; [sort] is the
    engine's [Array.prototype.sort]. *)
Definition choices (sort : forall A, (A -> A -> Z) -> list A -> list A)
    (options : list (list C)) (search : list C) : list (list C) :=
  map word
    (sort _ compareDistance
       (map (fun o =>
               mkChoice o
                 (Levenshtein.levenshtein (toLowerCase o) (toLowerCase search)))
          options)).

End units.
End FeatureSearch.

(** ** The area chart ([AreaChart.ts]) *)

Module AreaChart.

(** [let i = 0; while (target > arr[i + 1]) i++; return i]: [rest] is the
    array from the index [i + 1] on; past its end [arr[i + 1]] is
    [undefined] and the comparison false. *)
Fixpoint bisect_loop (rest : list Q) (target : Q) (i : nat) : nat :=
  match rest with
  | [] => i
  | x :: rest' =>
      if JS.Qltb x target then bisect_loop rest' target (S i) else i
  end.

Definition bisectDownSorted (arr : list Q) (target : Q) : nat :=
  bisect_loop (tail arr) target 0.

End AreaChart.

(** The distance of an option from the search text, both in lower case. *)
Definition searchDistance {C} `{EqDecision C} (toLowerCase : list C -> list C)
  (search o : list C) : nat :=
  editDistance (toLowerCase o) (toLowerCase search)
    (length (toLowerCase search)) (length (toLowerCase o)).

(** The payload [c] names the payload [n] as its parent. *)
Definition names_parent (c n : TMCNode) : Prop :=
  exists k, Builder.key_of (parentId c) = Some k /\
            Builder.key_of (Some (id n)) = Some k.

(** The position [j] hangs directly under the position [i]. *)
Definition hangs_under (all : list TMCNode) (i j : nat) : Prop :=
  j ∈ Builder.children_idx all i.

(** The positions [Builder.build] visits from the position [i], in the order
    of the nodes of the tree it returns. *)
Fixpoint reached (all : list TMCNode) (fuel : nat) (i : nat)
  : option (list nat) :=
  match fuel with
  | 0 => None
  | S fuel' =>
      _ ← all !! i;
      js ← mapM (reached all fuel') (Builder.children_idx all i);
      Some (i :: concat js)
  end.

(** A list in which the first node has no parent id, every later node names
    an earlier node as its parent, and no two nodes share an id that counts
    (one that is not the empty string). *)
Definition parents_first (all : list TMCNode) : Prop :=
  (exists d0, all !! 0 = Some d0 /\ Builder.key_of (parentId d0) = None) /\
  (forall j d, all !! j = Some d -> 0 < j ->
     exists i di, i < j /\ all !! i = Some di /\ names_parent d di) /\
  (forall i j di dj k,
     all !! i = Some di -> all !! j = Some dj ->
     Builder.key_of (Some (id di)) = Some k ->
     Builder.key_of (Some (id dj)) = Some k -> i = j).

(** ** The rose tree of the cluster file and [flatten]

    A rose node is an array; [flatten] looks at three kinds of content: an
    object (the node's record), an array (whose elements it takes to be rose
    nodes, as the cast in the source does), and anything else. *)
Record RoseNodeObj := mkRoseObj {
  _item : option (list Cell);
  _distance : option Q;
  _significance : option Q
}.

#[local] Unset Elimination Schemes.
Inductive RoseContent : Type :=
  | Meta (o : RoseNodeObj)
  | Nodes (l : list (list RoseContent))
  | Other.
#[local] Set Elimination Schemes.

Definition RoseNode : Type := list RoseContent.

(** [!!item && typeof item === 'object' && !Array.isArray(item)] *)
Definition isObject (item : RoseContent) : bool :=
  match item with Meta _ => true | _ => false end.

(** [data.find(content => isObject(content))] *)
Definition metaOf (data : RoseNode) : option RoseNodeObj :=
  match List.find isObject data with
  | Some (Meta o) => Some o
  | _ => None
  end.

(** The node [flatten] pushes for [data]: [meta?._item ?? null] and the
    like; [labelCount] and [nodeId] are not set yet. *)
Definition flatNodeOf (newId : string) (parentId : option string)
    (data : RoseNode) : TMCNode :=
  mkTMC newId parentId
    (o ← metaOf data; _item o)
    (o ← metaOf data; _distance o)
    (o ← metaOf data; _significance o)
    ∅ None.

(** [flatten] threads the array [nodes] it pushes to and, here, the number of
    calls of [uuid()] made so far: [uuid n] is the identifier the [n]-th call
    returns.  [flattenContent] is one round of the loop [for (const item of
    data)], under the node whose id is [parentId]. *)
Fixpoint flattenContent (uuid : nat -> string) (item : RoseContent)
    (parentId : string) (st : list TMCNode * nat) : list TMCNode * nat :=
  match item with
  | Nodes l =>
      fold_left
        (fun st i =>
           let node := flatNodeOf (uuid st.2) (Some parentId) i in
           fold_left (fun st item' => flattenContent uuid item' (id node) st)
             i (st.1 ++ [node], S st.2))
        l st
  | _ => st
  end.

Definition flatten (uuid : nat -> string) (data : RoseNode)
    (nodes : list TMCNode) (parentId : option string) (calls : nat)
  : list TMCNode * nat :=
  let node := flatNodeOf (uuid calls) parentId data in
  fold_left (fun st item => flattenContent uuid item (id node) st)
    data (nodes ++ [node], S calls).

(** The rose nodes in the order [flatten] meets them. *)
Fixpoint contentNodes (item : RoseContent) : list RoseNode :=
  match item with
  | Nodes l => flat_map (fun i => i :: flat_map contentNodes i) l
  | _ => []
  end.

Definition roseNodes (data : RoseNode) : list RoseNode :=
  data :: flat_map contentNodes data.

(** What a flat node takes from its rose node. *)
Definition fields (d : TMCNode) : option (list Cell) * option Q * option Q :=
  (items d, distance d, significance d).

Definition fieldsOf (data : RoseNode)
  : option (list Cell) * option Q * option Q :=
  (o ← metaOf data; _item o, o ← metaOf data; _distance o,
   o ← metaOf data; _significance o).

(** A run of pushed nodes, the first of them made by call [c] of [uuid]:
    the ids are those of the calls in order, and every node's parent id is
    [pid] or the id of a node pushed before it in the run. *)
Definition block (uuid : nat -> string) (pid : string) (c : nat)
    (new : list TMCNode) : Prop :=
  map id new = map uuid (seq c (length new)) /\
  forall j d, new !! j = Some d ->
    parentId d = Some pid \/
    exists i, i < j /\ parentId d = Some (uuid (c + i)).

(** A cluster file: a root with two children, the first with a leaf. *)
Definition rose_sample : RoseNode :=
  [ Meta (mkRoseObj None None None);
    Nodes [ [ Other;
              Nodes [ [ Meta (mkRoseObj (Some [cell "1"; cell "2"]) None None);
                        Nodes [] ] ] ];
            [ Meta (mkRoseObj (Some [cell "3"]) None None); Nodes [] ] ] ].

(** What a stretch of [flatten] does to the array and to the call count. *)
Definition pushes (uuid : nat -> string) (pid : string)
    (st st' : list TMCNode * nat) (new : list TMCNode) : Prop :=
  st' = (st.1 ++ new, st.2 + length new) /\ block uuid pid st.2 new.

Definition flattens (uuid : nat -> string) (item : RoseContent) : Prop :=
  forall pid st, exists new,
    pushes uuid pid st (flattenContent uuid item pid st) new /\
    map fields new = map fieldsOf (contentNodes item).

(** Identifiers that differ from call to call and are never empty. *)
Fixpoint uuid_sample (n : nat) : string :=
  match n with
  | 0 => "u"
  | S n' => String "i" (uuid_sample n')
  end.

(* ================================================================ *)
(** * Properties *)
(* ================================================================ *)

(** ** Facts about [Array.prototype.sort] *)

Section array_sort_facts.
Context {A : Type} (comparefn : A -> A -> Z) (key : A -> Z).

(** The comparator tests a key, larger keys first. *)
Hypothesis comparefn_key :
  forall a b, (comparefn a b <? 0)%Z = (key b <? key a)%Z.

Lemma sort_insert_perm x l :
  Permutation (x :: l) (JS.sort_insert comparefn x l).
Proof.
  induction l as [|y l IH]; simpl; [done|].
  destruct (comparefn x y <? 0)%Z; [done|].
  rewrite perm_swap. by constructor.
Qed.

Lemma fold_insert_perm l acc :
  Permutation (acc ++ l)
    (fold_left (fun s p => JS.sort_insert comparefn p s) l acc).
Proof.
  revert acc. induction l as [|x l IH]; intros acc; simpl.
  - by rewrite app_nil_r.
  - rewrite <- IH, <- sort_insert_perm. simpl.
    symmetry. apply Permutation_middle.
Qed.

Lemma array_sort_perm l : Permutation l (JS.array_sort comparefn l).
Proof. apply (fold_insert_perm l []). Qed.

Lemma sort_insert_sorted x l :
  StronglySorted (desc key) l -> StronglySorted (desc key) (JS.sort_insert comparefn x l).
Proof.
  induction 1 as [|y l Hl IH Hy]; simpl.
  - repeat constructor.
  - rewrite comparefn_key. destruct (Z.ltb_spec (key y) (key x)) as [Hlt|Hge].
    + constructor; [by constructor|].
      constructor; [unfold desc; lia|].
      eapply Forall_impl; [exact Hy|]. unfold desc. intros; lia.
    + constructor; [done|].
      rewrite <- (sort_insert_perm x l). by constructor.
Qed.

Lemma fold_insert_sorted l acc :
  StronglySorted (desc key) acc ->
  StronglySorted (desc key) (fold_left (fun s p => JS.sort_insert comparefn p s) l acc).
Proof.
  revert acc. induction l as [|x l IH]; intros acc Hacc; simpl; [done|].
  by apply IH, sort_insert_sorted.
Qed.

Lemma array_sort_sorted l : StronglySorted (desc key) (JS.array_sort comparefn l).
Proof. apply fold_insert_sorted. constructor. Qed.

(** Stability: the elements of one key come out in the order they went in. *)
Lemma of_key_none k l :
  Forall (fun a => key a <> k) l -> of_key key k l = [].
Proof.
  unfold of_key. induction 1 as [|y l Hy Hl IH]; simpl; [done|].
  destruct (Z.eqb_spec (key y) k); [done|exact IH].
Qed.

Lemma sort_insert_of_key k x l :
  StronglySorted (desc key) l ->
  of_key key k (JS.sort_insert comparefn x l) = of_key key k l ++ of_key key k [x].
Proof.
  induction 1 as [|y l Hl IH Hy]; [done|]. cbn [JS.sort_insert].
  rewrite comparefn_key. destruct (Z.ltb_spec (key y) (key x)) as [Hlt|Hge].
  - change (of_key key k (x :: y :: l)) with
      (if (key x =? k)%Z then x :: of_key key k (y :: l) else of_key key k (y :: l)).
    change (of_key key k [x]) with (if (key x =? k)%Z then [x] else []).
    destruct (Z.eqb_spec (key x) k) as [Hx|Hx]; [|by rewrite app_nil_r].
    rewrite (of_key_none k (y :: l)); [done|].
    constructor; [lia|].
    eapply Forall_impl; [exact Hy|]. unfold desc. intros; lia.
  - change (of_key key k (y :: JS.sort_insert comparefn x l)) with
      (if (key y =? k)%Z then y :: of_key key k (JS.sort_insert comparefn x l)
       else of_key key k (JS.sort_insert comparefn x l)).
    change (of_key key k (y :: l)) with
      (if (key y =? k)%Z then y :: of_key key k l else of_key key k l).
    rewrite IH. by destruct (key y =? k)%Z.
Qed.

Lemma fold_insert_of_key k l acc :
  StronglySorted (desc key) acc ->
  of_key key k (fold_left (fun s p => JS.sort_insert comparefn p s) l acc)
  = of_key key k acc ++ of_key key k l.
Proof.
  revert acc. induction l as [|x l IH]; intros acc Hacc; simpl.
  - by rewrite app_nil_r.
  - rewrite IH by by apply sort_insert_sorted.
    rewrite sort_insert_of_key by done.
    rewrite <- app_assoc. f_equal.
    unfold of_key. simpl. by destruct (key x =? k)%Z.
Qed.

Lemma array_sort_stable k l :
  of_key key k (JS.array_sort comparefn l) = of_key key k l.
Proof. apply (fold_insert_of_key k l []). constructor. Qed.

Lemma array_sort_stable_desc l : stable_desc key l (JS.array_sort comparefn l).
Proof.
  split; [apply array_sort_perm|].
  split; [apply array_sort_sorted|].
  intros k. apply array_sort_stable.
Qed.

End array_sort_facts.

Lemma sort_insert_ext_Forall {A} (P : A -> Prop) (f g : A -> A -> Z) x l :
  (forall a b, P a -> P b -> (f a b <? 0)%Z = (g a b <? 0)%Z) ->
  P x -> Forall P l ->
  JS.sort_insert f x l = JS.sort_insert g x l.
Proof.
  intros Hfg Hx. induction 1 as [|y l Hy _ IH]; [done|].
  cbn. rewrite (Hfg x y) by done. by rewrite IH.
Qed.

Lemma array_sort_ext_Forall {A} (P : A -> Prop) (f g : A -> A -> Z) l :
  (forall a b, P a -> P b -> (f a b <? 0)%Z = (g a b <? 0)%Z) ->
  Forall P l ->
  JS.array_sort f l = JS.array_sort g l.
Proof.
  intros Hfg Hl. unfold JS.array_sort.
  assert (Forall P (@nil A)) as Hacc by constructor.
  revert Hacc. generalize (@nil A).
  induction Hl as [|x l Hx _ IH]; intros acc Hacc; [done|].
  cbn [fold_left]. rewrite (sort_insert_ext_Forall P f g) by done.
  apply IH.
  assert (Permutation (x :: acc) (JS.sort_insert g x acc)) as Hperm.
  { clear. induction acc as [|y acc IHacc]; cbn; [done|].
    destruct (g x y <? 0)%Z; [done|]. rewrite perm_swap. by constructor. }
  rewrite <- Hperm. by constructor.
Qed.

(** Sorting tagged elements on what they are tagged from. *)
Lemma array_sort_tagged {A B} (cmp : A -> A -> Z) (p : A -> B) (h : B -> A) l :
(forall a, h (p a) = a) ->
JS.array_sort (fun a b => cmp (h a) (h b)) (map p l)
= map p (JS.array_sort cmp l).
Proof.
intros Hhp. unfold JS.array_sort.
change (@nil B) with (map p []). generalize (@nil A).
induction l as [|x l IH]; intros acc; simpl; [done|].
rewrite <- IH. f_equal.
induction acc as [|y acc IHacc]; simpl; [done|].
rewrite !Hhp. destruct (cmp x y <? 0)%Z; simpl; by rewrite ?IHacc.
Qed.

Lemma node_sort_unfold {D} (compare : tree D -> tree D -> Z) d v k ch :
Builder.node_sort compare (T d v k ch)
= T d v k (map (Builder.node_sort compare) (JS.array_sort compare ch)).
Proof.
unfold Builder.node_sort. simpl. f_equal.
rewrite (array_sort_tagged compare
           (fun c => (c, Builder.node_sort_with (@JS.array_sort) compare c))
           fst) by done.
by rewrite map_map.
Qed.

(** The sort of V8 is a sort in the sense of [sorts]. *)
Lemma array_sort_sorts : sorts (@JS.array_sort).
Proof.
split; [|split].
- intros A comparefn l. apply array_sort_perm.
- intros A comparefn key l Hkey.
  set (g := fun a b : A => if (key b <? key a)%Z then (-1)%Z else 1%Z).
  assert (JS.array_sort comparefn l = JS.array_sort g l) as ->.
  { apply (array_sort_ext_Forall (fun a => a ∈ l)).
    - intros a b Ha Hb. rewrite (Hkey a b Ha Hb). unfold g.
      by destruct (key b <? key a)%Z.
    - by apply Forall_forall. }
  apply (array_sort_sorted g key). intros a b. unfold g.
  by destruct (key b <? key a)%Z.
- intros A B comparefn p h l Hhp. by apply array_sort_tagged.
Qed.

Lemma node_sort_with_unfold {D} sort (compare : tree D -> tree D -> Z) d v k ch :
sorts sort ->
Builder.node_sort_with sort compare (T d v k ch)
= T d v k (map (Builder.node_sort_with sort compare) (sort _ compare ch)).
Proof.
intros (_ & _ & Hnat). simpl. f_equal.
rewrite (Hnat _ _ compare
           (fun c => (c, Builder.node_sort_with sort compare c)) fst) by done.
by rewrite map_map.
Qed.

(** ** Trees *)

Lemma Forall_nodes {D} (P : tree D -> Prop) (t : tree D) :
  Forall P (nodes t) <-> P t /\ Forall (fun c => Forall P (nodes c)) (children t).
Proof.
  destruct t as [d v k ch]. simpl. rewrite Forall_cons. 
  rewrite Forall_flat_map. reflexivity.
Qed.

Lemma StronglySorted_map {A B} (R : B -> B -> Prop) (f : A -> B) l :
  StronglySorted (fun a b => R (f a) (f b)) l -> StronglySorted R (map f l).
Proof.
  induction 1 as [|x l Hl IH Hx]; simpl; constructor; [done|].
  by apply Forall_map.
Qed.

(** ** The tree builder *)

Lemma itemCount_ownItems (c : tree TMCNode) :
  Builder.itemCount (data c) = ownItems c.
Proof. unfold Builder.itemCount, ownItems. by destruct (items (data c)). Qed.

Lemma compareItems_key a b :
  (Builder.compareItems a b <? 0)%Z = (ownItems b <? ownItems a)%Z.
Proof.
  unfold Builder.compareItems. cbv zeta.
  rewrite !itemCount_ownItems, Z.gtb_ltb.
  by destruct (ownItems b <? ownItems a)%Z.
Qed.

Lemma node_sum_data {D} (f : D -> Z) (t : tree D) :
  data (Builder.node_sum f t) = data t.
Proof. by destruct t. Qed.

Lemma node_sort_data {D} (cmp : tree D -> tree D -> Z) (t : tree D) :
  data (Builder.node_sort cmp t) = data t.
Proof. by destruct t. Qed.

Lemma StronglySorted_weaken {A} (R R' : A -> A -> Prop) l :
  (forall a b, R a b -> R' a b) -> StronglySorted R l -> StronglySorted R' l.
Proof.
  intros HR. induction 1 as [|x l Hl IH Hx]; constructor; [done|].
  eapply Forall_impl; [exact Hx|]. auto.
Qed.

Lemma built_ownItems t0 : ownItems (built t0) = ownItems t0.
Proof.
  unfold ownItems, built. by rewrite node_sum_data, node_sort_data.
Qed.

Lemma built_unfold d v k ch :
  built (T d v k ch)
  = T d (Some (Builder.itemCount d
               + sumZ (map Builder.valueZ
                         (map built (JS.array_sort Builder.compareItems ch))))%Z)
      k (map built (JS.array_sort Builder.compareItems ch)).
Proof.
  unfold built at 1. rewrite node_sort_unfold. cbn [Builder.node_sum].
  by rewrite !map_map.
Qed.

Lemma built_ordered (t0 : tree TMCNode) : ordered_by ownItems (built t0).
Proof.
  unfold ordered_by. induction t0 as [d v k ch IH] using tree_ind'.
  rewrite built_unfold. apply Forall_nodes. cbn [children]. split.
  - apply StronglySorted_map.
    eapply StronglySorted_weaken;
      [|apply (array_sort_sorted _ ownItems compareItems_key)].
    intros a b. unfold desc. by rewrite !built_ownItems.
  - apply Forall_map.
    by rewrite <- (array_sort_perm Builder.compareItems ch).
Qed.

Lemma built_sorted_from (t0 : tree TMCNode) : sorted_from t0 (built t0).
Proof.
  induction t0 as [d v k ch IH] using tree_ind'.
  rewrite built_unfold.
  apply (sorted_from_node _ _ _ _ _ (JS.array_sort Builder.compareItems ch)).
  - apply array_sort_stable_desc, compareItems_key.
  - apply Forall2_fmap_r, Forall_Forall2_diag.
    by rewrite <- (array_sort_perm Builder.compareItems ch).
Qed.

Lemma buildTree_inv flat t :
  Builder.buildTree flat = Ok t ->
  exists t0, Builder.stratify flat = Ok t0 /\ t = built t0.
Proof.
  unfold Builder.buildTree, Builder.buildTree_with.
  destruct (Builder.stratify flat); [|done..].
  intros [= <-]. eauto.
Qed.

Lemma buildTree_with_inv sort flat t :
  Builder.buildTree_with sort flat = Ok t ->
  exists t0, Builder.stratify flat = Ok t0 /\ t = built_with sort t0.
Proof.
  unfold Builder.buildTree_with. destruct (Builder.stratify flat); [|done..].
  intros [= <-]. eauto.
Qed.

Section any_sort.
Context (sort : forall A, (A -> A -> Z) -> list A -> list A).
Hypothesis sort_sorts : sorts sort.

Lemma built_with_ownItems t0 : ownItems (built_with sort t0) = ownItems t0.
Proof.
  unfold ownItems, built_with. destruct t0. by rewrite node_sum_data.
Qed.

Lemma built_with_unfold d v k ch :
  built_with sort (T d v k ch)
  = T d (Some (Builder.itemCount d
               + sumZ (map Builder.valueZ
                         (map (built_with sort)
                            (sort _ Builder.compareItems ch))))%Z)
      k (map (built_with sort) (sort _ Builder.compareItems ch)).
Proof.
  unfold built_with at 1. rewrite node_sort_with_unfold by done.
  cbn [Builder.node_sum]. by rewrite !map_map.
Qed.

Lemma built_with_ordered (t0 : tree TMCNode) :
  ordered_by ownItems (built_with sort t0).
Proof.
  pose proof sort_sorts as (Hperm & Hsorted & _).
  unfold ordered_by. induction t0 as [d v k ch IH] using tree_ind'.
  rewrite built_with_unfold. apply Forall_nodes. cbn [children]. split.
  - apply StronglySorted_map.
    eapply StronglySorted_weaken; [|apply (Hsorted _ _ ownItems)].
    + intros a b. unfold desc. by rewrite !built_with_ownItems.
    + intros a b _ _. apply compareItems_key.
  - apply Forall_map. by rewrite <- (Hperm _ Builder.compareItems ch).
Qed.

Lemma built_with_rearranged (t0 : tree TMCNode) :
  rearranged_from t0 (built_with sort t0).
Proof.
  pose proof sort_sorts as (Hperm & _ & _).
  induction t0 as [d v k ch IH] using tree_ind'.
  rewrite built_with_unfold.
  apply (rearranged_from_node _ _ _ _ _ (sort _ Builder.compareItems ch)).
  - apply Hperm.
  - apply Forall2_fmap_r, Forall_Forall2_diag.
    by rewrite <- (Hperm _ Builder.compareItems ch).
Qed.

End any_sort.

(** V8 leaves siblings of equal own item count in the order the flat list
    gave them. *)
Lemma buildTree_V8_keeps_ties flat t :
  Builder.buildTree flat = Ok t ->
  exists t0, Builder.stratify flat = Ok t0 /\ sorted_from t0 t.
Proof.
  intros (t0 & Hs & ->)%buildTree_inv.
  exists t0. split; [done|]. apply built_sorted_from.
Qed.

(** C8, as amended.  Whatever the engine's sort, in the tree [buildTree]
    returns the children of every node stand by descending own item count
    (the length of the child's own [items], 0 for a child without items),
    not by the item count of their subtrees; the tree is the one [stratify]
    built, with the children of every node rearranged.  The order of
    siblings of equal own item count is the engine's: the comparator never
    answers 0. *)
Theorem buildTree_orders_siblings_by_own_items sort flat t :
  sorts sort ->
  Builder.buildTree_with sort flat = Ok t ->
  ordered_by ownItems t /\
  exists t0, Builder.stratify flat = Ok t0 /\ rearranged_from t0 t.
Proof.
  intros Hsort (t0 & Hs & ->)%buildTree_with_inv. split.
  - by apply built_with_ordered.
  - exists t0. split; [done|]. by apply built_with_rearranged.
Qed.

Lemma buildTree_orders_siblings_witness :
  sorts (@JS.array_sort) /\
  exists t, Builder.buildTree_with (@JS.array_sort) flat_nested = Ok t /\
       ordered_by ownItems t /\
       exists t0, Builder.stratify flat_nested = Ok t0 /\ rearranged_from t0 t.
Proof.
  split; [exact array_sort_sorts|].
  eexists. split; [vm_compute; reflexivity|].
  apply (buildTree_orders_siblings_by_own_items (@JS.array_sort) flat_nested).
  - exact array_sort_sorts.
  - vm_compute; reflexivity.
Defined.

(** C8, as stated, fails on [flat_nested]: under the root the leaf [y]
    (subtree item count 1) stands before the internal node [x] (subtree item
    count 3). *)
Lemma buildTree_not_ordered_by_subtree_items :
  exists t y x,
    Builder.buildTree flat_nested = Ok t /\
    children t = [y; x] /\
    subtreeItems y = 1%Z /\ subtreeItems x = 3%Z /\
    ~ ordered_by subtreeItems t.
Proof.
  eexists _, _, _. split; [vm_compute; reflexivity|].
  split; [reflexivity|]. split; [reflexivity|]. split; [reflexivity|].
  intros [H _]%Forall_nodes. cbn [children] in H.
  inversion H as [|? ? _ Hy]. inversion Hy as [|? ? Hxy _].
  vm_compute in Hxy. by apply Hxy.
Qed.

(** ** Doubles and reads of plain objects *)

Lemma round53_exact z : (Z.abs z <= 2 ^ 53)%Z -> JS.round53 z = z.
Proof.
  intros Hz. unfold JS.round53. by rewrite (proj2 (Z.leb_le _ _) Hz).
Qed.

Lemma plus_exact x y :
  (Z.abs (x + y) <= 2 ^ 53)%Z -> JS.plus (JS.Num x) (JS.Num y) = JS.Num (x + y).
Proof. intros Hxy. cbn. by rewrite round53_exact. Qed.

Lemma countAt_nonneg (m : gmap string JS.entry) k :
  natural_at m k -> (0 <= countAt m k)%Z.
Proof.
  unfold natural_at, countAt. by destruct (m !! k) as [[n|ps]|].
Qed.

Lemma or0_countAt proto (obj : gmap string JS.entry) k :
  proto k = None -> natural_at obj k ->
  Builder.or0 proto obj k = JS.Num (countAt obj k).
Proof.
  unfold Builder.or0, JS.get, natural_at, countAt. intros Hk.
  destruct (obj !! k) as [[n|ps]|]; [done|done|]. by rewrite Hk.
Qed.

(** ** Label counts *)

Lemma labelKey_filedUnder proto labelMap c :
  Builder.labelKey proto labelMap c = filedUnder proto labelMap c.
Proof.
  unfold Builder.labelKey, filedUnder, JS.get.
  destruct (labelMap !! unCell c) as [[v|]|]; [done..|].
  by destruct (proto (unCell c)).
Qed.

Lemma tally_cons proto labelMap L c its :
  tally proto labelMap L (c :: its)
  = if bool_decide (filedUnder proto labelMap c = L)
    then S (tally proto labelMap L its) else tally proto labelMap L its.
Proof. unfold tally. cbn [List.filter]. by case_bool_decide. Qed.

Lemma tally_le proto labelMap L its :
  tally proto labelMap L its <= length its.
Proof. unfold tally. apply List.filter_length_le. Qed.

Lemma countLabels_fold proto labelMap its acc L :
  proto L = None -> natural_at acc L ->
  (countAt acc L + Z.of_nat (length its) <= 2 ^ 53)%Z ->
  fold_left
    (fun acc curr =>
       <[Builder.labelKey proto labelMap curr :=
           JS.plus (Builder.or0 proto acc (Builder.labelKey proto labelMap curr))
             (JS.Num 1)]> acc)
    its acc !! L
  = match tally proto labelMap L its with
    | 0 => acc !! L
    | S n => Some (JS.Num (countAt acc L + Z.of_nat (S n)))
    end.
Proof.
  intros HL. revert acc.
  induction its as [|c its IH]; intros acc Hnat Hbound; [done|].
  cbn [fold_left]. rewrite tally_cons, labelKey_filedUnder.
  pose proof (countAt_nonneg _ _ Hnat) as Hpos. cbn [length] in Hbound.
  case_bool_decide as Hc.
  - rewrite Hc, (or0_countAt _ _ _ HL Hnat), plus_exact by lia.
    assert (countAt (<[L := JS.Num (countAt acc L + 1)]> acc) L
            = (countAt acc L + 1)%Z) as Hnew.
    { unfold countAt at 1. by rewrite lookup_insert_eq. }
    rewrite IH.
    + rewrite Hnew. destruct (tally _ _ _ _) as [|n].
      * rewrite lookup_insert_eq. do 2 f_equal; lia.
      * do 2 f_equal; lia.
    + unfold natural_at. rewrite lookup_insert_eq. lia.
    + rewrite Hnew. lia.
  - assert (forall v, countAt (<[filedUnder proto labelMap c := v]> acc) L
                      = countAt acc L) as Hsame.
    { intros v. unfold countAt. by rewrite lookup_insert_ne. }
    rewrite IH.
    + rewrite Hsame. by rewrite lookup_insert_ne.
    + unfold natural_at. by rewrite lookup_insert_ne.
    + rewrite Hsame. lia.
Qed.

Lemma countLabels_lookup proto labelMap its L :
  proto L = None -> (Z.of_nat (length its) <= 2 ^ 53)%Z ->
  Builder.countLabels proto labelMap its !! L
  = match tally proto labelMap L its with
    | 0 => None
    | S n => Some (JS.Num (Z.of_nat (S n)))
    end.
Proof.
  intros HL Hlen. unfold Builder.countLabels.
  rewrite (countLabels_fold _ _ _ _ L HL); [| |done].
  - by destruct (tally _ _ _ _).
  - unfold natural_at. by rewrite lookup_empty.
Qed.

(** A key under which no item is filed is not written. *)
Lemma countLabels_fold_other proto labelMap its acc L :
  tally proto labelMap L its = 0 ->
  fold_left
    (fun acc curr =>
       <[Builder.labelKey proto labelMap curr :=
           JS.plus (Builder.or0 proto acc (Builder.labelKey proto labelMap curr))
             (JS.Num 1)]> acc)
    its acc !! L
  = acc !! L.
Proof.
  revert acc. induction its as [|c its IH]; intros acc; [done|].
  rewrite tally_cons. case_bool_decide as Hc; [done|]. intros Hzero.
  cbn [fold_left]. rewrite IH by done.
  rewrite labelKey_filedUnder. by rewrite lookup_insert_ne.
Qed.

(** Every item is filed: its key is written, and stays. *)
Lemma countLabels_fold_files proto labelMap its acc L :
  is_Some (acc !! L) \/ (exists c, c ∈ its /\ filedUnder proto labelMap c = L) ->
  is_Some
    (fold_left
       (fun acc curr =>
          <[Builder.labelKey proto labelMap curr :=
              JS.plus (Builder.or0 proto acc (Builder.labelKey proto labelMap curr))
                (JS.Num 1)]> acc)
       its acc !! L).
Proof.
  revert acc. induction its as [|c its IH]; intros acc Hin.
  { destruct Hin as [Hacc|(c & Hc & _)]; [done|]. by apply elem_of_nil in Hc. }
  cbn [fold_left]. apply IH. rewrite labelKey_filedUnder.
  destruct (decide (filedUnder proto labelMap c = L)) as [->|Hne].
  { left. rewrite lookup_insert_eq. by eexists. }
  destruct Hin as [Hacc|(c' & Hc' & HL)].
  - left. by rewrite lookup_insert_ne.
  - apply elem_of_cons in Hc' as [->|Hc']; [done|]. right. eauto.
Qed.

(** ** [merge] *)

Lemma fold_insert_lookup {V} (f : string -> V) ks (m : gmap string V) k :
  fold_left (fun acc k => <[k := f k]> acc) ks m !! k
  = if decide (k ∈ ks) then Some (f k) else m !! k.
Proof.
  revert m. induction ks as [|k0 ks IH]; intros m; cbn [fold_left].
  - by rewrite decide_False by apply not_elem_of_nil.
  - rewrite IH. destruct (decide (k ∈ ks)) as [Hin|Hin].
    + by rewrite decide_True by by right.
    + destruct (decide (k = k0)) as [->|Hne].
      * rewrite lookup_insert_eq. by rewrite decide_True by by left.
      * rewrite lookup_insert_ne by done.
        rewrite decide_False; [done|]. by intros [?|?]%elem_of_cons.
Qed.

Lemma elem_of_keys {V} (m : gmap string V) k :
  k ∈ Builder.keys m <-> is_Some (m !! k).
Proof.
  unfold Builder.keys. rewrite list_elem_of_fmap. split.
  - intros ([k' v] & -> & Hin%elem_of_map_to_list). by exists v.
  - intros [v Hv]. exists (k, v). split; [done|]. by apply elem_of_map_to_list.
Qed.

Lemma merge_lookup proto obj1 obj2 k :
  Builder.merge proto obj1 obj2 !! k
  = if decide (is_Some (obj1 !! k) \/ is_Some (obj2 !! k))
    then Some (JS.plus (Builder.or0 proto obj1 k) (Builder.or0 proto obj2 k))
    else None.
Proof.
  unfold Builder.merge.
  rewrite (fold_insert_lookup
             (fun k => JS.plus (Builder.or0 proto obj1 k)
                         (Builder.or0 proto obj2 k))).
  rewrite lookup_empty.
  assert (k ∈ remove_dups (Builder.keys obj1 ++ Builder.keys obj2)
          <-> is_Some (obj1 !! k) \/ is_Some (obj2 !! k)) as Hk.
  { by rewrite elem_of_remove_dups, elem_of_app, !elem_of_keys. }
  repeat case_decide; tauto || done.
Qed.

Lemma merge_is_Some proto obj1 obj2 k :
  is_Some (Builder.merge proto obj1 obj2 !! k)
  <-> is_Some (obj1 !! k) \/ is_Some (obj2 !! k).
Proof.
  rewrite merge_lookup. case_decide as H.
  - split; [done|]. intros _. eauto.
  - split; [by intros [? ?]|done].
Qed.

(** Under a key that is no member of [Object.prototype], where both
    dictionaries hold numbers whose sum a double holds exactly, [merge] adds
    them. *)
Lemma merge_lookup_natural proto obj1 obj2 k :
  proto k = None -> natural_at obj1 k -> natural_at obj2 k ->
  (countAt obj1 k + countAt obj2 k <= 2 ^ 53)%Z ->
  Builder.merge proto obj1 obj2 !! k
  = if decide (is_Some (obj1 !! k) \/ is_Some (obj2 !! k))
    then Some (JS.Num (countAt obj1 k + countAt obj2 k))
    else None.
Proof.
  intros Hk H1 H2 Hbound. rewrite merge_lookup.
  rewrite !or0_countAt by done.
  pose proof (countAt_nonneg _ _ H1). pose proof (countAt_nonneg _ _ H2).
  by rewrite plus_exact by lia.
Qed.

Lemma fold_merge_lookup proto (ms : list (gmap string JS.entry)) acc k :
  proto k = None -> natural_at acc k ->
  Forall (fun c => natural_at c k) ms ->
  (countAt acc k + sumZ (map (fun c => countAt c k) ms) <= 2 ^ 53)%Z ->
  fold_left (Builder.merge proto) ms acc !! k
  = if decide (is_Some (acc !! k) \/ Exists (fun c => is_Some (c !! k)) ms)
    then Some (JS.Num (countAt acc k + sumZ (map (fun c => countAt c k) ms)))
    else None.
Proof.
  intros Hk Hacc Hms. revert acc Hacc.
  induction Hms as [|m ms Hm Hms IH]; intros acc Hacc Hbound.
  { cbn. rewrite Z.add_0_r. unfold natural_at, countAt in *.
    destruct (acc !! k) as [[n|ps]|] eqn:Hlook.
    - rewrite decide_True; [done|]. left. by eexists.
    - done.
    - rewrite decide_False; [done|].
      intros [[? [=]]|Hex]; by apply Exists_nil in Hex. }
  change (sumZ (map (fun c => countAt c k) (m :: ms)))
    with (countAt m k + sumZ (map (fun c => countAt c k) ms))%Z in *.
  cbn [fold_left].
  pose proof (countAt_nonneg _ _ Hacc) as Ha.
  pose proof (countAt_nonneg _ _ Hm) as Hb.
  assert (0 <= sumZ (map (fun c => countAt c k) ms))%Z as Hrest.
  { clear -Hms. induction Hms as [|c ms Hc _ IHc]; [done|].
    change (sumZ (map (fun c => countAt c k) (c :: ms)))
      with (countAt c k + sumZ (map (fun c => countAt c k) ms))%Z.
    pose proof (countAt_nonneg _ _ Hc). lia. }
  assert (Builder.merge proto acc m !! k
          = if decide (is_Some (acc !! k) \/ is_Some (m !! k))
            then Some (JS.Num (countAt acc k + countAt m k)) else None) as Hstep.
  { apply merge_lookup_natural; [done..|lia]. }
  assert (countAt (Builder.merge proto acc m) k
          = (countAt acc k + countAt m k)%Z) as Hcount.
  { unfold countAt at 1. rewrite Hstep. case_decide as Hpres; [done|].
    unfold countAt.
    destruct (acc !! k) eqn:E1; [destruct Hpres; eauto|].
    destruct (m !! k) eqn:E2; [destruct Hpres; eauto|]. done. }
  rewrite IH.
  - rewrite Hcount.
    pose proof (merge_is_Some proto acc m k) as Hsome.
    destruct (decide (is_Some (Builder.merge proto acc m !! k)
                      \/ Exists (fun c => is_Some (c !! k)) ms)) as [H1|H1];
      destruct (decide (is_Some (acc !! k)
                        \/ Exists (fun c => is_Some (c !! k)) (m :: ms)))
        as [H2|H2];
      rewrite Exists_cons in H2; try tauto.
    do 2 f_equal; lia.
  - unfold natural_at. rewrite Hstep. case_decide; [lia|done].
  - rewrite Hcount. lia.
Qed.

(** ** The passes of [getData] keep what they do not write *)

Lemma nodes_tmap {D E} (g : D -> E) (t : tree D) :
  nodes (tmap g t) = map (tmap g) (nodes t).
Proof.
  induction t as [d v k ch IH] using tree_ind'. simpl. f_equal.
  induction IH as [|c ch Hc _ IHch]; simpl; [done|].
  by rewrite map_app, Hc, IHch.
Qed.

Lemma Forall_nodes_tmap {D E} (g : D -> E) (Q : tree E -> Prop) (t : tree D) :
  Forall (fun n => Q (tmap g n)) (nodes t) <-> Forall Q (nodes (tmap g t)).
Proof. by rewrite nodes_tmap, Forall_map. Qed.

Lemma leaves_tmap {D E} (g : D -> E) (t : tree D) :
  leaves (tmap g t) = map (tmap g) (leaves t).
Proof.
  induction t as [d v k ch IH] using tree_ind'.
  destruct ch as [|c ch]; [done|].
  change (flat_map leaves (map (tmap g) (c :: ch))
          = map (tmap g) (flat_map leaves (c :: ch))).
  induction IH as [|c' ch' Hc _ IHch]; simpl; [done|].
  by rewrite map_app, Hc, IHch.
Qed.

Lemma numberPass_unfold d v k ch i :
  Builder.numberPass (T d v k ch) i
  = let '(ch', j) := numberForest ch (S i) in
    (T (Builder.set_nodeId d i) v k ch', j).
Proof. reflexivity. Qed.

Lemma numberPass_tmap {E} (g : TMCNode -> E) (t : tree TMCNode) i :
  (forall d j, g (Builder.set_nodeId d j) = g d) ->
  tmap g (Builder.numberPass t i).1 = tmap g t.
Proof.
  intros Hg. revert i. induction t as [d v k ch IH] using tree_ind'.
  intros i. rewrite numberPass_unfold.
  assert (forall j, map (tmap g) (numberForest ch j).1 = map (tmap g) ch) as Hch.
  { induction IH as [|c ch Hc _ IHch]; intros j; simpl; [done|].
    specialize (Hc j). destruct (Builder.numberPass c j) as [c' j1].
    specialize (IHch j1). destruct (numberForest ch j1) as [l' j2].
    simpl in *. by rewrite Hc, IHch. }
  specialize (Hch (S i)). destruct (numberForest ch (S i)) as [ch' j].
  simpl in *. by rewrite Hg, Hch.
Qed.

Lemma labelPass_unfold proto labelMap d v k ch :
  Builder.labelPass proto labelMap (T d v k ch)
  = ch' ← mapM (Builder.labelPass proto labelMap) ch;
    lc ← match items d with
         | Some its => Some (Builder.countLabels proto labelMap its)
         | None =>
             match ch' with
             | [] => None
             | _ => Some (fold_left (Builder.merge proto)
                            (map (fun c => labelCount (data c)) ch') ∅)
             end
         end;
    Some (T (Builder.set_labelCount d lc) v k ch').
Proof.
  cbn [Builder.labelPass]. destruct (mapM _ ch) as [ch'|]; [|done].
  cbn. destruct (items d); [done|]. destruct ch' as [|c ch']; [done|].
  cbn. repeat f_equal.
  generalize (Builder.merge proto ∅ (labelCount (data c))).
  induction ch' as [|c' ch' IHch]; intros acc; [done|]. apply IHch.
Qed.

Lemma labelPass_tmap {E} (g : TMCNode -> E) proto labelMap (t t' : tree TMCNode) :
  (forall d lc, g (Builder.set_labelCount d lc) = g d) ->
  Builder.labelPass proto labelMap t = Some t' ->
  tmap g t' = tmap g t.
Proof.
  intros Hg. revert t'. induction t as [d v k ch IH] using tree_ind'.
  intros t'. rewrite labelPass_unfold.
  destruct (mapM _ ch) as [ch'|] eqn:Hch; [|done]. cbn.
  destruct (match items d with Some _ => _ | None => _ end) as [lc|]; [|done].
  cbn. intros [= <-]. cbn. rewrite Hg. f_equal.
  apply mapM_Some in Hch.
  induction Hch as [|c c' ch ch' Hc _ IHch]; [done|].
  apply Forall_cons in IH as [IHc IH]. cbn. f_equal; auto.
Qed.

Lemma Forall_nodes_transfer {D} (g : D -> D) (P : tree D -> Prop) (t t' : tree D) :
  (forall n, P (tmap g n) <-> P n) ->
  tmap g t = tmap g t' ->
  Forall P (nodes t) -> Forall P (nodes t').
Proof.
  intros HP Hg Ht.
  assert (forall u, Forall P (nodes u) <-> Forall P (nodes (tmap g u))) as Hu.
  { intros u. rewrite <- Forall_nodes_tmap. rewrite !Forall_forall.
    split; intros H n Hn; specialize (H n Hn); simpl in *; by apply HP. }
  apply (proj2 (Hu t')). rewrite <- Hg. exact (proj1 (Hu t) Ht).
Qed.

Lemma data_tmap {D E} (g : D -> E) (t : tree D) : data (tmap g t) = g (data t).
Proof. by destruct t. Qed.

Lemma value_tmap {D E} (g : D -> E) (t : tree D) : value (tmap g t) = value t.
Proof. by destruct t. Qed.

Lemma children_tmap {D E} (g : D -> E) (t : tree D) :
  children (tmap g t) = map (tmap g) (children t).
Proof. by destruct t. Qed.

Lemma subtreeItems_tmap (g : TMCNode -> TMCNode) (n : tree TMCNode) :
  (forall d, items (g d) = items d) ->
  subtreeItems (tmap g n) = subtreeItems n.
Proof.
  intros Hg. unfold subtreeItems. rewrite nodes_tmap, map_map. f_equal.
  apply map_ext. intros x. unfold ownItems, Builder.itemCount.
  by rewrite data_tmap, Hg.
Qed.

Lemma sumZ_app l1 l2 : sumZ (l1 ++ l2) = (sumZ l1 + sumZ l2)%Z.
Proof. induction l1 as [|x l1 IH]; simpl; lia. Qed.

Lemma sumZ_flat_map {A B} (f : B -> Z) (h : A -> list B) (l : list A) :
  sumZ (map f (flat_map h l)) = sumZ (map (fun a => sumZ (map f (h a))) l).
Proof.
  induction l as [|a l IH]; simpl; [done|].
  by rewrite map_app, sumZ_app, IH.
Qed.

Lemma sumZ_map_ext {A} (f h : A -> Z) (l : list A) :
  Forall (fun a => f a = h a) l -> sumZ (map f l) = sumZ (map h l).
Proof. induction 1 as [|a l Ha _ IH]; simpl; congruence. Qed.

Lemma subtreeItems_unfold d v k ch :
  subtreeItems (T d v k ch)
  = (Builder.itemCount d + sumZ (map subtreeItems ch))%Z.
Proof.
  unfold subtreeItems at 1. cbn [nodes map sumZ fold_right children].
  rewrite sumZ_flat_map. f_equal.
  symmetry. apply (itemCount_ownItems (T d v k ch)).
Qed.

(** [sum] gives every node the item count of its whole subtree. *)
Lemma built_value (t0 : tree TMCNode) :
  Forall (fun n => value n = Some (subtreeItems n)) (nodes (built t0)).
Proof.
  induction t0 as [d v k ch IH] using tree_ind'.
  rewrite built_unfold. apply Forall_nodes. cbn [children value].
  assert (Forall (fun c => Forall (fun n => value n = Some (subtreeItems n))
                             (nodes (built c)))
            (JS.array_sort Builder.compareItems ch)) as IH'.
  { by rewrite <- (array_sort_perm Builder.compareItems ch). }
  split; [|by apply Forall_map].
  rewrite subtreeItems_unfold. do 2 f_equal. rewrite !map_map.
  apply sumZ_map_ext. eapply Forall_impl; [exact IH'|].
  intros c [Hc _]%Forall_nodes. unfold Builder.valueZ. by rewrite Hc.
Qed.

Lemma leafItemSum_internal d v k ch :
  ch <> [] -> leafItemSum (T d v k ch) = sumZ (map leafItemSum ch).
Proof.
  intros Hch. unfold leafItemSum at 1. destruct ch as [|c ch]; [done|].
  change (leaves (T d v k (c :: ch))) with (flat_map leaves (c :: ch)).
  by rewrite sumZ_flat_map.
Qed.

(** Where only leaves carry items, the items of a subtree are those of its
    leaves. *)
Lemma subtreeItems_leaves (t : tree TMCNode) :
  internal_without_items t ->
  Forall (fun n => subtreeItems n = leafItemSum n) (nodes t).
Proof.
  unfold internal_without_items.
  induction t as [d v k ch IH] using tree_ind'.
  intros [Hd Hch]%Forall_nodes. cbn [children data] in *.
  assert (Forall (fun c => Forall (fun n => subtreeItems n = leafItemSum n) (nodes c)) ch)
    as Hsub.
  { rewrite Forall_forall in IH, Hch. apply Forall_forall. auto. }
  apply Forall_nodes. split; [|done].
  rewrite subtreeItems_unfold. destruct ch as [|c ch].
  - unfold leafItemSum. cbn [leaves children map sumZ fold_right].
    pose proof (itemCount_ownItems (T d v k [])) as Hown.
    cbn [data] in Hown. rewrite Hown. lia.
  - rewrite leafItemSum_internal by done.
    unfold Builder.itemCount. rewrite Hd by done.
    f_equal. apply sumZ_map_ext. eapply Forall_impl; [exact Hsub|].
    by intros c' [Hc _]%Forall_nodes.
Qed.

(** The label pass writes [labelled] at every node. *)
Lemma labelPass_labelled proto labelMap (t t' : tree TMCNode) :
  Builder.labelPass proto labelMap t = Some t' ->
  Forall (labelled proto labelMap) (nodes t').
Proof.
  revert t'. induction t as [d v k ch IH] using tree_ind'.
  intros t'. rewrite labelPass_unfold.
  destruct (mapM _ ch) as [ch'|] eqn:Hch; [|done]. cbn.
  destruct (match items d with Some _ => _ | None => _ end) as [lc|] eqn:Hlc;
    [|done].
  cbn. intros [= <-]. apply Forall_nodes. cbn [children]. split.
  - unfold labelled. cbn. destruct (items d).
    + by injection Hlc as <-.
    + destruct ch' as [|c ch']; [done|]. by injection Hlc as <-.
  - apply mapM_Some in Hch. clear Hlc.
    induction Hch as [|c c' ch ch' Hc _ IHch]; [done|].
    apply Forall_cons in IH as [IHc IH]. constructor; auto.
Qed.

Lemma labelled_forget_nodeId proto labelMap (n : tree TMCNode) :
  labelled proto labelMap (tmap forget_nodeId n) <-> labelled proto labelMap n.
Proof.
  unfold labelled. rewrite data_tmap, children_tmap, map_map. cbn.
  destruct (items (data n)); [done|].
  assert (map (fun x => labelCount (data (tmap forget_nodeId x))) (children n)
          = map (fun c => labelCount (data c)) (children n)) as ->.
  { apply map_ext. intros x. by rewrite data_tmap. }
  destruct (children n); simpl; [reflexivity|].
  split; intros [_ ?]; split; done.
Qed.

Lemma getData_inv proto labels flat t :
  Builder.getData proto labels flat = Ok t ->
  exists t0 tl,
    Builder.stratify flat = Ok t0 /\
    Builder.labelPass proto (Builder.parseLabels proto labels) (built t0) = Some tl /\
    t = (Builder.numberPass tl 0).1.
Proof.
  unfold Builder.getData.
  destruct (Builder.buildTree flat) as [tb| |] eqn:Hb; [|done..].
  apply buildTree_inv in Hb as (t0 & Hs & ->).
  destruct (Builder.labelPass _ _) as [tl|] eqn:Hl; [|done].
  intros [= <-]. eauto.
Qed.

Lemma getData_labelled proto labels flat t :
  Builder.getData proto labels flat = Ok t ->
  Forall (labelled proto (Builder.parseLabels proto labels)) (nodes t).
Proof.
  intros (t0 & tl & _ & Hl & ->)%getData_inv.
  apply (Forall_nodes_transfer forget_nodeId _ tl).
  - apply labelled_forget_nodeId.
  - symmetry. by apply numberPass_tmap.
  - by eapply labelPass_labelled.
Qed.

Lemma getData_value proto labels flat t :
  Builder.getData proto labels flat = Ok t ->
  Forall (fun n => value n = Some (subtreeItems n)) (nodes t).
Proof.
  intros (t0 & tl & _ & Hl & ->)%getData_inv.
  apply (Forall_nodes_transfer forget_nodeId _ tl).
  { intros n. by rewrite value_tmap, subtreeItems_tmap. }
  { symmetry. by apply numberPass_tmap. }
  apply (Forall_nodes_transfer forget_labelCount _ (built t0)).
  { intros n. by rewrite value_tmap, subtreeItems_tmap. }
  { symmetry. by eapply labelPass_tmap. }
  apply built_value.
Qed.

Lemma sumZ_nonneg {A} (f : A -> Z) (l : list A) :
  Forall (fun a => 0 <= f a)%Z l -> (0 <= sumZ (map f l))%Z.
Proof.
  induction 1 as [|a l Ha _ IH]; [done|].
  change (sumZ (map f (a :: l))) with (f a + sumZ (map f l))%Z. lia.
Qed.

Lemma sumZ_le {A} (f g : A -> Z) (l : list A) :
  Forall (fun a => f a <= g a)%Z l -> (sumZ (map f l) <= sumZ (map g l))%Z.
Proof.
  induction 1 as [|a l Ha _ IH]; [done|].
  change (sumZ (map f (a :: l))) with (f a + sumZ (map f l))%Z.
  change (sumZ (map g (a :: l))) with (g a + sumZ (map g l))%Z. lia.
Qed.

Lemma sumZ_elem_le {A} (f : A -> Z) (l : list A) a :
  a ∈ l -> Forall (fun a => 0 <= f a)%Z l -> (f a <= sumZ (map f l))%Z.
Proof.
  intros Ha Hl. induction Hl as [|b l Hb Hl IH]; [by apply elem_of_nil in Ha|].
  change (sumZ (map f (b :: l))) with (f b + sumZ (map f l))%Z.
  pose proof (sumZ_nonneg f l Hl).
  apply elem_of_cons in Ha as [->|Ha]; [lia|]. specialize (IH Ha). lia.
Qed.

Lemma subtreeItems_nonneg (t : tree TMCNode) : (0 <= subtreeItems t)%Z.
Proof.
  unfold subtreeItems. apply sumZ_nonneg, Forall_forall.
  intros n _. unfold ownItems. lia.
Qed.

(** What the label pass has written, key by key: under a key that is no
    member of [Object.prototype] every node holds a number, at most the item
    count of its subtree, and a node without items the sum of what its
    children hold. *)
Lemma labelled_counts proto labelMap (t : tree TMCNode) :
  Forall (labelled proto labelMap) (nodes t) ->
  (subtreeItems t <= 2 ^ 53)%Z ->
  Forall (fun n =>
            (forall k, proto k = None ->
               natural_at (labelCount (data n)) k /\
               (countAt (labelCount (data n)) k <= subtreeItems n)%Z) /\
            (items (data n) = None ->
               keywise_sum_of proto (labelCount (data n))
                 (map (fun c => labelCount (data c)) (children n))))
    (nodes t).
Proof.
  induction t as [d v k ch IH] using tree_ind'.
  intros [Hroot Hch]%Forall_nodes Hbound. cbn [children] in *.
  pose proof (subtreeItems_unfold d v k ch) as Hunfold.
  assert (Forall (fun c => 0 <= subtreeItems c)%Z ch) as Hnn.
  { apply Forall_forall. intros c _. apply subtreeItems_nonneg. }
  pose proof (sumZ_nonneg subtreeItems ch Hnn) as Hsum.
  assert (0 <= Builder.itemCount d)%Z as Hown.
  { unfold Builder.itemCount. destruct (items d); lia. }
  assert (Forall
            (fun c =>
               Forall (fun n =>
                  (forall k, proto k = None ->
                     natural_at (labelCount (data n)) k /\
                     (countAt (labelCount (data n)) k <= subtreeItems n)%Z) /\
                  (items (data n) = None ->
                     keywise_sum_of proto (labelCount (data n))
                       (map (fun c => labelCount (data c)) (children n))))
                 (nodes c)) ch) as Hsub.
  { rewrite Forall_forall in IH, Hch. apply Forall_forall. intros c Hc.
    apply IH; [done|by apply Hch|].
    pose proof (sumZ_elem_le subtreeItems ch c Hc Hnn). lia. }
  apply Forall_nodes. split; [|exact Hsub]. cbn [data children].
  assert (Forall (fun c => forall k, proto k = None ->
                    natural_at (labelCount (data c)) k /\
                    (countAt (labelCount (data c)) k <= subtreeItems c)%Z) ch)
    as Hkids.
  { eapply Forall_impl; [exact Hsub|]. by intros c [[Hc _] _]%Forall_nodes. }
  unfold labelled in Hroot. cbn [data children] in Hroot.
  destruct (items d) as [its|] eqn:Hits.
  - split; [|done]. intros k0 Hk0.
    assert (Z.of_nat (length its) = Builder.itemCount d) as Hlen.
    { unfold Builder.itemCount. by rewrite Hits. }
    rewrite Hroot. unfold natural_at, countAt.
    rewrite countLabels_lookup by (done || lia).
    pose proof (tally_le proto labelMap k0 its).
    destruct (tally _ _ _ _) as [|n]; split; try done; lia.
  - destruct Hroot as [Hne Hroot].
    assert (forall k0, proto k0 = None ->
              Forall (fun c => natural_at c k0)
                (map (fun c => labelCount (data c)) ch) /\
              (sumZ (map (fun c => countAt c k0)
                       (map (fun c => labelCount (data c)) ch))
               <= sumZ (map subtreeItems ch))%Z) as Hfacts.
    { intros k0 Hk0. split.
      - apply Forall_map. eapply Forall_impl; [exact Hkids|].
        intros c Hc. by apply Hc.
      - rewrite map_map. apply sumZ_le.
        eapply Forall_impl; [exact Hkids|]. intros c Hc. by apply Hc. }
    assert (forall k0, proto k0 = None ->
              labelCount d !! k0
              = if decide (Exists (fun c => is_Some (c !! k0))
                             (map (fun c => labelCount (data c)) ch))
                then Some (JS.Num
                             (sumZ (map (fun c => countAt c k0)
                                      (map (fun c => labelCount (data c)) ch))))
                else None) as Hlook.
    { intros k0 Hk0. destruct (Hfacts k0 Hk0) as [Hnat Hle].
      rewrite Hroot, (fold_merge_lookup proto _ ∅ k0 Hk0); [| |done|].
      - unfold countAt at 1. rewrite lookup_empty, Z.add_0_l.
        repeat case_decide; try done; try tauto.
        match goal with H : _ \/ _ |- _ => destruct H as [[? Hempty]|?] end;
          done.
      - unfold natural_at. by rewrite lookup_empty.
      - unfold countAt at 1. rewrite lookup_empty. lia. }
    split.
    + intros k0 Hk0. destruct (Hfacts k0 Hk0) as [Hnat Hle].
      pose proof (sumZ_nonneg (fun c => countAt c k0) _
                    (Forall_impl _ _ _ Hnat (fun c => countAt_nonneg c k0))).
      unfold natural_at, countAt. rewrite (Hlook k0 Hk0).
      case_decide; split; try done; lia.
    + intros _ k0 Hk0. destruct (Hfacts k0 Hk0) as [Hnat _].
      split; [done|]. by apply Hlook.
Qed.

(** C2, as amended.  In the tree [getData] returns, with at most [2 ^ 53]
    items so that the counts are exact, the value of every node is the
    number of items in its subtree, its own items included; a node without
    items of its own has children, and its label count is the key-wise sum
    of its children's label counts, a key one child lacks counting 0 for
    that child, on every key that is not the name of a member of
    [Object.prototype].  Where only leaves carry items, the value of every
    node is therefore the sum of [items.length] over the leaves below it,
    and the label count of every internal node that key-wise sum. *)
Theorem getData_aggregation proto labels flat t :
  Builder.getData proto labels flat = Ok t ->
  (subtreeItems t <= 2 ^ 53)%Z ->
  Forall (fun n =>
            value n = Some (subtreeItems n) /\
            (items (data n) = None ->
             children n <> [] /\
             keywise_sum_of proto (labelCount (data n))
               (map (fun c => labelCount (data c)) (children n))))
    (nodes t) /\
  (internal_without_items t ->
   Forall (fun n =>
             value n = Some (leafItemSum n) /\
             (children n <> [] ->
              keywise_sum_of proto (labelCount (data n))
                (map (fun c => labelCount (data c)) (children n))))
     (nodes t)).
Proof.
  intros Hget Hbound.
  pose proof (getData_value _ _ _ _ Hget) as Hval.
  pose proof (getData_labelled _ _ _ _ Hget) as Hlab.
  pose proof (labelled_counts _ _ _ Hlab Hbound) as Hcount.
  rewrite Forall_forall in Hval, Hlab, Hcount.
  assert (forall n, n ∈ nodes t ->
            value n = Some (subtreeItems n) /\
            (items (data n) = None ->
             children n <> [] /\
             keywise_sum_of proto (labelCount (data n))
               (map (fun c => labelCount (data c)) (children n)))) as Hall.
  { intros n Hn. split; [by apply Hval|]. intros Hitems.
    specialize (Hlab n Hn). unfold labelled in Hlab. rewrite Hitems in Hlab.
    split; [by destruct Hlab|]. by apply (Hcount n Hn). }
  split; [by apply Forall_forall|].
  intros Hinv. pose proof (subtreeItems_leaves _ Hinv) as Hleaf.
  unfold internal_without_items in Hinv.
  rewrite Forall_forall in Hleaf, Hinv. apply Forall_forall.
  intros n Hn. destruct (Hall n Hn) as [Hv Hk]. split.
  - by rewrite Hv, Hleaf.
  - intros Hch. by apply Hk, Hinv.
Qed.

Lemma getData_aggregation_witness :
  exists t,
    Builder.getData JS.v8_prototype labels_red_blue flat_nested = Ok t /\
    (subtreeItems t <= 2 ^ 53)%Z /\
    Forall (fun n =>
              value n = Some (subtreeItems n) /\
              (items (data n) = None ->
               children n <> [] /\
               keywise_sum_of JS.v8_prototype (labelCount (data n))
                 (map (fun c => labelCount (data c)) (children n))))
      (nodes t) /\
    (internal_without_items t ->
     Forall (fun n =>
               value n = Some (leafItemSum n) /\
               (children n <> [] ->
                keywise_sum_of JS.v8_prototype (labelCount (data n))
                  (map (fun c => labelCount (data c)) (children n))))
       (nodes t)).
Proof.
  assert (exists t,
            Builder.getData JS.v8_prototype labels_red_blue flat_nested = Ok t /\
            (subtreeItems t <= 2 ^ 53)%Z) as (t & Hget & Hbound).
  { eexists. split; [vm_compute; reflexivity|]. by vm_compute. }
  exists t. split; [done|]. split; [done|].
  exact (getData_aggregation JS.v8_prototype labels_red_blue flat_nested t
           Hget Hbound).
Defined.

(** C2, as stated, fails on [flat_root_items], where the root has two items
    of its own over a leaf with two: the value of the root is 4, not the 2
    of its one leaf, and its label count tallies its own items, [{blue: 2}],
    where the key-wise sum of its children's label counts is [{red: 2}]. *)
Lemma getData_counts_items_of_internal_node :
  exists t c,
    Builder.getData JS.v8_prototype labels_red_blue flat_root_items = Ok t /\
    children t = [c] /\
    value t = Some 4%Z /\
    leafItemSum t = 2%Z /\
    labelCount (data t) = {[ "blue" := JS.Num 2 ]} /\
    labelCount (data c) = {[ "red" := JS.Num 2 ]} /\
    ~ keywise_sum_of JS.v8_prototype (labelCount (data t))
        (map (fun c => labelCount (data c)) (children t)).
Proof.
  eexists _, _. split; [vm_compute; reflexivity|].
  split; [reflexivity|]. split; [reflexivity|]. split; [reflexivity|].
  split; [vm_compute; reflexivity|]. split; [vm_compute; reflexivity|].
  intros Hsum. destruct (Hsum "blue") as [_ Hblue]; [by vm_compute|].
  vm_compute in Hblue. discriminate Hblue.
Qed.

Lemma tally_pos proto labelMap L its c :
  c ∈ its -> filedUnder proto labelMap c = L -> 0 < tally proto labelMap L its.
Proof.
  unfold tally. intros Hc HL.
  induction Hc as [c its|c c' its _ IH]; cbn [List.filter].
  - rewrite bool_decide_eq_true_2 by done. simpl. lia.
  - specialize (IH HL). destruct (bool_decide _); simpl; lia.
Qed.

(** C3, as amended.  The label count of a node with items (an array, so
    fewer than [2 ^ 32] of them) files every item, none is skipped: under
    the label its barcode has in the label map; under the key ["undefined"]
    when the label map has the barcode without a label or has not got it;
    and, when the barcode it has not got is the name of a member of
    [Object.prototype], under the text of that member.  Under a key that is
    not itself such a name the count is the number of items filed there;
    a key no item is filed under is not in the label count. *)
Theorem getData_leaf_labelCount proto labels flat t n its :
  Builder.getData proto labels flat = Ok t ->
  n ∈ nodes t ->
  items (data n) = Some its ->
  (Z.of_nat (length its) < 2 ^ 32)%Z ->
  (forall c, c ∈ its ->
     is_Some (labelCount (data n)
              !! filedUnder proto (Builder.parseLabels proto labels) c)) /\
  (forall L, proto L = None ->
     labelCount (data n) !! L
     = match tally proto (Builder.parseLabels proto labels) L its with
       | 0 => None
       | S k => Some (JS.Num (Z.of_nat (S k)))
       end) /\
  (forall L, tally proto (Builder.parseLabels proto labels) L its = 0 ->
     labelCount (data n) !! L = None) /\
  (forall c, c ∈ its ->
     Builder.parseLabels proto labels !! unCell c = None ->
     match proto (unCell c) with
     | None => exists q, labelCount (data n) !! "undefined" = Some q
     | Some text => exists q, labelCount (data n) !! text = Some q
     end).
Proof.
  intros Hget Hn Hits Hlen.
  pose proof (getData_labelled _ _ _ _ Hget) as Hlab.
  rewrite Forall_forall in Hlab. specialize (Hlab n Hn).
  unfold labelled in Hlab. rewrite Hits in Hlab.
  assert (forall c, c ∈ its ->
     is_Some (labelCount (data n)
              !! filedUnder proto (Builder.parseLabels proto labels) c))
    as Hfiled.
  { intros c Hc. rewrite Hlab. unfold Builder.countLabels.
    apply countLabels_fold_files. right. eauto. }
  split; [exact Hfiled|]. split; [|split].
  - intros L HL. rewrite Hlab. apply countLabels_lookup; [done|lia].
  - intros L HL. rewrite Hlab. unfold Builder.countLabels.
    rewrite countLabels_fold_other by done. apply lookup_empty.
  - intros c Hc Habs. specialize (Hfiled c Hc).
    unfold filedUnder in Hfiled. rewrite Habs in Hfiled.
    destruct (proto (unCell c)) as [text|]; exact Hfiled.
Qed.

Lemma getData_leaf_labelCount_witness :
  exists t,
    Builder.getData JS.v8_prototype labels_red_blue (flat_leaf ["1"; "2"])
    = Ok t /\
    labelCount (data t) !! "red" = Some (JS.Num 1) /\
    labelCount (data t) !! "blue" = Some (JS.Num 1) /\
    labelCount (data t) !! "undefined" = None.
Proof.
  assert (exists t,
            Builder.getData JS.v8_prototype labels_red_blue
              (flat_leaf ["1"; "2"]) = Ok t /\
            t ∈ nodes t /\
            items (data t) = Some (map cell ["1"; "2"]))
    as (t & Hget & Hin & Hits).
  { eexists. split; [vm_compute; reflexivity|]. split; [by left|reflexivity]. }
  destruct (getData_leaf_labelCount JS.v8_prototype _ _ t t _ Hget Hin Hits)
    as (_ & Hall & _); [by vm_compute|].
  exists t. split; [done|].
  rewrite !Hall by by vm_compute. by vm_compute.
Defined.

(** The scenario of C3 in full: the leaf's label count is the dictionary
    [{red: 1, blue: 1}]. *)
Example getData_red_blue :
  exists t,
    Builder.getData JS.v8_prototype labels_red_blue (flat_leaf ["1"; "2"])
    = Ok t /\
    labelCount (data t) = {[ "red" := JS.Num 1; "blue" := JS.Num 1 ]}.
Proof. eexists. split; vm_compute; reflexivity. Qed.

(** C3, as stated, fails on a leaf with the barcodes 1 and 3 under the same
    label file: barcode 3 has no label, and the label count is
    [{red: 1, undefined: 1}], whose key ["undefined"] is no label of the
    file. *)
Lemma getData_counts_unknown_barcode :
  exists t,
    Builder.getData JS.v8_prototype labels_red_blue (flat_leaf ["1"; "3"])
    = Ok t /\
    Builder.parseLabels JS.v8_prototype labels_red_blue !! "3" = None /\
    labelCount (data t) = {[ "red" := JS.Num 1; "undefined" := JS.Num 1 ]} /\
    ~ known_label (Builder.parseLabels JS.v8_prototype labels_red_blue)
        "undefined".
Proof.
  eexists. split; [vm_compute; reflexivity|].
  split; [vm_compute; reflexivity|]. split; [vm_compute; reflexivity|].
  intros [b Hb]. apply elem_of_map_to_list in Hb.
  assert (map_to_list (Builder.parseLabels JS.v8_prototype labels_red_blue)
          = [("1", Some "red"); ("2", Some "blue")]) as Heq
    by (vm_compute; reflexivity).
  rewrite Heq in Hb.
  apply elem_of_cons in Hb as [[=]|Hb].
  apply elem_of_cons in Hb as [[=]|Hb].
  by apply elem_of_nil in Hb.
Qed.

(** A barcode the label file has not got and that names a member of
    [Object.prototype]: in V8 the item is filed under the text of the
    function [toString]. *)
Example getData_barcode_toString :
  exists t,
    Builder.getData JS.v8_prototype labels_red_blue
      (flat_leaf ["1"; "toString"]) = Ok t /\
    labelCount (data t)
    = {[ "red" := JS.Num 1;
         "function toString() { [native code] }" := JS.Num 1 ]}.
Proof. eexists. split; vm_compute; reflexivity. Qed.

(** A label that names a member of [Object.prototype]: the count the code
    reads before its first item is the member, and what it writes is a
    string, the text of the member with the digit 1 appended. *)
Example getData_label_constructor :
  exists t,
    Builder.getData JS.v8_prototype
      ("id,label" ++ String Builder.newline "1,constructor")
      (flat_leaf ["1"]) = Ok t /\
    labelCount (data t)
    = {[ "constructor" :=
           JS.Text [JS.Chars "function Object() { [native code] }";
                    JS.Digits 1] ]}.
Proof. eexists. split; vm_compute; reflexivity. Qed.

(** ** Sorting under a strict order *)

Section array_sort_strict.
Context {A : Type} (comparefn : A -> A -> Z).

Hypothesis before_asym :
  forall a b, before comparefn a b -> ~ before comparefn b a.
Hypothesis before_trans :
  forall a b c, before comparefn a b -> before comparefn b c -> before comparefn a c.

Lemma sort_insert_not_after x l :
  StronglySorted (fun a b => ~ before comparefn b a) l ->
  StronglySorted (fun a b => ~ before comparefn b a) (JS.sort_insert comparefn x l).
Proof.
  induction 1 as [|y l Hl IH Hy]; simpl.
  - repeat constructor.
  - destruct (comparefn x y <? 0)%Z eqn:Hxy.
    + constructor; [by constructor|].
      constructor; [by apply before_asym|].
      eapply Forall_impl; [exact Hy|]. intros w Hw Hwx.
      apply Hw. by eapply before_trans.
    + constructor; [done|].
      rewrite <- (sort_insert_perm comparefn x l). constructor; [|done].
      unfold before. by rewrite Hxy.
Qed.

Lemma array_sort_not_after l :
  StronglySorted (fun a b => ~ before comparefn b a) (JS.array_sort comparefn l).
Proof.
  unfold JS.array_sort.
  assert (StronglySorted (fun a b => ~ before comparefn b a) []) as Hnil
    by constructor.
  revert Hnil. generalize (@nil A).
  induction l as [|x l IH]; intros acc Hacc; simpl; [done|].
  by apply IH, sort_insert_not_after.
Qed.

End array_sort_strict.

(** ** Strings *)

Lemma ltb_lt a b : String.ltb a b = true <-> OrderedTypeEx.String_as_OT.lt a b.
Proof.
  unfold String.ltb. rewrite <- OrderedTypeEx.String_as_OT.cmp_lt.
  unfold OrderedTypeEx.String_as_OT.cmp. by destruct (String.compare a b).
Qed.

Lemma ltb_trans a b c :
  String.ltb a b = true -> String.ltb b c = true -> String.ltb a c = true.
Proof.
  rewrite !ltb_lt. apply OrderedTypeEx.String_as_OT.lt_trans.
Qed.

Lemma ltb_irrefl a : String.ltb a a = false.
Proof.
  destruct (String.ltb a a) eqn:H; [|done].
  apply ltb_lt, OrderedTypeEx.String_as_OT.lt_not_eq in H. by destruct H.
Qed.

Lemma ltb_asym a b : String.ltb a b = true -> String.ltb b a = true -> False.
Proof.
  intros H1 H2. pose proof (ltb_trans _ _ _ H1 H2) as H.
  by rewrite ltb_irrefl in H.
Qed.

Lemma ltb_total a b : a <> b -> String.ltb a b = true \/ String.ltb b a = true.
Proof.
  intros Hne. unfold String.ltb.
  rewrite (String.compare_antisym a b).
  destruct (String.compare b a) eqn:E; simpl; auto.
  by apply String.compare_eq_iff in E.
Qed.

Lemma string_app_assoc (a b c : string) : ((a ++ b) ++ c = a ++ (b ++ c))%string.
Proof.
  induction a as [|x a IH]; [done|].
  change (String x ((a ++ b) ++ c) = String x (a ++ (b ++ c)))%string.
  by rewrite IH.
Qed.

Lemma string_app_nil_r (a : string) : (a ++ "")%string = a.
Proof.
  induction a as [|x a IH]; [done|].
  change (String x (a ++ "") = String x a)%string. by rewrite IH.
Qed.

(** ** The category key *)

Lemma compareKeys_before e1 e2 :
  before Annotator.compareKeys e1 e2 <-> String.ltb e1.1 e2.1 = true.
Proof.
  unfold before, Annotator.compareKeys. by destruct (String.ltb e1.1 e2.1).
Qed.

Lemma level_spec thresholds k th v :
  thresholds !! k = Some th -> (0 < th)%Q ->
  Annotator.level thresholds k v = spec_level th v.
Proof.
  intros Hk Hth. unfold Annotator.level, spec_level, JS.truthy. rewrite Hk.
  destruct (Qle_bool th v) eqn:Hle; [|by rewrite andb_false_r].
  rewrite andb_true_r. apply Qle_bool_iff in Hle.
  destruct (Qeq_bool v 0) eqn:Hz; [|done].
  apply Qeq_bool_iff in Hz. rewrite Hz in Hle.
  exfalso. by apply (Qlt_not_le _ _ Hth).
Qed.

(** One piece of the key: ["<level>-<name>"]. *)
Lemma appendLevel_fold thresholds l acc :
  acc <> ""%string ->
  fold_left (Annotator.appendLevel thresholds) l acc
  = match l with
    | [] => acc
    | _ => (acc ++ "-"
            ++ String.concat "-"
                 (map (fun e => (Annotator.level thresholds e.1 e.2 ++ "-" ++ e.1)%string)
                    l))%string
    end.
Proof.
  revert acc. induction l as [|e l IH]; intros acc Hacc; [done|].
  cbn [fold_left]. rewrite IH.
  - destruct acc as [|a acc]; [done|].
    destruct l as [|e' l]; unfold Annotator.appendLevel;
      cbn [map String.concat]; by rewrite !string_app_assoc.
  - unfold Annotator.appendLevel. destruct acc as [|a acc]; [done|].
    discriminate.
Qed.

Lemma appendLevel_fold_empty thresholds l :
  fold_left (Annotator.appendLevel thresholds) l ""
  = String.concat "-"
      (map (fun e => (Annotator.level thresholds e.1 e.2 ++ "-" ++ e.1)%string) l).
Proof.
  destruct l as [|e l]; [done|]. cbn [fold_left].
  rewrite appendLevel_fold.
  - unfold Annotator.appendLevel. cbn [map String.concat].
    destruct l as [|e' l]; [done|]. done.
  - unfold Annotator.appendLevel, Annotator.level.
    by destruct (_ && _).
Qed.

Lemma StronglySorted_strict {A B} (R R' : A -> A -> Prop) (f : A -> B) l :
  (forall a b, R a b -> f a <> f b -> R' a b) ->
  NoDup (map f l) ->
  StronglySorted R l -> StronglySorted R' l.
Proof.
  intros HR Hnd Hl. induction Hl as [|x l Hl IH Hx]; [constructor|].
  cbn in Hnd. apply NoDup_cons in Hnd as [Hx' Hnd].
  constructor; [auto|].
  rewrite Forall_forall in Hx. apply Forall_forall. intros y Hy.
  apply HR; [auto|]. intros Heq. apply Hx'. rewrite Heq.
  by apply list_elem_of_fmap_2.
Qed.

(** The active entries of a cell, once sorted, are the sorted names with the
    cell's values. *)
Lemma sorted_entries activeFeatures (c : Cell) names :
  Permutation names activeFeatures ->
  lex_sorted names ->
  (forall f, f ∈ activeFeatures -> is_Some (_featureCounts c !! f)) ->
  JS.array_sort Annotator.compareKeys
    (List.filter (fun e => bool_decide (e.1 ∈ activeFeatures))
       (map_to_list (_featureCounts c)))
  = map (fun f => (f, default 0%Q (_featureCounts c !! f))) names.
Proof.
  intros Hperm Hsorted Hdef.
  set (fc := _featureCounts c).
  set (L := List.filter _ _). set (S := JS.array_sort _ L).
  assert (Permutation L S) as HLS by apply array_sort_perm.
  assert (forall e, e ∈ L <-> fc !! e.1 = Some e.2 /\ e.1 ∈ activeFeatures) as HL.
  { intros [k v]. unfold L. rewrite list_elem_of_In, filter_In, <- list_elem_of_In.
    rewrite elem_of_map_to_list, bool_decide_eq_true. done. }
  assert (NoDup (map fst L)) as HndL.
  { unfold L. generalize (NoDup_fst_map_to_list fc).
    generalize (map_to_list fc). intros l.
    induction l as [|e l IH]; cbn; [done|].
    intros [He Hl]%NoDup_cons. destruct (bool_decide _); [|auto].
    cbn. apply NoDup_cons. split; [|auto].
    intros Hin. apply He. apply list_elem_of_fmap in Hin as (e' & -> & Hin).
    apply list_elem_of_fmap_2.
    by apply list_elem_of_In, filter_In in Hin as [Hin%list_elem_of_In _]. }
  assert (NoDup (map fst S)) as HndS by by rewrite <- HLS.
  assert (StronglySorted (fun a b => String.ltb a.1 b.1 = true) S) as Hs.
  { apply (StronglySorted_strict
             (fun a b => ~ before Annotator.compareKeys b a) _ fst); [|done|].
    - intros a b Hab Hne. destruct (ltb_total _ _ Hne) as [H|H]; [done|].
      destruct Hab. by apply compareKeys_before.
    - apply array_sort_not_after.
      + intros a b Hab%compareKeys_before Hba%compareKeys_before.
        by eapply ltb_asym.
      + intros a b d Hab%compareKeys_before Hbd%compareKeys_before.
        apply compareKeys_before. by eapply ltb_trans. }
  assert (NoDup names) as Hndn.
  { clear -Hsorted. induction Hsorted as [|x l Hl IH Hx]; constructor; [|done].
    intros Hin. rewrite Forall_forall in Hx. specialize (Hx x Hin).
    by rewrite ltb_irrefl in Hx. }
  assert (map fst S = names) as Hfst.
  { apply (StronglySorted_unique_strong (fun a b => String.ltb a b = true)).
    - intros x1 x2 _ _ H1 H2. by destruct (ltb_asym _ _ H1 H2).
    - by apply StronglySorted_map.
    - done.
    - apply NoDup_Permutation; [done..|]. intros k.
      rewrite <- HLS, Hperm, list_elem_of_fmap. split.
      + intros (e & -> & He%HL). tauto.
      + intros Hk. destruct (Hdef k Hk) as [v Hv].
        exists (k, v). split; [done|]. by apply HL. }
  rewrite <- Hfst, map_map. rewrite <- (map_id S) at 1.
  apply map_ext_in. intros [k v] Hin. cbn.
  assert ((k, v) ∈ L) as HinL by by rewrite HLS, list_elem_of_In.
  apply HL in HinL as [Hv _]. cbn in Hv. fold fc. by rewrite Hv.
Qed.

Lemma categoryKey_spec thresholds activeFeatures (c : Cell) names :
  Permutation names activeFeatures ->
  lex_sorted names ->
  (forall f, f ∈ activeFeatures ->
     exists th, thresholds !! f = Some th /\ (0 < th)%Q) ->
  (forall f, f ∈ activeFeatures -> is_Some (_featureCounts c !! f)) ->
  Annotator.categoryKey thresholds activeFeatures c
  = spec_categoryKey thresholds c names.
Proof.
  intros Hperm Hsorted Hth Hdef.
  unfold Annotator.categoryKey, spec_categoryKey.
  rewrite (sorted_entries _ _ names) by done.
  rewrite appendLevel_fold_empty, map_map. f_equal.
  apply map_ext_in. intros f Hf%list_elem_of_In. cbn.
  rewrite Hperm in Hf. destruct (Hth f Hf) as (th & Hk & Hpos).
  rewrite (level_spec _ _ th) by done. by rewrite Hk.
Qed.

(** ** The tally of category keys at a leaf *)

Lemma tallyKey_fold thresholds activeFeatures its acc key :
  key <> ""%string ->
  fold_left
    (fun hilo cell =>
       Annotator.tallyKey hilo
         (Annotator.categoryKey thresholds activeFeatures cell))
    its acc !! key
  = match keyCount thresholds activeFeatures key its with
    | 0 => acc !! key
    | S n =>
        Some match acc !! key with
             | Some e => Annotator.mkHiLo (Annotator.scaleKey e)
                           (Annotator.quantity e + Z.of_nat (S n))
             | None => Annotator.mkHiLo key (Z.of_nat (S n))
             end
    end.
Proof.
  intros Hkey. revert acc. unfold keyCount.
  induction its as [|c its IH]; intros acc; [done|].
  cbn [fold_left List.filter]. rewrite IH. clear IH.
  set (kc := Annotator.categoryKey thresholds activeFeatures c).
  case_bool_decide as Hc.
  - cbn [length]. unfold Annotator.tallyKey. rewrite Hc.
    destruct key as [|a key]; [done|]. rewrite lookup_insert_eq.
    destruct (length _) as [|n].
    + by destruct (acc !! String a key).
    + f_equal. destruct (acc !! String a key); cbn; f_equal; lia.
  - assert (Annotator.tallyKey acc kc !! key = acc !! key) as ->; [|done].
    unfold Annotator.tallyKey. destruct kc; [done|].
    by rewrite lookup_insert_ne.
Qed.

Lemma leafFeatureCount_lookup thresholds activeFeatures its key :
  key <> ""%string ->
  Annotator.leafFeatureCount thresholds activeFeatures its !! key
  = match keyCount thresholds activeFeatures key its with
    | 0 => None
    | S n => Some (Annotator.mkHiLo key (Z.of_nat (S n)))
    end.
Proof.
  intros Hkey. unfold Annotator.leafFeatureCount.
  rewrite tallyKey_fold by done. by rewrite lookup_empty.
Qed.



(** The scenario of C4 through the whole pass: on the tree that is this one
    leaf, the [featureCount] read back is
    [{high-F: {quantity: 1}, low-F: {quantity: 1}}]. *)
Example updateFeatureCounts_leaf_5_1 :
  exists t st,
    Annotator.updateFeatureCounts {[ "F" := 3%Q ]} ["F"] leaf_5_1 [] = Some (t, st) /\
    Annotator.readFeatureCount t st
    = {[ "high-F" := Some (Annotator.mkHiLo "high-F" 1);
         "low-F" := Some (Annotator.mkHiLo "low-F" 1) ]}.
Proof. eexists _, _. split; vm_compute; reflexivity. Qed.

(** ** The average annotator *)

Lemma average_unfold feature d v k ch :
  Averages.updateFeatureCounts feature (T d v k ch)
  = ch' ← mapM (Averages.updateFeatureCounts feature) ch;
    q ← match items d with
        | Some its =>
            Some (Averages.div (Some (Averages.featureTotal feature its))
                    (inject_Z <$> v))
        | None =>
            match ch' with
            | c0 :: c1 :: _ =>
                Some (Averages.div
                        (Averages.add (Averages.quantity (data c0))
                           (Averages.quantity (data c1)))
                        (Some (inject_Z (Z.of_nat (size (T d v k ch)) - 1))))
            | _ => None
            end
        end;
    Some (T (Averages.mkAveraged d q) v k ch').
Proof. reflexivity. Qed.

Lemma average_defined feature (t : tree TMCNode) :
  is_Some (Averages.updateFeatureCounts feature t)
  <-> Forall (fun n => items (data n) = None -> 2 <= length (children n))
        (nodes t).
Proof.
  induction t as [d v k ch IH] using tree_ind'.
  rewrite average_unfold, Forall_nodes. cbn [data children].
  assert (is_Some (mapM (Averages.updateFeatureCounts feature) ch)
          <-> Forall (fun c => Forall (fun n => items (data n) = None ->
                                          2 <= length (children n)) (nodes c)) ch)
    as Hch.
  { rewrite mapM_is_Some. rewrite !Forall_forall in *.
    split; intros H c Hc; apply (IH c Hc), H, Hc. }
  rewrite <- Hch. clear Hch IH.
  destruct (mapM _ ch) as [ch'|] eqn:Hm; cbn.
  - apply mapM_Some, Forall2_length in Hm. rewrite Hm.
    destruct (items d) as [its|]; cbn.
    + split; [intros _; split; [done|by eexists]|by eexists].
    + destruct ch' as [|c0 [|c1 rest]]; cbn.
      * split; [by intros [? [=]]|]. intros [H _]. specialize (H eq_refl). lia.
      * split; [by intros [? [=]]|]. intros [H _]. specialize (H eq_refl). lia.
      * split; [intros _; split; [intros _; lia|by eexists]|by eexists].
  - split; [by intros [? [=]]|]. by intros [_ [? [=]]].
Qed.


(** A node without items over the leaf of C4's scenario alone: the call
    fails; over two such leaves it returns. *)
Example average_one_child_fails :
  Averages.updateFeatureCounts "F" (T (flatNode "p" None None) (Some 2%Z) 0 [leaf_5_1])
  = None.
Proof. reflexivity. Qed.

(** ** The store *)

Lemma shaped_unfold ns p (t : tree (nat * nat)) :
  shaped ns p t
  <-> ns !! addr t = Some (nodeOf p t) /\
      Forall (shaped ns (Some (addr t))) (children t).
Proof.
  destruct t as [d v k ch]. cbn [shaped children].
  apply and_iff_compat_l.
  generalize (addr (T d v k ch)). intros i.
  induction ch as [|c ch IH]; [by split; [constructor|]|].
  rewrite Forall_cons, IH. reflexivity.
Qed.

Lemma addrs_unfold (t : tree (nat * nat)) :
  addrs t = addr t :: flat_map addrs (children t).
Proof.
  destruct t as [d v k ch]. unfold addrs. cbn [nodes map children]. f_equal.
  induction ch as [|c ch IH]; [done|]. cbn. by rewrite map_app, IH.
Qed.

Lemma addr_in_addrs (t : tree (nat * nat)) : addr t ∈ addrs t.
Proof. rewrite addrs_unfold. by left. Qed.

Lemma shaped_frame ns ns' p (t : tree (nat * nat)) :
  (forall j, j ∈ addrs t -> ns' !! j = ns !! j) ->
  shaped ns p t -> shaped ns' p t.
Proof.
  revert p. induction t as [d v k ch IH] using tree_ind'.
  intros p Hsame. rewrite !shaped_unfold. intros [Hroot Hch]. split.
  - rewrite Hsame; [done|]. apply addr_in_addrs.
  - cbn [children] in *. rewrite Forall_forall in IH, Hch. apply Forall_forall.
    intros c Hc. apply (IH c Hc); [|by apply Hch].
    intros j Hj. apply Hsame. rewrite addrs_unfold. right.
    apply list_elem_of_In, in_flat_map. exists c.
    by rewrite <- !list_elem_of_In.
Qed.

Lemma shaped_lookup ns p (t x : tree (nat * nat)) :
  shaped ns p t -> x ∈ nodes t -> is_Some (ns !! addr x).
Proof.
  revert p. induction t as [d v k ch IH] using tree_ind'.
  intros p [Hroot Hch]%shaped_unfold. cbn [nodes children] in *.
  intros [->|Hx]%elem_of_cons; [by eexists|].
  apply list_elem_of_In, in_flat_map in Hx as (c & Hc & Hx).
  rewrite <- !list_elem_of_In in *.
  rewrite Forall_forall in IH, Hch.
  eapply (IH c Hc); [apply (Hch c Hc)|exact Hx].
Qed.

Lemma clearSet_lookup targets ns j :
  clearSet targets ns !! j
  = (fun n => if bool_decide (j ∈ targets) then clear n else n) <$> ns !! j.
Proof. unfold clearSet. by rewrite list_lookup_imap. Qed.

Lemma clearSet_length targets ns : length (clearSet targets ns) = length ns.
Proof. unfold clearSet. by rewrite length_imap. Qed.

Lemma clearSet_nil ns : clearSet [] ns = ns.
Proof.
  apply list_eq. intros j. rewrite clearSet_lookup.
  destruct (ns !! j); [|done]. cbn. by rewrite bool_decide_eq_false_2 by apply not_elem_of_nil.
Qed.

Lemma clear_clear n : clear (clear n) = clear n.
Proof. done. Qed.

Lemma clearSet_app t1 t2 ns :
  clearSet t2 (clearSet t1 ns) = clearSet (t1 ++ t2) ns.
Proof.
  apply list_eq. intros j. rewrite !clearSet_lookup.
  destruct (ns !! j) as [n|]; [|done]. cbn. f_equal.
  rewrite (bool_decide_ext (j ∈ t1 ++ t2) (j ∈ t1 \/ j ∈ t2))
    by apply elem_of_app.
  destruct (decide (j ∈ t1)) as [H1|H1], (decide (j ∈ t2)) as [H2|H2].
  all: rewrite ?(bool_decide_eq_true_2 _ H1), ?(bool_decide_eq_false_2 _ H1),
         ?(bool_decide_eq_true_2 _ H2), ?(bool_decide_eq_false_2 _ H2).
  all: (rewrite bool_decide_eq_true_2 by tauto)
       || (rewrite bool_decide_eq_false_2 by tauto); done.
Qed.

Lemma clearSet_outside targets ns j :
  j ∉ targets -> clearSet targets ns !! j = ns !! j.
Proof.
  intros Hj. rewrite clearSet_lookup. destruct (ns !! j); [|done].
  cbn. by rewrite bool_decide_eq_false_2.
Qed.

Lemma clearSet_inside targets ns j n :
  j ∈ targets -> ns !! j = Some n -> clearSet targets ns !! j = Some (clear n).
Proof.
  intros Hj Hn. rewrite clearSet_lookup, Hn. cbn.
  by rewrite bool_decide_eq_true_2.
Qed.

Lemma clearSet_alter q ns :
  alter clear q ns = clearSet [q] ns.
Proof.
  apply list_eq. intros j. rewrite clearSet_lookup.
  destruct (decide (j = q)) as [->|Hne].
  - rewrite list_lookup_alter_eq. destruct (ns !! q); [|done]. cbn.
    by rewrite bool_decide_eq_true_2 by by left.
  - rewrite list_lookup_alter_ne by done. destruct (ns !! j); [|done]. cbn.
    rewrite bool_decide_eq_false_2; [done|]. by intros ->%list_elem_of_singleton.
Qed.

(** The store operations, run. *)
Lemma getNode_run h i n :
  Heap.nodes h !! i = Some n -> Heap.getNode i h = Some (n, h).
Proof. intros H. unfold Heap.getNode. by rewrite H. Qed.

Lemma setChildren_None_run h q n :
  Heap.nodes h !! q = Some n ->
  Heap.setChildren q None h
  = Some (tt, Heap.mkHeap (clearSet [q] (Heap.nodes h)) (Heap.objs h)).
Proof.
  intros H. unfold Heap.setChildren, mbind, Heap.M_bind.
  rewrite (getNode_run _ _ _ H). unfold Heap.setNode. do 3 f_equal.
  rewrite <- clearSet_alter. apply list_eq. intros j.
  destruct (decide (j = q)) as [->|Hne].
  - rewrite list_lookup_alter_eq, H. apply list_lookup_insert_eq.
    by eapply lookup_lt_Some.
  - by rewrite list_lookup_alter_ne, list_lookup_insert_ne.
Qed.

(** ** [eachBefore] with a callback that clears the parent's children *)

Lemma pending_nil ns objs : pending ns objs [].
Proof. split; constructor. Qed.

Lemma heap_eta h : Heap.mkHeap (Heap.nodes h) (Heap.objs h) = h.
Proof. by destruct h. Qed.

Lemma default_childrenField l : default [] (childrenField l) = l.
Proof. by destruct l. Qed.

Lemma clearSet_shaped targets ns p (t : tree (nat * nat)) :
  (forall j, j ∈ targets -> j ∉ addrs t) ->
  shaped ns p t -> shaped (clearSet targets ns) p t.
Proof.
  intros Hout. apply shaped_frame. intros j Hj.
  apply clearSet_outside. intros Hin. by apply (Hout j).
Qed.

Lemma clearSet_is_Some targets ns j :
  is_Some (clearSet targets ns !! j) <-> is_Some (ns !! j).
Proof. rewrite clearSet_lookup. apply fmap_is_Some. Qed.

Lemma forestAddrs_cons p (t : tree (nat * nat)) F :
  forestAddrs ((p, t) :: F)
  = addr t :: forestAddrs (map (fun c => (Some (addr t), c)) (children t) ++ F).
Proof.
  unfold forestAddrs. cbn [flat_map fst snd]. rewrite addrs_unfold. cbn.
  f_equal. rewrite flat_map_app. f_equal.
  induction (children t) as [|c ch IH]; [done|]. cbn. by rewrite IH.
Qed.

(** One step of the traversal: the top subtree gives way to its children. *)
Lemma pending_step ns objs p (t : tree (nat * nat)) F targets :
  pending ns objs ((p, t) :: F) ->
  (forall j, j ∈ targets -> p = Some j) ->
  pending (clearSet targets ns) objs
    (map (fun c => (Some (addr t), c)) (children t) ++ F).
Proof.
  intros [Hall Hnd] Htargets.
  rewrite forestAddrs_cons in Hnd. apply NoDup_cons in Hnd as [Hroot Hnd].
  apply Forall_cons in Hall as [(Ht & Hp & Hobj) HF].
  cbn [fst snd] in *.
  assert (forall j, j ∈ targets -> j ∉ forestAddrs ((p, t) :: F)) as Hout.
  { intros j Hj. by apply Hp, Htargets. }
  split; [|done]. apply Forall_app. split.
  - pose proof (proj1 (shaped_unfold _ _ _) Ht) as [Hroot' Hch].
    apply Forall_nodes in Hobj as [_ Hobj].
    apply Forall_map. rewrite Forall_forall in Hch, Hobj. apply Forall_forall.
    intros c Hc. cbn [fst snd]. split; [|split].
    + apply clearSet_shaped; [|by apply Hch].
      intros j Hj Hin. apply (Hout j Hj). rewrite forestAddrs_cons. right.
      unfold forestAddrs. rewrite flat_map_app, elem_of_app. left.
      apply list_elem_of_In, in_flat_map. exists (Some (addr t), c).
      split; [|by apply list_elem_of_In].
      apply in_map_iff. exists c. by rewrite <- list_elem_of_In.
    + intros q [= <-]. split; [done|].
      apply clearSet_is_Some. by eexists.
    + by apply Hobj.
  - rewrite Forall_forall in HF. apply Forall_forall.
    intros [p' t'] He. destruct (HF _ He) as (Ht' & Hp' & Hobj').
    cbn [fst snd] in *. split; [|split; [|done]].
    + apply clearSet_shaped; [|done].
      intros j Hj Hin. apply (Hout j Hj). rewrite forestAddrs_cons. right.
      unfold forestAddrs. rewrite flat_map_app, elem_of_app. right.
      apply list_elem_of_In, in_flat_map. exists (p', t').
      by rewrite <- !list_elem_of_In.
    + intros q Hq. destruct (Hp' q Hq) as [Hq1 Hq2]. split.
      * intros Hin. apply Hq1. rewrite forestAddrs_cons. by right.
      * by apply clearSet_is_Some.
Qed.

Section dropSiblings_loop.
Context (objs : list TMCNode) (cond : nat -> option Z -> nat -> bool).
Context (callback : nat -> Heap.M unit).

Hypothesis callback_run : forall ns i n,
  ns !! i = Some n ->
  (forall q, Heap.parent n = Some q -> is_Some (ns !! q)) ->
  is_Some (objs !! Heap.data n) ->
  callback i (Heap.mkHeap ns objs)
  = Some (tt, Heap.mkHeap
                (clearSet
                   (if cond (Heap.data n) (Heap.value n) (Heap.depth n)
                    then option_list (Heap.parent n) else [])
                   ns)
                objs).

Lemma dropSiblings_loop rounds F ns :
  pending ns objs F ->
  length (forestAddrs F) <= rounds ->
  Heap.eachBefore_loop callback rounds (map (fun e => addr e.2) F)
    (Heap.mkHeap ns objs)
  = Some (tt, Heap.mkHeap
                (clearSet (flat_map (fun e => parentTargets cond e.1 e.2) F) ns)
                objs).
Proof.
  revert F ns. induction rounds as [|rounds IH]; intros F ns Hpend Hlen.
  - destruct F as [|[p t] F]; [by rewrite clearSet_nil|].
    rewrite forestAddrs_cons in Hlen. cbn in Hlen. lia.
  - destruct F as [|[p t] F]; [by rewrite clearSet_nil|].
    cbn [map Heap.eachBefore_loop fst snd].
    pose proof Hpend as [Hall _].
    apply Forall_cons in Hall as [(Ht & Hp & Hobj) _]. cbn [fst snd] in *.
    pose proof Ht as [Hroot _]%shaped_unfold.
    apply Forall_nodes in Hobj as [Hobj _].
    unfold mbind at 1, Heap.M_bind at 1.
    rewrite (callback_run ns (addr t) (nodeOf p t)); cbn [nodeOf Heap.parent Heap.data Heap.value Heap.depth]; [|done| |done].
    2:{ intros q ->. by apply Hp. }
    set (targets := if cond _ _ _ then option_list p else []).
    assert (forall j, j ∈ targets -> p = Some j) as Htargets.
    { intros j. unfold targets. destruct (cond _ _ _); [|by intros ?%elem_of_nil].
      destruct p; cbn; [|by intros ?%elem_of_nil].
      by intros ->%list_elem_of_singleton. }
    pose proof (pending_step _ _ _ _ _ targets Hpend Htargets) as Hpend'.
    unfold mbind at 1, Heap.M_bind at 1.
    rewrite (getNode_run _ (addr t) (nodeOf p t)).
    2:{ cbn. rewrite clearSet_outside; [done|]. intros Hin.
        apply Htargets in Hin. destruct (Hp _ Hin) as [Hp' _].
        apply Hp'. rewrite forestAddrs_cons. by left. }
    cbn [nodeOf Heap.children]. rewrite default_childrenField.
    specialize (IH _ _ Hpend').
    rewrite map_app, map_map in IH. cbn [snd] in IH.
    etrans; [apply IH; rewrite forestAddrs_cons in Hlen; cbn in Hlen; lia|].
    rewrite clearSet_app. cbn [flat_map fst snd].
    do 4 f_equal. rewrite flat_map_app, app_assoc. f_equal.
    subst targets. destruct t as [d v k ch].
    cbn [parentTargets children addr data value depth fst]. f_equal.
    generalize (addr (T d v k ch)). clear. intros i.
    induction ch as [|c ch IHch]; [done|]. cbn. by rewrite IHch.
Qed.

End dropSiblings_loop.

(** ** The tree the store holds afterwards *)

Lemma nodes_dropWhereChild_sublist {D} cond (t : tree D) :
  sublist (map data (nodes (dropWhereChild cond t))) (map data (nodes t)).
Proof.
  induction t as [d v k ch IH] using tree_ind'.
  cbn [dropWhereChild nodes map children data]. constructor.
  destruct (existsb _ ch); [apply sublist_nil_l|].
  clear -IH. induction IH as [|c ch Hc _ IHch]; [done|].
  cbn. rewrite !map_app. by apply sublist_app.
Qed.

Lemma nodes_dropWhere_sublist {D} cond (t : tree D) :
  sublist (map data (nodes (dropWhere cond t))) (map data (nodes t)).
Proof.
  induction t as [d v k ch IH] using tree_ind'.
  cbn [dropWhere nodes map children data]. constructor.
  destruct (cond d v k); [apply sublist_nil_l|].
  clear -IH. induction IH as [|c ch Hc _ IHch]; [done|].
  cbn. rewrite !map_app. by apply sublist_app.
Qed.

Lemma addrs_data (t : tree (nat * nat)) : addrs t = (map data (nodes t)).*1.
Proof. unfold addrs, addr. by rewrite <- list_fmap_compose. Qed.

Lemma tmap_dropWhereChild {D E} (g : D -> E) cond (t : tree D) :
  tmap g (dropWhereChild (fun d => cond (g d)) t)
  = dropWhereChild cond (tmap g t).
Proof.
  induction t as [d v k ch IH] using tree_ind'.
  cbn [dropWhereChild tmap]. f_equal.
  assert (existsb (fun c => cond (data c) (value c) (depth c)) (map (tmap g) ch)
          = existsb (fun c => cond (g (data c)) (value c) (depth c)) ch) as ->.
  { clear. induction ch as [|c ch IHch]; [done|]. cbn. rewrite IHch.
    by destruct c. }
  destruct (existsb _ ch); [done|].
  rewrite !map_map. apply map_ext_Forall. exact IH.
Qed.

Lemma tmap_dropWhere {D E} (g : D -> E) cond (t : tree D) :
  tmap g (dropWhere (fun d => cond (g d)) t) = dropWhere cond (tmap g t).
Proof.
  induction t as [d v k ch IH] using tree_ind'.
  cbn [dropWhere tmap]. f_equal. destruct (cond (g d) v k); [done|].
  rewrite !map_map. apply map_ext_Forall. exact IH.
Qed.

Lemma addr_dropWhereChild cond (t : tree (nat * nat)) :
  addr (dropWhereChild cond t) = addr t.
Proof. by destruct t. Qed.

Lemma addr_dropWhere cond (t : tree (nat * nat)) :
  addr (dropWhere cond t) = addr t.
Proof. by destruct t. Qed.

Lemma elem_of_flat_map {A B} (f : A -> list B) (l : list A) (y : B) :
  y ∈ flat_map f l <-> exists x, x ∈ l /\ y ∈ f x.
Proof.
  rewrite list_elem_of_In, in_flat_map. split; intros (x & Hx & Hy);
    exists x; by rewrite ?list_elem_of_In in *.
Qed.

Lemma hits_within cond (s : tree (nat * nat)) j :
  j ∈ hits cond s -> j ∈ addrs s.
Proof.
  induction s as [d v k ch IH] using tree_ind'.
  cbn [hits children]. rewrite addrs_unfold, elem_of_app. intros [Hj|Hj].
  - destruct (existsb _ _); [|by apply elem_of_nil in Hj].
    apply list_elem_of_singleton in Hj as ->. by left.
  - right. cbn [children]. apply elem_of_flat_map in Hj as (c & Hc & Hj).
    apply elem_of_flat_map. exists c. split; [done|].
    rewrite Forall_forall in IH. by apply IH.
Qed.

Lemma parentTargets_hits cond q (s : tree (nat * nat)) j :
  j ∈ parentTargets cond q s
  <-> (q = Some j /\ cond (data s).2 (value s) (depth s) = true)
      \/ j ∈ hits cond s.
Proof.
  revert q. induction s as [d v k ch IH] using tree_ind'. intros q.
  cbn [parentTargets hits children data value depth].
  rewrite !elem_of_app, !elem_of_flat_map.
  assert (j ∈ (if cond d.2 v k then option_list q else [])
          <-> q = Some j /\ cond d.2 v k = true) as ->.
  { destruct (cond d.2 v k); [|split; [by intros ?%elem_of_nil|by intros [_ ?]]].
    destruct q as [q|]; cbn.
    - rewrite list_elem_of_singleton. split; [by intros ->|by intros [[= ->] _]].
    - split; [by intros ?%elem_of_nil|by intros [? _]]. }
  apply or_iff_compat_l. set (i := addr (T d v k ch)).
  assert (j ∈ (if existsb (fun c => cond (data c).2 (value c) (depth c)) ch
               then [i] else [])
          <-> exists c, c ∈ ch /\ j = i /\ cond (data c).2 (value c) (depth c) = true)
    as ->.
  { destruct (existsb _ ch) eqn:Hex.
    - apply existsb_exists in Hex as (c & Hc%list_elem_of_In & Hcond).
      rewrite list_elem_of_singleton. split; [intros ->; eauto|by intros (_ & _ & -> & _)].
    - split; [by intros ?%elem_of_nil|]. intros (c & Hc & _ & Hcond).
      assert (existsb (fun c => cond (data c).2 (value c) (depth c)) ch = true)
        as Hex'; [|congruence].
      apply existsb_exists. exists c. by rewrite <- list_elem_of_In. }
  rewrite Forall_forall in IH. split.
  - intros (c & Hc & Hj). apply (IH c Hc) in Hj as [[[= <-] Hcond]|Hj]; eauto.
  - intros [(c & Hc & -> & Hcond)|(c & Hc & Hj)]; exists c; split; try done;
      apply (IH c Hc); eauto.
Qed.

Lemma NoDup_children (t c : tree (nat * nat)) :
  NoDup (addrs t) -> c ∈ children t ->
  NoDup (addrs c) /\ (addr t ∉ addrs c) /\
  (forall c' j, c' ∈ children t -> j ∈ addrs c -> j ∈ addrs c' -> c' = c).
Proof.
  rewrite addrs_unfold. intros [Hroot Hnd]%NoDup_cons Hc.
  split; [|split].
  - clear Hroot. induction (children t) as [|c0 ch IH]; [by apply elem_of_nil in Hc|].
    cbn in Hnd. apply NoDup_app in Hnd as (H0 & _ & Hch).
    apply elem_of_cons in Hc as [->|Hc]; auto.
  - intros Hin. apply Hroot, elem_of_flat_map. eauto.
  - clear Hroot. induction (children t) as [|c0 ch IH]; [by intros ? ? ?%elem_of_nil|].
    cbn in Hnd. apply NoDup_app in Hnd as (H0 & Hdisj & Hch).
    intros c' j Hc' Hj Hj'.
    apply elem_of_cons in Hc as [->|Hc], Hc' as [->|Hc']; [done| | |by eapply IH].
    + destruct (Hdisj j Hj). apply elem_of_flat_map. eauto.
    + destruct (Hdisj j Hj'). apply elem_of_flat_map. eauto.
Qed.

Lemma hits_root cond (t : tree (nat * nat)) :
  NoDup (addrs t) ->
  addr t ∈ hits cond t
  <-> existsb (fun c => cond (data c).2 (value c) (depth c)) (children t) = true.
Proof.
  intros Hnd. destruct t as [d v k ch]. cbn [hits children]. rewrite elem_of_app.
  split.
  - intros [Hin|Hin].
    + destruct (existsb _ ch); [done|by apply elem_of_nil in Hin].
    + exfalso. apply elem_of_flat_map in Hin as (c & Hc & Hin).
      destruct (NoDup_children _ c Hnd Hc) as (_ & Hout & _).
      by apply Hout, (hits_within cond).
  - intros ->. left. by left.
Qed.

Lemma hits_child cond (t c : tree (nat * nat)) j :
  NoDup (addrs t) -> c ∈ children t -> j ∈ addrs c ->
  j ∈ hits cond t <-> j ∈ hits cond c.
Proof.
  intros Hnd Hc Hj. destruct (NoDup_children t c Hnd Hc) as (_ & Hout & Huniq).
  destruct t as [d v k ch]. cbn [hits children] in *. rewrite elem_of_app.
  split.
  - intros [Hin|Hin].
    + destruct (existsb _ ch); [|by apply elem_of_nil in Hin].
      apply list_elem_of_singleton in Hin as ->. done.
    + apply elem_of_flat_map in Hin as (c' & Hc' & Hin).
      by rewrite <- (Huniq c' j Hc' Hj (hits_within _ _ _ Hin)).
  - intros Hin. right. apply elem_of_flat_map. eauto.
Qed.

Lemma shaped_dropWhereChild cond ns targets p (t : tree (nat * nat)) :
  shaped ns p t ->
  NoDup (addrs t) ->
  (forall j, j ∈ addrs t -> j ∈ targets <-> j ∈ hits cond t) ->
  shaped (clearSet targets ns) p (dropWhereChild (fun d => cond d.2) t).
Proof.
  revert p. induction t as [d v k ch IH] using tree_ind'.
  intros p Hshaped Hnd Htargets.
  pose proof (proj1 (shaped_unfold _ _ _) Hshaped) as [Hroot Hch].
  pose proof (hits_root cond _ Hnd) as Hroot_hit.
  rewrite <- (Htargets _ (addr_in_addrs _)) in Hroot_hit.
  apply shaped_unfold. rewrite addr_dropWhereChild.
  cbn [dropWhereChild children] in *.
  destruct (existsb _ ch) eqn:Hex.
  - split; [|constructor].
    by rewrite (clearSet_inside _ _ _ _ (proj2 Hroot_hit eq_refl) Hroot).
  - split.
    + rewrite clearSet_outside, Hroot.
      * unfold nodeOf. cbn [data value depth children]. do 3 f_equal.
        rewrite map_map. apply map_ext. intros c.
        symmetry. apply addr_dropWhereChild.
      * intros Hin. apply Hroot_hit in Hin. congruence.
    + apply Forall_map. rewrite Forall_forall in IH, Hch. apply Forall_forall.
      intros c Hc. destruct (NoDup_children _ c Hnd Hc) as (Hndc & _ & _).
      apply (IH c Hc); [by apply Hch|done|].
      intros j Hj. rewrite Htargets.
      * by apply hits_child.
      * rewrite addrs_unfold. right. apply elem_of_flat_map. eauto.
Qed.

(** ** [eachBefore] with a callback that clears the node's own children *)

Lemma pending_skip ns objs p (t : tree (nat * nat)) F :
  pending ns objs ((p, t) :: F) ->
  pending (clearSet [addr t] ns) objs F.
Proof.
  intros [Hall Hnd].
  rewrite forestAddrs_cons in Hnd. apply NoDup_cons in Hnd as [Hroot Hnd].
  apply Forall_cons in Hall as [_ HF].
  assert (forall j, j ∈ forestAddrs F ->
            j ∈ forestAddrs (map (fun c => (Some (addr t), c)) (children t) ++ F))
    as Hsub.
  { intros j Hj. unfold forestAddrs. rewrite flat_map_app, elem_of_app. by right. }
  split.
  - rewrite Forall_forall in HF. apply Forall_forall.
    intros [p' t'] He. destruct (HF _ He) as (Ht' & Hp' & Hobj').
    cbn [fst snd] in *. split; [|split; [|done]].
    + apply clearSet_shaped; [|done].
      intros j ->%list_elem_of_singleton Hin. apply Hroot, Hsub.
      apply elem_of_flat_map. by exists (p', t').
    + intros q Hq. destruct (Hp' q Hq) as [Hq1 Hq2]. split.
      * intros Hin. apply Hq1. rewrite forestAddrs_cons. right. by apply Hsub.
      * by apply clearSet_is_Some.
  - unfold forestAddrs in Hnd. rewrite flat_map_app in Hnd.
    by apply NoDup_app in Hnd as (_ & _ & Hnd).
Qed.

Lemma forestAddrs_length_cons p (t : tree (nat * nat)) F :
  length (forestAddrs F) < length (forestAddrs ((p, t) :: F)).
Proof.
  rewrite forestAddrs_cons. unfold forestAddrs.
  rewrite flat_map_app. cbn [length]. rewrite length_app.
  apply Nat.lt_succ_r, Nat.le_add_l.
Qed.

Section dropChildren_loop.
Context (objs : list TMCNode) (cond : nat -> option Z -> nat -> bool).
Context (callback : nat -> Heap.M unit).

Hypothesis callback_run : forall ns i n,
  ns !! i = Some n ->
  is_Some (objs !! Heap.data n) ->
  callback i (Heap.mkHeap ns objs)
  = Some (tt, Heap.mkHeap
                (clearSet
                   (if cond (Heap.data n) (Heap.value n) (Heap.depth n)
                    then [i] else [])
                   ns)
                objs).

Lemma dropChildren_loop rounds F ns :
  pending ns objs F ->
  length (forestAddrs F) <= rounds ->
  Heap.eachBefore_loop callback rounds (map (fun e => addr e.2) F)
    (Heap.mkHeap ns objs)
  = Some (tt, Heap.mkHeap
                (clearSet (flat_map (fun e => ownTargets cond e.2) F) ns)
                objs).
Proof.
  revert F ns. induction rounds as [|rounds IH]; intros F ns Hpend Hlen.
  - destruct F as [|[p t] F]; [by rewrite clearSet_nil|].
    rewrite forestAddrs_cons in Hlen. cbn in Hlen. lia.
  - destruct F as [|[p t] F]; [by rewrite clearSet_nil|].
    cbn [map Heap.eachBefore_loop fst snd].
    pose proof Hpend as [Hall _].
    apply Forall_cons in Hall as [(Ht & Hp & Hobj) _]. cbn [fst snd] in *.
    pose proof Ht as [Hroot _]%shaped_unfold.
    apply Forall_nodes in Hobj as [Hobj _].
    unfold mbind at 1, Heap.M_bind at 1.
    rewrite (callback_run ns (addr t) (nodeOf p t)) by done.
    cbn [nodeOf Heap.data Heap.value Heap.depth].
    unfold mbind at 1, Heap.M_bind at 1.
    pose proof (forestAddrs_length_cons p t F) as Hlt.
    assert (length (forestAddrs
                      (map (fun c => (Some (addr t), c)) (children t) ++ F))
            <= rounds) as Hlen'.
    { rewrite forestAddrs_cons in Hlen. cbn [length] in Hlen. lia. }
    destruct t as [d v k ch].
    cbn [ownTargets flat_map data value depth children snd] in *.
    destruct (cond d.2 v k) eqn:Hcond.
    + rewrite (getNode_run _ _ (clear (nodeOf p (T d v k ch)))).
      2:{ cbn. apply clearSet_inside; [by left|done]. }
      cbn [clear Heap.children default app].
      etrans; [apply IH; [by eapply pending_skip|lia]|].
      by rewrite clearSet_app.
    + rewrite (getNode_run _ _ (nodeOf p (T d v k ch))).
      2:{ cbn. by rewrite clearSet_nil. }
      cbn [nodeOf Heap.children]. rewrite default_childrenField.
      assert (pending (clearSet [] ns) objs
                (map (fun c => (Some (addr (T d v k ch)), c)) ch ++ F)) as Hpend'.
      { apply (pending_step _ _ p (T d v k ch)); [done|].
        by intros j ?%elem_of_nil. }
      specialize (IH _ _ Hpend').
      rewrite map_app, map_map in IH. cbn [snd] in IH.
      etrans; [apply IH; exact Hlen'|].
      rewrite clearSet_nil. do 4 f_equal. rewrite flat_map_app. f_equal.
      clear. generalize (addr (T d v k ch)). intros i.
      induction ch as [|c ch IHch]; [done|]. cbn. by rewrite IHch.
Qed.

End dropChildren_loop.

Lemma ownTargets_within cond (s : tree (nat * nat)) j :
  j ∈ ownTargets cond s -> j ∈ addrs s.
Proof.
  induction s as [d v k ch IH] using tree_ind'.
  cbn [ownTargets data value depth children]. rewrite addrs_unfold.
  destruct (cond d.2 v k).
  - intros ->%list_elem_of_singleton. by left.
  - intros (c & Hc & Hj)%elem_of_flat_map. right. cbn [children].
    apply elem_of_flat_map. exists c. split; [done|].
    rewrite Forall_forall in IH. by apply IH.
Qed.

Lemma shaped_dropWhere cond ns targets p (t : tree (nat * nat)) :
  shaped ns p t ->
  NoDup (addrs t) ->
  (forall j, j ∈ addrs t -> j ∈ targets <-> j ∈ ownTargets cond t) ->
  shaped (clearSet targets ns) p (dropWhere (fun d => cond d.2) t).
Proof.
  revert p. induction t as [d v k ch IH] using tree_ind'.
  intros p Hshaped Hnd Htargets.
  pose proof (proj1 (shaped_unfold _ _ _) Hshaped) as [Hroot Hch].
  pose proof (Htargets _ (addr_in_addrs _)) as Hroot_hit.
  apply shaped_unfold. rewrite addr_dropWhere.
  cbn [dropWhere ownTargets children data value depth] in *.
  destruct (cond d.2 v k) eqn:Hcond.
  - split; [|constructor].
    rewrite (clearSet_inside _ _ _ _ (proj2 Hroot_hit ltac:(by left)) Hroot).
    done.
  - split.
    + rewrite clearSet_outside, Hroot.
      * unfold nodeOf. cbn [data value depth children]. do 3 f_equal.
        rewrite map_map. apply map_ext. intros c.
        symmetry. apply addr_dropWhere.
      * intros Hin. apply Hroot_hit, elem_of_flat_map in Hin as (c & Hc & Hin).
        destruct (NoDup_children _ c Hnd Hc) as (_ & Hout & _).
        by apply Hout, (ownTargets_within cond).
    + apply Forall_map. rewrite Forall_forall in IH, Hch. apply Forall_forall.
      intros c Hc. destruct (NoDup_children _ c Hnd Hc) as (Hndc & _ & Huniq).
      apply (IH c Hc); [by apply Hch|done|].
      intros j Hj. rewrite Htargets.
      2:{ rewrite addrs_unfold. right. apply elem_of_flat_map. eauto. }
      rewrite elem_of_flat_map. split; [|by eauto].
      intros (c' & Hc' & Hin).
      by rewrite <- (Huniq c' j Hc' Hj (ownTargets_within _ _ _ Hin)).
Qed.

(** ** [copy] *)

Lemma Forall2_rev {A B} (P : A -> B -> Prop) l k :
  Forall2 P l k -> Forall2 P (rev l) (rev k).
Proof.
  induction 1 as [|x y l k Hxy _ IH]; [constructor|].
  cbn. apply Forall2_app; [done|]. by repeat constructor.
Qed.

Lemma shaped_app ns more p (t : tree (nat * nat)) :
  shaped ns p t -> shaped (ns ++ more) p t.
Proof.
  intros H. eapply shaped_frame; [|exact H].
  intros j Hj. apply lookup_app_l.
  assert (exists x, x ∈ nodes t /\ addr x = j) as (x & Hx & <-).
  { unfold addrs in Hj. apply list_elem_of_fmap in Hj as (x & -> & Hx). eauto. }
  destruct (shaped_lookup _ _ _ _ H Hx) as [n Hn]. by eapply lookup_lt_Some.
Qed.

Lemma newChildren_run parentNode childDepth (cs : list (tree (nat * nat)))
  ns objs :
  Forall (fun c => exists p, shaped ns p c) cs ->
  Heap.newChildren parentNode childDepth (map addr cs) (Heap.mkHeap ns objs)
  = Some (seq (length ns) (length cs),
          Heap.mkHeap (ns ++ map (childRecord parentNode childDepth) cs) objs).
Proof.
  revert ns. induction cs as [|c cs IH]; intros ns Hcs.
  - cbn. by rewrite app_nil_r.
  - apply Forall_cons in Hcs as [[p Hc] Hcs].
    cbn [map Heap.newChildren]. unfold mbind at 1, Heap.M_bind at 1.
    unfold Heap.newChild. unfold mbind at 1, Heap.M_bind at 1.
    pose proof (proj1 (shaped_unfold _ _ _) Hc) as [Hroot _].
    rewrite (getNode_run (Heap.mkHeap ns objs) _ _ Hroot). unfold Heap.newNode at 1.
    cbn [Heap.nodes Heap.objs nodeOf Heap.data Heap.value].
    unfold mbind at 1, Heap.M_bind at 1.
    rewrite IH.
    + cbn [mret Heap.M_ret]. rewrite length_app. cbn [length seq map].
      rewrite Nat.add_1_r, <- app_assoc. done.
    + eapply Forall_impl; [exact Hcs|]. intros c' [p' Hc'].
      exists p'. by apply shaped_app.
Qed.

Lemma alloc_lookup {A} (f : A -> Heap.Node) (ns : list Heap.Node) (cs : list A) :
  Forall2 (fun m c => length ns <= m /\ (ns ++ map f cs) !! m = Some (f c))
    (seq (length ns) (length cs)) cs.
Proof.
  revert ns. induction cs as [|c cs IH]; intros ns; [constructor|].
  cbn [length seq map]. constructor.
  - split; [done|]. by rewrite lookup_app_r, Nat.sub_diag by done.
  - specialize (IH (ns ++ [f c])). rewrite length_app in IH. cbn in IH.
    rewrite Nat.add_1_r, <- app_assoc in IH.
    eapply Forall2_impl; [exact IH|]. intros m c' [? ?]. split; [lia|done].
Qed.

Lemma zip_map_snd {A B C} (g : B -> C) (l : list A) (k : list B) :
  map (fun e => (e.1, g e.2)) (zip l k) = zip l (map g k).
Proof.
  revert k. induction l as [|x l IH]; intros [|y k]; cbn; [done..|].
  by rewrite IH.
Qed.

Lemma Forall2_zip_same_length {A B} (P : A -> B -> Prop) (Q : A * B -> Prop) l k :
  Forall2 P l k -> (forall x y, P x y -> Q (x, y)) -> Forall Q (zip l k).
Proof.
  intros H HPQ. induction H as [|x y l k Hxy _ IH]; cbn; constructor; auto.
Qed.

Lemma rebase_unfold {D} k (d : D) v k0 ch :
  rebase k (T d v k0 ch) = T d v k (map (rebase (S k)) ch).
Proof. done. Qed.

Lemma shaped_below ns p (t : tree (nat * nat)) :
  shaped ns p t -> Forall (fun j => j < length ns) (addrs t).
Proof.
  intros H. apply Forall_forall. intros j Hj.
  apply list_elem_of_fmap in Hj as (x & -> & Hx).
  destruct (shaped_lookup _ _ _ _ H Hx) as [n Hn]. by eapply lookup_lt_Some.
Qed.

Lemma addrs_child (t c : tree (nat * nat)) j :
  c ∈ children t -> j ∈ addrs c -> j ∈ addrs t.
Proof.
  intros Hc Hj. rewrite addrs_unfold. right. apply elem_of_flat_map. eauto.
Qed.

Lemma Forall2_zip {A B} (P : A -> B -> Prop) l k :
  Forall2 P l k -> Forall (fun e => P e.1 e.2 /\ e.2 ∈ k) (zip l k).
Proof.
  induction 1 as [|x y l k Hxy _ IH]; cbn; constructor.
  - split; [done|by left].
  - eapply Forall_impl; [exact IH|]. intros e [? ?]. split; [done|by right].
Qed.

Lemma Forall2_Forall_transfer {A B} (R : A -> B -> Prop) (P : A -> Prop)
  (Q : B -> Prop) l k :
  Forall2 R l k -> Forall P l -> (forall x y, R x y -> P x -> Q y) ->
  Forall Q k.
Proof.
  intros HR HP HQ. induction HR as [|x y l k Hxy _ IH]; [constructor|].
  apply Forall_cons in HP as [Hx HP]. constructor; eauto.
Qed.

Lemma Forall2_map_eq {A B C} (R : A -> B -> Prop) (f : B -> C) (g : A -> C) l k :
  Forall2 R l k -> (forall x y, x ∈ l -> R x y -> f y = g x) ->
  map f k = map g l.
Proof.
  intros HR Hfg. induction HR as [|x y l k Hxy _ IH]; [done|]. cbn. f_equal.
  - apply Hfg; [by left|done].
  - apply IH. intros x' y' Hx'. apply Hfg. by right.
Qed.

Lemma Forall2_impl_in {A B} (R R' : A -> B -> Prop) l k :
  Forall2 R l k -> (forall x y, x ∈ l -> R x y -> R' x y) -> Forall2 R' l k.
Proof.
  intros HR H. induction HR as [|x y l k Hxy _ IH]; constructor.
  - apply H; [by left|done].
  - apply IH. intros x' y' Hx'. apply H. by right.
Qed.

Lemma flat_map_snd {A B C} (f : B -> list C) (E : list (A * B)) :
  flat_map (fun e => f e.2) E = flat_map f E.*2.
Proof. induction E as [|e E IH]; [done|]. cbn. by rewrite IH. Qed.

Lemma sources_length_cons (node : nat) (s : tree (nat * nat))
  (E : list (nat * tree (nat * nat))) :
  length (flat_map (fun e => addrs e.2) ((node, s) :: E))
  = S (length (flat_map addrs (children s))
       + length (flat_map (fun e => addrs e.2) E)).
Proof.
  cbn [flat_map snd]. rewrite addrs_unfold, length_app. done.
Qed.

Lemma hierarchy_loop_run rounds bound objs E ns :
  copying bound ns E ->
  length (flat_map (fun e => addrs e.2) E) <= rounds ->
  exists ns' As,
    Heap.hierarchy_loop rounds (map (fun e => (e.1, addr e.2)) E)
      (Heap.mkHeap ns objs)
    = Some (tt, Heap.mkHeap ns' objs) /\
    Forall2 (copied ns ns') E As /\
    NoDup (flat_map addrs As) /\
    (forall j, j ∈ flat_map addrs As -> j ∈ E.*1 \/ length ns <= j) /\
    length ns <= length ns' /\
    (forall j, j < length ns -> j ∉ E.*1 -> ns' !! j = ns !! j).
Proof.
  revert E ns. induction rounds as [|rounds IH]; intros E ns Hcopy Hlen.
  { destruct E as [|[node s] E].
    - exists ns, []. split; [done|]. split; [constructor|].
      split; [constructor|]. split; [by intros j ?%elem_of_nil|]. by split.
    - rewrite sources_length_cons in Hlen. lia. }
  destruct E as [|[node s] E'].
  { exists ns, []. split; [done|]. split; [constructor|].
    split; [constructor|]. split; [by intros j ?%elem_of_nil|]. by split. }
  destruct Hcopy as [Hall Hnd].
  apply Forall_cons in Hall as [([p Hs] & Hbound & Hnode & k & q & Hnew) Hall'].
  cbn [fst snd fmap list_fmap] in *. apply NoDup_cons in Hnd as [Hfresh Hnd'].
  pose proof (proj1 (shaped_unfold _ _ _) Hs) as [Hroot Hch].
  assert (node < length ns) as Hnode_lt by by eapply lookup_lt_Some.
  cbn [map Heap.hierarchy_loop fst snd].
  unfold mbind at 1, Heap.M_bind at 1.
  rewrite (getNode_run (Heap.mkHeap ns objs) _ _ Hroot).
  destruct s as [[i d] v ks chs]. cbn [nodeOf Heap.children children data value fst snd addr] in *.
  destruct chs as [|c cs].
  - (* a leaf of the source *)
    cbn [map childrenField].
    destruct (IH E' ns) as (ns' & As' & Hrun & Hcopied & HndA & Hrange & Hle & Hframe).
    { by split. }
    { rewrite sources_length_cons in Hlen. lia. }
    exists ns', (T (node, d) v k [] :: As').
    split; [exact Hrun|]. split; [|split; [|split; [|split]]].
    + constructor; [|done]. split; [done|]. eexists. split; [exact Hnew|].
      split; [|done]. apply shaped_unfold. split; [|constructor].
      cbn. by rewrite Hframe.
    + cbn [flat_map]. rewrite addrs_unfold. cbn. apply NoDup_cons. split; [|done].
      intros [Hin|Hin]%Hrange; [done|lia].
    + intros j. cbn [flat_map]. rewrite addrs_unfold. cbn.
      intros [->|[Hin|Hin]%Hrange]%elem_of_cons; [left; by left|left; by right|by right].
    + done.
    + intros j Hj Hout. apply Hframe; [done|]. intros Hin. apply Hout. by right.
  - (* an inner node of the source: its children are made *)
    set (chs := c :: cs) in *.
    set (L := length ns) in *. set (n := length chs).
    set (ns1 := ns ++ map (childRecord node (S k)) (rev chs)).
    set (ns2 := <[node := Heap.mkNode d v k q (Some (rev (seq L n)))]> ns1).
    set (E1 := zip (rev (seq L n)) chs).
    assert (ns1 !! node = Some (Heap.mkNode d v k q None)) as Hnew1.
    { unfold ns1. by rewrite lookup_app_l. }
    assert (length ns2 = L + n) as Hlen2.
    { unfold ns2, ns1. by rewrite length_insert, length_app, length_map, length_rev. }
    assert (length (rev (seq L n)) = length chs) as Hzip.
    { by rewrite length_rev, length_seq. }
    assert (E1.*1 = rev (seq L n)) as HE1fst.
    { unfold E1. apply fst_zip. by rewrite Hzip. }
    assert (E1.*2 = chs) as HE1snd.
    { unfold E1. apply snd_zip. by rewrite Hzip. }
    assert (forall m, m ∈ E1.*1 -> L <= m) as HE1ge.
    { intros m. rewrite HE1fst, list_elem_of_In, <- in_rev, <- list_elem_of_In.
      rewrite elem_of_seq. lia. }
    assert (forall j, j < bound -> ns2 !! j = ns !! j) as Hlow.
    { intros j Hj. unfold ns2, ns1.
      rewrite list_lookup_insert_ne by lia. apply lookup_app_l. lia. }
    assert (forall e, e ∈ E' -> e.1 < L /\ e.1 <> node /\ ns2 !! e.1 = ns !! e.1)
      as HE'.
    { intros e He. rewrite Forall_forall in Hall'.
      destruct (Hall' e He) as (_ & _ & _ & k' & q' & He1).
      assert (e.1 < L) by by eapply lookup_lt_Some.
      assert (e.1 <> node).
      { intros Heq. apply Hfresh. rewrite <- Heq. by apply list_elem_of_fmap_2. }
      repeat split; [done..|]. unfold ns2, ns1.
      rewrite list_lookup_insert_ne by done. by apply lookup_app_l. }
    assert (Forall2 (fun m c' => L <= m /\
                                 ns2 !! m = Some (childRecord node (S k) c'))
              (rev (seq L n)) chs) as Hmade.
    { assert (Forall2 (fun m c' => L <= m /\
                                   ns2 !! m = Some (childRecord node (S k) c'))
                (rev (seq L n)) (rev (rev chs))) as H;
        [|by rewrite rev_involutive in H].
      apply Forall2_rev. unfold n. rewrite <- (length_rev chs).
      eapply Forall2_impl; [apply (alloc_lookup (childRecord node (S k)) ns)|].
      intros m c' [Hge Hm]. fold ns1 in Hm. fold L in Hge. split; [done|].
      unfold ns2. rewrite list_lookup_insert_ne; [done|]. lia. }
    apply Forall2_zip in Hmade. fold E1 in Hmade.
    assert (forall c' j, c' ∈ chs -> j ∈ addrs c' -> j < bound) as Hsub.
    { intros c' j Hc' Hj. rewrite Forall_forall in Hbound. apply Hbound.
      by eapply (addrs_child (T (i, d) v ks chs) c'). }
    assert (forall p' t', (forall j, j ∈ addrs t' -> j < bound) ->
              shaped ns p' t' -> shaped ns2 p' t') as Hkeep.
    { intros p' t' Hlt. apply shaped_frame. intros j Hj. by apply Hlow, Hlt. }
    destruct (IH (E1 ++ E') ns2)
      as (ns' & As & Hrun & Hcopied & HndA & Hrange & Hle & Hframe).
    { split.
      - apply Forall_app. split.
        + eapply Forall_impl; [exact Hmade|].
          intros [m c'] [[Hge Hm] Hc']. cbn [fst snd] in *.
          rewrite Forall_forall in Hch.
          split; [|split; [|split]].
          * exists (Some i). apply Hkeep; [|by apply Hch].
            intros j Hj. by apply (Hsub c').
          * apply Forall_forall. intros j Hj. by apply (Hsub c').
          * lia.
          * by eexists _, _.
        + rewrite Forall_forall in Hall'. apply Forall_forall. intros e He.
          destruct (Hall' e He) as ([p' Hp'] & Hb' & Hn' & k' & q' & He1).
          destruct (HE' e He) as (_ & _ & Heq).
          split; [|split; [done|split; [done|]]].
          * exists p'. apply Hkeep; [|done]. by apply Forall_forall.
          * exists k', q'. by rewrite Heq.
      - rewrite fmap_app. apply NoDup_app. split; [|split; [|done]].
        + rewrite HE1fst, <- Permutation_rev. apply NoDup_seq.
        + intros m Hm1 Hm2. apply HE1ge in Hm1.
          apply list_elem_of_fmap in Hm2 as (e & -> & He).
          destruct (HE' e He) as (? & _). lia. }
    { rewrite flat_map_app, length_app, (flat_map_snd addrs E1), HE1snd.
      rewrite sources_length_cons in Hlen. cbn [children] in Hlen. lia. }
    apply Forall2_app_inv_l in Hcopied as (As1 & As' & HA1 & HA' & ->).
    assert (map addr As1 = rev (seq L n)) as Haddr1.
    { rewrite <- HE1fst. apply (Forall2_map_eq _ _ _ _ _ HA1).
      by intros e a _ [Ha _]. }
    assert (node < length ns2) as Hnode2 by lia.
    assert (node ∉ (E1 ++ E').*1) as Hnode_out.
    { rewrite fmap_app, elem_of_app. intros [Hin|Hin].
      - apply HE1ge in Hin. lia.
      - by apply Hfresh. }
    exists ns', (T (node, d) v k As1 :: As').
    split; [|split; [|split; [|split; [|split]]]].
    + change (childrenField (map addr chs)) with (Some (addr c :: map addr cs)).
      cbv iota.
      unfold mbind at 1, Heap.M_bind at 1.
      rewrite (getNode_run (Heap.mkHeap ns objs) _ _ Hnew). cbn [Heap.depth].
      unfold mbind at 1, Heap.M_bind at 1.
      change (addr c :: map addr cs) with (map addr chs).
      rewrite <- map_rev.
      rewrite (newChildren_run node (S k) (rev chs) ns objs).
      2:{ apply Forall_rev. eapply Forall_impl; [exact Hch|]. eauto. }
      rewrite length_rev. fold L n ns1.
      unfold mbind at 1, Heap.M_bind at 1.
      unfold Heap.setChildren. unfold mbind at 1, Heap.M_bind at 1.
      rewrite (getNode_run (Heap.mkHeap ns1 objs) _ _ Hnew1).
      unfold Heap.setNode.
      cbn [Heap.nodes Heap.objs Heap.data Heap.value Heap.depth Heap.parent].
      fold ns2. rewrite <- zip_map_snd. fold E1. rewrite <- map_app.
      exact Hrun.
    + constructor.
      * split; [done|]. eexists. split; [exact Hnew|]. cbn [Heap.parent Heap.depth].
        split.
        -- apply shaped_unfold. cbn [children addr data fst]. split.
           ++ rewrite (Hframe node Hnode2 Hnode_out). unfold ns2.
              rewrite list_lookup_insert_eq by (unfold ns1; rewrite length_app; lia).
              unfold nodeOf. cbn [data value depth children snd].
              rewrite Haddr1. do 2 f_equal.
              destruct (rev (seq L n)) eqn:Hrev; [|done].
              apply (f_equal length) in Hrev. rewrite Hzip in Hrev. done.
           ++ eapply (Forall2_Forall_transfer _ _ _ _ _ HA1 Hmade).
              intros [m c'] a (_ & n0 & Hn0 & Ha & _) [[_ Hm] _]. cbn [fst snd] in *.
              rewrite Hm in Hn0. injection Hn0 as <-. exact Ha.
        -- cbn [tmap snd]. rewrite rebase_unfold. f_equal. rewrite map_map.
           transitivity (map (fun e : nat * tree (nat * nat) =>
                                rebase (S k) (tmap snd e.2)) E1).
           2:{ rewrite <- HE1snd. by rewrite map_map. }
           apply (Forall2_map_eq _ _ _ _ _ HA1).
           intros [m c'] a Hin (_ & n0 & Hn0 & _ & Ha). cbn [fst snd] in *.
           rewrite Forall_forall in Hmade. destruct (Hmade _ Hin) as [[_ Hm] _].
           cbn [fst snd] in Hm. rewrite Hm in Hn0. injection Hn0 as <-.
           exact Ha.
      * eapply Forall2_impl_in; [exact HA'|].
        intros e a He (Ha & n0 & Hn0 & Hrest). split; [done|].
        exists n0. split; [|done]. destruct (HE' e He) as (_ & _ & Heq).
        by rewrite <- Heq.
    + cbn [flat_map]. rewrite addrs_unfold. cbn [addr data fst children].
      rewrite <- app_comm_cons, <- flat_map_app. apply NoDup_cons. split; [|done].
      intros [Hin|Hin]%Hrange; [done|lia].
    + intros j. cbn [flat_map]. rewrite addrs_unfold. cbn [addr data fst children].
      rewrite <- app_comm_cons, <- flat_map_app.
      intros [->|Hin]%elem_of_cons; [left; by left|].
      apply Hrange in Hin as [Hin|Hin]; [|right; lia].
      rewrite fmap_app in Hin. apply elem_of_app in Hin as [Hin|Hin].
      * right. by apply HE1ge.
      * left. by right.
    + lia.
    + intros j Hj Hout. rewrite Hframe.
      * unfold ns2, ns1. rewrite list_lookup_insert_ne.
        -- by apply lookup_app_l.
        -- intros <-. apply Hout. by left.
      * lia.
      * rewrite fmap_app, elem_of_app. intros [Hin|Hin].
        -- apply HE1ge in Hin. lia.
        -- apply Hout. by right.
Qed.

Lemma NoDup_bounded_length (l : list nat) n :
  NoDup l -> Forall (fun j => j < n) l -> length l <= n.
Proof.
  intros Hnd Hlt. rewrite <- (length_seq n 0). apply submseteq_length.
  apply NoDup_submseteq; [done|]. intros j Hj. apply elem_of_seq.
  rewrite Forall_forall in Hlt. specialize (Hlt j Hj). lia.
Qed.

Lemma prefix_of_lookup {A} (l l' : list A) :
  length l <= length l' ->
  (forall j, j < length l -> l' !! j = l !! j) ->
  exists more, l' = l ++ more.
Proof.
  intros Hlen Hsame. exists (drop (length l) l').
  rewrite <- (take_drop (length l) l') at 1. f_equal.
  apply list_eq. intros j. destruct (decide (j < length l)) as [Hj|Hj].
  - rewrite lookup_take_lt by done. by apply Hsame.
  - rewrite lookup_take_ge by lia. symmetry. apply lookup_ge_None. lia.
Qed.

(** [copy] leaves the store as it was and adds a tree of new nodes that
    mirrors the source: the same payloads and values, depths from 0. *)
Lemma copy_run h p (s : tree (nat * nat)) :
  shaped (Heap.nodes h) p s ->
  NoDup (addrs s) ->
  exists ns' a,
    Heap.copy (addr s) h
    = Some (length (Heap.nodes h), Heap.mkHeap ns' (Heap.objs h)) /\
    addr a = length (Heap.nodes h) /\
    shaped ns' None a /\
    tmap snd a = rebase 0 (tmap snd s) /\
    NoDup (addrs a) /\
    (forall j, j ∈ addrs a -> length (Heap.nodes h) <= j) /\
    (exists more, ns' = Heap.nodes h ++ more).
Proof.
  intros Hs Hnd. destruct h as [ns objs]. cbn [Heap.nodes Heap.objs] in *.
  pose proof (proj1 (shaped_unfold _ _ _) Hs) as [Hroot _].
  pose proof (shaped_below _ _ _ Hs) as Hbelow.
  set (L := length ns).
  set (ns0 := ns ++ [Heap.mkNode (data s).2 (value s) 0 None None]).
  destruct (hierarchy_loop_run L L objs [(L, s)] ns0)
    as (ns' & As & Hrun & Hcopied & HndA & Hrange & Hle & Hframe).
  { split; [|apply NoDup_singleton]. constructor; [|constructor].
    cbn [fst snd]. split; [|split; [done|split; [done|]]].
    - exists p. by apply shaped_app.
    - exists 0, None. unfold ns0. by rewrite lookup_app_r, Nat.sub_diag by done. }
  { cbn [flat_map snd]. rewrite app_nil_r. by apply NoDup_bounded_length. }
  apply Forall2_cons_inv_l in Hcopied as (a & As' & Ha & HAs & ->).
  apply Forall2_nil_inv_l in HAs as ->.
  destruct Ha as (Haddr & n0 & Hn0 & Hshaped & Htmap). cbn [fst snd] in *.
  assert (n0 = Heap.mkNode (data s).2 (value s) 0 None None) as ->.
  { unfold ns0 in Hn0. rewrite lookup_app_r, Nat.sub_diag in Hn0 by done.
    by injection Hn0 as <-. }
  cbn [flat_map] in *. rewrite app_nil_r in *.
  assert (length ns0 = S L) as Hlen0.
  { unfold ns0. rewrite length_app. cbn. unfold L. lia. }
  exists ns', a. split; [|split; [done|split; [done|split; [done|split; [done|split]]]]].
  - unfold Heap.copy. unfold mbind at 1, Heap.M_bind at 1. unfold Heap.fuel.
    cbn [Heap.nodes]. unfold mbind at 1, Heap.M_bind at 1.
    rewrite (getNode_run (Heap.mkHeap ns objs) _ _ Hroot).
    cbn [nodeOf Heap.data Heap.value].
    unfold mbind at 1, Heap.M_bind at 1. unfold Heap.newNode.
    cbn [Heap.nodes Heap.objs]. fold L ns0.
    unfold mbind at 1, Heap.M_bind at 1.
    cbn [map fst snd] in Hrun. rewrite Hrun. done.
  - intros j Hj. destruct (Hrange j Hj) as [Hin|Hge]; [|lia].
    apply list_elem_of_singleton in Hin as ->. done.
  - apply prefix_of_lookup; [lia|]. intros j Hj. rewrite Hframe.
    + unfold ns0. by apply lookup_app_l.
    + lia.
    + intros Hin%list_elem_of_singleton. unfold L in Hin. cbn [fst] in Hin. lia.
Qed.

(** ** The iterator *)

Lemma flat_map_addrs_length_pos (t : tree (nat * nat)) l :
  0 < length (flat_map addrs (t :: l)).
Proof. cbn [flat_map]. rewrite addrs_unfold. cbn. lia. Qed.

Lemma iterate_run rounds h (C N : list (tree (nat * nat))) yielded :
  Forall (fun t => exists p, shaped (Heap.nodes h) p t) C ->
  Forall (fun t => exists p, shaped (Heap.nodes h) p t) N ->
  2 * length (flat_map addrs (C ++ N)) + (if C is [] then 1 else 0) <= S rounds ->
  exists l,
    Heap.iterate rounds (map addr C) (map addr N) yielded h = Some (l, h) /\
    Permutation l (yielded ++ flat_map addrs (C ++ N)).
Proof.
  revert C N yielded.
  induction rounds as [|rounds IH]; intros C N yielded HC HN Hlen.
  - destruct C as [|c C].
    + destruct N as [|c N].
      * exists yielded. split; [done|]. by rewrite app_nil_r.
      * pose proof (flat_map_addrs_length_pos c N). cbn [app] in Hlen. lia.
    + pose proof (flat_map_addrs_length_pos c (C ++ N)).
      rewrite <- app_comm_cons in Hlen. lia.
  - destruct C as [|c C].
    + destruct N as [|c N].
      * exists yielded. split; [done|]. by rewrite app_nil_r.
      * cbn [map Heap.iterate]. change (addr c :: map addr N) with (map addr (c :: N)).
        change (@nil nat) with (map addr []) at 1.
        destruct (IH (c :: N) [] yielded HN (Forall_nil_2 _)) as (l & Hrun & Hperm).
        { rewrite app_nil_r. cbn [app] in Hlen. lia. }
        exists l. split; [exact Hrun|]. by rewrite app_nil_r in Hperm.
    + apply Forall_cons in HC as [[p Hc] HC].
      pose proof (proj1 (shaped_unfold _ _ _) Hc) as [Hroot Hch].
      cbn [map Heap.iterate]. unfold mbind, Heap.M_bind.
      rewrite (getNode_run _ _ _ Hroot). cbn [nodeOf Heap.children].
      rewrite default_childrenField, <- map_app.
      destruct (IH C (N ++ children c) (yielded ++ [addr c]) HC) as (l & Hrun & Hperm).
      { apply Forall_app. split; [done|].
        eapply Forall_impl; [exact Hch|]. eauto. }
      { rewrite <- app_comm_cons in Hlen. cbn [flat_map] in Hlen.
        rewrite addrs_unfold in Hlen. cbn [length app] in Hlen.
        rewrite !flat_map_app, !length_app in *.
        destruct C; cbn [length flat_map] in *; lia. }
      exists l. split; [exact Hrun|]. rewrite Hperm.
      rewrite <- app_comm_cons. cbn [flat_map]. rewrite addrs_unfold.
      rewrite !flat_map_app, <- !app_assoc. cbn [app].
      apply Permutation_app_head. apply Permutation_cons; [done|].
      rewrite (Permutation_app_comm (flat_map addrs (children c))).
      by rewrite <- !app_assoc.
Qed.

Lemma descendants_run h p (t : tree (nat * nat)) :
  shaped (Heap.nodes h) p t ->
  NoDup (addrs t) ->
  exists l,
    Heap.descendants (addr t) h = Some (l, h) /\ Permutation l (addrs t).
Proof.
  intros Ht Hnd. unfold Heap.descendants, mbind, Heap.M_bind, Heap.fuel.
  destruct (iterate_run (2 * length (Heap.nodes h) + 1) h [t] [] [])
    as (l & Hrun & Hperm).
  - constructor; [eauto|constructor].
  - constructor.
  - cbn [app flat_map]. rewrite app_nil_r.
    pose proof (NoDup_bounded_length _ _ Hnd (shaped_below _ _ _ Ht)). lia.
  - exists l. split; [exact Hrun|].
    cbn [app flat_map] in Hperm. by rewrite app_nil_r in Hperm.
Qed.

(** ** Cutting trees *)

Lemma existsb_map {A B} (g : A -> B) (f : B -> bool) l :
  existsb f (map g l) = existsb (fun x => f (g x)) l.
Proof. induction l as [|x l IH]; [done|]. cbn. by rewrite IH. Qed.

Lemma existsb_ext {A} (f g : A -> bool) l :
  (forall x, f x = g x) -> existsb f l = existsb g l.
Proof.
  intros Hfg. induction l as [|x l IH]; [done|]. cbn. by rewrite Hfg, IH.
Qed.

Lemma dropWhereChild_root {D} cond (t : tree D) :
  data (dropWhereChild cond t) = data t /\
  value (dropWhereChild cond t) = value t /\
  depth (dropWhereChild cond t) = depth t.
Proof. by destruct t. Qed.

Lemma dropWhereChild_idem {D} cond (t : tree D) :
  dropWhereChild cond (dropWhereChild cond t) = dropWhereChild cond t.
Proof.
  induction t as [d v k ch IH] using tree_ind'.
  cbn [dropWhereChild].
  destruct (existsb _ ch) eqn:Hch; [done|].
  f_equal. rewrite existsb_map.
  assert (existsb
            (fun x => cond (data (dropWhereChild cond x))
                        (value (dropWhereChild cond x))
                        (depth (dropWhereChild cond x))) ch
          = existsb (fun c => cond (data c) (value c) (depth c)) ch) as ->.
  { apply existsb_ext. intros c.
    by destruct (dropWhereChild_root cond c) as (-> & -> & ->). }
  rewrite Hch, map_map. apply map_ext_Forall. exact IH.
Qed.

Lemma rebase_rebase {D} k k' (t : tree D) :
  rebase k (rebase k' t) = rebase k t.
Proof.
  revert k k'. induction t as [d v k0 ch IH] using tree_ind'. intros k k'.
  rewrite !rebase_unfold. f_equal. rewrite map_map.
  apply map_ext_Forall. eapply Forall_impl; [exact IH|]. intros c Hc. apply Hc.
Qed.

Lemma rebase_root {D} k (t : tree D) :
  data (rebase k t) = data t /\ value (rebase k t) = value t.
Proof. by destruct t. Qed.

Lemma dropWhereChild_rebase {D} cond k (t : tree D) :
  (forall d v k1 k2, cond d v k1 = cond d v k2) ->
  dropWhereChild cond (rebase k t) = rebase k (dropWhereChild cond t).
Proof.
  intros Hcond. revert k. induction t as [d v k0 ch IH] using tree_ind'.
  intros k. rewrite rebase_unfold. cbn [dropWhereChild]. rewrite rebase_unfold.
  f_equal. rewrite existsb_map.
  assert (existsb
            (fun x => cond (data (rebase (S k) x)) (value (rebase (S k) x))
                        (depth (rebase (S k) x))) ch
          = existsb (fun c => cond (data c) (value c) (depth c)) ch) as ->.
  { apply existsb_ext. intros c.
    destruct (rebase_root (S k) c) as (-> & ->). apply Hcond. }
  destruct (existsb _ ch); [done|].
  rewrite !map_map. apply map_ext_Forall.
  eapply Forall_impl; [exact IH|]. intros c Hc. apply Hc.
Qed.

Lemma dropWhere_rebase {D} cond k (t : tree D) :
  (forall d v k1 k2, cond d v k1 = cond d v k2) ->
  dropWhere cond (rebase k t) = rebase k (dropWhere cond t).
Proof.
  intros Hcond. revert k. induction t as [d v k0 ch IH] using tree_ind'.
  intros k. rewrite rebase_unfold. cbn [dropWhere]. rewrite rebase_unfold.
  rewrite (Hcond d v k k0).
  destruct (cond d v k0); [done|]. f_equal.
  rewrite !map_map. apply map_ext_Forall.
  eapply Forall_impl; [exact IH|]. intros c Hc. apply Hc.
Qed.

Lemma nodes_rebase_data {D} k (t : tree D) :
  map data (nodes (rebase k t)) = map data (nodes t).
Proof.
  revert k. induction t as [d v k0 ch IH] using tree_ind'. intros k.
  rewrite rebase_unfold. cbn [nodes map children data]. f_equal.
  clear -IH. induction IH as [|c ch Hc _ IHch]; [done|].
  cbn [map flat_map]. rewrite !map_app. by rewrite Hc, IHch.
Qed.

Lemma size_data {D} (t : tree D) : size t = length (map data (nodes t)).
Proof. unfold size. by rewrite length_map. Qed.

Lemma size_rebase {D} k (t : tree D) : size (rebase k t) = size t.
Proof. by rewrite !size_data, nodes_rebase_data. Qed.

Lemma nodes_tmap_data {D E} (g : D -> E) (t : tree D) :
  map data (nodes (tmap g t)) = map g (map data (nodes t)).
Proof.
  rewrite nodes_tmap, !map_map. apply map_ext. intros c. apply data_tmap.
Qed.

Lemma size_tmap {D E} (g : D -> E) (t : tree D) : size (tmap g t) = size t.
Proof. by rewrite !size_data, nodes_tmap_data, !length_map. Qed.

(** A weaker test cuts less. *)
Lemma dropWhereChild_mono {D} (cond1 cond2 : D -> option Z -> nat -> bool)
  (t : tree D) :
  (forall d v k, cond1 d v k = true -> cond2 d v k = true) ->
  sublist (map data (nodes (dropWhereChild cond2 t)))
    (map data (nodes (dropWhereChild cond1 t))).
Proof.
  intros Hcond. induction t as [d v k ch IH] using tree_ind'.
  cbn [dropWhereChild nodes map children data]. constructor.
  destruct (existsb (fun c => cond2 _ _ _) ch) eqn:H2; [apply sublist_nil_l|].
  destruct (existsb (fun c => cond1 _ _ _) ch) eqn:H1.
  { apply existsb_exists in H1 as (c & Hc & H1).
    apply Hcond in H1.
    assert (existsb (fun c => cond2 (data c) (value c) (depth c)) ch = true)
      as H2' by (apply existsb_exists; eauto).
    congruence. }
  clear -IH. induction IH as [|c ch Hc _ IHch]; [done|].
  cbn. rewrite !map_app. by apply sublist_app.
Qed.

Lemma size_dropWhere_le {D} cond (t : tree D) : size (dropWhere cond t) <= size t.
Proof.
  rewrite !size_data. apply sublist_length, nodes_dropWhere_sublist.
Qed.

Lemma size_flat_map_le {D} (g : tree D -> tree D) (ch : list (tree D)) :
  Forall (fun c => size (g c) <= size c) ch ->
  length (flat_map nodes (map g ch)) <= length (flat_map nodes ch).
Proof.
  induction 1 as [|c ch Hc _ IH]; [done|].
  cbn [map flat_map]. rewrite !length_app. unfold size in Hc. lia.
Qed.

(** Cutting at a node that has children makes the tree smaller. *)
Lemma size_dropWhere_lt {D} cond (t : tree D) :
  Exists (fun n => children n <> [] /\
                   cond (data n) (value n) (depth n) = true) (nodes t) ->
  size (dropWhere cond t) < size t.
Proof.
  induction t as [d v k ch IH] using tree_ind'.
  intros Hex. unfold size. cbn [dropWhere nodes children].
  destruct (cond d v k) eqn:Hroot.
  - cbn [flat_map length].
    destruct ch as [|c ch].
    + cbn [nodes children flat_map] in Hex.
      apply Exists_cons in Hex as [[Hch _]|Hex]; [done|].
      by apply Exists_nil in Hex.
    + cbn [flat_map]. rewrite length_app. destruct c. cbn. lia.
  - cbn [nodes children] in Hex.
    apply Exists_cons in Hex as [[_ Hc]|Hex].
    { cbn [data value depth] in Hc. congruence. }
    cbn [length]. apply ->Nat.succ_lt_mono.
    clear Hroot. induction IH as [|c ch Hc _ IHch].
    + by apply Exists_nil in Hex.
    + cbn [map flat_map] in *. rewrite !length_app.
      apply Exists_app in Hex as [Hex|Hex].
      * apply Hc in Hex. unfold size in Hex.
        assert (length (flat_map nodes (map (dropWhere cond) ch))
                <= length (flat_map nodes ch)) as Hle.
        { apply size_flat_map_le, Forall_forall.
          intros ? _. apply size_dropWhere_le. }
        lia.
      * apply IHch in Hex. pose proof (size_dropWhere_le cond c) as Hle.
        unfold size in Hle. lia.
Qed.

Lemma distanceBelow_low dist minDistance :
  Pruner.distanceBelow dist minDistance = true <-> low_distance dist minDistance.
Proof.
  unfold Pruner.distanceBelow, low_distance.
  destruct dist as [x|]; [|done].
  unfold JS.truthy, JS.Qltb.
  rewrite orb_true_iff, negb_involutive, negb_true_iff.
  rewrite Qeq_bool_iff, <- not_true_iff_false, Qle_bool_iff.
  split; (intros [H|H]; [by left|right]).
  - by apply Qnot_le_lt.
  - by apply Qlt_not_le.
Qed.

(** ** The pruning functions on a tree held in the store *)

Lemma shaped_node ns p (t x : tree (nat * nat)) :
  shaped ns p t -> x ∈ nodes t -> exists q, ns !! addr x = Some (nodeOf q x).
Proof.
  revert p. induction t as [d v k ch IH] using tree_ind'. intros p Ht Hx.
  pose proof (proj1 (shaped_unfold _ _ _) Ht) as [Hroot Hch].
  cbn [nodes children] in Hx, Hch.
  apply elem_of_cons in Hx as [->|Hx]; [eauto|].
  apply list_elem_of_In, in_flat_map in Hx as (c & Hc & Hx).
  rewrite <- !list_elem_of_In in *.
  rewrite Forall_forall in IH, Hch. exact (IH c Hc _ (Hch c Hc) Hx).
Qed.

Lemma represents_extends h h' root t :
  represents h root t -> extends h h' -> represents h' root t.
Proof.
  intros (a & p & Ht & Ha & Hs & Hnd & Hobjs) [[more Hmore] Hsame].
  exists a, p. rewrite Hmore, Hsame.
  split; [done|split; [done|split; [|done]]]. by apply shaped_app.
Qed.

Lemma extends_refl h : extends h h.
Proof. split; [|done]. exists []. by rewrite app_nil_r. Qed.

Lemma extends_trans h1 h2 h3 : extends h1 h2 -> extends h2 h3 -> extends h1 h3.
Proof.
  intros [[m1 H1] E1] [[m2 H2] E2]. split; [|congruence].
  exists (m1 ++ m2). by rewrite H2, H1, app_assoc.
Qed.

Lemma clearSet_prefix targets ns more :
  (forall j, j ∈ targets -> length ns <= j) ->
  exists more', clearSet targets (ns ++ more) = ns ++ more'.
Proof.
  intros Hlow. apply prefix_of_lookup.
  - rewrite clearSet_length, length_app. lia.
  - intros j Hj. rewrite clearSet_outside.
    + by apply lookup_app_l.
    + intros Hin%Hlow. lia.
Qed.

Section prune_by_eachBefore.
Context (h : Heap.heap) (callback : nat -> Heap.M unit).
Context (targets : tree (nat * nat) -> list nat).
Context (cut : tree (nat * nat) -> tree (nat * nat)).
Context (cut' : tree nat -> tree nat).

Hypothesis loop_run : forall rounds ns a,
  pending ns (Heap.objs h) [(None, a)] ->
  length (addrs a) <= rounds ->
  Heap.eachBefore_loop callback rounds [addr a] (Heap.mkHeap ns (Heap.objs h))
  = Some (tt, Heap.mkHeap (clearSet (targets a) ns) (Heap.objs h)).
Hypothesis targets_within : forall a j, j ∈ targets a -> j ∈ addrs a.
Hypothesis cut_shaped : forall ns a,
  shaped ns None a -> NoDup (addrs a) ->
  shaped (clearSet (targets a) ns) None (cut a).
Hypothesis cut_addr : forall a, addr (cut a) = addr a.
Hypothesis cut_sublist : forall a,
  sublist (map data (nodes (cut a))) (map data (nodes a)).
Hypothesis cut_tmap : forall a, tmap snd (cut a) = cut' (tmap snd a).

Lemma eachBefore_on_copy root t :
  represents h root t ->
  exists newTree h',
    (newTree ← Heap.copy root;
     _ ← Heap.eachBefore callback newTree;
     mret newTree) h = Some (newTree, h') /\
    represents h' newTree (cut' (rebase 0 t)) /\
    extends h h'.
Proof.
  intros (s & p & <- & <- & Hs & Hnd & Hobjs).
  destruct (copy_run h p s Hs Hnd)
    as (ns1 & a & Hcopy & Ha & Hsa & Hta & Hnda & Hlow & more & ->).
  assert (Forall (fun d => is_Some (Heap.objs h !! d))
            (map data (nodes a)).*2) as Hobjs_a.
  { change (map data (nodes a)).*2 with (map snd (map data (nodes a))).
    by rewrite <- nodes_tmap_data, Hta, nodes_rebase_data. }
  exists (length (Heap.nodes h)),
    (Heap.mkHeap (clearSet (targets a) (Heap.nodes h ++ more)) (Heap.objs h)).
  split; [|split].
  - unfold mbind at 1, Heap.M_bind at 1. rewrite Hcopy.
    unfold mbind at 1, Heap.M_bind at 1.
    unfold Heap.eachBefore, mbind at 1, Heap.M_bind at 1, Heap.fuel.
    cbn [Heap.nodes]. rewrite <- Ha. rewrite loop_run; [done| |].
    + split.
      * constructor; [|constructor]. cbn [fst snd].
        split; [done|split; [done|]].
        apply Forall_forall. intros x Hx.
        rewrite Forall_forall in Hobjs_a. apply Hobjs_a.
        apply list_elem_of_fmap. exists (data x). split; [done|].
        by apply list_elem_of_fmap_2.
      * unfold forestAddrs. cbn [flat_map snd]. by rewrite app_nil_r.
    + apply NoDup_bounded_length; [done|]. by eapply shaped_below.
  - exists (cut a), None. cbn [Heap.nodes Heap.objs].
    split; [by rewrite cut_tmap, Hta|].
    split; [by rewrite cut_addr|].
    split; [by apply cut_shaped|].
    split.
    + rewrite addrs_data. eapply sublist_NoDup; [|apply fmap_sublist, cut_sublist].
      by rewrite <- addrs_data.
    + rewrite <- Hta, <- cut_tmap, nodes_tmap_data.
      apply Forall_forall. intros d Hd. rewrite Forall_forall in Hobjs_a.
      apply Hobjs_a. eapply elem_of_sublist; [exact Hd|].
      apply (fmap_sublist snd), cut_sublist.
  - split; [|done]. cbn [Heap.nodes].
    apply clearSet_prefix. intros j Hj. by apply Hlow, targets_within.
Qed.

End prune_by_eachBefore.

Lemma minValue_callback_run objs minSize ns i n :
  ns !! i = Some n ->
  (forall q, Heap.parent n = Some q -> is_Some (ns !! q)) ->
  is_Some (objs !! Heap.data n) ->
  (n ← Heap.getNode i;
   if Pruner.valueBelow (Heap.value n) minSize then Pruner.dropSiblings n
   else mret tt) (Heap.mkHeap ns objs)
  = Some (tt, Heap.mkHeap
                (clearSet
                   (if tooSmall minSize (Heap.data n) (Heap.value n) (Heap.depth n)
                    then option_list (Heap.parent n) else [])
                   ns)
                objs).
Proof.
  intros Hn Hparent _. unfold mbind, Heap.M_bind.
  rewrite (getNode_run (Heap.mkHeap ns objs) _ _ Hn). unfold tooSmall.
  destruct (Pruner.valueBelow _ _); [|by rewrite clearSet_nil].
  unfold Pruner.dropSiblings. destruct (Heap.parent n) as [q|] eqn:Hq.
  - destruct (Hparent q eq_refl) as [nq Hnq].
    by rewrite (setChildren_None_run (Heap.mkHeap ns objs) q nq).
  - by rewrite clearSet_nil.
Qed.

Lemma minDistance_callback_run objs minDistance ns i n :
  ns !! i = Some n ->
  is_Some (objs !! Heap.data n) ->
  (n ← Heap.getNode i;
   o ← Heap.getData (Heap.data n);
   if Pruner.distanceBelow (distance o) minDistance
   then Heap.setChildren i None else mret tt) (Heap.mkHeap ns objs)
  = Some (tt, Heap.mkHeap
                (clearSet
                   (if tooClose objs minDistance (Heap.data n) (Heap.value n)
                         (Heap.depth n)
                    then [i] else [])
                   ns)
                objs).
Proof.
  intros Hn [o Ho]. unfold mbind, Heap.M_bind.
  rewrite (getNode_run (Heap.mkHeap ns objs) _ _ Hn).
  unfold Heap.getData, tooClose. cbn [Heap.objs]. rewrite Ho. cbn.
  destruct (Pruner.distanceBelow _ _); [|by rewrite clearSet_nil].
  by rewrite (setChildren_None_run (Heap.mkHeap ns objs) i n).
Qed.

Lemma pruneTreeByMinValue_run h root t minSize :
  represents h root t ->
  exists newTree h',
    Pruner.pruneTreeByMinValue root minSize h = Some (newTree, h') /\
    represents h' newTree (prunedByMinValue minSize t) /\
    extends h h'.
Proof.
  apply (eachBefore_on_copy h _
           (fun a => flat_map (fun e => parentTargets (tooSmall minSize) e.1 e.2)
                       [(None, a)])
           (dropWhereChild (fun d => tooSmall minSize d.2))).
  - intros rounds ns a Hpend Hlen.
    apply (dropSiblings_loop (Heap.objs h) (tooSmall minSize) _
             (minValue_callback_run (Heap.objs h) minSize) rounds [(None, a)]);
      [done|].
    unfold forestAddrs. cbn [flat_map snd]. by rewrite app_nil_r.
  - intros a j. cbn [flat_map fst snd]. rewrite app_nil_r.
    intros [[? _]|Hin]%parentTargets_hits; [done|]. by eapply hits_within.
  - intros ns a Hs Hnd. apply shaped_dropWhereChild; [done|done|].
    intros j _. cbn [flat_map fst snd]. rewrite app_nil_r.
    rewrite parentTargets_hits. split; [|by right].
    by intros [[? _]|?].
  - intros a. apply addr_dropWhereChild.
  - intros a. apply nodes_dropWhereChild_sublist.
  - intros a. apply (tmap_dropWhereChild snd).
Qed.

Lemma pruneTreeByMinDistance_run h root t minDistance :
  represents h root t ->
  exists newTree h',
    Pruner.pruneTreeByMinDistance root minDistance h = Some (newTree, h') /\
    represents h' newTree (prunedByMinDistance (Heap.objs h) minDistance t) /\
    extends h h'.
Proof.
  apply (eachBefore_on_copy h _
           (fun a => flat_map
                       (fun e => ownTargets (tooClose (Heap.objs h) minDistance) e.2)
                       [(@None nat, a)])
           (dropWhere (fun d => tooClose (Heap.objs h) minDistance d.2))).
  - intros rounds ns a Hpend Hlen.
    apply (dropChildren_loop (Heap.objs h) (tooClose (Heap.objs h) minDistance) _
             (minDistance_callback_run (Heap.objs h) minDistance) rounds
             [(None, a)]); [done|].
    unfold forestAddrs. cbn [flat_map snd]. by rewrite app_nil_r.
  - intros a j. cbn [flat_map fst snd]. rewrite app_nil_r.
    apply ownTargets_within.
  - intros ns a Hs Hnd. apply shaped_dropWhere; [done|done|].
    intros j _. cbn [flat_map fst snd]. by rewrite app_nil_r.
  - intros a. apply addr_dropWhere.
  - intros a. apply nodes_dropWhere_sublist.
  - intros a. apply (tmap_dropWhere snd).
Qed.

Lemma descendants_represents h root t :
  represents h root t ->
  exists l,
    Heap.descendants root h = Some (l, h) /\
    length l = size t /\
    Permutation (map (payloadOf h) l) (map Some (map data (nodes t))).
Proof.
  intros (a & p & <- & <- & Hs & Hnd & _).
  destruct (descendants_run h p a Hs Hnd) as (l & Hrun & Hperm).
  exists l. split; [done|split].
  - rewrite (Permutation_length Hperm), size_tmap. unfold addrs, size.
    by rewrite length_map.
  - rewrite (Permutation_map (payloadOf h) Hperm), nodes_tmap_data.
    unfold addrs. rewrite !map_map.
    assert (map (fun x => payloadOf h (addr x)) (nodes a)
            = map (fun x => Some (data x).2) (nodes a)) as ->; [|done].
    apply map_ext_in. intros x Hx%list_elem_of_In.
    destruct (shaped_node _ _ _ _ Hs Hx) as [q Hq].
    unfold payloadOf. by rewrite Hq.
Qed.

(** ** Pruning by minimum value *)

Lemma heap_ABC_represents : represents heap_ABC 0 tree_ABC.
Proof.
  exists (T (0, 0) (Some 3%Z) 0
            [T (1, 1) (Some 1%Z) 1 []; T (2, 2) (Some 2%Z) 1 []]), None.
  split; [done|split; [done|split; [|split]]].
  - cbn. done.
  - apply (bool_decide_unpack _). by vm_compute.
  - repeat constructor; by eexists.
Qed.

Lemma valueBelow_mono v (m1 m2 : Q) :
  (m1 <= m2)%Q ->
  Pruner.valueBelow v m1 = true -> Pruner.valueBelow v m2 = true.
Proof.
  unfold Pruner.valueBelow, JS.Qltb. destruct v as [x|]; [|done].
  rewrite !negb_true_iff, <- !not_true_iff_false, !Qle_bool_iff.
  intros Hle Hn Hc. apply Hn. by eapply Qle_trans.
Qed.

Lemma prunedByMinValue_idem minSize t :
  prunedByMinValue minSize (prunedByMinValue minSize t)
  = prunedByMinValue minSize t.
Proof.
  unfold prunedByMinValue.
  rewrite (dropWhereChild_rebase _ 0 (dropWhereChild _ _)) by done.
  rewrite dropWhereChild_idem.
  rewrite <- dropWhereChild_rebase by done. by rewrite rebase_rebase.
Qed.

(** C1 (amended): [pruneTreeByMinValue(tree, minSize)] returns a copy of the
    tree, the root at depth 0, in which every node with at least one child of
    value below [minSize] has lost all of its children, that child and its
    siblings alike, and every other node has kept all of its children, cut in
    the same way; the root stays, whatever its value. *)
Theorem pruneTreeByMinValue_cuts_sibling_groups h root t (minSize : Q) :
  represents h root t ->
  exists newTree h',
    Pruner.pruneTreeByMinValue root minSize h = Some (newTree, h') /\
    represents h' newTree
      (dropWhereChild (fun _ v _ => Pruner.valueBelow v minSize) (rebase 0 t)).
Proof.
  intros Hrep.
  destruct (pruneTreeByMinValue_run h root t minSize Hrep)
    as (newTree & h' & Hrun & Hrep' & _).
  by exists newTree, h'.
Qed.

(** On [A -> [B; C]] with the values 3, 1 and 2 and the threshold 2, the
    result is [A] alone. *)
Lemma pruneTreeByMinValue_cuts_sibling_groups_witness :
  exists newTree h',
    Pruner.pruneTreeByMinValue 0 2 heap_ABC = Some (newTree, h') /\
    represents h' newTree (T 0 (Some 3%Z) 0 []).
Proof.
  exact (pruneTreeByMinValue_cuts_sibling_groups heap_ABC 0 tree_ABC 2
           heap_ABC_represents).
Defined.

(** C1, as claimed, fails: with the threshold 2 the pruned copy of
    [A -> [B; C]] holds the payload of [A] only; [C], whose value 2 is not
    below 2, has gone with [B]. *)
Lemma pruneTreeByMinValue_removes_sibling :
  fst <$> (newTree ← Pruner.pruneTreeByMinValue 0 2;
           payloadsBelow newTree) heap_ABC
  = Some [Some 0] /\
  Pruner.valueBelow (Some 2%Z) 2 = false.
Proof. split; by vm_compute. Qed.

(** C5: pruning the result of [pruneTreeByMinValue(tree, minSize)] again with
    the same [minSize] gives a tree with as many descendants; the two trees
    are the same but for the node objects. *)
Theorem pruneTreeByMinValue_idempotent h root t (minSize : Q) :
  represents h root t ->
  exists once h1 twice h2 l1 l2,
    Pruner.pruneTreeByMinValue root minSize h = Some (once, h1) /\
    Pruner.pruneTreeByMinValue once minSize h1 = Some (twice, h2) /\
    Heap.descendants once h1 = Some (l1, h1) /\
    Heap.descendants twice h2 = Some (l2, h2) /\
    length l2 = length l1 /\
    represents h2 once (prunedByMinValue minSize t) /\
    represents h2 twice (prunedByMinValue minSize t).
Proof.
  intros Hrep.
  destruct (pruneTreeByMinValue_run h root t minSize Hrep)
    as (once & h1 & Hrun1 & Hrep1 & Hext1).
  destruct (pruneTreeByMinValue_run h1 once _ minSize Hrep1)
    as (twice & h2 & Hrun2 & Hrep2 & Hext2).
  rewrite prunedByMinValue_idem in Hrep2.
  destruct (descendants_represents _ _ _ Hrep1) as (l1 & Hl1 & Hlen1 & _).
  destruct (descendants_represents _ _ _ Hrep2) as (l2 & Hl2 & Hlen2 & _).
  exists once, h1, twice, h2, l1, l2.
  split; [done|split; [done|split; [done|split; [done|split; [congruence|]]]]].
  split; [|done]. by eapply represents_extends.
Qed.

Lemma pruneTreeByMinValue_idempotent_witness :
  exists once h1 twice h2 l1 l2,
    Pruner.pruneTreeByMinValue 0 1 heap_ABC = Some (once, h1) /\
    Pruner.pruneTreeByMinValue once 1 h1 = Some (twice, h2) /\
    Heap.descendants once h1 = Some (l1, h1) /\
    Heap.descendants twice h2 = Some (l2, h2) /\
    length l2 = length l1 /\
    represents h2 once (prunedByMinValue 1 tree_ABC) /\
    represents h2 twice (prunedByMinValue 1 tree_ABC).
Proof.
  exact (pruneTreeByMinValue_idempotent heap_ABC 0 tree_ABC 1
           heap_ABC_represents).
Defined.

(** C6: for thresholds [t1 < t2], every node of
    [pruneTreeByMinValue(tree, t2)] is a node of
    [pruneTreeByMinValue(tree, t1)], a node of a pruned copy named by the
    payload it shares with the source node: the payloads of the one are
    among the payloads of the other, counted with multiplicity, and the
    descendant count does not grow. *)
Theorem pruneTreeByMinValue_monotone h root t (t1 t2 : Q) :
  represents h root t ->
  (t1 < t2)%Q ->
  exists p1 h1 p2 h2 l1 l2,
    Pruner.pruneTreeByMinValue root t1 h = Some (p1, h1) /\
    Pruner.pruneTreeByMinValue root t2 h1 = Some (p2, h2) /\
    Heap.descendants p1 h2 = Some (l1, h2) /\
    Heap.descendants p2 h2 = Some (l2, h2) /\
    map (payloadOf h2) l2 ⊆+ map (payloadOf h2) l1 /\
    length l2 <= length l1.
Proof.
  intros Hrep Hlt.
  destruct (pruneTreeByMinValue_run h root t t1 Hrep)
    as (p1 & h1 & Hrun1 & Hrep1 & Hext1).
  destruct (pruneTreeByMinValue_run h1 root t t2
              (represents_extends _ _ _ _ Hrep Hext1))
    as (p2 & h2 & Hrun2 & Hrep2 & Hext2).
  destruct (descendants_represents _ _ _ (represents_extends _ _ _ _ Hrep1 Hext2))
    as (l1 & Hl1 & Hlen1 & Hperm1).
  destruct (descendants_represents _ _ _ Hrep2) as (l2 & Hl2 & Hlen2 & Hperm2).
  assert (sublist (map data (nodes (prunedByMinValue t2 t)))
            (map data (nodes (prunedByMinValue t1 t)))) as Hsub.
  { apply dropWhereChild_mono. intros ? v ?. unfold tooSmall.
    by apply valueBelow_mono, Qlt_le_weak. }
  exists p1, h1, p2, h2, l1, l2.
  split; [done|split; [done|split; [done|split; [done|split]]]].
  - rewrite Hperm1, Hperm2. by apply sublist_submseteq, fmap_sublist.
  - rewrite Hlen1, Hlen2, !size_data. by apply sublist_length.
Qed.

Lemma pruneTreeByMinValue_monotone_witness :
  exists p1 h1 p2 h2 l1 l2,
    Pruner.pruneTreeByMinValue 0 1 heap_ABC = Some (p1, h1) /\
    Pruner.pruneTreeByMinValue 0 2 h1 = Some (p2, h2) /\
    Heap.descendants p1 h2 = Some (l1, h2) /\
    Heap.descendants p2 h2 = Some (l2, h2) /\
    map (payloadOf h2) l2 ⊆+ map (payloadOf h2) l1 /\
    length l2 <= length l1.
Proof.
  apply (pruneTreeByMinValue_monotone heap_ABC 0 tree_ABC 1 2
           heap_ABC_represents).
  reflexivity.
Defined.

(** ** Pruning by minimum distance *)

Lemma tooClose_low objs minDistance d v k :
  is_Some (objs !! d) ->
  tooClose objs minDistance d v k = true
  <-> low_distance (distanceAt objs d) minDistance.
Proof.
  intros [o Ho]. unfold tooClose, distanceAt. rewrite Ho. cbn.
  apply distanceBelow_low.
Qed.

Lemma low_distance_mono dist (m : Q) :
  (0 <= m)%Q -> low_distance dist 0 -> low_distance dist m.
Proof.
  unfold low_distance. destruct dist as [x|]; [|done].
  intros Hm [H|H]; [by left|right]. by eapply Qlt_le_trans.
Qed.

(** C9: [pruneTreeByMinDistance(tree, minDistance)] returns a copy of the
    tree in which each node whose distance is missing, zero or below
    [minDistance] is kept without its children, a leaf, and every other node
    keeps its children, cut in the same way.  A tree with an internal node of
    missing or zero distance comes out smaller for every threshold from 0
    on: at 0 the function is not the identity. *)
Theorem pruneTreeByMinDistance_cuts_children h root t (minDistance : Q) :
  represents h root t ->
  (0 <= minDistance)%Q ->
  exists newTree h',
    Pruner.pruneTreeByMinDistance root minDistance h = Some (newTree, h') /\
    represents h' newTree
      (dropWhere (tooClose (Heap.objs h) minDistance) (rebase 0 t)) /\
    (forall n, n ∈ nodes t ->
       tooClose (Heap.objs h) minDistance (data n) (value n) (depth n) = true
       <-> low_distance (distanceAt (Heap.objs h) (data n)) minDistance) /\
    (Exists (fun n => children n <> [] /\
                      low_distance (distanceAt (Heap.objs h) (data n)) 0)
       (nodes t) ->
     size (dropWhere (tooClose (Heap.objs h) minDistance) (rebase 0 t))
     < size t).
Proof.
  intros Hrep Hpos.
  destruct (pruneTreeByMinDistance_run h root t minDistance Hrep)
    as (newTree & h' & Hrun & Hrep' & _).
  destruct Hrep as (_ & _ & _ & _ & _ & _ & Hobjs).
  assert (forall n, n ∈ nodes t -> is_Some (Heap.objs h !! data n)) as Hvalid.
  { intros n Hn. rewrite Forall_forall in Hobjs. apply Hobjs.
    by apply list_elem_of_fmap_2. }
  exists newTree, h'. split; [done|split; [done|split]].
  - intros n Hn. by apply tooClose_low, Hvalid.
  - intros Hex. rewrite dropWhere_rebase, size_rebase by done.
    apply size_dropWhere_lt.
    apply Exists_exists in Hex as (n & Hn & Hch & Hlow).
    apply Exists_exists. exists n. split; [done|split; [done|]].
    apply tooClose_low; [by apply Hvalid|]. by apply low_distance_mono.
Qed.

(** The root [A] of [heap_ABC] has no distance: its children go, at every
    threshold. *)
Lemma pruneTreeByMinDistance_cuts_children_witness :
  exists newTree h',
    Pruner.pruneTreeByMinDistance 0 0 heap_ABC = Some (newTree, h') /\
    represents h' newTree (T 0 (Some 3%Z) 0 []) /\
    (forall n, n ∈ nodes tree_ABC ->
       tooClose (Heap.objs heap_ABC) 0 (data n) (value n) (depth n) = true
       <-> low_distance (distanceAt (Heap.objs heap_ABC) (data n)) 0) /\
    (Exists (fun n => children n <> [] /\
                      low_distance (distanceAt (Heap.objs heap_ABC) (data n)) 0)
       (nodes tree_ABC) ->
     1 < 3).
Proof.
  apply (pruneTreeByMinDistance_cuts_children heap_ABC 0 tree_ABC 0
           heap_ABC_represents).
  discriminate.
Defined.

(** ** Re-rooting *)

(** C7 fails for [setRootNode]: on [A -> [B; C]], [setRootNode(tree, B)]
    leaves the node objects of the source in place, but writes [undefined]
    over the [parentId] of the payload of the source node [B], which the copy
    shares. *)
Theorem setRootNode_clears_parentId_of_source :
  exists newRoot h',
    Pruner.setRootNode 0 "B" heap_ABC = Some (newRoot, h') /\
    payloadOf heap_ABC 1 = Some 1 /\
    Heap.nodes h' !! 1 = Heap.nodes heap_ABC !! 1 /\
    payloadOf h' newRoot = Some 1 /\
    parentId <$> Heap.objs heap_ABC !! 1 = Some (Some "A") /\
    parentId <$> Heap.objs h' !! 1 = Some None.
Proof.
  eexists _, _. split; [by vm_compute|]. by vm_compute.
Qed.

(** The other functions that take a node id or a depth, on the same tree:
    every object of the source is as before. *)
Example prune_operations_on_heap_ABC :
  (exists r h', Pruner.pruneTreeByDepth 0 0 heap_ABC = Some (r, h') /\
                extends heap_ABC h') /\
  (exists r h', Pruner.pruneTreeByMinDistanceSearch 0 2 heap_ABC = Some (r, h') /\
                extends heap_ABC h') /\
  (exists r h', Pruner.collapseNode 0 "A" heap_ABC = Some (r, h') /\
                extends heap_ABC h').
Proof.
  repeat split; (eexists _, _; split; [by vm_compute|]);
    (split; [by eexists|done]).
Qed.

(** ** [eachAfter] *)

Lemma eachAfter_collect_run rounds h (S : list (tree (nat * nat))) next :
  Forall (fun t => exists p, shaped (Heap.nodes h) p t) S ->
  length (flat_map addrs S) <= rounds ->
  exists l,
    Heap.eachAfter_collect rounds (map addr S) next h = Some (l, h) /\
    Permutation l (flat_map addrs S ++ next).
Proof.
  revert S next. induction rounds as [|rounds IH]; intros S next HS Hlen.
  - destruct S as [|c S]; [by exists next|].
    pose proof (flat_map_addrs_length_pos c S). lia.
  - destruct S as [|c S]; [by exists next|].
    apply Forall_cons in HS as [[p Hc] HS].
    pose proof (proj1 (shaped_unfold _ _ _) Hc) as [Hroot Hch].
    cbn [map Heap.eachAfter_collect]. unfold mbind, Heap.M_bind.
    rewrite (getNode_run _ _ _ Hroot). cbn [nodeOf Heap.children].
    rewrite default_childrenField, <- map_rev, <- map_app.
    assert (Permutation (flat_map addrs (rev (children c) ++ S))
              (flat_map addrs (children c) ++ flat_map addrs S)) as Hrev.
    { rewrite flat_map_app. apply Permutation_app_tail.
      apply Permutation_flat_map, Permutation_sym, Permutation_rev. }
    destruct (IH (rev (children c) ++ S) (addr c :: next)) as (l & Hrun & Hperm).
    { apply Forall_app. split; [|done]. apply Forall_rev.
      eapply Forall_impl; [exact Hch|]. eauto. }
    { rewrite (Permutation_length Hrev).
      cbn [flat_map] in Hlen. rewrite addrs_unfold in Hlen.
      cbn [length app] in Hlen. rewrite !length_app in *. lia. }
    exists l. split; [exact Hrun|]. rewrite Hperm, Hrev.
    cbn [flat_map]. rewrite addrs_unfold.
    rewrite <- !app_assoc. cbn [app]. rewrite !app_assoc.
    symmetry. apply Permutation_middle.
Qed.

Lemma clearSet_ext T T' ns :
  (forall j, j ∈ T <-> j ∈ T') -> clearSet T ns = clearSet T' ns.
Proof.
  intros HT. unfold clearSet. apply imap_ext. intros j n _.
  by rewrite (bool_decide_ext _ _ (HT j)).
Qed.

Lemma shaped_node_parent ns p (t x : tree (nat * nat)) :
  shaped ns p t -> x ∈ nodes t ->
  exists q, ns !! addr x = Some (nodeOf q x) /\
            (q = p \/ exists y, y ∈ nodes t /\ q = Some (addr y)).
Proof.
  revert p. induction t as [d v k ch IH] using tree_ind'. intros p Ht Hx.
  pose proof (proj1 (shaped_unfold _ _ _) Ht) as [Hroot Hch].
  cbn [nodes children] in Hx, Hch.
  apply elem_of_cons in Hx as [->|Hx]; [by eauto|].
  apply elem_of_flat_map in Hx as (c & Hc & Hx).
  rewrite Forall_forall in IH, Hch.
  destruct (IH c Hc _ (Hch c Hc) Hx) as (q & Hq & Hcase).
  exists q. split; [done|]. right.
  destruct Hcase as [->|(y & Hy & ->)].
  - exists (T d v k ch). split; [|done]. cbn [nodes]. by left.
  - exists y. split; [|done]. cbn [nodes children]. right.
    apply elem_of_flat_map. eauto.
Qed.

Section forEach_clear.
Context (objs : list TMCNode) (target : nat -> Heap.Node -> list nat).
Context (callback : nat -> Heap.M unit).

Hypothesis callback_run : forall ns i n,
  ns !! i = Some n ->
  (forall q, Heap.parent n = Some q -> is_Some (ns !! q)) ->
  is_Some (objs !! Heap.data n) ->
  callback i (Heap.mkHeap ns objs)
  = Some (tt, Heap.mkHeap (clearSet (target i n) ns) objs).
Hypothesis target_clear : forall i n, target i (clear n) = target i n.

Lemma targetsAt_clearSet T ns l :
  targetsAt target (clearSet T ns) l = targetsAt target ns l.
Proof.
  unfold targetsAt. apply flat_map_ext. intros i. rewrite clearSet_lookup.
  destruct (ns !! i) as [n|]; cbn; [|done].
  case_bool_decide; [apply target_clear|done].
Qed.

Lemma forEach_run l ns :
  Forall (fun i => exists n,
            ns !! i = Some n /\
            (forall q, Heap.parent n = Some q -> is_Some (ns !! q)) /\
            is_Some (objs !! Heap.data n)) l ->
  Heap.forEach callback l (Heap.mkHeap ns objs)
  = Some (tt, Heap.mkHeap (clearSet (targetsAt target ns l) ns) objs).
Proof.
  revert ns. induction l as [|i l IH]; intros ns Hl.
  - cbn. by rewrite clearSet_nil.
  - apply Forall_cons in Hl as [(n & Hn & Hp & Ho) Hl].
    cbn [Heap.forEach]. unfold mbind, Heap.M_bind.
    rewrite (callback_run ns i n Hn Hp Ho). rewrite IH.
    + rewrite clearSet_app, targetsAt_clearSet.
      unfold targetsAt at 2. cbn [flat_map]. by rewrite Hn.
    + eapply Forall_impl; [exact Hl|]. cbn beta.
      intros i' (n' & Hn' & Hp' & Ho').
      rewrite clearSet_lookup, Hn'. cbn [fmap option_fmap option_map].
      eexists. split; [done|].
      case_bool_decide; cbn [clear Heap.parent Heap.data];
        (split; [|done]); intros q Hq; by apply clearSet_is_Some, Hp'.
Qed.

Lemma eachAfter_run ns (a : tree (nat * nat)) :
  shaped ns None a ->
  NoDup (addrs a) ->
  Forall (fun x => is_Some (objs !! (data x).2)) (nodes a) ->
  exists T,
    Heap.eachAfter callback (addr a) (Heap.mkHeap ns objs)
    = Some (tt, Heap.mkHeap (clearSet T ns) objs) /\
    Permutation T (targetsAt target ns (addrs a)).
Proof.
  intros Ha Hnd Hobjs.
  destruct (eachAfter_collect_run (length ns) (Heap.mkHeap ns objs) [a] [])
    as (l & Hrun & Hperm).
  { constructor; [|constructor]. by exists None. }
  { cbn [flat_map]. rewrite app_nil_r.
    apply NoDup_bounded_length; [done|]. by eapply shaped_below. }
  cbn [flat_map map] in Hrun, Hperm. rewrite !app_nil_r in Hperm.
  exists (targetsAt target ns l). split.
  - unfold Heap.eachAfter, mbind, Heap.M_bind, Heap.fuel. cbn [Heap.nodes].
    rewrite Hrun. apply forEach_run.
    apply Forall_forall. intros i Hi. rewrite Hperm in Hi.
    apply list_elem_of_fmap in Hi as (x & -> & Hx).
    destruct (shaped_node_parent _ _ _ _ Ha Hx) as (q & Hq & Hcase).
    exists (nodeOf q x). split; [done|]. cbn [nodeOf Heap.parent Heap.data].
    split.
    + intros q' ->. destruct Hcase as [?|(y & Hy & [= ->])]; [done|].
      by eapply shaped_lookup.
    + rewrite Forall_forall in Hobjs. by apply Hobjs.
  - unfold targetsAt. by apply Permutation_flat_map.
Qed.

End forEach_clear.

Lemma flat_map_flat_map {A B C} (f : B -> list C) (g : A -> list B) l :
  flat_map f (flat_map g l) = flat_map (fun x => flat_map f (g x)) l.
Proof.
  induction l as [|x l IH]; [done|]. cbn. by rewrite flat_map_app, IH.
Qed.

Lemma flat_map_ext_elem {A B} (f g : A -> list B) l :
  (forall x, x ∈ l -> f x = g x) -> flat_map f l = flat_map g l.
Proof.
  induction l as [|x l IH]; [done|]. intros Hfg. cbn.
  rewrite (Hfg x) by by left. rewrite IH; [done|].
  intros y Hy. apply Hfg. by right.
Qed.

Lemma targetsAt_parent cond ns p (t : tree (nat * nat)) :
  shaped ns p t ->
  targetsAt (parentTarget cond) ns (addrs t) = parentTargets cond p t.
Proof.
  revert p. induction t as [d v k ch IH] using tree_ind'. intros p Ht.
  pose proof (proj1 (shaped_unfold _ _ _) Ht) as [Hroot Hch].
  rewrite addrs_unfold. unfold targetsAt. cbn [flat_map]. rewrite Hroot.
  cbn [from_option parentTargets children data value depth]. f_equal.
  rewrite flat_map_flat_map. cbn [children] in Hch.
  apply flat_map_ext_elem. rewrite Forall_forall in IH, Hch.
  intros c Hc. by apply IH, Hch.
Qed.

Lemma targetsAt_own cond ns p (t : tree (nat * nat)) :
  shaped ns p t ->
  targetsAt (ownTarget cond) ns (addrs t) = allTargets cond t.
Proof.
  revert p. induction t as [d v k ch IH] using tree_ind'. intros p Ht.
  pose proof (proj1 (shaped_unfold _ _ _) Ht) as [Hroot Hch].
  rewrite addrs_unfold. unfold targetsAt. cbn [flat_map]. rewrite Hroot.
  cbn [from_option allTargets children data value depth]. f_equal.
  rewrite flat_map_flat_map. cbn [children] in Hch.
  apply flat_map_ext_elem. rewrite Forall_forall in IH, Hch.
  intros c Hc. by eapply IH, Hch.
Qed.

Lemma allTargets_within cond (s : tree (nat * nat)) j :
  j ∈ allTargets cond s -> j ∈ addrs s.
Proof.
  induction s as [d v k ch IH] using tree_ind'.
  cbn [allTargets data value depth children]. rewrite addrs_unfold.
  rewrite elem_of_app. intros [Hj|(c & Hc & Hj)%elem_of_flat_map].
  - destruct (cond d.2 v k); [|by apply elem_of_nil in Hj].
    apply list_elem_of_singleton in Hj as ->. by left.
  - right. cbn [children]. apply elem_of_flat_map. exists c. split; [done|].
    rewrite Forall_forall in IH. by apply IH.
Qed.

Lemma shaped_dropWhere_all cond ns targets p (t : tree (nat * nat)) :
  shaped ns p t ->
  NoDup (addrs t) ->
  (forall j, j ∈ addrs t -> j ∈ targets <-> j ∈ allTargets cond t) ->
  shaped (clearSet targets ns) p (dropWhere (fun d => cond d.2) t).
Proof.
  revert p. induction t as [d v k ch IH] using tree_ind'.
  intros p Hshaped Hnd Htargets.
  pose proof (proj1 (shaped_unfold _ _ _) Hshaped) as [Hroot Hch].
  pose proof (Htargets _ (addr_in_addrs _)) as Hroot_hit.
  apply shaped_unfold. rewrite addr_dropWhere.
  cbn [dropWhere allTargets children data value depth] in *.
  destruct (cond d.2 v k) eqn:Hcond.
  - split; [|constructor].
    rewrite (clearSet_inside _ _ _ _ (proj2 Hroot_hit ltac:(by left)) Hroot).
    done.
  - cbn [app] in *. split.
    + rewrite clearSet_outside, Hroot.
      * unfold nodeOf. cbn [data value depth children]. do 3 f_equal.
        rewrite map_map. apply map_ext. intros c.
        symmetry. apply addr_dropWhere.
      * intros Hin. apply Hroot_hit, elem_of_flat_map in Hin as (c & Hc & Hin).
        destruct (NoDup_children _ c Hnd Hc) as (_ & Hout & _).
        by apply Hout, (allTargets_within cond).
    + apply Forall_map. rewrite Forall_forall in IH, Hch. apply Forall_forall.
      intros c Hc. destruct (NoDup_children _ c Hnd Hc) as (Hndc & _ & Huniq).
      apply (IH c Hc); [by apply Hch|done|].
      intros j Hj. rewrite Htargets.
      2:{ rewrite addrs_unfold. right. apply elem_of_flat_map. eauto. }
      rewrite elem_of_flat_map. split; [|by eauto].
      intros (c' & Hc' & Hin).
      by rewrite <- (Huniq c' j Hc' Hj (allTargets_within _ _ _ Hin)).
Qed.

(** ** A traversal of a fresh copy *)

Section prune_on_copy.
Context (h : Heap.heap) (traverse : nat -> Heap.M unit).
Context (targets : tree (nat * nat) -> list nat).
Context (cut : tree (nat * nat) -> tree (nat * nat)).
Context (cut' : tree nat -> tree nat).

Hypothesis traverse_run : forall ns a,
  shaped ns None a ->
  NoDup (addrs a) ->
  Forall (fun x => is_Some (Heap.objs h !! (data x).2)) (nodes a) ->
  traverse (addr a) (Heap.mkHeap ns (Heap.objs h))
  = Some (tt, Heap.mkHeap (clearSet (targets a) ns) (Heap.objs h)).
Hypothesis targets_within : forall a j, j ∈ targets a -> j ∈ addrs a.
Hypothesis cut_shaped : forall ns a,
  shaped ns None a -> NoDup (addrs a) ->
  shaped (clearSet (targets a) ns) None (cut a).
Hypothesis cut_addr : forall a, addr (cut a) = addr a.
Hypothesis cut_sublist : forall a,
  sublist (map data (nodes (cut a))) (map data (nodes a)).
Hypothesis cut_tmap : forall a, tmap snd (cut a) = cut' (tmap snd a).

Lemma traverse_on_copy root t :
  represents h root t ->
  exists newTree h',
    (newTree ← Heap.copy root;
     _ ← traverse newTree;
     mret newTree) h = Some (newTree, h') /\
    represents h' newTree (cut' (rebase 0 t)) /\
    extends h h'.
Proof.
  intros (s & p & <- & <- & Hs & Hnd & Hobjs).
  destruct (copy_run h p s Hs Hnd)
    as (ns1 & a & Hcopy & Ha & Hsa & Hta & Hnda & Hlow & more & ->).
  assert (Forall (fun d => is_Some (Heap.objs h !! d))
            (map data (nodes a)).*2) as Hobjs_a.
  { change (map data (nodes a)).*2 with (map snd (map data (nodes a))).
    by rewrite <- nodes_tmap_data, Hta, nodes_rebase_data. }
  exists (length (Heap.nodes h)),
    (Heap.mkHeap (clearSet (targets a) (Heap.nodes h ++ more)) (Heap.objs h)).
  split; [|split].
  - unfold mbind at 1, Heap.M_bind at 1. rewrite Hcopy.
    unfold mbind at 1, Heap.M_bind at 1.
    rewrite <- Ha. rewrite traverse_run; [done|done|done|].
    apply Forall_forall. intros x Hx.
    rewrite Forall_forall in Hobjs_a. apply Hobjs_a.
    apply list_elem_of_fmap. exists (data x). split; [done|].
    by apply list_elem_of_fmap_2.
  - exists (cut a), None. cbn [Heap.nodes Heap.objs].
    split; [by rewrite cut_tmap, Hta|].
    split; [by rewrite cut_addr|].
    split; [by apply cut_shaped|].
    split.
    + rewrite addrs_data. eapply sublist_NoDup; [|apply fmap_sublist, cut_sublist].
      by rewrite <- addrs_data.
    + rewrite <- Hta, <- cut_tmap, nodes_tmap_data.
      apply Forall_forall. intros d Hd. rewrite Forall_forall in Hobjs_a.
      apply Hobjs_a. eapply elem_of_sublist; [exact Hd|].
      apply (fmap_sublist snd), cut_sublist.
  - split; [|done]. cbn [Heap.nodes].
    apply clearSet_prefix. intros j Hj. by apply Hlow, targets_within.
Qed.

End prune_on_copy.

Lemma parentTarget_clear cond i n :
  parentTarget cond i (clear n) = parentTarget cond i n.
Proof. done. Qed.

Lemma ownTarget_clear cond i n :
  ownTarget cond i (clear n) = ownTarget cond i n.
Proof. done. Qed.

(** [eachAfter] with a callback that clears the parent's children. *)
Lemma eachAfter_dropSiblings_on_copy h cond callback root t :
  (forall ns i n,
     ns !! i = Some n ->
     (forall q, Heap.parent n = Some q -> is_Some (ns !! q)) ->
     is_Some (Heap.objs h !! Heap.data n) ->
     callback i (Heap.mkHeap ns (Heap.objs h))
     = Some (tt, Heap.mkHeap (clearSet (parentTarget cond i n) ns) (Heap.objs h))) ->
  represents h root t ->
  exists newTree h',
    (newTree ← Heap.copy root;
     _ ← Heap.eachAfter callback newTree;
     mret newTree) h = Some (newTree, h') /\
    represents h' newTree (dropWhereChild cond (rebase 0 t)) /\
    extends h h'.
Proof.
  intros Hcb.
  apply (traverse_on_copy h _ (parentTargets cond None)
           (dropWhereChild (fun d => cond d.2))).
  - intros ns a Ha Hnd Hobjs.
    destruct (eachAfter_run (Heap.objs h) (parentTarget cond) callback Hcb
                (parentTarget_clear cond) ns a Ha Hnd Hobjs) as (T & -> & Hperm).
    do 3 f_equal. apply clearSet_ext. intros j.
    by rewrite Hperm, (targetsAt_parent cond ns None a Ha).
  - intros a j. intros [[? _]|Hin]%parentTargets_hits; [done|].
    by eapply hits_within.
  - intros ns a Hs Hnd. apply shaped_dropWhereChild; [done|done|].
    intros j _. rewrite parentTargets_hits. split; [|by right].
    by intros [[? _]|?].
  - intros a. apply addr_dropWhereChild.
  - intros a. apply nodes_dropWhereChild_sublist.
  - intros a. apply (tmap_dropWhereChild snd).
Qed.

(** [eachAfter] with a callback that clears the node's own children. *)
Lemma eachAfter_dropChildren_on_copy h cond callback root t :
  (forall ns i n,
     ns !! i = Some n ->
     (forall q, Heap.parent n = Some q -> is_Some (ns !! q)) ->
     is_Some (Heap.objs h !! Heap.data n) ->
     callback i (Heap.mkHeap ns (Heap.objs h))
     = Some (tt, Heap.mkHeap (clearSet (ownTarget cond i n) ns) (Heap.objs h))) ->
  represents h root t ->
  exists newTree h',
    (newTree ← Heap.copy root;
     _ ← Heap.eachAfter callback newTree;
     mret newTree) h = Some (newTree, h') /\
    represents h' newTree (dropWhere cond (rebase 0 t)) /\
    extends h h'.
Proof.
  intros Hcb.
  apply (traverse_on_copy h _ (allTargets cond)
           (dropWhere (fun d => cond d.2))).
  - intros ns a Ha Hnd Hobjs.
    destruct (eachAfter_run (Heap.objs h) (ownTarget cond) callback Hcb
                (ownTarget_clear cond) ns a Ha Hnd Hobjs) as (T & -> & Hperm).
    do 3 f_equal. apply clearSet_ext. intros j.
    by rewrite Hperm, (targetsAt_own cond ns None a Ha).
  - intros a j. apply allTargets_within.
  - intros ns a Hs Hnd. by apply shaped_dropWhere_all.
  - intros a. apply addr_dropWhere.
  - intros a. apply nodes_dropWhere_sublist.
  - intros a. apply (tmap_dropWhere snd).
Qed.

Lemma pruneTreeByDepth_run h root t maxDepth :
  represents h root t ->
  exists newTree h',
    Pruner.pruneTreeByDepth root maxDepth h = Some (newTree, h') /\
    represents h' newTree (dropWhereChild (depthAbove maxDepth) (rebase 0 t)) /\
    extends h h'.
Proof.
  apply (eachAfter_dropSiblings_on_copy h (depthAbove maxDepth)).
  intros ns i n Hn Hparent _. unfold mbind, Heap.M_bind.
  rewrite (getNode_run (Heap.mkHeap ns (Heap.objs h)) _ _ Hn).
  unfold parentTarget, depthAbove.
  destruct (maxDepth <? Z.of_nat (Heap.depth n))%Z; [|by rewrite clearSet_nil].
  unfold Pruner.dropSiblings. destruct (Heap.parent n) as [q|] eqn:Hq.
  - destruct (Hparent q eq_refl) as [nq Hnq].
    by rewrite (setChildren_None_run (Heap.mkHeap ns (Heap.objs h)) q nq).
  - by rewrite clearSet_nil.
Qed.

Lemma pruneTreeByMinDistanceSearch_run h root t minDistance :
  represents h root t ->
  exists newTree h',
    Pruner.pruneTreeByMinDistanceSearch root minDistance h = Some (newTree, h') /\
    represents h' newTree
      (dropWhereChild (tooClose (Heap.objs h) minDistance) (rebase 0 t)) /\
    extends h h'.
Proof.
  apply (eachAfter_dropSiblings_on_copy h (tooClose (Heap.objs h) minDistance)).
  intros ns i n Hn Hparent [o Ho]. unfold mbind, Heap.M_bind.
  rewrite (getNode_run (Heap.mkHeap ns (Heap.objs h)) _ _ Hn).
  unfold Heap.getData, parentTarget, tooClose. cbn [Heap.objs]. rewrite Ho. cbn.
  destruct (Pruner.distanceBelow _ _); [|by rewrite clearSet_nil].
  unfold Pruner.dropSiblings. destruct (Heap.parent n) as [q|] eqn:Hq.
  - destruct (Hparent q eq_refl) as [nq Hnq].
    by rewrite (setChildren_None_run (Heap.mkHeap ns (Heap.objs h)) q nq).
  - by rewrite clearSet_nil.
Qed.

Lemma collapseNode_run h root t nodeId :
  represents h root t ->
  exists newTree h',
    Pruner.collapseNode root nodeId h = Some (newTree, h') /\
    represents h' newTree (dropWhere (hasId (Heap.objs h) nodeId) (rebase 0 t)) /\
    extends h h'.
Proof.
  apply (eachAfter_dropChildren_on_copy h (hasId (Heap.objs h) nodeId)).
  intros ns i n Hn _ [o Ho]. unfold mbind, Heap.M_bind.
  rewrite (getNode_run (Heap.mkHeap ns (Heap.objs h)) _ _ Hn).
  unfold Heap.getData, ownTarget, hasId. cbn [Heap.objs]. rewrite Ho. cbn.
  case_bool_decide; [|by rewrite clearSet_nil].
  by rewrite (setChildren_None_run (Heap.mkHeap ns (Heap.objs h)) i n).
Qed.

(** ** Cutting by depth *)

Lemma existsb_const {A} (b : bool) (l : list A) :
  existsb (fun _ => b) l = b && negb (bool_decide (l = [])).
Proof.
  induction l as [|x l IH]; [by rewrite andb_false_r|].
  cbn. rewrite IH. by destruct b, l.
Qed.

Lemma truncate_unfold {D} d (x : D) v k ch :
  truncate d (T x v k ch)
  = T x v k (match d with 0 => [] | S d' => map (truncate d') ch end).
Proof. by destruct d. Qed.

Lemma depthAbove_truncate maxDepth k (t : tree nat) :
  dropWhereChild (depthAbove maxDepth) (rebase k t)
  = truncate (Z.to_nat maxDepth - k) (rebase k t).
Proof.
  revert k. induction t as [d v k0 ch IH] using tree_ind'. intros k.
  rewrite rebase_unfold, truncate_unfold. cbn [dropWhereChild]. f_equal.
  rewrite existsb_map.
  assert (existsb
            (fun x => depthAbove maxDepth (data (rebase (S k) x))
                        (value (rebase (S k) x)) (depth (rebase (S k) x))) ch
          = existsb (fun _ => (maxDepth <? Z.of_nat (S k))%Z) ch) as ->.
  { apply existsb_ext. intros c. by destruct c. }
  rewrite existsb_const.
  destruct (maxDepth <? Z.of_nat (S k))%Z eqn:Hlt.
  - apply Z.ltb_lt in Hlt.
    replace (Z.to_nat maxDepth - k) with 0 by lia.
    cbn. case_bool_decide as Hch; [by rewrite Hch|done].
  - apply Z.ltb_ge in Hlt. cbn [andb].
    replace (Z.to_nat maxDepth - k) with (S (Z.to_nat maxDepth - S k)) by lia.
    rewrite !map_map. apply map_ext_Forall.
    eapply Forall_impl; [exact IH|]. intros c Hc. apply Hc.
Qed.

Lemma truncate_truncate {D} d1 d2 (t : tree D) :
  truncate d2 (truncate d1 t) = truncate (Nat.min d1 d2) t.
Proof.
  revert d1 d2. induction t as [x v k ch IH] using tree_ind'. intros d1 d2.
  rewrite !truncate_unfold. f_equal.
  destruct d1 as [|d1], d2 as [|d2]; cbn [Nat.min]; try done.
  rewrite map_map. apply map_ext_Forall.
  eapply Forall_impl; [exact IH|]. intros c Hc. apply Hc.
Qed.

Lemma rebase_truncate {D} k d (t : tree D) :
  rebase k (truncate d t) = truncate d (rebase k t).
Proof.
  revert k d. induction t as [x v k0 ch IH] using tree_ind'. intros k d.
  rewrite truncate_unfold, !rebase_unfold, truncate_unfold. f_equal.
  destruct d as [|d]; [done|].
  rewrite !map_map. apply map_ext_Forall.
  eapply Forall_impl; [exact IH|]. intros c Hc. apply Hc.
Qed.

Lemma filter_flat_map {A B} (f : B -> bool) (g : A -> list B) l :
  List.filter f (flat_map g l) = flat_map (fun x => List.filter f (g x)) l.
Proof.
  induction l as [|x l IH]; [done|]. cbn. by rewrite List.filter_app, IH.
Qed.

Lemma rebase_depth_ge {D} k (t : tree D) :
  Forall (fun n => k <= depth n) (nodes (rebase k t)).
Proof.
  revert k. induction t as [x v k0 ch IH] using tree_ind'. intros k.
  rewrite rebase_unfold. cbn [nodes children]. constructor; [done|].
  apply Forall_flat_map, Forall_map.
  eapply Forall_impl; [exact IH|]. intros c Hc. cbn beta.
  eapply Forall_impl; [apply (Hc (S k))|]. cbn beta. lia.
Qed.

Lemma filter_none {A} (f : A -> bool) l :
  Forall (fun x => f x = false) l -> List.filter f l = [].
Proof. induction 1 as [|x l Hx _ IH]; [done|]. cbn. by rewrite Hx. Qed.

(** The nodes a cut by depth keeps are the nodes down to that depth. *)
Lemma truncate_payloads {D} d k (t : tree D) :
  map data (nodes (truncate d (rebase k t)))
  = map data (List.filter (fun n => depth n <=? k + d) (nodes (rebase k t))).
Proof.
  revert d k. induction t as [x v k0 ch IH] using tree_ind'. intros d k.
  rewrite rebase_unfold, truncate_unfold. cbn [nodes children List.filter depth].
  rewrite (proj2 (Nat.leb_le k (k + d))) by lia. cbn [map]. f_equal.
  rewrite filter_flat_map, !flat_map_concat_map, !map_map.
  destruct d as [|d].
  - cbn [map concat]. symmetry.
    rewrite <- flat_map_concat_map.
    assert (flat_map (fun c => List.filter (fun n => depth n <=? k + 0)
                                 (nodes (rebase (S k) c))) ch = []) as ->; [|done].
    clear IH. induction ch as [|c ch IHch]; [done|]. cbn [flat_map].
    rewrite IHch, app_nil_r. apply filter_none.
    eapply Forall_impl; [apply rebase_depth_ge|]. cbn beta.
    intros n Hn. apply Nat.leb_gt. lia.
  - rewrite !concat_map, !map_map. f_equal.
    apply map_ext_Forall. eapply Forall_impl; [exact IH|].
    intros c Hc. cbn beta. rewrite (Hc d (S k)). f_equal.
    apply List.filter_ext. intros n. by replace (S k + d) with (k + S d) by lia.
Qed.

Lemma dropWhereChild_keeps {D} cond (t : tree D) :
  Forall (fun n => Forall (fun c => cond (data c) (value c) (depth c) = false)
                     (children n)) (nodes t) ->
  dropWhereChild cond t = t.
Proof.
  induction t as [x v k ch IH] using tree_ind'. intros Hall.
  cbn [nodes children] in Hall. apply Forall_cons in Hall as [Hroot Hall].
  cbn [dropWhereChild].
  assert (existsb (fun c => cond (data c) (value c) (depth c)) ch = false) as ->.
  { apply not_true_iff_false. intros (c & Hc & Hcond)%existsb_exists.
    rewrite List.Forall_forall in Hroot. by rewrite (Hroot c Hc) in Hcond. }
  f_equal. rewrite <- (map_id ch) at 2. apply map_ext_Forall.
  rewrite Forall_forall in IH, Hall. apply Forall_forall.
  intros c Hc. apply IH; [done|]. apply Forall_forall. intros n Hn.
  apply Hall, elem_of_flat_map. eauto.
Qed.

Lemma dropWhere_keeps {D} cond (t : tree D) :
  Forall (fun n => cond (data n) (value n) (depth n) = false) (nodes t) ->
  dropWhere cond t = t.
Proof.
  induction t as [x v k ch IH] using tree_ind'. intros Hall.
  cbn [nodes children] in Hall. apply Forall_cons in Hall as [Hroot Hall].
  cbn [dropWhere]. cbn [data value depth] in Hroot. rewrite Hroot.
  f_equal. rewrite <- (map_id ch) at 2. apply map_ext_Forall.
  rewrite Forall_forall in IH, Hall. apply Forall_forall.
  intros c Hc. apply IH; [done|]. apply Forall_forall. intros n Hn.
  apply Hall, elem_of_flat_map. eauto.
Qed.

Lemma size_pos {D} (t : tree D) : 1 <= size t.
Proof. destruct t. unfold size. cbn. lia. Qed.

Lemma size_dropWhereChild_le {D} cond (t : tree D) :
  size (dropWhereChild cond t) <= size t.
Proof.
  rewrite !size_data. apply sublist_length, nodes_dropWhereChild_sublist.
Qed.

(** ** The pruning functions, one by one *)

Lemma heap_ABCD_represents : represents heap_ABCD 0 tree_ABCD.
Proof.
  exists (T (0, 0) (Some 4%Z) 0
            [T (1, 1) (Some 2%Z) 1 [T (3, 3) (Some 2%Z) 2 []];
             T (2, 2) (Some 2%Z) 1 []]), None.
  split; [done|split; [done|split; [|split]]].
  - cbn. done.
  - apply (bool_decide_unpack _). by vm_compute.
  - repeat constructor; by eexists.
Qed.

(** X1: [pruneTreeByDepth(tree, depth)] returns a copy of the tree cut below
    the nodes [max(depth, 0)] levels under the root: its nodes are the nodes
    of the copy down to that depth, in the same order; a negative [depth]
    leaves the root alone. *)
Theorem pruneTreeByDepth_truncates h root t (maxDepth : Z) :
  represents h root t ->
  exists newTree h',
    Pruner.pruneTreeByDepth root maxDepth h = Some (newTree, h') /\
    represents h' newTree (truncate (Z.to_nat maxDepth) (rebase 0 t)) /\
    map data (nodes (truncate (Z.to_nat maxDepth) (rebase 0 t)))
    = map data (List.filter (fun n => depth n <=? Z.to_nat maxDepth)
                  (nodes (rebase 0 t))).
Proof.
  intros Hrep.
  destruct (pruneTreeByDepth_run h root t maxDepth Hrep)
    as (newTree & h' & Hrun & Hrep' & _).
  rewrite depthAbove_truncate, Nat.sub_0_r in Hrep'.
  exists newTree, h'. split; [done|split; [done|]].
  apply (truncate_payloads (Z.to_nat maxDepth) 0).
Qed.

Lemma pruneTreeByDepth_truncates_witness :
  exists newTree h',
    Pruner.pruneTreeByDepth 0 1 heap_ABCD = Some (newTree, h') /\
    represents h' newTree
      (T 0 (Some 4%Z) 0 [T 1 (Some 2%Z) 1 []; T 2 (Some 2%Z) 1 []]) /\
    [0; 1; 2] = [0; 1; 2].
Proof.
  exact (pruneTreeByDepth_truncates heap_ABCD 0 tree_ABCD 1
           heap_ABCD_represents).
Defined.

(** X2: pruning by depth twice, with [d1] and then with [d2], gives the tree
    that one pruning with the smaller of the two gives. *)
Theorem pruneTreeByDepth_twice h root t (d1 d2 : Z) :
  represents h root t ->
  exists once h1 twice h2,
    Pruner.pruneTreeByDepth root d1 h = Some (once, h1) /\
    Pruner.pruneTreeByDepth once d2 h1 = Some (twice, h2) /\
    represents h2 twice (truncate (Z.to_nat (Z.min d1 d2)) (rebase 0 t)).
Proof.
  intros Hrep.
  destruct (pruneTreeByDepth_run h root t d1 Hrep)
    as (once & h1 & Hrun1 & Hrep1 & _).
  destruct (pruneTreeByDepth_run h1 once _ d2 Hrep1)
    as (twice & h2 & Hrun2 & Hrep2 & _).
  exists once, h1, twice, h2. split; [done|split; [done|]].
  rewrite !depthAbove_truncate, !Nat.sub_0_r in Hrep2.
  rewrite rebase_truncate, rebase_rebase, truncate_truncate in Hrep2.
  by rewrite Z2Nat.inj_min.
Qed.

Lemma pruneTreeByDepth_twice_witness :
  exists once h1 twice h2,
    Pruner.pruneTreeByDepth 0 1 heap_ABCD = Some (once, h1) /\
    Pruner.pruneTreeByDepth once 5 h1 = Some (twice, h2) /\
    represents h2 twice
      (T 0 (Some 4%Z) 0 [T 1 (Some 2%Z) 1 []; T 2 (Some 2%Z) 1 []]).
Proof.
  exact (pruneTreeByDepth_twice heap_ABCD 0 tree_ABCD 1 5 heap_ABCD_represents).
Defined.

(** X3: [pruneTreeByMinDistanceSearch(tree, distance)] returns a copy of the
    tree in which every node with at least one child of missing, zero or
    below-threshold distance has lost all of its children, and every other
    node keeps its children, cut in the same way. *)
Theorem pruneTreeByMinDistanceSearch_cuts_sibling_groups h root t
  (minDistance : Q) :
  represents h root t ->
  exists newTree h',
    Pruner.pruneTreeByMinDistanceSearch root minDistance h
    = Some (newTree, h') /\
    represents h' newTree
      (dropWhereChild (tooClose (Heap.objs h) minDistance) (rebase 0 t)) /\
    (forall n, n ∈ nodes t ->
       tooClose (Heap.objs h) minDistance (data n) (value n) (depth n) = true
       <-> low_distance (distanceAt (Heap.objs h) (data n)) minDistance).
Proof.
  intros Hrep.
  destruct (pruneTreeByMinDistanceSearch_run h root t minDistance Hrep)
    as (newTree & h' & Hrun & Hrep' & _).
  destruct Hrep as (_ & _ & _ & _ & _ & _ & Hobjs).
  exists newTree, h'. split; [done|split; [done|]].
  intros n Hn. apply tooClose_low.
  rewrite Forall_forall in Hobjs. apply Hobjs. by apply list_elem_of_fmap_2.
Qed.

Lemma pruneTreeByMinDistanceSearch_cuts_sibling_groups_witness :
  exists newTree h',
    Pruner.pruneTreeByMinDistanceSearch 0 2 heap_ABCD = Some (newTree, h') /\
    represents h' newTree (T 0 (Some 4%Z) 0 []) /\
    (forall n, n ∈ nodes tree_ABCD ->
       tooClose (Heap.objs heap_ABCD) 2 (data n) (value n) (depth n) = true
       <-> low_distance (distanceAt (Heap.objs heap_ABCD) (data n)) 2).
Proof.
  exact (pruneTreeByMinDistanceSearch_cuts_sibling_groups heap_ABCD 0 tree_ABCD 2
           heap_ABCD_represents).
Defined.

(** X4: [collapseNode(tree, nodeId)] returns a copy of the tree in which
    every node whose id is [nodeId] has lost its children and every other
    node is as it was; when no node has the id, the result is an unchanged
    copy, and nothing is thrown. *)
Theorem collapseNode_cuts_children h root t (nodeId : string) :
  represents h root t ->
  exists newTree h',
    Pruner.collapseNode root nodeId h = Some (newTree, h') /\
    represents h' newTree
      (dropWhere (hasId (Heap.objs h) nodeId) (rebase 0 t)) /\
    ((forall n o, n ∈ nodes t -> Heap.objs h !! data n = Some o ->
                  id o <> nodeId) ->
     represents h' newTree (rebase 0 t)).
Proof.
  intros Hrep.
  destruct (collapseNode_run h root t nodeId Hrep)
    as (newTree & h' & Hrun & Hrep' & _).
  exists newTree, h'. split; [done|split; [done|]].
  intros Habsent. rewrite dropWhere_rebase, dropWhere_keeps in Hrep'; try done.
  apply Forall_forall. intros n Hn. unfold hasId.
  destruct (Heap.objs h !! data n) as [o|] eqn:Ho; [|done].
  apply bool_decide_eq_false_2. by eapply Habsent.
Qed.

Lemma collapseNode_cuts_children_witness :
  exists newTree h',
    Pruner.collapseNode 0 "B" heap_ABCD = Some (newTree, h') /\
    represents h' newTree
      (T 0 (Some 4%Z) 0 [T 1 (Some 2%Z) 1 []; T 2 (Some 2%Z) 1 []]) /\
    ((forall n o, n ∈ nodes tree_ABCD ->
                  Heap.objs heap_ABCD !! data n = Some o -> id o <> "B") ->
     represents h' newTree (rebase 0 tree_ABCD)).
Proof.
  exact (collapseNode_cuts_children heap_ABCD 0 tree_ABCD "B"
           heap_ABCD_represents).
Defined.

(** X5: the five pruning functions that do not re-root never change the
    tree they are given: after the call every node object and every payload
    that was in the store is as before, and the source is the same tree. *)
Theorem pruning_leaves_source h root t (minSize minDistance : Q)
  (maxDepth : Z) (nodeId : string) :
  represents h root t ->
  (exists r h', Pruner.pruneTreeByMinValue root minSize h = Some (r, h') /\
                extends h h' /\ represents h' root t) /\
  (exists r h', Pruner.pruneTreeByMinDistance root minDistance h = Some (r, h') /\
                extends h h' /\ represents h' root t) /\
  (exists r h', Pruner.pruneTreeByMinDistanceSearch root minDistance h
                = Some (r, h') /\
                extends h h' /\ represents h' root t) /\
  (exists r h', Pruner.pruneTreeByDepth root maxDepth h = Some (r, h') /\
                extends h h' /\ represents h' root t) /\
  (exists r h', Pruner.collapseNode root nodeId h = Some (r, h') /\
                extends h h' /\ represents h' root t).
Proof.
  intros Hrep. repeat split.
  - destruct (pruneTreeByMinValue_run h root t minSize Hrep)
      as (r & h' & Hrun & _ & Hext).
    exists r, h'. eauto using represents_extends.
  - destruct (pruneTreeByMinDistance_run h root t minDistance Hrep)
      as (r & h' & Hrun & _ & Hext).
    exists r, h'. eauto using represents_extends.
  - destruct (pruneTreeByMinDistanceSearch_run h root t minDistance Hrep)
      as (r & h' & Hrun & _ & Hext).
    exists r, h'. eauto using represents_extends.
  - destruct (pruneTreeByDepth_run h root t maxDepth Hrep)
      as (r & h' & Hrun & _ & Hext).
    exists r, h'. eauto using represents_extends.
  - destruct (collapseNode_run h root t nodeId Hrep)
      as (r & h' & Hrun & _ & Hext).
    exists r, h'. eauto using represents_extends.
Qed.

Lemma pruning_leaves_source_witness :
  (exists r h', Pruner.pruneTreeByMinValue 0 3 heap_ABCD = Some (r, h') /\
                extends heap_ABCD h' /\ represents h' 0 tree_ABCD) /\
  (exists r h', Pruner.pruneTreeByMinDistance 0 5 heap_ABCD = Some (r, h') /\
                extends heap_ABCD h' /\ represents h' 0 tree_ABCD) /\
  (exists r h', Pruner.pruneTreeByMinDistanceSearch 0 5 heap_ABCD
                = Some (r, h') /\
                extends heap_ABCD h' /\ represents h' 0 tree_ABCD) /\
  (exists r h', Pruner.pruneTreeByDepth 0 1 heap_ABCD = Some (r, h') /\
                extends heap_ABCD h' /\ represents h' 0 tree_ABCD) /\
  (exists r h', Pruner.collapseNode 0 "B" heap_ABCD = Some (r, h') /\
                extends heap_ABCD h' /\ represents h' 0 tree_ABCD).
Proof.
  exact (pruning_leaves_source heap_ABCD 0 tree_ABCD 3 5 1 "B"
           heap_ABCD_represents).
Defined.

(** X6: [getSizePrunedRemainder(tree, minSize)] never throws and returns the
    node count of the tree pruned by minimum value: at least 1, the root, and
    at most the node count of the tree. *)
Theorem getSizePrunedRemainder_bounds h root t (minSize : Q) :
  represents h root t ->
  exists n h',
    Pruner.getSizePrunedRemainder root minSize h = Some (n, h') /\
    n = size (dropWhereChild (fun _ v _ => Pruner.valueBelow v minSize)
                (rebase 0 t)) /\
    1 <= n <= size t.
Proof.
  intros Hrep.
  destruct (pruneTreeByMinValue_run h root t minSize Hrep)
    as (pruned & h' & Hrun & Hrep' & _).
  destruct (descendants_represents _ _ _ Hrep') as (l & Hl & Hlen & _).
  exists (length l), h'. split; [|split; [done|]].
  - unfold Pruner.getSizePrunedRemainder, mbind, Heap.M_bind.
    by rewrite Hrun, Hl.
  - rewrite Hlen. split; [apply size_pos|].
    etrans; [apply size_dropWhereChild_le|]. by rewrite size_rebase.
Qed.

Lemma getSizePrunedRemainder_bounds_witness :
  exists n h',
    Pruner.getSizePrunedRemainder 0 3 heap_ABCD = Some (n, h') /\
    n = 1 /\ 1 <= n <= 4.
Proof.
  exact (getSizePrunedRemainder_bounds heap_ABCD 0 tree_ABCD 3
           heap_ABCD_represents).
Defined.

(** X7: when no node below the root has a value under [minSize],
    [pruneTreeByMinValue(tree, minSize)] returns an unchanged copy of the
    tree, whatever the root's own value. *)
Theorem pruneTreeByMinValue_keeps_all h root t (minSize : Q) :
  represents h root t ->
  Forall (fun n => Forall (fun c => forall x, value c = Some x ->
                                      (minSize <= inject_Z x)%Q)
                     (children n)) (nodes t) ->
  exists newTree h',
    Pruner.pruneTreeByMinValue root minSize h = Some (newTree, h') /\
    represents h' newTree (rebase 0 t).
Proof.
  intros Hrep Hall.
  destruct (pruneTreeByMinValue_run h root t minSize Hrep)
    as (newTree & h' & Hrun & Hrep' & _).
  exists newTree, h'. split; [done|].
  unfold prunedByMinValue in Hrep'.
  rewrite dropWhereChild_rebase, dropWhereChild_keeps in Hrep'; try done.
  eapply Forall_impl; [exact Hall|]. cbn beta. intros n Hn.
  eapply Forall_impl; [exact Hn|]. cbn beta. intros c Hc.
  unfold tooSmall, Pruner.valueBelow, JS.Qltb.
  destruct (value c) as [x|]; [|done].
  apply negb_false_iff, Qle_bool_iff. by apply Hc.
Qed.

Lemma pruneTreeByMinValue_keeps_all_witness :
  exists newTree h',
    Pruner.pruneTreeByMinValue 0 2 heap_ABCD = Some (newTree, h') /\
    represents h' newTree (rebase 0 tree_ABCD).
Proof.
  apply (pruneTreeByMinValue_keeps_all heap_ABCD 0 tree_ABCD 2
           heap_ABCD_represents).
  repeat constructor; by intros x [= <-].
Defined.

(** ** [find] and [setRootNode] *)

Lemma shaped_subtree ns p (t x : tree (nat * nat)) :
  shaped ns p t -> x ∈ nodes t -> exists q, shaped ns q x.
Proof.
  revert p. induction t as [d v k ch IH] using tree_ind'. intros p Ht Hx.
  pose proof (proj1 (shaped_unfold _ _ _) Ht) as [Hroot Hch].
  cbn [nodes children] in Hx, Hch.
  apply elem_of_cons in Hx as [->|Hx]; [by eauto|].
  apply elem_of_flat_map in Hx as (c & Hc & Hx).
  rewrite Forall_forall in IH, Hch. exact (IH c Hc _ (Hch c Hc) Hx).
Qed.

Lemma NoDup_subtree (t x : tree (nat * nat)) :
  NoDup (addrs t) -> x ∈ nodes t -> NoDup (addrs x).
Proof.
  induction t as [d v k ch IH] using tree_ind'. intros Hnd Hx.
  cbn [nodes children] in Hx.
  apply elem_of_cons in Hx as [->|Hx]; [done|].
  apply elem_of_flat_map in Hx as (c & Hc & Hx).
  rewrite Forall_forall in IH. apply (IH c Hc); [|done].
  by destruct (NoDup_children _ c Hnd Hc) as (Hndc & _).
Qed.

Lemma firstThat_none callback l h :
  (forall i, i ∈ l -> callback i h = Some (false, h)) ->
  Heap.firstThat callback l h = Some (None, h).
Proof.
  induction l as [|i l IH]; intros Hl; [done|].
  cbn [Heap.firstThat]. unfold mbind, Heap.M_bind.
  rewrite (Hl i) by by left. apply IH. intros j Hj. apply Hl. by right.
Qed.

Lemma firstThat_unique callback l h i :
  i ∈ l ->
  callback i h = Some (true, h) ->
  (forall j, j ∈ l -> j <> i -> callback j h = Some (false, h)) ->
  Heap.firstThat callback l h = Some (Some i, h).
Proof.
  induction l as [|j l IH]; intros Hi Htrue Hl.
  { by apply elem_of_nil in Hi. }
  cbn [Heap.firstThat]. unfold mbind, Heap.M_bind.
  destruct (decide (j = i)) as [->|Hne].
  - by rewrite Htrue.
  - rewrite (Hl j) by (done || by left).
    apply IH; [|done|].
    + apply elem_of_cons in Hi as [->|Hi]; done.
    + intros j' Hj' Hne'. apply Hl; [by right|done].
Qed.

Lemma hasId_callback_run h p (a x : tree (nat * nat)) target :
  shaped (Heap.nodes h) p a ->
  x ∈ nodes a ->
  is_Some (Heap.objs h !! (data x).2) ->
  (n ← Heap.getNode (addr x);
   o ← Heap.getData (Heap.data n);
   mret (bool_decide (id o = target))) h
  = Some (hasId (Heap.objs h) target (data x).2 (value x) (depth x), h).
Proof.
  intros Ha Hx [o Ho]. destruct (shaped_node _ _ _ _ Ha Hx) as [q Hq].
  unfold mbind, Heap.M_bind. rewrite (getNode_run _ _ _ Hq).
  unfold Heap.getData, hasId. cbn [nodeOf Heap.data]. by rewrite Ho.
Qed.

Lemma filter_map_comm {A B} (f : B -> bool) (g : A -> B) l :
  List.filter f (map g l) = map g (List.filter (fun x => f (g x)) l).
Proof.
  induction l as [|x l IH]; [done|]. cbn. rewrite IH. by destruct (f (g x)).
Qed.

Lemma elem_of_filter_bool {A} (f : A -> bool) l x :
  x ∈ List.filter f l <-> x ∈ l /\ f x = true.
Proof. by rewrite !list_elem_of_In, List.filter_In. Qed.

(** X8: [setRootNode(tree, nodeId)] throws (a TypeError, from calling [copy]
    on the [undefined] that [find] returns) when no node of the tree has the
    id. *)
Theorem setRootNode_absent_id_throws h root t (target : string) :
  represents h root t ->
  (forall n o, n ∈ nodes t -> Heap.objs h !! data n = Some o -> id o <> target) ->
  Pruner.setRootNode root target h = None.
Proof.
  intros (a & p & <- & <- & Ha & Hnd & Hobjs) Habsent.
  destruct (descendants_run h p a Ha Hnd) as (l & Hl & Hperm).
  unfold Pruner.setRootNode, Heap.find.
  unfold mbind at 1, Heap.M_bind at 1. unfold mbind at 1, Heap.M_bind at 1.
  rewrite Hl. rewrite firstThat_none; [done|].
  intros i Hi. rewrite Hperm in Hi.
  apply list_elem_of_fmap in Hi as (x & -> & Hx).
  assert (tmap snd x ∈ nodes (tmap snd a)) as Hx'.
  { rewrite nodes_tmap. by apply list_elem_of_fmap_2. }
  assert (is_Some (Heap.objs h !! (data x).2)) as [o Ho].
  { rewrite Forall_forall in Hobjs. apply Hobjs.
    rewrite nodes_tmap_data. apply list_elem_of_fmap_2.
    by apply list_elem_of_fmap_2. }
  rewrite (hasId_callback_run h p a x target Ha Hx) by by exists o.
  do 2 f_equal. unfold hasId. rewrite Ho. apply bool_decide_eq_false_2.
  apply (Habsent _ o Hx'). by rewrite data_tmap.
Qed.

Lemma setRootNode_absent_id_throws_witness :
  Pruner.setRootNode 0 "Z" heap_ABCD = None.
Proof.
  apply (setRootNode_absent_id_throws heap_ABCD 0 tree_ABCD "Z"
           heap_ABCD_represents).
  intros n o Hn Ho Hid.
  repeat (apply elem_of_cons in Hn as [->|Hn];
          [cbn in Ho; injection Ho as <-; discriminate Hid|]).
  by apply elem_of_nil in Hn.
Defined.

Lemma setParent_same_run h i n :
  Heap.nodes h !! i = Some n ->
  Heap.setParent i (Heap.parent n) h = Some (tt, h).
Proof.
  intros Hn. unfold Heap.setParent, mbind, Heap.M_bind.
  rewrite (getNode_run _ _ _ Hn). unfold Heap.setNode.
  destruct n. cbn. rewrite list_insert_id by done. by destruct h.
Qed.

Lemma nodes_nodes {D} (t x y : tree D) :
  x ∈ nodes t -> y ∈ nodes x -> y ∈ nodes t.
Proof.
  induction t as [d v k ch IH] using tree_ind'. intros Hx Hy.
  cbn [nodes children] in Hx.
  apply elem_of_cons in Hx as [->|Hx]; [done|].
  apply elem_of_flat_map in Hx as (c & Hc & Hx).
  cbn [nodes children]. right. apply elem_of_flat_map. exists c.
  split; [done|]. rewrite Forall_forall in IH. by eapply IH.
Qed.

(** X9: when exactly one node [x] of the tree has the id,
    [setRootNode(tree, nodeId)] returns a copy of the subtree at [x], its
    depths counted from 0 and its root without parent; the node objects of the
    source stay as they are, but the payload of [x], which the copy shares
    with the source, has its [parentId] overwritten with [undefined]. *)
Theorem setRootNode_reroots h root t (target : string) x o :
  represents h root t ->
  List.filter (fun n => hasId (Heap.objs h) target (data n) (value n) (depth n))
    (nodes t) = [x] ->
  Heap.objs h !! data x = Some o ->
  exists newRoot h',
    Pruner.setRootNode root target h = Some (newRoot, h') /\
    represents h' newRoot (rebase 0 x) /\
    Heap.parent <$> Heap.nodes h' !! newRoot = Some None /\
    (exists more, Heap.nodes h' = Heap.nodes h ++ more) /\
    Heap.objs h'
    = <[data x := mkTMC (id o) None (items o) (distance o) (significance o)
                    (labelCount o) (nodeId o)]> (Heap.objs h).
Proof.
  intros (a & p & <- & <- & Ha & Hnd & Hobjs) Hfilter Ho.
  rewrite nodes_tmap, filter_map_comm in Hfilter.
  destruct (List.filter _ (nodes a)) as [|xa [|? ?]] eqn:Hfa; try done.
  injection Hfilter as <-.
  assert (xa ∈ nodes a /\
          hasId (Heap.objs h) target (data (tmap snd xa)) (value (tmap snd xa))
            (depth (tmap snd xa)) = true) as [Hxa Hid].
  { apply (elem_of_filter_bool
             (fun y => hasId (Heap.objs h) target (data (tmap snd y))
                         (value (tmap snd y)) (depth (tmap snd y)))).
    rewrite Hfa. by left. }
  assert (forall y, y ∈ nodes a ->
            hasId (Heap.objs h) target (data y).2 (value y) (depth y) = true ->
            y = xa) as Huniq.
  { intros y Hy Hyid.
    assert (y ∈ [xa]) as Hin; [|by apply list_elem_of_singleton in Hin].
    rewrite <- Hfa. apply elem_of_filter_bool. split; [done|].
    by rewrite data_tmap. }
  assert (forall y, y ∈ nodes a -> is_Some (Heap.objs h !! (data y).2)) as Hvalid.
  { intros y Hy. rewrite Forall_forall in Hobjs. apply Hobjs.
    rewrite nodes_tmap_data. by do 2 apply list_elem_of_fmap_2. }
  rewrite data_tmap in Ho, Hid.
  change (hasId (Heap.objs h) target (data xa).2 (value xa) (depth xa) = true)
    in Hid.
  destruct (descendants_run h p a Ha Hnd) as (l & Hl & Hperm).
  destruct (shaped_subtree _ _ _ _ Ha Hxa) as [q Hsx].
  pose proof (NoDup_subtree _ _ Hnd Hxa) as Hndx.
  destruct (copy_run h q xa Hsx Hndx)
    as (ns1 & a1 & Hcopy & Ha1 & Hsa1 & Hta1 & Hnda1 & Hlow & more & ->).
  pose proof (proj1 (shaped_unfold _ _ _) Hsa1) as [Hroot1 _].
  rewrite Ha1 in Hroot1.
  assert (data a1 = (length (Heap.nodes h), (data xa).2)) as Hdata1.
  { apply (f_equal data) in Hta1. rewrite data_tmap in Hta1.
    destruct (rebase_root 0 (tmap snd xa)) as [Hd _].
    rewrite Hd, data_tmap in Hta1.
    unfold addr in Ha1. destruct (data a1). cbn in *. congruence. }
  eexists (length (Heap.nodes h)), _. split; [|split; [|split; [|split]]].
  - unfold Pruner.setRootNode, Heap.find.
    unfold mbind at 1, Heap.M_bind at 1. unfold mbind at 1, Heap.M_bind at 1.
    rewrite Hl.
    rewrite (firstThat_unique _ l h (addr xa)).
    + unfold mbind at 1, Heap.M_bind at 1. rewrite Hcopy.
      unfold mbind at 1, Heap.M_bind at 1.
      pose proof (setParent_same_run
                    (Heap.mkHeap (Heap.nodes h ++ more) (Heap.objs h)) _ _ Hroot1)
        as Hsp.
      cbn [nodeOf Heap.parent] in Hsp. rewrite Hsp.
      unfold mbind at 1, Heap.M_bind at 1.
      rewrite (getNode_run
                 (Heap.mkHeap (Heap.nodes h ++ more) (Heap.objs h)) _ _ Hroot1).
      unfold mbind at 1, Heap.M_bind at 1.
      unfold Heap.setParentId. cbn [nodeOf Heap.data Heap.objs Heap.nodes].
      rewrite Hdata1. cbn [snd]. rewrite Ho. cbn. reflexivity.
    + rewrite Hperm. by apply list_elem_of_fmap_2.
    + rewrite (hasId_callback_run h p a xa target Ha Hxa) by by eexists.
      by rewrite Hid.
    + intros j Hj Hne. rewrite Hperm in Hj.
      apply list_elem_of_fmap in Hj as (y & -> & Hy).
      rewrite (hasId_callback_run h p a y target Ha Hy) by by apply Hvalid.
      do 2 f_equal. apply not_true_iff_false. intros Hyid.
      apply Hne. by rewrite (Huniq y Hy Hyid).
  - exists a1, None. cbn [Heap.nodes Heap.objs].
    split; [done|split; [done|split; [done|split; [done|]]]].
    rewrite nodes_rebase_data, nodes_tmap_data.
    apply Forall_forall. intros d Hd.
    apply list_elem_of_fmap in Hd as (e & -> & He).
    apply list_elem_of_fmap in He as (y & -> & Hy).
    apply lookup_lt_is_Some. rewrite length_insert.
    apply lookup_lt_is_Some, Hvalid. by eapply nodes_nodes.
  - cbn [Heap.nodes]. by rewrite Hroot1.
  - by exists more.
  - cbn [Heap.objs]. by rewrite data_tmap.
Qed.

Lemma setRootNode_reroots_witness :
  exists newRoot h',
    Pruner.setRootNode 0 "B" heap_ABCD = Some (newRoot, h') /\
    represents h' newRoot (T 1 (Some 2%Z) 0 [T 3 (Some 2%Z) 1 []]) /\
    Heap.parent <$> Heap.nodes h' !! newRoot = Some None /\
    (exists more, Heap.nodes h' = Heap.nodes heap_ABCD ++ more) /\
    Heap.objs h'
    = <[1 := mkTMC "B" None None (Some 4%Q) None ∅ None]> (Heap.objs heap_ABCD).
Proof.
  apply (setRootNode_reroots heap_ABCD 0 tree_ABCD "B"
           (T 1 (Some 2%Z) 1 [T 3 (Some 2%Z) 2 []])
           (payload "B" (Some "A") 0 (Some 4%Q)) heap_ABCD_represents);
    reflexivity.
Defined.

(** ** [levenshtein] *)

Section levenshtein_facts.
Context {C : Type} `{EqDecision C}.
Implicit Types a b : list C.

Lemma editDistance_0_l a b j : editDistance a b 0 j = j.
Proof. done. Qed.

Lemma editDistance_0_r a b i : editDistance a b i 0 = i.
Proof. by destruct i. Qed.

Lemma editDistance_S_S a b i j :
  editDistance a b (S i) (S j)
  = if bool_decide (b !! i = a !! j) then editDistance a b i j
    else S (Nat.min (editDistance a b i j)
              (Nat.min (editDistance a b (S i) j) (editDistance a b i (S j)))).
Proof. done. Qed.

Lemma get_set (m : list (list (option nat))) i j v i' j' n :
  i < length m ->
  Forall (fun row => length row = n) m ->
  j < n ->
  Levenshtein.get (Levenshtein.set m i j v) i' j'
  = if decide (i' = i /\ j' = j) then v else Levenshtein.get m i' j'.
Proof.
  intros Hi Hrows Hj. unfold Levenshtein.get, Levenshtein.set.
  destruct (decide (i' = i)) as [->|Hne].
  - rewrite list_lookup_alter_eq.
    destruct (lookup_lt_is_Some_2 _ _ Hi) as [row Hrow]. rewrite Hrow. cbn.
    assert (length row = n) as Hlen.
    { rewrite Forall_forall in Hrows. apply Hrows.
      by eapply list_elem_of_lookup_2. }
    destruct (decide (j' = j)) as [->|Hne].
    + rewrite list_lookup_insert_eq by lia.
      by rewrite decide_True.
    + rewrite list_lookup_insert_ne by done.
      rewrite decide_False; [done|]. by intros [_ ?].
  - rewrite list_lookup_alter_ne by done.
    rewrite decide_False; [done|]. by intros [? _].
Qed.

Lemma set_rows (m : list (list (option nat))) i j v n :
  Forall (fun row => length row = n) m ->
  Forall (fun row => length row = n) (Levenshtein.set m i j v).
Proof.
  intros Hrows. unfold Levenshtein.set. apply Forall_alter; [done|].
  intros row _ Hlen. by rewrite length_insert.
Qed.

Lemma filled_set a b (K K' : nat -> nat -> Prop) m i0 j0 :
  filled a b K m ->
  i0 <= length b -> j0 <= length a ->
  (forall i j, K' i j -> K i j \/ (i = i0 /\ j = j0)) ->
  filled a b K' (Levenshtein.set m i0 j0 (Some (editDistance a b i0 j0))).
Proof.
  intros (Hlen & Hrows & Hknown) Hi0 Hj0 HK. split; [|split].
  - unfold Levenshtein.set. by rewrite length_alter.
  - by apply set_rows.
  - intros i j Hi Hj HKij.
    rewrite (get_set m i0 j0 _ i j (S (length a))) by (done || lia).
    destruct (decide (i = i0 /\ j = j0)) as [[-> ->]|Hne]; [done|].
    apply Hknown; [done|done|]. by destruct (HK i j HKij).
Qed.

Lemma filled_weaken a b (K K' : nat -> nat -> Prop) m :
  filled a b K m ->
  (forall i j, i <= length b -> j <= length a -> K' i j -> K i j) ->
  filled a b K' m.
Proof.
  intros (Hlen & Hrows & Hknown) HK. split; [done|split; [done|]].
  intros i j Hi Hj HKij. apply Hknown; auto.
Qed.

Lemma fold_left_seq_inv {M} (P : nat -> M -> Prop) (f : M -> nat -> M) n m0 :
  P 0 m0 ->
  (forall k m, k < n -> P k m -> P (S k) (f m (S k))) ->
  P n (fold_left f (seq 1 n) m0).
Proof.
  intros H0 Hstep. induction n as [|n IH]; [done|].
  rewrite seq_S, fold_left_app. cbn [fold_left]. apply Hstep; [lia|].
  apply IH. intros k m Hk. apply Hstep. lia.
Qed.

Lemma fillCell_filled a b m i j :
  i < length b -> j < length a ->
  filled a b (fun i' j' => i' < S i \/ (i' = S i /\ j' <= j) \/ j' = 0) m ->
  filled a b (fun i' j' => i' < S i \/ (i' = S i /\ j' <= S j) \/ j' = 0)
    (Levenshtein.fillCell a b m (S i) (S j)).
Proof.
  intros Hi Hj Hm. pose proof Hm as (_ & _ & Hknown).
  unfold Levenshtein.fillCell, Levenshtein.sameUnit.
  cbn [Nat.sub]. rewrite !Nat.sub_0_r.
  rewrite (Hknown i j) by lia.
  rewrite (Hknown (S i) j) by lia.
  rewrite (Hknown i (S j)) by lia.
  assert ((if bool_decide (b !! i = a !! j) then Some (editDistance a b i j)
           else Some (Nat.min (editDistance a b i j)
                        (Nat.min (editDistance a b (S i) j)
                           (editDistance a b i (S j))) + 1))
          = Some (editDistance a b (S i) (S j))) as ->.
  { rewrite editDistance_S_S. case_bool_decide; [done|]. f_equal. lia. }
  eapply filled_set; [exact Hm|lia|lia|].
  intros i' j' [?|[[-> Hle]|?]]; [by left; left| |by left; right; right].
  destruct (decide (j' = S j)) as [->|?]; [by right|].
  left. right. left. split; [done|lia].
Qed.

Lemma initial_filled a b :
  filled a b (fun _ j => j = 0)
    (map (fun i => Some i :: replicate (length a) None)
       (seq 0 (length b + 1))).
Proof.
  split; [|split].
  - rewrite length_map, length_seq. lia.
  - apply Forall_map, Forall_forall. intros i _. cbn.
    by rewrite length_replicate.
  - intros i j Hi Hj ->. unfold Levenshtein.get.
    rewrite list_lookup_fmap, lookup_seq_lt by lia. cbn.
    by rewrite editDistance_0_r.
Qed.

Lemma levenshtein_editDistance a b :
  Levenshtein.levenshtein a b
  = Some (editDistance a b (length b) (length a)).
Proof.
  unfold Levenshtein.levenshtein.
  destruct (length a =? 0) eqn:Han.
  { apply Nat.eqb_eq in Han. by rewrite Han, editDistance_0_r. }
  destruct (length b =? 0) eqn:Hbn.
  { apply Nat.eqb_eq in Hbn. by rewrite Hbn. }
  set (m0 := map _ _). set (m1 := fold_left _ _ m0).
  set (m2 := fold_left _ _ m1).
  assert (filled a b (fun i j => (i = 0 /\ j <= length a) \/ j = 0) m1) as H1.
  { apply (fold_left_seq_inv
             (fun k m => filled a b (fun i j => (i = 0 /\ j <= k) \/ j = 0) m)).
    - eapply filled_weaken; [apply initial_filled|].
      intros i j _ _ [[_ ?]|?]; lia.
    - intros k m Hk Hm.
      change (Some (S k)) with (Some (editDistance a b 0 (S k))).
      eapply filled_set; [exact Hm|lia|lia|].
      intros i j [[-> Hle]|?]; [|by left; right].
      destruct (decide (j = S k)) as [->|?]; [by right|].
      left. left. split; [done|lia]. }
  assert (filled a b (fun i j => i < S (length b) \/ j = 0) m2) as H2.
  { apply (fold_left_seq_inv
             (fun k m => filled a b (fun i j => i < S k \/ j = 0) m)).
    - eapply filled_weaken; [exact H1|].
      intros i j _ Hj [?|?]; [left|by right]. split; [lia|done].
    - intros k m Hk Hm.
      eapply filled_weaken.
      + apply (fold_left_seq_inv
                 (fun j m => filled a b
                               (fun i' j' => i' < S k \/ (i' = S k /\ j' <= j)
                                             \/ j' = 0) m)).
        * eapply filled_weaken; [exact Hm|].
          intros i j _ _ [?|[[_ ?]|?]]; [by left|right; lia|by right].
        * intros j m' Hj Hm'. by apply fillCell_filled.
      + intros i j _ Hj [Hi|?]; [|by right; right].
        destruct (decide (i = S k)) as [->|?]; [by right; left|left; lia]. }
  destruct H2 as (_ & _ & Hknown). apply Hknown; [done|done|]. left. lia.
Qed.

End levenshtein_facts.

Section editDistance_facts.
Context {C : Type} `{EqDecision C}.
Implicit Types a b : list C.

Lemma editDistance_diag a i : editDistance a a i i = 0.
Proof.
  induction i as [|i IH]; [done|].
  rewrite editDistance_S_S. by rewrite bool_decide_eq_true_2.
Qed.

Lemma editDistance_lower a b i j :
  i - j <= editDistance a b i j /\ j - i <= editDistance a b i j.
Proof.
  revert j. induction i as [|i IHi]; intros j.
  { rewrite editDistance_0_l. lia. }
  induction j as [|j IHj].
  { rewrite editDistance_0_r. lia. }
  rewrite editDistance_S_S.
  pose proof (IHi j). pose proof (IHi (S j)).
  case_bool_decide; lia.
Qed.

Lemma editDistance_upper a b i j : editDistance a b i j <= Nat.max i j.
Proof.
  revert j. induction i as [|i IHi]; intros j.
  { rewrite editDistance_0_l. lia. }
  induction j as [|j IHj].
  { rewrite editDistance_0_r. lia. }
  rewrite editDistance_S_S.
  pose proof (IHi j). pose proof (IHi (S j)).
  case_bool_decide; lia.
Qed.

Lemma editDistance_sym a b i j : editDistance a b i j = editDistance b a j i.
Proof.
  revert j. induction i as [|i IHi]; intros j.
  { by rewrite editDistance_0_l, editDistance_0_r. }
  induction j as [|j IHj].
  { by rewrite editDistance_0_l, editDistance_0_r. }
  rewrite !editDistance_S_S, (IHi j), (IHi (S j)), IHj.
  rewrite (bool_decide_ext (b !! i = a !! j) (a !! j = b !! i)) by done.
  case_bool_decide; [done|]. f_equal. lia.
Qed.

Lemma editDistance_zero a b i :
  i <= length b -> i <= length a ->
  editDistance a b i i = 0 -> take i b = take i a.
Proof.
  induction i as [|i IH]; intros Hb Ha Hzero; [done|].
  rewrite editDistance_S_S in Hzero.
  case_bool_decide as Hunit; [|done].
  destruct (lookup_lt_is_Some_2 b i) as [x Hx]; [lia|].
  rewrite (take_S_r b i x Hx). rewrite Hx in Hunit.
  rewrite (take_S_r a i x) by done.
  rewrite IH; [done|lia|lia|done].
Qed.

End editDistance_facts.

(** X10: [levenshtein(a, b)] always returns a number, the edit distance of
    the two strings as the recurrence of Wagner and Fischer defines it; no
    cell of the matrix is read before it is written. *)
Theorem levenshtein_is_edit_distance {C} `{EqDecision C} (a b : list C) :
  Levenshtein.levenshtein a b = Some (editDistance a b (length b) (length a)).
Proof. apply levenshtein_editDistance. Qed.

(** X11: [levenshtein(a, b)] is 0 exactly when the two strings are equal. *)
Theorem levenshtein_zero_iff_equal {C} `{EqDecision C} (a b : list C) :
  Levenshtein.levenshtein a b = Some 0 <-> a = b.
Proof.
  rewrite levenshtein_editDistance. split.
  - intros [= Hzero].
    pose proof (editDistance_lower a b (length b) (length a)) as [H1 H2].
    assert (length b = length a) as Hlen by lia.
    rewrite Hlen in Hzero.
    pose proof (editDistance_zero a b (length a)) as Htake.
    rewrite <- Hlen in Htake at 1.
    rewrite firstn_all, <- Hlen in Htake.
    rewrite <- firstn_all. symmetry. apply Htake; [done|lia|].
    by rewrite Hlen.
  - intros ->. by rewrite editDistance_diag.
Qed.

(** X12: [levenshtein] is symmetric. *)
Theorem levenshtein_symmetric {C} `{EqDecision C} (a b : list C) :
  Levenshtein.levenshtein a b = Levenshtein.levenshtein b a.
Proof. by rewrite !levenshtein_editDistance, editDistance_sym. Qed.

(** X13: [levenshtein(a, b)] is at least the difference of the two lengths
    and at most the larger of them; against the empty string it is the length
    of the other string. *)
Theorem levenshtein_bounds {C} `{EqDecision C} (a b : list C) :
  exists d,
    Levenshtein.levenshtein a b = Some d /\
    Nat.max (length a) (length b) - Nat.min (length a) (length b) <= d /\
    d <= Nat.max (length a) (length b) /\
    (a = [] -> d = length b) /\ (b = [] -> d = length a).
Proof.
  exists (editDistance a b (length b) (length a)).
  split; [apply levenshtein_editDistance|].
  pose proof (editDistance_lower a b (length b) (length a)).
  pose proof (editDistance_upper a b (length b) (length a)).
  split; [lia|split; [lia|split]].
  - intros ->. by rewrite editDistance_0_r.
  - by intros ->.
Qed.

(** ** More on [merge] and on the passes of [getData] *)

Lemma or0_numeric proto (obj : gmap string JS.entry) k :
  proto k = None -> (forall ps, obj !! k <> Some (JS.Text ps)) ->
  Builder.or0 proto obj k = JS.Num (countAt obj k).
Proof.
  unfold Builder.or0, JS.get, countAt. intros Hk Hnum.
  destruct (obj !! k) as [[n|ps]|]; [done| |by rewrite Hk].
  by destruct (Hnum ps).
Qed.

Lemma plain_lookup proto (m : gmap string JS.entry) k :
  plain proto m ->
  m !! k = None \/
  (proto k = None /\ exists n, m !! k = Some (JS.Num n) /\ (Z.abs n <= 2 ^ 51)%Z).
Proof.
  intros Hm. destruct (m !! k) as [e|] eqn:Hk; [right|by left].
  destruct (Hm k e Hk) as (Hproto & n & -> & Hn). eauto.
Qed.

Lemma plain_countAt proto (m : gmap string JS.entry) k :
  plain proto m ->
  (Z.abs (countAt m k) <= 2 ^ 51)%Z /\
  (forall ps, m !! k <> Some (JS.Text ps)) /\
  m !! k = (if decide (is_Some (m !! k)) then Some (JS.Num (countAt m k))
            else None).
Proof.
  intros Hm. unfold countAt.
  destruct (plain_lookup proto m k Hm) as [Hk|(_ & n & Hk & Hn)]; rewrite Hk.
  - split; [lia|]. split; [done|]. rewrite decide_False; [done|].
    by intros [? ?].
  - split; [done|]. split; [done|]. by rewrite decide_True by by eexists.
Qed.

Lemma merge_plain_lookup proto (x y : gmap string JS.entry) k :
  plain proto x -> plain proto y ->
  Builder.merge proto x y !! k
  = if decide (is_Some (x !! k) \/ is_Some (y !! k))
    then Some (JS.Num (countAt x k + countAt y k))
    else None.
Proof.
  intros Hx Hy. rewrite merge_lookup. case_decide as Hpres; [|done].
  destruct (plain_countAt proto x k Hx) as (Hbx & Hnx & _).
  destruct (plain_countAt proto y k Hy) as (Hby & Hny & _).
  assert (proto k = None) as Hk.
  { destruct Hpres as [[e He]|[e He]].
    - by destruct (Hx k e He).
    - by destruct (Hy k e He). }
  rewrite !or0_numeric, plus_exact by (done || lia). done.
Qed.

Lemma merge_plain_countAt proto (x y : gmap string JS.entry) k :
  plain proto x -> plain proto y ->
  countAt (Builder.merge proto x y) k = (countAt x k + countAt y k)%Z.
Proof.
  intros Hx Hy. unfold countAt at 1. rewrite merge_plain_lookup by done.
  destruct (decide (is_Some (x !! k) \/ is_Some (y !! k))) as [Hp|Hp]; [done|].
  unfold countAt.
  destruct (x !! k) eqn:E1; [destruct Hp; eauto|].
  destruct (y !! k) eqn:E2; [destruct Hp; eauto|]. done.
Qed.



(** Outside these bounds [merge] is not a sum.  Beyond [2 ^ 53] the doubles
    round, and the order of the additions shows. *)
Example merge_rounds :
  Builder.merge JS.v8_prototype
    (Builder.merge JS.v8_prototype {[ "n" := JS.Num (2 ^ 53) ]}
       {[ "n" := JS.Num 1 ]})
    {[ "n" := JS.Num 1 ]}
  = {[ "n" := JS.Num (2 ^ 53) ]} /\
  Builder.merge JS.v8_prototype {[ "n" := JS.Num (2 ^ 53) ]}
    (Builder.merge JS.v8_prototype {[ "n" := JS.Num 1 ]}
       {[ "n" := JS.Num 1 ]})
  = {[ "n" := JS.Num (2 ^ 53 + 2) ]}.
Proof. split; vm_compute; reflexivity. Qed.

(** Under the name of a member of [Object.prototype] the read [obj1[k]]
    of a dictionary that lacks the key finds the member, and the entry
    becomes a string. *)
Example merge_reads_inherited_member :
  Builder.merge JS.v8_prototype ∅ {[ "toString" := JS.Num 1 ]}
  = {[ "toString" :=
         JS.Text [JS.Chars "function toString() { [native code] }";
                  JS.Digits 1] ]}.
Proof. vm_compute; reflexivity. Qed.

Lemma numberForest_ids (ch : list (tree TMCNode)) i :
  Forall (fun t => forall i,
            map (fun n => nodeId (data n)) (nodes (Builder.numberPass t i).1)
            = map Some (seq i (size t)) /\
            (Builder.numberPass t i).2 = i + size t) ch ->
  map (fun n => nodeId (data n)) (flat_map nodes (numberForest ch i).1)
  = map Some (seq i (length (flat_map nodes ch))) /\
  (numberForest ch i).2 = i + length (flat_map nodes ch).
Proof.
  intros IH. revert i. induction IH as [|c ch Hc _ IHch]; intros i.
  { cbn. split; [done|lia]. }
  cbn [numberForest flat_map]. destruct (Hc i) as [Hc1 Hc2].
  destruct (Builder.numberPass c i) as [c' i1]. cbn [fst snd] in *.
  destruct (IHch i1) as [Hl1 Hl2].
  destruct (numberForest ch i1) as [l' i2]. cbn [fst snd flat_map] in *.
  rewrite map_app, Hc1, Hl1, length_app, seq_app, map_app.
  subst i1. unfold size in *. split; [done|lia].
Qed.

Lemma numberPass_ids (t : tree TMCNode) i :
  map (fun n => nodeId (data n)) (nodes (Builder.numberPass t i).1)
  = map Some (seq i (size t)) /\
  (Builder.numberPass t i).2 = i + size t.
Proof.
  revert i. induction t as [d v k ch IH] using tree_ind'. intros i.
  rewrite numberPass_unfold.
  destruct (numberForest_ids ch (S i) IH) as [Hl1 Hl2].
  destruct (numberForest ch (S i)) as [ch' j]. cbn [fst snd] in *.
  unfold size. cbn [nodes children map length seq data nodeId Builder.set_nodeId].
  rewrite Hl1. split; [done|lia].
Qed.

(** X15: the node ids [getData] assigns number the nodes from 0 in the order
    of [eachBefore]: the root gets 0, and a tree of [n] nodes the ids
    [0 .. n - 1], each once. *)
Theorem getData_nodeIds proto labels flat t :
  Builder.getData proto labels flat = Ok t ->
  map (fun n => nodeId (data n)) (nodes t) = map Some (seq 0 (size t)).
Proof.
  intros Hget. apply getData_inv in Hget as (t0 & tl & _ & _ & ->).
  destruct (numberPass_ids tl 0) as [Hids _]. rewrite Hids. do 2 f_equal.
  assert (forall (u : tree TMCNode) i,
            size (Builder.numberPass u i).1 = size u) as Hsize.
  { intros u i.
    rewrite <- (size_tmap forget_nodeId (Builder.numberPass u i).1).
    rewrite numberPass_tmap by done. apply size_tmap. }
  by rewrite Hsize.
Qed.

Lemma getData_nodeIds_witness :
  exists t,
    Builder.getData JS.v8_prototype labels_red_blue flat_nested = Ok t /\
    map (fun n => nodeId (data n)) (nodes t) = [Some 0; Some 1; Some 2; Some 3].
Proof.
  eexists. split; [by vm_compute|].
  exact (getData_nodeIds JS.v8_prototype labels_red_blue flat_nested _ eq_refl).
Defined.

Lemma labelPass_None proto labelMap (t : tree TMCNode) :
  Builder.labelPass proto labelMap t = None <-> Exists bare (nodes t).
Proof.
  induction t as [d v k ch IH] using tree_ind'.
  rewrite labelPass_unfold. cbn [nodes children]. rewrite Exists_cons.
  unfold bare at 1. cbn [data children].
  assert (mapM (Builder.labelPass proto labelMap) ch = None
          <-> Exists bare (flat_map nodes ch)) as Hch.
  { rewrite mapM_None, Exists_flat_map.
    clear -IH. induction IH as [|c ch Hc _ IHch].
    - split; intros Hex; by apply Exists_nil in Hex.
    - by rewrite !Exists_cons, Hc, IHch. }
  destruct (mapM _ ch) as [ch'|] eqn:Hmap.
  - pose proof (length_mapM _ _ _ Hmap) as Hlen. cbn.
    destruct (items d) as [its|]; cbn.
    + split; [done|]. intros [[? _]|Hex]; [done|]. by apply Hch in Hex.
    + destruct ch' as [|c' ch']; cbn.
      * destruct ch; [|done]. split; [by left|done].
      * split; [done|]. intros [[_ ->]|Hex]; [done|]. by apply Hch in Hex.
  - cbn. split; [|done]. intros _. right. by apply Hch.
Qed.

(** X16: the outcomes of [getData].  An error of [stratify] is passed on;
    on a tree that [buildTree] accepts, [getData] throws a TypeError exactly
    when some node has neither items nor children (its label pass then calls
    [reduce] on [undefined]), whatever the label file holds, and returns a
    tree otherwise. *)
Theorem getData_outcomes proto labels flat :
  match Builder.buildTree flat with
  | Ok t0 =>
      (Exists bare (nodes t0) /\
       Builder.getData proto labels flat = Throw Builder.TypeError) \/
      (Forall (fun n => ~ bare n) (nodes t0) /\
       exists t, Builder.getData proto labels flat = Ok t)
  | Throw e => Builder.getData proto labels flat = Throw (Builder.Malformed e)
  | OutOfFuel => Builder.getData proto labels flat = OutOfFuel
  end.
Proof.
  unfold Builder.getData. destruct (Builder.buildTree flat) as [t0|e|]; try done.
  destruct (Builder.labelPass proto (Builder.parseLabels proto labels) t0) as [t'|] eqn:Hpass.
  - right. split; [|by eexists].
    apply Forall_Exists_neg. intros Hex%(labelPass_None proto (Builder.parseLabels proto labels)).
    congruence.
  - left. split; [|done]. by apply (labelPass_None proto (Builder.parseLabels proto labels)).
Qed.

(** ** Minima, maxima and the depth groups *)

Section d3_min.
Context {A : Type} (ltb : A -> A -> bool) (le : A -> A -> Prop).
Hypothesis le_refl : forall x, le x x.
Hypothesis le_trans : forall x y z, le x y -> le y z -> le x z.
Hypothesis ltb_le : forall v m, ltb v m = true -> le v m.
Hypothesis ltb_ge : forall v m, ltb v m = false -> le m v.

Lemma min_from (l : list A) (m : A) :
  exists c,
    fold_left
      (fun acc value =>
         match value, acc with
         | Some v, Some m => if ltb v m then Some v else acc
         | Some v, None => Some v
         | None, _ => acc
         end)
      (map Some l) (Some m) = Some c /\
    c ∈ m :: l /\ Forall (le c) (m :: l).
Proof.
  revert m. induction l as [|v l IH]; intros m.
  { exists m. cbn. split; [done|split; [by left|by constructor]]. }
  cbn [map fold_left]. destruct (ltb v m) eqn:Hlt.
  - destruct (IH v) as (c & Hc & Hin & Hle). exists c. split; [done|].
    apply Forall_cons in Hle as [Hcv Hle].
    split; [by right|]. constructor; [|by constructor].
    eapply le_trans; [exact Hcv|]. by apply ltb_le.
  - destruct (IH m) as (c & Hc & Hin & Hle). exists c. split; [done|].
    apply Forall_cons in Hle as [Hcm Hle]. split.
    + apply elem_of_cons in Hin as [->|Hin]; [by left|by right; right].
    + constructor; [done|]. constructor; [|done].
      eapply le_trans; [exact Hcm|]. by apply ltb_ge.
Qed.

Lemma min_spec (l : list A) :
  l <> [] ->
  exists c,
    Metadata.min ltb (map Some l) = Some c /\ c ∈ l /\ Forall (le c) l.
Proof.
  destruct l as [|m l]; [done|]. intros _. unfold Metadata.min.
  cbn [map fold_left]. apply min_from.
Qed.

End d3_min.

Lemma max_min {A} (ltb : A -> A -> bool) values :
  Metadata.max ltb values = Metadata.min (fun v m => ltb m v) values.
Proof. done. Qed.

Lemma fold_insert_keys {V} (f : nat -> V) (l : list nat) (acc : gmap nat V) d :
  fold_left (fun acc k => <[k := f k]> acc) l acc !! d
  = if decide (d ∈ l) then Some (f d) else acc !! d.
Proof.
  revert acc. induction l as [|k l IH]; intros acc.
  { cbn. rewrite decide_False; [done|]. apply not_elem_of_nil. }
  cbn [fold_left]. rewrite IH.
  destruct (decide (d ∈ l)) as [Hin|Hnin].
  - by rewrite decide_True by by right.
  - destruct (decide (d = k)) as [->|Hne].
    + rewrite decide_True by by left. by rewrite lookup_insert_eq.
    + rewrite decide_False by by intros [?|?]%elem_of_cons.
      by rewrite lookup_insert_ne.
Qed.

Lemma max_depth {D} (t : tree D) :
  exists maxSize,
    Metadata.max Nat.ltb (map (fun n => Some (depth n)) (nodes t)) = Some maxSize /\
    Exists (fun n => depth n = maxSize) (nodes t) /\
    Forall (fun n => depth n <= maxSize) (nodes t).
Proof.
  rewrite max_min.
  destruct (min_spec (fun v m => m <? v) (fun x y => y <= x)) with
    (l := map depth (nodes t)) as (c & Hc & Hin & Hle).
  - done.
  - intros x y z ? ?. lia.
  - intros v m ?%Nat.ltb_lt. lia.
  - intros v m ?%Nat.ltb_ge. lia.
  - by destruct t.
  - rewrite map_map in Hc. exists c. split; [done|split].
    + apply list_elem_of_fmap in Hin as (n & -> & Hn).
      apply Exists_exists. by exists n.
    + by apply Forall_map in Hle.
Qed.

Lemma getDepthGroups_lookup {D} (t : tree D) maxSize d :
  Metadata.max Nat.ltb (map (fun n => Some (depth n)) (nodes t)) = Some maxSize ->
  Metadata.getDepthGroups t !! d
  = if decide (d <= maxSize)
    then Some (length (List.filter (fun n => depth n <=? d) (nodes t)))
    else None.
Proof.
  intros Hmax. unfold Metadata.getDepthGroups. rewrite Hmax.
  rewrite (fold_insert_keys
             (fun curr => length (List.filter (fun n => depth n <=? curr) (nodes t)))).
  rewrite lookup_empty.
  destruct (decide (d <= maxSize)) as [Hle|Hgt].
  - rewrite decide_True; [done|].
    rewrite list_elem_of_In, <- in_rev, in_seq. lia.
  - rewrite decide_False; [done|].
    rewrite list_elem_of_In, <- in_rev, in_seq. lia.
Qed.

Lemma filter_length_mono {A} (f g : A -> bool) l :
  (forall x, f x = true -> g x = true) ->
  length (List.filter f l) <= length (List.filter g l).
Proof.
  intros Hfg. induction l as [|x l IH]; [done|]. cbn.
  destruct (f x) eqn:Hf.
  - rewrite (Hfg x Hf). cbn. lia.
  - destruct (g x); cbn; lia.
Qed.

Lemma filter_all {A} (f : A -> bool) l :
  Forall (fun x => f x = true) l -> List.filter f l = l.
Proof. induction 1 as [|x l Hx _ IH]; [done|]. cbn. by rewrite Hx, IH. Qed.

(** X17: [getDepthGroups(tree)] has one entry for every depth from 0 to the
    largest depth in the tree and no other; the entry at [d] is the number
    of nodes of depth at most [d], so the entries grow with [d] and the last
    one is the node count. *)
Theorem getDepthGroups_counts {D} (t : tree D) :
  exists maxSize,
    Exists (fun n => depth n = maxSize) (nodes t) /\
    Forall (fun n => depth n <= maxSize) (nodes t) /\
    (forall d,
       Metadata.getDepthGroups t !! d
       = if decide (d <= maxSize)
         then Some (length (List.filter (fun n => depth n <=? d) (nodes t)))
         else None) /\
    Metadata.getDepthGroups t !! maxSize = Some (size t) /\
    (forall d d' c c',
       d <= d' ->
       Metadata.getDepthGroups t !! d = Some c ->
       Metadata.getDepthGroups t !! d' = Some c' ->
       c <= c').
Proof.
  destruct (max_depth t) as (maxSize & Hmax & Hex & Hall).
  exists maxSize. split; [done|split; [done|split; [|split]]].
  - intros d. by apply getDepthGroups_lookup.
  - rewrite (getDepthGroups_lookup t maxSize) by done.
    rewrite decide_True by done. unfold size. do 2 f_equal.
    apply filter_all. eapply Forall_impl; [exact Hall|].
    intros n Hn. by apply Nat.leb_le.
  - intros d d' c c' Hdd'.
    rewrite !(getDepthGroups_lookup t maxSize) by done.
    destruct (decide (d <= maxSize)); [|done].
    destruct (decide (d' <= maxSize)); [|done].
    intros [= <-] [= <-]. apply filter_length_mono.
    intros n Hn%Nat.leb_le. apply Nat.leb_le. lia.
Qed.

(** X18: for a tree whose root is at depth 0, the entry of
    [getDepthGroups(tree)] at the depth [d] is the number of nodes that
    [pruneTreeByDepth(tree, d)] leaves. *)
Theorem getDepthGroups_pruneTreeByDepth h root t d c :
  represents h root t ->
  Metadata.getDepthGroups (rebase 0 t) !! d = Some c ->
  exists newTree h' l,
    Pruner.pruneTreeByDepth root (Z.of_nat d) h = Some (newTree, h') /\
    Heap.descendants newTree h' = Some (l, h') /\
    length l = c.
Proof.
  intros Hrep Hc.
  destruct (pruneTreeByDepth_run h root t (Z.of_nat d) Hrep)
    as (newTree & h' & Hrun & Hrep' & _).
  rewrite depthAbove_truncate, Nat.sub_0_r, Nat2Z.id in Hrep'.
  destruct (descendants_represents _ _ _ Hrep') as (l & Hl & Hlen & _).
  exists newTree, h', l. split; [done|split; [done|]].
  rewrite Hlen, size_data, (truncate_payloads d 0), length_map.
  destruct (max_depth (rebase 0 t)) as (maxSize & Hmax & _ & _).
  rewrite (getDepthGroups_lookup _ maxSize) in Hc by done.
  destruct (decide (d <= maxSize)); [|done]. by injection Hc as <-.
Qed.

Lemma getDepthGroups_pruneTreeByDepth_witness :
  exists newTree h' l,
    Pruner.pruneTreeByDepth 0 (Z.of_nat 1) heap_ABCD = Some (newTree, h') /\
    Heap.descendants newTree h' = Some (l, h') /\
    length l = 3.
Proof.
  apply (getDepthGroups_pruneTreeByDepth heap_ABCD 0 tree_ABCD 1 3
           heap_ABCD_represents).
  by vm_compute.
Defined.

Lemma getSizePrunedRemainder_run h root t (minSize : Q) :
  represents h root t ->
  exists n h',
    Pruner.getSizePrunedRemainder root minSize h = Some (n, h') /\
    n = size (prunedByMinValue minSize t).
Proof.
  intros Hrep.
  destruct (pruneTreeByMinValue_run h root t minSize Hrep)
    as (pruned & h' & Hrun & Hrep' & _).
  destruct (descendants_represents _ _ _ Hrep') as (l & Hl & Hlen & _).
  exists (length l), h'. split; [|done].
  unfold Pruner.getSizePrunedRemainder, mbind, Heap.M_bind.
  by rewrite Hrun, Hl.
Qed.

(** ** The cutoffs of the sliders *)

Lemma Qltb_lt x y : JS.Qltb x y = true <-> (x < y)%Q.
Proof.
  unfold JS.Qltb. rewrite negb_true_iff, <- not_true_iff_false, Qle_bool_iff.
  split; [apply Qnot_le_lt|apply Qlt_not_le].
Qed.

Lemma size_one_iff {D} (x : D) v k (ch : list (tree D)) :
  size (T x v k ch) = 1 <-> ch = [].
Proof.
  unfold size. cbn [nodes children length]. destruct ch as [|c ch]; [done|].
  cbn [flat_map]. rewrite length_app. destruct c. cbn. split; [lia|done].
Qed.

(** X19: [getMaxCutoffNodeSize(tree)] is the smallest value among the
    children of the root, and it is the largest threshold at which pruning by
    minimum value still shows them: [getSizePrunedRemainder(tree, minSize)]
    is 1, the root alone, exactly when [minSize] exceeds it. *)
Theorem getMaxCutoffNodeSize_threshold h root t :
  represents h root t ->
  children t <> [] ->
  Forall (fun c => is_Some (value c)) (children t) ->
  exists cutoff,
    Metadata.getMaxCutoffNodeSize t = Some cutoff /\
    Exists (fun c => value c = Some cutoff) (children t) /\
    Forall (fun c => (cutoff <= Builder.valueZ c)%Z) (children t) /\
    forall minSize : Q,
      exists n h',
        Pruner.getSizePrunedRemainder root minSize h = Some (n, h') /\
        (n = 1 <-> (inject_Z cutoff < minSize)%Q).
Proof.
  intros Hrep Hch Hval.
  destruct (min_spec Z.ltb Z.le) with (l := map Builder.valueZ (children t))
    as (cutoff & Hcut & Hin & Hle).
  { intros x. lia. }
  { intros x y z. lia. }
  { intros v m ?%Z.ltb_lt. lia. }
  { intros v m ?%Z.ltb_ge. lia. }
  { by destruct (children t). }
  rewrite map_map in Hcut.
  apply list_elem_of_fmap in Hin as (c0 & Hc0 & Hin0).
  apply (proj1 (List.Forall_map _ _ _)) in Hle.
  assert (value c0 = Some cutoff) as Hv0.
  { rewrite Forall_forall in Hval. destruct (Hval c0 Hin0) as [x Hx].
    unfold Builder.valueZ in Hc0. rewrite Hx in Hc0 |- *. cbn in Hc0. congruence. }
  exists cutoff. split; [|split; [|split; [exact Hle|]]].
  { unfold Metadata.getMaxCutoffNodeSize. by destruct (children t). }
  { apply Exists_exists. by exists c0. }
  intros minSize.
  destruct (getSizePrunedRemainder_run h root t minSize Hrep)
    as (n & h' & Hrun & ->).
  exists (size (prunedByMinValue minSize t)), h'. split; [done|].
  destruct t as [d v k ch]. cbn [children] in *.
  unfold prunedByMinValue. rewrite rebase_unfold. cbn [dropWhereChild].
  rewrite size_one_iff.
  assert (existsb (fun c => tooSmall minSize (data c) (value c) (depth c))
            (map (rebase 1) ch)
          = existsb (fun c => Pruner.valueBelow (value c) minSize) ch) as ->.
  { rewrite existsb_map. apply existsb_ext. intros c. unfold tooSmall.
    by destruct (rebase_root 1 c) as [_ ->]. }
  destruct (existsb _ ch) eqn:Hex.
  - split; [intros _|done].
    apply existsb_exists in Hex as (c & Hc & Hlow).
    unfold Pruner.valueBelow in Hlow.
    rewrite Forall_forall in Hle.
    specialize (Hle c (proj2 (list_elem_of_In _ _) Hc)).
    unfold Builder.valueZ in Hle.
    destruct (value c) as [x|]; [|done]. cbn in Hle.
    apply Qltb_lt in Hlow. eapply Qle_lt_trans; [|exact Hlow].
    by rewrite <- Zle_Qle.
  - split.
    + intros Hnil. destruct ch; [done|discriminate Hnil].
    + intros Hlt. apply not_true_iff_false in Hex. destruct Hex.
      apply existsb_exists. exists c0. split; [by apply list_elem_of_In|].
      unfold Pruner.valueBelow. rewrite Hv0. by apply Qltb_lt.
Qed.

Lemma getMaxCutoffNodeSize_threshold_witness :
  exists cutoff,
    Metadata.getMaxCutoffNodeSize tree_ABCD = Some cutoff /\
    Exists (fun c => value c = Some cutoff) (children tree_ABCD) /\
    Forall (fun c => (cutoff <= Builder.valueZ c)%Z) (children tree_ABCD) /\
    forall minSize : Q,
      exists n h',
        Pruner.getSizePrunedRemainder 0 minSize heap_ABCD = Some (n, h') /\
        (n = 1 <-> (inject_Z cutoff < minSize)%Q).
Proof.
  apply (getMaxCutoffNodeSize_threshold heap_ABCD 0 tree_ABCD
           heap_ABCD_represents).
  - discriminate.
  - repeat constructor; by eexists.
Defined.

Lemma pruneTreeByMinDistanceSearch_size h root t (minDistance : Q) :
  represents h root t ->
  exists newTree h' l,
    Pruner.pruneTreeByMinDistanceSearch root minDistance h = Some (newTree, h') /\
    Heap.descendants newTree h' = Some (l, h') /\
    length l
    = size (dropWhereChild (tooClose (Heap.objs h) minDistance) (rebase 0 t)).
Proof.
  intros Hrep.
  destruct (pruneTreeByMinDistanceSearch_run h root t minDistance Hrep)
    as (newTree & h' & Hrun & Hrep' & _).
  destruct (descendants_represents _ _ _ Hrep') as (l & Hl & Hlen & _).
  by exists newTree, h', l.
Qed.

(** X20: [getMaxCutoffDistanceSearch(tree)] is the smallest distance among
    the children of the root, a missing distance counting 0; for a positive
    threshold, [pruneTreeByMinDistanceSearch] leaves the root alone exactly
    when the threshold exceeds it. *)
Theorem getMaxCutoffDistanceSearch_threshold h root t (minDistance : Q) :
  represents h root t ->
  children t <> [] ->
  (0 < minDistance)%Q ->
  exists cutoff newTree h' l,
    Metadata.getMaxCutoffDistanceSearch (Heap.objs h) t = Some cutoff /\
    Pruner.pruneTreeByMinDistanceSearch root minDistance h = Some (newTree, h') /\
    Heap.descendants newTree h' = Some (l, h') /\
    (length l = 1 <-> (cutoff < minDistance)%Q).
Proof.
  intros Hrep Hch Hpos.
  set (dist := fun c : tree nat =>
                 default 0%Q (o ← Heap.objs h !! data c; distance o)).
  destruct (min_spec JS.Qltb Qle) with (l := map dist (children t))
    as (cutoff & Hcut & Hin & Hle).
  { apply Qle_refl. }
  { apply Qle_trans. }
  { intros v m ?%Qltb_lt. by apply Qlt_le_weak. }
  { intros v m Hge. unfold JS.Qltb in Hge.
    by apply negb_false_iff, Qle_bool_iff in Hge. }
  { by destruct (children t). }
  rewrite map_map in Hcut.
  apply list_elem_of_fmap in Hin as (c0 & Hc0 & Hin0).
  apply (proj1 (List.Forall_map _ _ _)) in Hle.
  destruct (pruneTreeByMinDistanceSearch_size h root t minDistance Hrep)
    as (newTree & h' & l & Hrun & Hl & Hlen).
  exists cutoff, newTree, h', l.
  split; [|split; [done|split; [done|]]].
  { unfold Metadata.getMaxCutoffDistanceSearch. by destruct (children t). }
  assert (forall c, c ∈ children t ->
            tooClose (Heap.objs h) minDistance (data c) (value c) (depth c) = true
            <-> (dist c < minDistance)%Q) as Hclose.
  { intros c Hc.
    destruct Hrep as (_ & _ & _ & _ & _ & _ & Hobjs).
    rewrite Forall_forall in Hobjs.
    destruct (Hobjs (data c)) as [o Ho].
    { apply list_elem_of_fmap_2. destruct t as [d v k ch]. cbn [nodes children] in *.
      right. apply elem_of_flat_map. exists c. split; [done|].
      destruct c. cbn. by left. }
    unfold tooClose, dist. rewrite Ho. cbn.
    rewrite distanceBelow_low. unfold low_distance.
    destruct (distance o) as [x|]; cbn; [|done].
    split; [|by right]. intros [Hz|?]; [|done]. by rewrite Hz. }
  rewrite Hlen. destruct t as [d v k ch]. cbn [children] in *.
  rewrite rebase_unfold. cbn [dropWhereChild]. rewrite size_one_iff.
  assert (existsb
            (fun c => tooClose (Heap.objs h) minDistance (data c) (value c)
                        (depth c)) (map (rebase 1) ch)
          = existsb
              (fun c => tooClose (Heap.objs h) minDistance (data c) (value c)
                          (depth c)) ch) as ->.
  { rewrite existsb_map. apply existsb_ext. intros c.
    by destruct (rebase_root 1 c) as [-> _]. }
  destruct (existsb _ ch) eqn:Hex.
  - split; [intros _|done].
    apply existsb_exists in Hex as (c & Hc%list_elem_of_In & Hlow).
    apply (Hclose c Hc) in Hlow.
    rewrite Forall_forall in Hle. eapply Qle_lt_trans; [|exact Hlow].
    by apply Hle.
  - split.
    + intros Hnil. destruct ch; [done|discriminate Hnil].
    + intros Hlt. apply not_true_iff_false in Hex. destruct Hex.
      apply existsb_exists. exists c0. split; [by apply list_elem_of_In|].
      apply (Hclose c0 Hin0). by rewrite <- Hc0.
Qed.

Lemma getMaxCutoffDistanceSearch_threshold_witness :
  exists cutoff newTree h' l,
    Metadata.getMaxCutoffDistanceSearch (Heap.objs heap_ABCD) tree_ABCD
    = Some cutoff /\
    Pruner.pruneTreeByMinDistanceSearch 0 2 heap_ABCD = Some (newTree, h') /\
    Heap.descendants newTree h' = Some (l, h') /\
    (length l = 1 <-> (cutoff < 2)%Q).
Proof.
  apply (getMaxCutoffDistanceSearch_threshold heap_ABCD 0 tree_ABCD 2
           heap_ABCD_represents).
  - discriminate.
  - reflexivity.
Defined.

(** ** [addFeaturesToCells] *)

Lemma mapLeafCells_ext (g g' : Cell -> Cell) (t : tree TMCNode) :
  (forall c, g c = g' c) -> mapLeafCells g t = mapLeafCells g' t.
Proof.
  intros Hg. induction t as [d v k ch IH] using tree_ind'.
  destruct ch as [|c ch].
  - cbn. do 2 f_equal. destruct (items d); [|done]. cbn. f_equal.
    by apply map_ext.
  - cbn [mapLeafCells]. f_equal. by apply map_ext_Forall.
Qed.

Lemma mapLeafCells_compose (g g' : Cell -> Cell) (t : tree TMCNode) :
  mapLeafCells g' (mapLeafCells g t) = mapLeafCells (fun c => g' (g c)) t.
Proof.
  induction t as [d v k ch IH] using tree_ind'.
  destruct ch as [|c ch].
  - cbn. do 2 f_equal. unfold Metadata.setItems. cbn.
    destruct (items d); [|done]. cbn. by rewrite map_map.
  - cbn [mapLeafCells map]. f_equal.
    apply Forall_cons in IH as [Hc IH]. cbn [map]. f_equal; [done|].
    rewrite map_map. by apply map_ext_Forall.
Qed.

Lemma mapLeafCells_id (t : tree TMCNode) : mapLeafCells (fun c => c) t = t.
Proof.
  induction t as [d v k ch IH] using tree_ind'.
  destruct ch as [|c ch].
  - cbn. f_equal. destruct d as [? ? its ? ? ? ?]. unfold Metadata.setItems. cbn.
    f_equal. destruct its; [|done]. cbn. by rewrite map_id.
  - cbn [mapLeafCells]. f_equal. rewrite <- (map_id (c :: ch)) at 2.
    by apply map_ext_Forall.
Qed.

Lemma addFeatureToLeaves_mapLeafCells feature featureMap (t : tree TMCNode) :
  Metadata.addFeatureToLeaves feature featureMap t
  = mapLeafCells (Metadata.addFeature feature featureMap) t.
Proof.
  induction t as [d v k ch IH] using tree_ind'.
  destruct ch as [|c ch]; [done|].
  cbn [Metadata.addFeatureToLeaves mapLeafCells]. f_equal.
  by apply map_ext_Forall.
Qed.

Lemma withFeatures_cons f fm featureMaps c :
  f ∉ featureMaps.*1 ->
  withFeatures featureMaps (Metadata.addFeature f fm c)
  = withFeatures ((f, fm) :: featureMaps) c.
Proof.
  intros Hf. unfold withFeatures, Metadata.addFeature. cbn. f_equal.
  rewrite fmap_insert, <- insert_union_l, <- insert_union_r; [done|].
  rewrite lookup_fmap.
  by rewrite (not_elem_of_list_to_map_1 (M := gmap string)).
Qed.

Lemma addFeaturesToCells_mapLeafCells featureMaps (t : tree TMCNode) :
  NoDup featureMaps.*1 ->
  Metadata.addFeaturesToCells t featureMaps
  = mapLeafCells (withFeatures featureMaps) t.
Proof.
  unfold Metadata.addFeaturesToCells. revert t.
  induction featureMaps as [|[f fm] featureMaps IH]; intros t Hnd.
  - cbn. rewrite <- (mapLeafCells_id t) at 1. apply mapLeafCells_ext.
    intros [b fc]. unfold withFeatures. cbn.
    by rewrite fmap_empty, (left_id_L ∅ (∪)).
  - apply NoDup_cons in Hnd as [Hf Hnd]. cbn [fold_left fst snd].
    rewrite IH, addFeatureToLeaves_mapLeafCells, mapLeafCells_compose by done.
    apply mapLeafCells_ext. intros c. by apply withFeatures_cons.
Qed.

Lemma mapLeafCells_leaves (g : Cell -> Cell) (t : tree TMCNode) :
  map (fun n => items (data n)) (leaves (mapLeafCells g t))
  = map (fun n => map g <$> items (data n)) (leaves t).
Proof.
  induction t as [d v k ch IH] using tree_ind'.
  destruct ch as [|c ch]; [done|].
  change (leaves (mapLeafCells g (T d v k (c :: ch))))
    with (flat_map leaves (map (mapLeafCells g) (c :: ch))).
  change (leaves (T d v k (c :: ch))) with (flat_map leaves (c :: ch)).
  induction IH as [|c' ch' Hc _ IHch]; [done|].
  cbn [map flat_map]. by rewrite !map_app, Hc, IHch.
Qed.





(** ** The choices of the feature search *)


Lemma StronglySorted_weaken_elem {A} (R R' : A -> A -> Prop) l :
  (forall a b, a ∈ l -> b ∈ l -> R a b -> R' a b) ->
  StronglySorted R l -> StronglySorted R' l.
Proof.
  intros HR Hl. induction Hl as [|x l Hl IH Hx]; constructor.
  - apply IH. intros a b Ha Hb. apply HR; by right.
  - rewrite Forall_forall in Hx. apply Forall_forall. intros y Hy.
    apply HR; [by left|by right|by apply Hx].
Qed.

(** X23: whatever the engine's sort, the choices the search box offers are
    the options, each once, in the order of their edit distance from the
    search text (both in lower case), nearest first.  The order of options
    at the same distance is the engine's: the comparator never answers 0. *)
Theorem choices_ranked {C} `{EqDecision C}
    (sort : forall A, (A -> A -> Z) -> list A -> list A)
    (toLowerCase : list C -> list C)
    (options : list (list C)) (search : list C) :
  sorts sort ->
  Permutation options (FeatureSearch.choices toLowerCase sort options search) /\
  StronglySorted
    (fun a b => searchDistance toLowerCase search a
                <= searchDistance toLowerCase search b)
    (FeatureSearch.choices toLowerCase sort options search).
Proof.
  intros (Hperm & Hsorted & _). unfold FeatureSearch.choices.
  set (tag := fun o => FeatureSearch.mkChoice o
                (Levenshtein.levenshtein (toLowerCase o) (toLowerCase search))).
  set (key := fun c : @FeatureSearch.Choice C =>
                (- Z.of_nat (default 0%nat (FeatureSearch.distance c)))%Z).
  set (l := map tag options).
  assert (forall c, c ∈ l ->
            FeatureSearch.distance c
            = Some (searchDistance toLowerCase search (FeatureSearch.word c)))
    as Hl.
  { intros c (o & -> & _)%list_elem_of_fmap. unfold tag.
    cbn [FeatureSearch.distance FeatureSearch.word].
    apply levenshtein_editDistance. }
  pose proof (Hperm _ (@FeatureSearch.compareDistance C) l) as Hp.
  split.
  - rewrite <- Hp. unfold l. rewrite map_map.
    cbn [FeatureSearch.word tag]. by rewrite map_id.
  - apply StronglySorted_map.
    eapply StronglySorted_weaken_elem;
      [|apply (Hsorted _ (@FeatureSearch.compareDistance C) key l)].
    + intros a b Ha Hb. rewrite <- Hp in Ha, Hb.
      unfold desc, key. rewrite (Hl a Ha), (Hl b Hb). cbn. lia.
    + intros a b Ha Hb. unfold FeatureSearch.compareDistance, key.
      rewrite (Hl a Ha), (Hl b Hb). cbn [default from_option Datatypes.id].
      destruct (Nat.ltb_spec (searchDistance toLowerCase search
                                (FeatureSearch.word a))
                  (searchDistance toLowerCase search (FeatureSearch.word b)))
        as [Hlt|Hge];
        destruct (Z.ltb_spec
                    (- Z.of_nat (searchDistance toLowerCase search
                                   (FeatureSearch.word b)))
                    (- Z.of_nat (searchDistance toLowerCase search
                                   (FeatureSearch.word a))))
          as [Hlt'|Hge']; try done; lia.
Qed.

Lemma choices_ranked_witness :
  sorts (@JS.array_sort) /\
  Permutation [[3; 1; 2]; [1; 2]; [1]]
    (FeatureSearch.choices (fun w => w) (@JS.array_sort) [[3; 1; 2]; [1; 2]; [1]] [1]) /\
  StronglySorted
    (fun a b => searchDistance (fun w => w) [1] a <= searchDistance (fun w => w) [1] b)
    (FeatureSearch.choices (fun w => w) (@JS.array_sort) [[3; 1; 2]; [1; 2]; [1]] [1]).
Proof.
  split; [exact array_sort_sorts|].
  exact (choices_ranked (@JS.array_sort) (fun w => w) [[3; 1; 2]; [1; 2]; [1]] [1]
           array_sort_sorts).
Defined.

(** ** [bisectDownSorted] *)

Lemma bisect_loop_spec rest target i :
  exists n,
    AreaChart.bisect_loop rest target i = i + n /\
    n <= length rest /\
    Forall (fun x => (x < target)%Q) (take n rest) /\
    (forall x, rest !! n = Some x -> (target <= x)%Q).
Proof.
  revert i. induction rest as [|x rest IH]; intros i.
  { exists 0. cbn. split; [lia|split; [lia|split; [constructor|done]]]. }
  cbn [AreaChart.bisect_loop]. destruct (JS.Qltb x target) eqn:Hlt.
  - destruct (IH (S i)) as (n & -> & Hn & Hall & Hnext).
    exists (S n). cbn. split; [lia|split; [lia|split; [|done]]].
    constructor; [by apply Qltb_lt|done].
  - exists 0. cbn. split; [lia|split; [lia|split; [constructor|]]].
    intros ? [= <-]. apply Qnot_lt_le. intros Hx%Qltb_lt. congruence.
Qed.

Lemma filter_sorted_prefix (l : list Q) target n :
  StronglySorted Qle l ->
  Forall (fun x => (x < target)%Q) (take n l) ->
  n <= length l ->
  (forall x, l !! n = Some x -> (target <= x)%Q) ->
  length (List.filter (fun x => JS.Qltb x target) l) = n.
Proof.
  intros Hsorted. revert n. induction Hsorted as [|x l Hl IH Hx]; intros n.
  { intros _ Hn _. cbn in *. lia. }
  destruct n as [|n].
  - intros _ _ Hnext. specialize (Hnext x eq_refl).
    rewrite filter_none; [done|]. constructor.
    + apply not_true_iff_false. intros Hlt%Qltb_lt. by apply Qlt_not_le in Hlt.
    + eapply Forall_impl; [exact Hx|]. cbn beta. intros y Hy.
      apply not_true_iff_false. intros Hlt%Qltb_lt.
      apply Qlt_not_le in Hlt. apply Hlt. by eapply Qle_trans.
  - cbn [take length List.filter]. intros Hall Hn Hnext.
    apply Forall_cons in Hall as [Hlt Hall].
    rewrite (proj2 (Qltb_lt x target) Hlt). cbn [length]. f_equal.
    apply IH; [done|lia|done].
Qed.

(** X24: [bisectDownSorted(arr, target)] stops at an index of the array (0
    on an empty one): every entry from index 1 up to the result is below the
    target and the entry after the result, if there is one, is not.  On an
    ascending array the result is the number of entries after the first that
    are strictly below the target; a target that equals an entry falls in the
    bin before it. *)
Theorem bisectDownSorted_spec (arr : list Q) (target : Q) :
  let i := AreaChart.bisectDownSorted arr target in
  i <= length arr - 1 /\
  (forall j x, 1 <= j <= i -> arr !! j = Some x -> (x < target)%Q) /\
  (forall x, arr !! (S i) = Some x -> (target <= x)%Q) /\
  (StronglySorted Qle arr ->
   i = length (List.filter (fun x => JS.Qltb x target) (tail arr))).
Proof.
  unfold AreaChart.bisectDownSorted.
  destruct (bisect_loop_spec (tail arr) target 0) as (n & -> & Hn & Hall & Hnext).
  cbn [Nat.add]. destruct arr as [|a arr]; cbn [tail length] in *.
  { assert (n = 0) as -> by lia. repeat split; try done; intros; lia. }
  replace (S (length arr) - 1) with (length arr) by lia.
  split; [done|split; [|split; [done|]]].
  - intros j x [Hj1 Hj2] Hx. destruct j as [|j]; [lia|]. cbn in Hx.
    rewrite Forall_forall in Hall. apply Hall.
    apply list_elem_of_lookup. exists j. rewrite lookup_take_lt by lia. done.
  - intros Hsorted. symmetry. apply filter_sorted_prefix; try done.
    by apply StronglySorted_inv in Hsorted as [? _].
Qed.

(** ** What [stratify] accepts *)

Lemma imap_pair_fst {A} (l : list A) n :
  (imap (fun i x => (n + i, x)) l).*1 = seq n (length l).
Proof.
  revert n. induction l as [|x l IH]; intros n; [done|].
  cbn [imap fmap list_fmap length seq]. rewrite Nat.add_0_r. f_equal.
  rewrite <- IH. f_equal. apply imap_ext. intros i y _. cbn. f_equal. lia.
Qed.

Lemma NoDup_imap_pair {A} (l : list A) : NoDup (imap pair l).*1.
Proof.
  rewrite (imap_ext pair (fun i x => (0 + i, x)) l) by done.
  rewrite imap_pair_fst. apply NoDup_seq.
Qed.

Lemma elem_of_imap_pair {A} (l : list A) i x :
  (i, x) ∈ imap pair l <-> l !! i = Some x.
Proof.
  rewrite elem_of_lookup_imap. split.
  - by intros (j & y & [= -> ->] & Hy).
  - intros Hx. by exists i, x.
Qed.

Lemma elem_of_holders all k i :
  i ∈ Builder.holders all k
  <-> exists d, all !! i = Some d /\ Builder.key_of (Some (id d)) = Some k.
Proof.
  unfold Builder.holders. rewrite list_elem_of_fmap. split.
  - intros ([j d] & -> & Hin). apply elem_of_filter_bool in Hin as [Hin Hk].
    apply elem_of_imap_pair in Hin. apply bool_decide_eq_true_1 in Hk.
    by exists d.
  - intros (d & Hd & Hk). exists (i, d). split; [done|].
    apply elem_of_filter_bool. split; [by apply elem_of_imap_pair|].
    by apply bool_decide_eq_true_2.
Qed.

Lemma sublist_filter_bool {A} (f : A -> bool) l : sublist (List.filter f l) l.
Proof.
  induction l as [|x l IH]; [done|]. cbn.
  destruct (f x); by constructor.
Qed.

Lemma NoDup_holders all k : NoDup (Builder.holders all k).
Proof.
  unfold Builder.holders.
  apply (sublist_NoDup _ (imap pair all).*1); [apply NoDup_imap_pair|].
  apply fmap_sublist, sublist_filter_bool.
Qed.

Lemma holders_singleton all k i :
  Builder.holders all k = [i] ->
  (exists d, all !! i = Some d /\ Builder.key_of (Some (id d)) = Some k) /\
  (forall j d, all !! j = Some d -> Builder.key_of (Some (id d)) = Some k ->
               j = i).
Proof.
  intros Hh. split.
  - apply elem_of_holders. rewrite Hh. by left.
  - intros j d Hd Hk.
    assert (j ∈ Builder.holders all k) as Hin by (apply elem_of_holders; eauto).
    rewrite Hh in Hin. by apply list_elem_of_singleton in Hin.
Qed.

Lemma link_inv all rest root0 res :
  Builder.link all rest root0 = inr res ->
  Forall (fun e => forall p, Builder.key_of (parentId e.2) = Some p ->
                     exists j, Builder.holders all p = [j]) rest /\
  match root0 with
  | Some r0 =>
      res = Some r0 /\
      Forall (fun e => Builder.key_of (parentId e.2) <> None) rest
  | None =>
      (res = None /\
       Forall (fun e => Builder.key_of (parentId e.2) <> None) rest) \/
      (exists r d pre post,
         res = Some r /\ rest = pre ++ (r, d) :: post /\
         Builder.key_of (parentId d) = None /\
         Forall (fun e => Builder.key_of (parentId e.2) <> None) pre /\
         Forall (fun e => Builder.key_of (parentId e.2) <> None) post)
  end.
Proof.
  revert root0. induction rest as [|[i d] rest IH]; intros root0.
  { cbn. intros [= <-]. split; [constructor|].
    destruct root0; [done|]. left. done. }
  cbn [Builder.link].
  destruct (Builder.key_of (parentId d)) as [p|] eqn:Hkey.
  - destruct (Builder.holders all p) as [|j [|j' hs]] eqn:Hh; try done.
    intros Hlink. destruct (IH _ Hlink) as [Hall Hroot]. split.
    + constructor; [|done]. cbn. intros p' Hp'.
      assert (p' = p) as -> by congruence. by exists j.
    + destruct root0 as [r0|].
      * destruct Hroot as [-> Hrest]. split; [done|].
        constructor; [|done]. cbn. congruence.
      * destruct Hroot as [[-> Hrest]|(r & d' & pre & post & -> & -> & ? & ? & ?)].
        -- left. split; [done|]. constructor; [|done]. cbn. congruence.
        -- right. exists r, d', ((i, d) :: pre), post.
           split; [done|split; [done|split; [done|split; [|done]]]].
           constructor; [|done]. cbn. congruence.
  - destruct root0 as [r0|]; [done|].
    intros Hlink. destruct (IH _ Hlink) as [Hall [-> Hrest]]. split.
    + constructor; [|done]. cbn. congruence.
    + right. exists i, d, [], rest. by repeat split.
Qed.

Lemma stratify_inv all t0 :
  Builder.stratify all = Ok t0 ->
  exists r,
    Builder.link all (imap pair all) None = inr (Some r) /\
    Builder.build all (S (length all)) 0 r = Some t0 /\
    length all <= size t0.
Proof.
  unfold Builder.stratify.
  destruct (Builder.link all (imap pair all) None) as [e|[r|]] eqn:Hlink;
    try done.
  destruct (Builder.build all (S (length all)) 0 r) as [t|] eqn:Hbuild;
    [|done].
  destruct (size t <? length all) eqn:Hsize; [done|].
  intros [= <-]. exists r. apply Nat.ltb_ge in Hsize.
  split; [done|split; [done|lia]].
Qed.

Lemma length_flat_map_nodes_map {D} (g : tree D -> tree D) (l : list (tree D)) :
  Forall (fun c => size (g c) = size c) l ->
  length (flat_map nodes (map g l)) = length (flat_map nodes l).
Proof.
  induction 1 as [|c l Hc _ IH]; [done|].
  cbn [map flat_map]. rewrite !length_app. unfold size in Hc. lia.
Qed.

Lemma size_built (t0 : tree TMCNode) : size (built t0) = size t0.
Proof.
  induction t0 as [d v k ch IH] using tree_ind'.
  rewrite built_unfold. unfold size. cbn [nodes children length]. f_equal.
  rewrite length_flat_map_nodes_map.
  - apply Permutation_length, Permutation_flat_map, Permutation_sym,
      array_sort_perm.
  - by rewrite <- (array_sort_perm Builder.compareItems ch).
Qed.

(** X25: [buildTree] returns a tree only for a list in which exactly one
    node has no parent id (a missing id and the empty string count as none)
    and every other node's parent id is the id of exactly one node; the tree
    then has no fewer nodes than the list. *)
Theorem buildTree_accepts flat t :
  Builder.buildTree flat = Ok t ->
  (exists r d,
     flat !! r = Some d /\ Builder.key_of (parentId d) = None /\
     forall j d', flat !! j = Some d' -> Builder.key_of (parentId d') = None ->
                  j = r) /\
  (forall c p, c ∈ flat -> Builder.key_of (parentId c) = Some p ->
     exists j d,
       flat !! j = Some d /\ Builder.key_of (Some (id d)) = Some p /\
       forall j' d', flat !! j' = Some d' ->
                     Builder.key_of (Some (id d')) = Some p -> j' = j) /\
  length flat <= size t.
Proof.
  intros Hbuild. apply buildTree_inv in Hbuild as (t0 & Hstrat & ->).
  apply stratify_inv in Hstrat as (r & Hlink & _ & Hsize).
  apply link_inv in Hlink as [Hparents [[? _]|Hroot]]; [done|].
  destruct Hroot as (r' & d & pre & post & [= <-] & Hsplit & Hd & Hpre & Hpost).
  split; [|split].
  - exists r, d. split; [|split; [done|]].
    + apply elem_of_imap_pair. rewrite Hsplit, elem_of_app. right. by left.
    + intros j d' Hj Hnone. apply elem_of_imap_pair in Hj.
      rewrite Hsplit, elem_of_app, elem_of_cons in Hj.
      rewrite Forall_forall in Hpre, Hpost.
      destruct Hj as [Hj|[[= -> _]|Hj]]; [|done|].
      * by destruct (Hpre _ Hj).
      * by destruct (Hpost _ Hj).
  - intros c p Hc Hp. apply list_elem_of_lookup in Hc as [i Hi].
    apply elem_of_imap_pair in Hi. rewrite Forall_forall in Hparents.
    destruct (Hparents _ Hi p Hp) as [j Hj].
    destruct (holders_singleton _ _ _ Hj) as [(d' & Hd' & Hk) Huniq].
    exists j, d'. done.
  - by rewrite size_built.
Qed.

Lemma buildTree_accepts_witness :
  exists t,
    Builder.buildTree flat_nested = Ok t /\
    (exists r d,
       flat_nested !! r = Some d /\ Builder.key_of (parentId d) = None /\
       forall j d', flat_nested !! j = Some d' ->
                    Builder.key_of (parentId d') = None -> j = r) /\
    (forall c p, c ∈ flat_nested -> Builder.key_of (parentId c) = Some p ->
       exists j d,
         flat_nested !! j = Some d /\ Builder.key_of (Some (id d)) = Some p /\
         forall j' d', flat_nested !! j' = Some d' ->
                       Builder.key_of (Some (id d')) = Some p -> j' = j) /\
    length flat_nested <= size t.
Proof.
  eexists. split; [by vm_compute|].
  exact (buildTree_accepts flat_nested _ eq_refl).
Defined.

Lemma elem_of_children_idx all i j :
  j ∈ Builder.children_idx all i
  <-> exists d k, all !! j = Some d /\
                  Builder.key_of (parentId d) = Some k /\
                  Builder.holders all k = [i].
Proof.
  unfold Builder.children_idx. rewrite list_elem_of_fmap. split.
  - intros ([j' d] & -> & Hin). apply elem_of_filter_bool in Hin as [Hin Hk].
    apply elem_of_imap_pair in Hin. cbn in Hk.
    destruct (Builder.key_of (parentId d)) as [k|] eqn:Hkey; [|done].
    apply bool_decide_eq_true_1 in Hk. by exists d, k.
  - intros (d & k & Hd & Hkey & Hh). exists (j, d). split; [done|].
    apply elem_of_filter_bool. split; [by apply elem_of_imap_pair|].
    cbn. rewrite Hkey. by apply bool_decide_eq_true_2.
Qed.

Lemma build_links all fuel dep i t :
  Builder.build all fuel dep i = Some t ->
  all !! i = Some (data t) /\
  depth t = dep /\
  Forall (fun n => Forall (fun c => names_parent (data c) (data n) /\
                                    depth c = S (depth n))
                     (children n)) (nodes t) /\
  Forall (fun n => data n ∈ all) (nodes t).
Proof.
  revert dep i t. induction fuel as [|fuel IH]; intros dep i t; [done|].
  cbn [Builder.build].
  destruct (all !! i) as [d|] eqn:Hd; [|done]. cbn.
  destruct (mapM _ _) as [ch|] eqn:Hch; [|done]. cbn.
  intros [= <-]. cbn [data depth]. split; [done|split; [done|]].
  apply mapM_Some in Hch.
  assert (Forall (fun c => exists j, j ∈ Builder.children_idx all i /\
                             Builder.build all fuel (S dep) j = Some c) ch)
    as Hch'.
  { clear -Hch. induction Hch as [|j c js ch Hc _ IHch]; [constructor|].
    constructor.
    - exists j. split; [by left|done].
    - eapply Forall_impl; [exact IHch|]. cbn beta.
      intros c' (j' & Hj' & Hc'). exists j'. split; [by right|done]. }
  clear Hch. split.
  - apply Forall_nodes. cbn [children]. split.
    + eapply Forall_impl; [exact Hch'|]. cbn beta.
      intros c (j & Hj & Hc). destruct (IH _ _ _ Hc) as (Hdc & Hdep & _).
      split; [|done].
      apply elem_of_children_idx in Hj as (dj & k & Hdj & Hkey & Hh).
      destruct (holders_singleton _ _ _ Hh) as [(di & Hdi & Hk) _].
      exists k. cbn [data]. split; congruence.
    + eapply Forall_impl; [exact Hch'|]. cbn beta.
      intros c (j & _ & Hc). by destruct (IH _ _ _ Hc) as (_ & _ & ? & _).
  - apply Forall_nodes. cbn [children data]. split.
    + by eapply list_elem_of_lookup_2.
    + eapply Forall_impl; [exact Hch'|]. cbn beta.
      intros c (j & _ & Hc). by destruct (IH _ _ _ Hc) as (_ & _ & _ & ?).
Qed.

Lemma built_root (t0 : tree TMCNode) :
  data (built t0) = data t0 /\ depth (built t0) = depth t0.
Proof. destruct t0. by rewrite built_unfold. Qed.

Lemma built_Forall_children (Q : TMCNode -> nat -> TMCNode -> nat -> Prop)
  (t0 : tree TMCNode) :
  Forall (fun n => Forall (fun c => Q (data c) (depth c) (data n) (depth n))
                     (children n)) (nodes t0) ->
  Forall (fun n => Forall (fun c => Q (data c) (depth c) (data n) (depth n))
                     (children n)) (nodes (built t0)).
Proof.
  induction t0 as [d v k ch IH] using tree_ind'.
  rewrite built_unfold, !Forall_nodes. cbn [children data depth].
  intros [Hroot Hch]. split.
  - apply Forall_map.
    rewrite <- (array_sort_perm Builder.compareItems ch).
    eapply Forall_impl; [exact Hroot|]. cbn beta. intros c Hc.
    by destruct (built_root c) as [-> ->].
  - apply Forall_map.
    rewrite <- (array_sort_perm Builder.compareItems ch).
    rewrite Forall_forall in IH, Hch. apply Forall_forall.
    intros c Hc. by apply IH, Hch.
Qed.

Lemma built_Forall_data (P : TMCNode -> Prop) (t0 : tree TMCNode) :
  Forall (fun n => P (data n)) (nodes t0) ->
  Forall (fun n => P (data n)) (nodes (built t0)).
Proof.
  induction t0 as [d v k ch IH] using tree_ind'.
  rewrite built_unfold, !Forall_nodes. cbn [children data].
  intros [Hroot Hch]. split; [done|].
  apply Forall_map.
  rewrite <- (array_sort_perm Builder.compareItems ch).
  rewrite Forall_forall in IH, Hch. apply Forall_forall.
  intros c Hc. by apply IH, Hch.
Qed.

(** X26: in the tree [buildTree] returns, the root is the node of the list
    that has no parent id, at depth 0; every other node hangs one level
    deeper under the node whose id its parent id names; and every node of
    the tree is a node of the list. *)
Theorem buildTree_links flat t :
  Builder.buildTree flat = Ok t ->
  data t ∈ flat /\
  Builder.key_of (parentId (data t)) = None /\
  depth t = 0 /\
  Forall (fun n => Forall (fun c => names_parent (data c) (data n) /\
                                    depth c = S (depth n))
                     (children n)) (nodes t) /\
  Forall (fun n => data n ∈ flat) (nodes t).
Proof.
  intros Hbuild. apply buildTree_inv in Hbuild as (t0 & Hstrat & ->).
  apply stratify_inv in Hstrat as (r & Hlink & Hbuild & _).
  destruct (build_links _ _ _ _ _ Hbuild) as (Hroot & Hdep & Hlinks & Hdata).
  destruct (built_root t0) as [-> ->].
  split; [by eapply list_elem_of_lookup_2|split; [|split; [done|split]]].
  - apply link_inv in Hlink as [_ [[? _]|Hr]]; [done|].
    destruct Hr as (r' & d & pre & post & [= <-] & Hsplit & Hd & _).
    assert (flat !! r = Some d) as Hrd.
    { apply elem_of_imap_pair. rewrite Hsplit, elem_of_app. right. by left. }
    congruence.
  - by apply (built_Forall_children
                (fun c kc n kn => names_parent c n /\ kc = S kn)).
  - by apply (built_Forall_data (fun d => d ∈ flat)).
Qed.

Lemma buildTree_links_witness :
  exists t,
    Builder.buildTree flat_nested = Ok t /\
    data t ∈ flat_nested /\
    Builder.key_of (parentId (data t)) = None /\
    depth t = 0 /\
    Forall (fun n => Forall (fun c => names_parent (data c) (data n) /\
                                      depth c = S (depth n))
                       (children n)) (nodes t) /\
    Forall (fun n => data n ∈ flat_nested) (nodes t).
Proof.
  eexists. split; [by vm_compute|].
  exact (buildTree_links flat_nested _ eq_refl).
Defined.

(** ** Every node of the list once *)

Lemma elem_of_concat {A} (x : A) (ls : list (list A)) :
  x ∈ concat ls <-> exists l, l ∈ ls /\ x ∈ l.
Proof.
  rewrite list_elem_of_In, in_concat. split.
  - intros (l & ? & ?). exists l. by rewrite !list_elem_of_In.
  - intros (l & ? & ?). exists l. by rewrite <- !list_elem_of_In.
Qed.

Section reached_facts.
Context (all : list TMCNode).

Lemma hangs_under_unique i i' j :
  hangs_under all i j -> hangs_under all i' j -> i = i'.
Proof.
  intros (d & k & Hd & Hk & Hh)%elem_of_children_idx
         (d' & k' & Hd' & Hk' & Hh')%elem_of_children_idx.
  congruence.
Qed.

Lemma NoDup_children_idx i : NoDup (Builder.children_idx all i).
Proof.
  unfold Builder.children_idx.
  apply (sublist_NoDup _ (imap pair all).*1); [apply NoDup_imap_pair|].
  apply fmap_sublist, sublist_filter_bool.
Qed.

Lemma reached_build fuel dep i t :
  Builder.build all fuel dep i = Some t ->
  exists J, reached all fuel i = Some J /\
            Forall2 (fun j n => all !! j = Some (data n)) J (nodes t).
Proof.
  revert dep i t. induction fuel as [|fuel IH]; intros dep i t; [done|].
  cbn [Builder.build reached].
  destruct (all !! i) as [d|] eqn:Hd; [|done]. cbn.
  destruct (mapM (Builder.build all fuel (S dep)) _) as [ch|] eqn:Hch; [|done].
  cbn. intros [= <-]. apply mapM_Some in Hch.
  assert (exists Js,
            mapM (reached all fuel) (Builder.children_idx all i) = Some Js /\
            Forall2 (fun j n => all !! j = Some (data n)) (concat Js)
              (flat_map nodes ch)) as (Js & -> & HJs).
  { induction Hch as [|j c js ch Hc _ IHch].
    - exists []. split; [done|constructor].
    - destruct (IH _ _ _ Hc) as (J & HJ & HJn).
      destruct IHch as (Js & HJs & HJsn).
      exists (J :: Js). split.
      + apply mapM_Some. constructor; [done|]. by apply mapM_Some.
      + cbn. by apply Forall2_app. }
  cbn. eexists. split; [done|]. cbn [nodes children]. by constructor.
Qed.

Lemma reached_rtc fuel i J :
  reached all fuel i = Some J ->
  Forall (fun j => rtc (hangs_under all) i j /\ j < length all) J.
Proof.
  revert i J. induction fuel as [|fuel IH]; intros i J; [done|].
  cbn [reached]. destruct (all !! i) as [d|] eqn:Hd; [|done]. cbn.
  destruct (mapM _ _) as [Js|] eqn:HJs; [|done]. cbn. intros [= <-].
  constructor.
  { split; [done|]. by eapply lookup_lt_Some. }
  apply mapM_Some in HJs. apply Forall_concat.
  assert (Forall (fun c => hangs_under all i c) (Builder.children_idx all i))
    as Hin by by apply Forall_forall.
  revert HJs Hin. generalize (Builder.children_idx all i). intros cs' HJs Hin.
  induction HJs as [|c J' cs Js Hc Hcs IHJs]; [constructor|].
  apply Forall_cons in Hin as [Hc' Hin]. constructor; [|by apply IHJs].
  eapply Forall_impl; [exact (IH _ _ Hc)|]. cbn beta.
  intros j [Hj ?]. split; [|done]. by eapply rtc_l.
Qed.

Lemma cycle_fails fuel i c :
  hangs_under all i c -> rtc (hangs_under all) c i ->
  reached all fuel i = None.
Proof.
  revert i c. induction fuel as [|fuel IH]; intros i c Hic Hci; [done|].
  cbn [reached]. destruct (all !! i) as [d|]; [|done]. cbn.
  assert (reached all fuel c = None) as Hc.
  { apply rtc_inv in Hci as [->|(y & Hcy & Hyi)].
    - by apply (IH i i).
    - apply (IH c y); [done|]. by eapply rtc_r. }
  rewrite (proj2 (mapM_None _ _)); [done|].
  apply Exists_exists. by exists c.
Qed.

Lemma ancestors_chain a b j :
  rtc (hangs_under all) a j -> rtc (hangs_under all) b j ->
  rtc (hangs_under all) a b \/ rtc (hangs_under all) b a.
Proof.
  intros Ha. revert b. revert j Ha.
  apply (rtc_ind_r
           (fun j => forall b, rtc (hangs_under all) b j ->
                       rtc (hangs_under all) a b \/ rtc (hangs_under all) b a)).
  { intros b Hb. by right. }
  intros y z Hay Hyz IH b Hb.
  apply rtc_inv_r in Hb as [->|(y' & Hby' & Hy'z)].
  - left. by eapply rtc_r.
  - rewrite (hangs_under_unique _ _ _ Hy'z Hyz) in Hby'. by apply IH.
Qed.

Lemma siblings_apart i c c' :
  (forall x, hangs_under all i x -> ~ rtc (hangs_under all) x i) ->
  hangs_under all i c -> hangs_under all i c' -> c <> c' ->
  ~ rtc (hangs_under all) c c'.
Proof.
  intros Hnocycle Hc Hc' Hne Hcc'.
  apply rtc_inv_r in Hcc' as [?|(y & Hcy & Hyc')]; [done|].
  rewrite (hangs_under_unique _ _ _ Hyc' Hc') in Hcy.
  by apply (Hnocycle c).
Qed.

Lemma reached_NoDup fuel i J : reached all fuel i = Some J -> NoDup J.
Proof.
  revert i J. induction fuel as [|fuel IH]; intros i J Hreach; [done|].
  assert (forall x, hangs_under all i x -> ~ rtc (hangs_under all) x i)
    as Hnocycle.
  { intros x Hx Hxi. by rewrite (cycle_fails (S fuel) i x Hx Hxi) in Hreach. }
  cbn [reached] in Hreach.
  destruct (all !! i) as [d|] eqn:Hd; [|done]. cbn in Hreach.
  destruct (mapM _ _) as [Js|] eqn:HJs; [|done]. cbn in Hreach.
  injection Hreach as <-. apply mapM_Some in HJs.
  assert (Forall (fun c => hangs_under all i c) (Builder.children_idx all i))
    as Hin by by apply Forall_forall.
  pose proof (NoDup_children_idx i) as Hnd.
  revert HJs Hin Hnd. generalize (Builder.children_idx all i).
  intros cs HJs Hin Hnd.
  assert (Forall2 (fun c J' => reached all fuel c = Some J' /\
                               hangs_under all i c) cs Js) as HJs'.
  { clear -HJs Hin. induction HJs as [|c J' cs Js Hc _ IHJs]; [constructor|].
    apply Forall_cons in Hin as [? ?]. constructor; auto. }
  clear HJs Hin. apply NoDup_cons. split.
  - intros (J' & HJ' & Hi)%elem_of_concat.
    apply list_elem_of_lookup in HJ' as [m HJ'].
    destruct (Forall2_lookup_r _ _ _ _ _ HJs' HJ') as (c & _ & Hc & Hic).
    pose proof (reached_rtc _ _ _ Hc) as Hrtc. rewrite Forall_forall in Hrtc.
    destruct (Hrtc i Hi) as [Hci _]. by apply (Hnocycle c).
  - induction HJs' as [|c J' cs Js [Hc Hic] HJs' IHJs]; [constructor|].
    apply NoDup_cons in Hnd as [Hc_cs Hnd].
    cbn [concat]. apply NoDup_app. split; [by eapply IH|split; [|by apply IHJs]].
    intros x Hx (J'' & HJ'' & Hx'')%elem_of_concat.
    apply list_elem_of_lookup in HJ'' as [m HJ''].
    destruct (Forall2_lookup_r _ _ _ _ _ HJs' HJ'') as (c'' & Hc''m & Hc'' & Hic'').
    assert (c <> c'') as Hne.
    { intros ->. apply Hc_cs. by eapply list_elem_of_lookup_2. }
    pose proof (reached_rtc _ _ _ Hc) as Hrtc. rewrite Forall_forall in Hrtc.
    pose proof (reached_rtc _ _ _ Hc'') as Hrtc''.
    rewrite Forall_forall in Hrtc''.
    destruct (Hrtc x Hx) as [Hcx _]. destruct (Hrtc'' x Hx'') as [Hc''x _].
    destruct (ancestors_chain _ _ _ Hcx Hc''x) as [Hchain|Hchain].
    + by apply (siblings_apart i c c'' Hnocycle).
    + by apply (siblings_apart i c'' c Hnocycle).
Qed.

End reached_facts.
Lemma flat_map_Permutation_Forall {A B} (f g : A -> list B) l :
  Forall (fun x => Permutation (f x) (g x)) l ->
  Permutation (flat_map f l) (flat_map g l).
Proof.
  induction 1 as [|x l Hx _ IH]; [done|]. cbn. by rewrite Hx, IH.
Qed.

Lemma built_payloads (t0 : tree TMCNode) :
  Permutation (map data (nodes (built t0))) (map data (nodes t0)).
Proof.
  induction t0 as [d v k ch IH] using tree_ind'.
  rewrite built_unfold. cbn [nodes children map data]. constructor.
  rewrite !flat_map_concat_map, !concat_map, !map_map,
    <- !flat_map_concat_map.
  rewrite <- (Permutation_flat_map _ (array_sort_perm Builder.compareItems ch)).
  by apply flat_map_Permutation_Forall.
Qed.

Lemma payloads_at (all : list TMCNode) x J (ns : list (tree TMCNode)) :
  Forall2 (fun j n => all !! j = Some (data n)) J ns ->
  map data ns = map (fun j => default x (all !! j)) J.
Proof.
  induction 1 as [|j n J ns Hj _ IH]; [done|]. cbn. by rewrite IH, Hj.
Qed.

(** X27: the tree [buildTree] returns holds every node of the list exactly
    once: its payloads are a rearrangement of the list, and it has as many
    nodes as the list. *)
Theorem buildTree_holds_every_node flat t :
  Builder.buildTree flat = Ok t ->
  Permutation (map data (nodes t)) flat /\ size t = length flat.
Proof.
  intros Hbuild. apply buildTree_inv in Hbuild as (t0 & Hstrat & ->).
  apply stratify_inv in Hstrat as (r & _ & Hbuild & Hsize).
  destruct (reached_build _ _ _ _ _ Hbuild) as (J & HJ & Hpay).
  pose proof (reached_NoDup _ _ _ _ HJ) as Hnd.
  pose proof (reached_rtc _ _ _ _ HJ) as Hlt.
  assert (length J = size t0) as Hlen.
  { unfold size. by eapply Forall2_length. }
  assert (Permutation J (seq 0 (length flat))) as Hperm.
  { apply NoDup_Permutation_bis.
    - by apply NoDup_ListNoDup.
    - rewrite length_seq. lia.
    - intros j Hj%list_elem_of_In. apply in_seq.
      rewrite Forall_forall in Hlt. destruct (Hlt j Hj). lia. }
  set (f := fun j => default (data t0) (flat !! j)).
  assert (map data (nodes t0) = map f J) as Hnodes.
  { by apply payloads_at. }
  assert (flat = map f (seq 0 (length flat))) as Hflat.
  { apply list_eq. intros j. rewrite list_lookup_fmap.
    destruct (flat !! j) as [d|] eqn:Hd.
    - rewrite lookup_seq_lt by by eapply lookup_lt_Some.
      cbn. unfold f. by rewrite Hd.
    - apply lookup_ge_None in Hd. by rewrite lookup_seq_ge. }
  split.
  - rewrite built_payloads, Hnodes, Hflat at 1. by apply Permutation_map.
  - rewrite size_built, <- Hlen, (Permutation_length Hperm). apply length_seq.
Qed.

Lemma buildTree_holds_every_node_witness :
  exists t,
    Builder.buildTree flat_nested = Ok t /\
    Permutation (map data (nodes t)) flat_nested /\ size t = length flat_nested.
Proof.
  eexists. split; [by vm_compute|].
  exact (buildTree_holds_every_node flat_nested _ eq_refl).
Defined.

(** ** Lists [stratify] accepts *)

Lemma NoDup_singleton_eq {A} (l : list A) x :
  NoDup l -> (forall y, y ∈ l <-> y = x) -> l = [x].
Proof.
  intros Hnd Hl. destruct l as [|y l].
  { assert (x ∈ @nil A) as Hx by by apply Hl. by apply elem_of_nil in Hx. }
  assert (y = x) as -> by (apply Hl; by left).
  destruct l as [|z l]; [done|].
  assert (z = x) as -> by (apply Hl; right; by left).
  apply NoDup_cons in Hnd as [Hx _]. destruct Hx. by left.
Qed.

Section parents_first_facts.
Context (all : list TMCNode).
Hypothesis Hall : parents_first all.

Lemma holders_of_id i d k :
  all !! i = Some d -> Builder.key_of (Some (id d)) = Some k ->
  Builder.holders all k = [i].
Proof.
  intros Hd Hk. apply NoDup_singleton_eq; [apply NoDup_holders|].
  intros j. rewrite elem_of_holders. split.
  - intros (dj & Hdj & Hkj). pose proof Hall as (_ & _ & Huniq). eauto.
  - intros ->. eauto.
Qed.

Lemma hangs_under_later i j : hangs_under all i j -> i < j < length all.
Proof.
  intros (d & k & Hd & Hk & Hh)%elem_of_children_idx.
  split; [|by eapply lookup_lt_Some].
  pose proof Hall as ((d0 & Hd0 & Hroot) & Hparent & _).
  destruct j as [|j]; [congruence|].
  destruct (Hparent (S j) d Hd) as (i' & di & Hlt & Hdi & k' & Hk' & Hki);
    [lia|].
  assert (k' = k) as -> by congruence.
  rewrite (holders_of_id i' di k Hdi Hki) in Hh. by injection Hh as <-.
Qed.

Lemma parent_hangs j d :
  all !! j = Some d -> 0 < j -> exists i, i < j /\ hangs_under all i j.
Proof.
  intros Hd Hj. pose proof Hall as (_ & Hparent & _).
  destruct (Hparent j d Hd Hj) as (i & di & Hlt & Hdi & k & Hk & Hki).
  exists i. split; [done|]. apply elem_of_children_idx.
  exists d, k. split; [done|split; [done|]]. by eapply holders_of_id.
Qed.

Lemma link_resolved rest root :
  Forall (fun e : nat * TMCNode => all !! e.1 = Some e.2 /\ 0 < e.1) rest ->
  Builder.link all rest root = inr root.
Proof.
  induction 1 as [|[j d] rest [Hd Hj] _ IH]; [done|].
  cbn [Builder.link]. cbn [fst snd] in *.
  pose proof Hall as (_ & Hparent & _).
  destruct (Hparent j d Hd Hj) as (i & di & Hlt & Hdi & k & Hk & Hki).
  rewrite Hk, (holders_of_id i di k Hdi Hki). done.
Qed.

Lemma link_parents_first :
  Builder.link all (imap pair all) None = inr (Some 0).
Proof.
  pose proof Hall as ((d0 & Hd0 & Hroot) & _ & _).
  assert (exists all', all = d0 :: all') as [all' Hlist].
  { destruct all as [|d all']; [done|]. injection Hd0 as ->. by eexists. }
  assert (imap pair all = (0, d0) :: imap (pair ∘ S) all') as ->.
  { by rewrite Hlist. }
  cbn [Builder.link]. rewrite Hroot.
  apply link_resolved, Forall_forall. intros [j dj] Hin.
  apply elem_of_lookup_imap in Hin as (m & y & [= -> ->] & Hy).
  cbn. split; [by rewrite Hlist|lia].
Qed.

Lemma build_parents_first fuel dep i :
  i < length all -> length all - i <= fuel ->
  is_Some (Builder.build all fuel dep i).
Proof.
  revert dep i. induction fuel as [|fuel IH]; intros dep i Hi Hfuel; [lia|].
  cbn [Builder.build].
  destruct (lookup_lt_is_Some_2 all i Hi) as [d Hd]. rewrite Hd. cbn.
  assert (is_Some (mapM (Builder.build all fuel (S dep))
                     (Builder.children_idx all i))) as [ch ->]; [|by eexists].
  apply mapM_is_Some, Forall_forall. intros j Hj.
  apply hangs_under_later in Hj. apply IH; lia.
Qed.

Lemma reached_head fuel i J : reached all fuel i = Some J -> i ∈ J.
Proof.
  destruct fuel as [|fuel]; [done|]. cbn [reached].
  destruct (all !! i); [|done]. cbn.
  destruct (mapM _ _); [|done]. cbn. intros [= <-]. by left.
Qed.

Lemma reached_closed fuel r J i j :
  reached all fuel r = Some J -> i ∈ J -> hangs_under all i j -> j ∈ J.
Proof.
  revert r J. induction fuel as [|fuel IH]; intros r J; [done|].
  cbn [reached]. destruct (all !! r) as [d|]; [|done]. cbn.
  destruct (mapM _ _) as [Js|] eqn:HJs; [|done]. cbn. intros [= <-] Hi Hij.
  apply mapM_Some in HJs. right. apply elem_of_concat.
  apply elem_of_cons in Hi as [->|Hi].
  - apply list_elem_of_lookup in Hij as [m Hm].
    destruct (Forall2_lookup_l _ _ _ _ _ HJs Hm) as (J' & HJ' & Hreach).
    exists J'. split; [by eapply list_elem_of_lookup_2|].
    by eapply reached_head.
  - apply elem_of_concat in Hi as (J' & HJ' & Hi).
    apply list_elem_of_lookup in HJ' as [m HJ'].
    destruct (Forall2_lookup_r _ _ _ _ _ HJs HJ') as (c & _ & Hc).
    exists J'. split; [by eapply list_elem_of_lookup_2|]. by eapply IH.
Qed.

Lemma reached_all fuel J j :
  reached all fuel 0 = Some J -> j < length all -> j ∈ J.
Proof.
  intros HJ. induction j as [j IH] using lt_wf_ind. intros Hj.
  destruct j as [|j]; [by eapply reached_head|].
  destruct (lookup_lt_is_Some_2 all (S j) Hj) as [d Hd].
  destruct (parent_hangs (S j) d Hd) as (i & Hlt & Hij); [lia|].
  eapply reached_closed; [exact HJ| |exact Hij]. apply IH; lia.
Qed.

Lemma stratify_parents_first : exists t0, Builder.stratify all = Ok t0.
Proof.
  assert (0 < length all) as Hpos.
  { pose proof Hall as ((d0 & Hd0 & _) & _). by eapply lookup_lt_Some. }
  unfold Builder.stratify. rewrite link_parents_first.
  destruct (build_parents_first (S (length all)) 0 0) as [t0 Ht0]; [lia|lia|].
  rewrite Ht0. exists t0.
  destruct (reached_build _ _ _ _ _ Ht0) as (J & HJ & Hpay).
  assert (length all <= size t0) as Hsize.
  { unfold size. rewrite <- (Forall2_length _ _ _ Hpay).
    rewrite <- (length_seq (length all) 0).
    apply NoDup_incl_length; [apply List.seq_NoDup|].
    intros j Hj%in_seq. apply list_elem_of_In.
    eapply reached_all; [exact HJ|lia]. }
  by rewrite (proj2 (Nat.ltb_ge _ _) Hsize).
Qed.

End parents_first_facts.

(** X28: [buildTree] returns a tree for every list in which the first node
    has no parent id, every later node's parent id is the id of an earlier
    node, and the ids that count are distinct: nothing is thrown, neither
    for a missing or ambiguous parent nor for a cycle. *)
Theorem buildTree_parents_first flat :
  parents_first flat -> exists t, Builder.buildTree flat = Ok t.
Proof.
  intros Hflat. destruct (stratify_parents_first flat Hflat) as [t0 Ht0].
  unfold Builder.buildTree, Builder.buildTree_with. rewrite Ht0. by eexists.
Qed.

Lemma flat_nested_parents_first : parents_first flat_nested.
Proof.
  split; [|split].
  - eexists. by split.
  - intros j d Hd Hj.
    destruct j as [|[|[|[|j]]]]; [lia| | | |done]; injection Hd as <-;
      [exists 0|exists 1|exists 0]; eexists;
      (split; [lia|split; [reflexivity|]]); by eexists.
  - intros i j di dj k Hi Hj Hki Hkj.
    destruct i as [|[|[|[|i]]]]; [| | | |done]; injection Hi as <-;
      (destruct j as [|[|[|[|j]]]]; [| | | |done]); injection Hj as <-;
      cbn in Hki, Hkj; congruence.
Qed.

Lemma buildTree_parents_first_witness :
  parents_first flat_nested /\ exists t, Builder.buildTree flat_nested = Ok t.
Proof.
  split; [exact flat_nested_parents_first|].
  exact (buildTree_parents_first flat_nested flat_nested_parents_first).
Defined.

(** ** [flatten] *)

Lemma RoseContent_ind' (P : RoseContent -> Prop) :
  (forall o, P (Meta o)) -> P Other ->
  (forall l, Forall (Forall P) l -> P (Nodes l)) ->
  forall item, P item.
Proof.
  intros HMeta HOther HNodes.
  fix IH 1. intros [o|l|]; [apply HMeta| |apply HOther].
  apply HNodes. induction l as [|i l IHl]; constructor; [|exact IHl].
  induction i as [|item i IHi]; constructor; [apply IH|exact IHi].
Qed.

Section flatten_facts.
Context (uuid : nat -> string).

Lemma pushes_nil pid st : pushes uuid pid st st [].
Proof.
  destruct st as [nodes c]. split; cbn.
  - by rewrite app_nil_r, Nat.add_0_r.
  - split; [done|]. by intros j d Hd.
Qed.

Lemma pushes_app pid st st' st'' new1 new2 :
  pushes uuid pid st st' new1 -> pushes uuid pid st' st'' new2 ->
  pushes uuid pid st st'' (new1 ++ new2).
Proof.
  destruct st as [nodes c]. intros [-> [Hid1 Hp1]] [-> [Hid2 Hp2]].
  cbn [fst snd] in *. split; cbn [fst snd].
  - by rewrite app_assoc, length_app, Nat.add_assoc.
  - split.
    + by rewrite map_app, length_app, seq_app, map_app, Hid1, Hid2.
    + intros j d Hd. apply lookup_app_Some in Hd as [Hd|[Hge Hd]].
      * by apply Hp1 in Hd.
      * apply Hp2 in Hd as [Hd|(i & Hlt & Hd)]; [by left|right].
        exists (length new1 + i). split; [lia|]. by rewrite Nat.add_assoc.
Qed.

Lemma pushes_node pid pid' nodes c st' node rest :
  id node = uuid c -> parentId node = Some pid ->
  pushes uuid pid' (nodes ++ [node], S c) st' rest -> pid' = uuid c ->
  pushes uuid pid (nodes, c) st' (node :: rest).
Proof.
  intros Hid Hpar [-> [Hids Hp]] ->. cbn [fst snd] in *. split; cbn [fst snd].
  - f_equal; [by rewrite <- app_assoc|cbn; lia].
  - split; [cbn; by rewrite Hid, Hids|].
    intros [|j] d Hd; [injection Hd as <-; by left|right].
    cbn in Hd. apply Hp in Hd as [Hd|(i & Hlt & Hd)].
    + exists 0. split; [lia|]. by rewrite Nat.add_0_r.
    + exists (S i). split; [lia|]. by rewrite Nat.add_succ_r.
Qed.

Lemma flatten_loop data pid st :
  Forall (flattens uuid) data ->
  exists new,
    pushes uuid pid st
      (fold_left (fun st item => flattenContent uuid item pid st) data st) new /\
    map fields new = map fieldsOf (flat_map contentNodes data).
Proof.
  intros Hdata. revert st.
  induction Hdata as [|item data Hitem _ IH]; intros st.
  { exists []. split; [apply pushes_nil|done]. }
  cbn [fold_left flat_map].
  destruct (Hitem pid st) as (new1 & Hp1 & Hf1).
  destruct (IH (flattenContent uuid item pid st)) as (new2 & Hp2 & Hf2).
  exists (new1 ++ new2). split; [by eapply pushes_app|].
  by rewrite !map_app, Hf1, Hf2.
Qed.

Lemma flattenContent_flattens item : flattens uuid item.
Proof.
  induction item as [o| |l IH] using RoseContent_ind'.
  - intros pid st. exists []. split; [apply pushes_nil|done].
  - intros pid st. exists []. split; [apply pushes_nil|done].
  - intros pid st. cbn [flattenContent contentNodes]. revert st.
    induction IH as [|i l Hi _ IHl]; intros st.
    { exists []. split; [apply pushes_nil|done]. }
    cbn [fold_left flat_map]. destruct st as [nodes c]. cbn [fst snd].
    set (node := flatNodeOf (uuid c) (Some pid) i).
    destruct (flatten_loop i (id node) (nodes ++ [node], S c) Hi)
      as (rest & Hrest & Hfrest).
    destruct (IHl (fold_left
                (fun st item' => flattenContent uuid item' (id node) st)
                i (nodes ++ [node], S c))) as (new2 & Hp2 & Hf2).
    exists ((node :: rest) ++ new2). split.
    + eapply pushes_app; [|exact Hp2].
      by eapply pushes_node.
    + rewrite map_app, Hf2. cbn [app map]. by rewrite Hfrest, map_app.
Qed.

Lemma flatten_pushes data nodes parentId calls :
  exists rest,
    flatten uuid data nodes parentId calls
      = (nodes ++ flatNodeOf (uuid calls) parentId data :: rest,
         calls + S (length rest)) /\
    block uuid (uuid calls) (S calls) rest /\
    map fields rest = map fieldsOf (flat_map contentNodes data).
Proof.
  unfold flatten.
  set (node := flatNodeOf (uuid calls) parentId data).
  destruct (flatten_loop data (id node) (nodes ++ [node], S calls))
    as (rest & [-> Hblock] & Hf).
  { apply Forall_forall. intros item _. apply flattenContent_flattens. }
  exists rest. cbn [fst snd]. split; [|done].
  by rewrite <- app_assoc, Nat.add_succ_r.
Qed.

End flatten_facts.

(** X29: [flatten] pushes one node for every rose node, in the order it
    meets them.  The [j]-th node takes its items, distance and significance
    from the first object in its rose node (null where there is none), its
    id is what the [j]-th call of [uuid] returned, the first node has no
    parent id, and the parent id of every later node is the id of a node
    pushed before it. *)
Theorem flatten_nodes uuid data calls :
  let flat := (flatten uuid data [] None calls).1 in
  (flatten uuid data [] None calls).2 = calls + length flat /\
  map fields flat = map fieldsOf (roseNodes data) /\
  map id flat = map uuid (seq calls (length flat)) /\
  (exists d0, flat !! 0 = Some d0 /\ parentId d0 = None) /\
  forall j d, flat !! j = Some d -> 0 < j ->
    exists i, i < j /\ parentId d = Some (uuid (calls + i)).
Proof.
  destruct (flatten_pushes uuid data [] None calls)
    as (rest & -> & [Hids Hpar] & Hf).
  cbn [fst snd app length]. split; [done|]. split; [|split; [|split]].
  - cbn. by rewrite Hf.
  - cbn. by rewrite Hids.
  - eexists. by split.
  - intros [|j] d Hd Hj; [lia|]. cbn in Hd.
    apply Hpar in Hd as [Hd|(i & Hlt & Hd)].
    + exists 0. split; [lia|]. by rewrite Nat.add_0_r.
    + exists (S i). split; [lia|]. by rewrite Nat.add_succ_r.
Qed.

Lemma key_of_nonempty s : s <> EmptyString -> Builder.key_of (Some s) = Some s.
Proof. by destruct s. Qed.

Lemma lookup_ids (uuid : nat -> string) (flat : list TMCNode) c i d :
  map id flat = map uuid (seq c (length flat)) ->
  flat !! i = Some d -> id d = uuid (c + i).
Proof.
  intros Hids Hd. apply (f_equal (.!! i)) in Hids.
  change (map id flat) with (id <$> flat) in Hids.
  change (map uuid ?l) with (uuid <$> l) in Hids.
  rewrite !list_lookup_fmap, Hd in Hids.
  rewrite lookup_seq_lt in Hids by by eapply lookup_lt_Some.
  by injection Hids.
Qed.

Lemma flatten_parents_first uuid data calls :
  (forall n, uuid n <> EmptyString) ->
  (forall m n, uuid m = uuid n -> m = n) ->
  parents_first (flatten uuid data [] None calls).1.
Proof.
  intros Hne Hinj.
  destruct (flatten_pushes uuid data [] None calls)
    as (rest & -> & [Hids Hpar] & _).
  cbn [fst app].
  set (node := flatNodeOf (uuid calls) None data).
  assert (map id (node :: rest)
          = map uuid (seq calls (length (node :: rest)))) as Hall.
  { cbn. by rewrite Hids. }
  split; [|split].
  - exists node. by split.
  - intros [|j] d Hd Hj; [lia|]. pose proof Hd as Hd'. cbn in Hd'.
    assert (exists i, i < S j /\ parentId d = Some (uuid (calls + i)))
      as (i & Hlt & Hp).
    { apply Hpar in Hd' as [Hd'|(i & Hlt & Hd')].
      - exists 0. split; [lia|]. by rewrite Nat.add_0_r.
      - exists (S i). split; [lia|]. by rewrite Nat.add_succ_r. }
    apply lookup_lt_Some in Hd.
    destruct (lookup_lt_is_Some_2 (node :: rest) i) as [di Hdi]; [lia|].
    exists i, di. split; [done|split; [done|]].
    exists (uuid (calls + i)). rewrite Hp, (lookup_ids _ _ _ _ _ Hall Hdi).
    split; by apply key_of_nonempty.
  - intros i j di dj k Hi Hj Hki Hkj.
    rewrite (lookup_ids _ _ _ _ _ Hall Hi), key_of_nonempty in Hki by done.
    rewrite (lookup_ids _ _ _ _ _ Hall Hj), key_of_nonempty in Hkj by done.
    assert (calls + i = calls + j) by (apply Hinj; congruence). lia.
Qed.

Lemma buildTree_size flat t :
  Builder.buildTree flat = Ok t -> size t = length flat.
Proof.
  intros Hbuild. apply buildTree_inv in Hbuild as (t0 & Hstrat & ->).
  apply stratify_inv in Hstrat as (r & _ & Hbuild & Hsize).
  destruct (reached_build _ _ _ _ _ Hbuild) as (J & HJ & Hpay).
  pose proof (reached_NoDup _ _ _ _ HJ) as Hnd.
  pose proof (reached_rtc _ _ _ _ HJ) as Hlt.
  assert (length J = size t0) as Hlen.
  { unfold size. by eapply Forall2_length. }
  assert (length J <= length (seq 0 (length flat))) as Hle.
  { apply NoDup_incl_length; [by apply NoDup_ListNoDup|].
    intros j Hj%list_elem_of_In. apply in_seq.
    rewrite Forall_forall in Hlt. destruct (Hlt j Hj). lia. }
  rewrite length_seq in Hle. rewrite size_built. lia.
Qed.

Lemma uuid_sample_nonempty n : uuid_sample n <> EmptyString.
Proof. by destruct n. Qed.

Lemma uuid_sample_inj m n : uuid_sample m = uuid_sample n -> m = n.
Proof.
  revert n. induction m as [|m IH]; intros [|n] Heq; try done.
  injection Heq as Heq. f_equal. by apply IH.
Qed.

(** X30: the first two steps of [getData] go through for every cluster
    file: when the identifiers [uuid] hands out are distinct and not empty,
    [buildTree] accepts what [flatten] returns, and the tree has one node
    for every rose node of the file. *)
Theorem flatten_then_buildTree uuid data calls :
  (forall n, uuid n <> EmptyString) ->
  (forall m n, uuid m = uuid n -> m = n) ->
  exists t,
    Builder.buildTree (flatten uuid data [] None calls).1 = Ok t /\
    size t = length (roseNodes data).
Proof.
  intros Hne Hinj.
  destruct (stratify_parents_first _
              (flatten_parents_first uuid data calls Hne Hinj)) as [t0 Ht0].
  assert (Builder.buildTree (flatten uuid data [] None calls).1
          = Ok (built t0)) as Hbuild.
  { unfold Builder.buildTree, Builder.buildTree_with. by rewrite Ht0. }
  exists (built t0). split; [done|].
  rewrite (buildTree_size _ _ Hbuild).
  destruct (flatten_pushes uuid data [] None calls) as (rest & -> & _ & Hf).
  cbn [fst app]. unfold roseNodes. cbn [length]. f_equal.
  by rewrite <- (length_map fields), Hf, length_map.
Qed.

Lemma flatten_then_buildTree_witness :
  (forall n, uuid_sample n <> EmptyString) /\
  (forall m n, uuid_sample m = uuid_sample n -> m = n) /\
  exists t,
    Builder.buildTree (flatten uuid_sample rose_sample [] None 0).1 = Ok t /\
    size t = length (roseNodes rose_sample).
Proof.
  split; [exact uuid_sample_nonempty|split; [exact uuid_sample_inj|]].
  exact (flatten_then_buildTree uuid_sample rose_sample 0
           uuid_sample_nonempty uuid_sample_inj).
Defined.
